(** * Client-side form scripting of gpp-django ([assets/js/main.js])

    A shallow embedding of the DOM handlers of [main.js]: the document is
    an explicit tree that every handler takes and returns, a jQuery
    object is a list of element paths, and each handler is the sequence
    of jQuery calls of its source, in the source's order. *)

From Stdlib Require Import List Bool Arith ZArith Lia String Ascii.
From Stdlib Require Import Permutation Sorted.
Import ListNotations.
Local Open Scope string_scope.
Local Open Scope list_scope.

Set Implicit Arguments.
Set Warnings "-register-all".

(** ** JavaScript strings

    Strings are sequences of ASCII characters; [indexOf] and
    [lastIndexOf] return [-1] when the needle is absent and [slice]
    takes possibly negative bounds, as in JavaScript. *)

Module JS.

Fixpoint startsWith (needle s : string) : bool :=
  match needle, s with
  | EmptyString, _ => true
  | String a n', String b s' => Ascii.eqb a b && startsWith n' s'
  | String _ _, EmptyString => false
  end.

(** [indexFrom k needle s]: position (counted from [k]) of the first
    occurrence of [needle] in [s]. *)
Fixpoint indexFrom (k : nat) (needle s : string) : option nat :=
  if startsWith needle s then Some k
  else match s with
       | EmptyString => None
       | String _ s' => indexFrom (S k) needle s'
       end.

(** Position of the last occurrence. *)
Fixpoint lastIndexFrom (k : nat) (needle s : string) : option nat :=
  match s with
  | EmptyString => if startsWith needle s then Some k else None
  | String _ s' =>
      match lastIndexFrom (S k) needle s' with
      | Some r => Some r
      | None => if startsWith needle s then Some k else None
      end
  end.

Definition indexOf (s needle : string) : Z :=
  match indexFrom 0 needle s with
  | Some k => Z.of_nat k
  | None => (-1)%Z
  end.

Definition lastIndexOf (s needle : string) : Z :=
  match lastIndexFrom 0 needle s with
  | Some k => Z.of_nat k
  | None => (-1)%Z
  end.

Definition includes (s needle : string) : bool :=
  match indexFrom 0 needle s with Some _ => true | None => false end.

Fixpoint drop (k : nat) (s : string) : string :=
  match k, s with
  | O, _ => s
  | S k', String _ s' => drop k' s'
  | S _, EmptyString => EmptyString
  end.

Fixpoint take (k : nat) (s : string) : string :=
  match k, s with
  | O, _ => EmptyString
  | S k', String a s' => String a (take k' s')
  | S _, EmptyString => EmptyString
  end.

Definition endsWith (s needle : string) : bool :=
  Nat.leb (String.length needle) (String.length s)
  && String.eqb (drop (String.length s - String.length needle) s) needle.

(** A relative bound of [slice]: negative counts from the end, and the
    result is clamped to the string. *)
Definition clamp (len : nat) (i : Z) : nat :=
  if (i <? 0)%Z then Z.to_nat (Z.max 0 (Z.of_nat len + i))
  else Nat.min len (Z.to_nat i).

Definition slice (s : string) (from to : Z) : string :=
  let len := String.length s in
  let a := clamp len from in
  let b := clamp len to in
  take (b - a) (drop a s).

Definition sliceFrom (s : string) (from : Z) : string :=
  drop (clamp (String.length s) from) s.

End JS.

(** ** JavaScript numbers

    The handlers convert attribute values with [Number] and
    [parseInt], compare numbers with [>=] and [==], add one and
    subtract.  A JavaScript number is a double.  This model follows
    [NaN] and the integers from -2^53 to 2^53, which a double holds
    exactly and which [String] writes in plain decimal digits.  Every
    other number (a fraction, an integer beyond 2^53, which a double
    rounds, an infinity) is [Other]: the model does not say which number
    it is, and an operation whose result depends on it gives [Other] or
    no answer. *)

Module Num.

Inductive num := NaN | Int (z : Z) | Other.

(** 2^53 *)
Definition limit : Z := 9007199254740992.

Definition safe (z : Z) : bool := (Z.abs z <=? limit)%Z.

(** The number [z], if the model follows it. *)
Definition int (z : Z) : num := if safe z then Int z else Other.

Definition isSpace (a : ascii) : bool :=
  let n := nat_of_ascii a in
  ((n =? 32) || (n =? 9) || (n =? 10) || (n =? 11) || (n =? 12) || (n =? 13))%nat.

Definition isDigit (a : ascii) : bool :=
  let n := nat_of_ascii a in ((48 <=? n) && (n <=? 57))%nat.

Definition isAscii (a : ascii) : bool := (nat_of_ascii a <? 128)%nat.

Fixpoint allAscii (s : string) : bool :=
  match s with
  | String a s' => isAscii a && allAscii s'
  | EmptyString => true
  end.

Fixpoint hasDigit (s : string) : bool :=
  match s with
  | String a s' => isDigit a || hasDigit s'
  | EmptyString => false
  end.

Fixpoint trimStart (s : string) : string :=
  match s with
  | String a s' => if isSpace a then trimStart s' else s
  | EmptyString => EmptyString
  end.

(** Leading digits of [s] as a number (accumulator [acc]), with the
    number of digits read and the rest of the string. *)
Fixpoint digits (acc : Z) (count : nat) (s : string) : Z * nat * string :=
  match s with
  | String a s' =>
      if isDigit a
      then digits (10 * acc + Z.of_nat (nat_of_ascii a - 48)) (S count) s'
      else (acc, count, s)
  | EmptyString => (acc, count, s)
  end.

Definition signed (s : string) : Z * string :=
  match s with
  | String "-" s' => ((-1)%Z, s')
  | String "+" s' => (1%Z, s')
  | _ => (1%Z, s)
  end.

(** [Number(s)] on a string.  Surrounding white space is ignored, the
    empty string is [0], and a signed decimal numeral is its value.  A
    string with no digit that does not spell [Infinity] is no numeral at
    all and gives [NaN].  Any other string may be a numeral with a
    fraction, an exponent or a radix prefix, and a character outside
    ASCII may be white space: the model does not follow these. *)
Definition ofString (s : string) : num :=
  if negb (allAscii s) then Other
  else
    match trimStart s with
    | EmptyString => Int 0
    | s1 =>
        let '(sg, s2) := signed s1 in
        let '(v, count, rest) := digits 0 0 s2 in
        match count, trimStart rest with
        | S _, EmptyString => int (sg * v)
        | _, _ => if hasDigit s || JS.includes s "Infinity" then Other else NaN
        end
    end.

(** [Number(x)] where [x] is the result of [.attr(...)]: a string, or
    [undefined] when the attribute is absent (or the set is empty). *)
Definition Number (x : option string) : num :=
  match x with
  | Some s => ofString s
  | None => NaN
  end.

(** [parseInt(s)]: the longest signed decimal prefix after the leading
    white space, [NaN] if there is none.  After [0x] JavaScript reads
    hexadecimal digits, which the model does not follow. *)
Definition parseInt (s : string) : num :=
  if negb (allAscii s) then Other
  else
    let '(sg, s2) := signed (trimStart s) in
    if JS.startsWith "0x" s2 || JS.startsWith "0X" s2 then Other
    else
      let '(v, count, _) := digits 0 0 s2 in
      match count with
      | S _ => int (sg * v)
      | O => NaN
      end.

(** [a + b] and [a - b]: [NaN] as soon as one side is [NaN]. *)
Definition add (a b : num) : num :=
  match a, b with
  | NaN, _ | _, NaN => NaN
  | Int x, Int y => if safe x && safe y then int (x + y) else Other
  | _, _ => Other
  end.

Definition sub (a b : num) : num :=
  match a, b with
  | NaN, _ | _, NaN => NaN
  | Int x, Int y => if safe x && safe y then int (x - y) else Other
  | _, _ => Other
  end.

(** [a >= b]: false as soon as one side is [NaN]; no answer when it
    depends on a number that the model does not follow. *)
Definition geb (a b : num) : option bool :=
  match a, b with
  | NaN, _ | _, NaN => Some false
  | Int x, Int y => if safe x && safe y then Some (y <=? x)%Z else None
  | _, _ => None
  end.

(** [a == b] on numbers. *)
Definition eqb (a b : num) : option bool :=
  match a, b with
  | NaN, _ | _, NaN => Some false
  | Int x, Int y => if safe x && safe y then Some (x =? y)%Z else None
  | _, _ => None
  end.

Fixpoint digitsOfPos (fuel : nat) (n : nat) (acc : string) : string :=
  match fuel with
  | O => acc
  | S fuel' =>
      let acc' := String (ascii_of_nat (48 + n mod 10)) acc in
      if (n / 10 =? 0)%nat then acc' else digitsOfPos fuel' (n / 10) acc'
  end.

Definition stringOfNat (n : nat) : string := digitsOfPos (S n) n EmptyString.

(** The decimal digits of an integer, with its sign. *)
Definition decimal (z : Z) : string :=
  if (z <? 0)%Z then String "-" (stringOfNat (Z.to_nat (- z)))
  else stringOfNat (Z.to_nat z).

(** [String(x)] on a number. *)
Definition toString (x : num) : option string :=
  match x with
  | NaN => Some "NaN"
  | Int z => if safe z then Some (decimal z) else None
  | Other => None
  end.

End Num.

(** ** The document tree *)

Module DOM.

(** What the handlers read and write of one element: its tag, its
    attributes, its class list, the [checked] property, the value set by
    [.val(v)], and whether [.hide()] has put [display: none] on it. *)
Record edata := mkData {
  tag : string;
  attrs : list (string * string);
  classes : list string;
  checked : bool;
  valueProp : option string;
  hidden : bool
}.

Inductive node :=
| Text (s : string)
| Elem (d : edata) (kids : list node).

(** An element is named by the child indices leading to it from the
    root. *)
Definition path := list nat.

Definition path_eq_dec : forall p q : path, {p = q} + {p <> q} :=
  list_eq_dec Nat.eq_dec.

Definition mem (p : path) (S : list path) : bool :=
  if in_dec path_eq_dec p S then true else false.

Fixpoint get (t : node) (p : path) : option node :=
  match p with
  | [] => Some t
  | i :: p' =>
      match t with
      | Elem _ ks =>
          match nth_error ks i with
          | Some k => get k p'
          | None => None
          end
      | Text _ => None
      end
  end.

Definition data_at (t : node) (p : path) : option edata :=
  match get t p with
  | Some (Elem d _) => Some d
  | _ => None
  end.

Definition kids_at (t : node) (p : path) : list node :=
  match get t p with
  | Some (Elem _ ks) => ks
  | _ => []
  end.

(** Paths of the [i]-th, [i+1]-th, ... subtrees, each prefixed with its
    index. *)
Fixpoint number_from (i : nat) (ls : list (list path)) : list path :=
  match ls with
  | [] => []
  | l :: ls' => map (cons i) l ++ number_from (S i) ls'
  end.

(** The elements of a tree in document order (text nodes are not
    elements). *)
Fixpoint subpaths (t : node) : list path :=
  match t with
  | Text _ => []
  | Elem _ ks => [] :: number_from 0 (map subpaths ks)
  end.

(** Replace the [i]-th member of a list. *)
Fixpoint alter_nth {A} (f : A -> A) (i : nat) (l : list A) : list A :=
  match l, i with
  | [], _ => []
  | x :: l', O => f x :: l'
  | x :: l', S i' => x :: alter_nth f i' l'
  end.

(** Apply [f] to the node at path [p]. *)
Fixpoint alter_at (f : node -> node) (p : path) (t : node) : node :=
  match p with
  | [] => f t
  | i :: p' =>
      match t with
      | Elem d ks => Elem d (alter_nth (alter_at f p') i ks)
      | Text _ => t
      end
  end.

Definition on_data (f : edata -> edata) (n : node) : node :=
  match n with
  | Elem d ks => Elem (f d) ks
  | Text _ => n
  end.

Definition on_kids (f : list node -> list node) (n : node) : node :=
  match n with
  | Elem d ks => Elem d (f ks)
  | Text _ => n
  end.

(** Apply [f] to the data of every element of [S]. *)
Definition update_all (f : edata -> edata) (S : list path) (t : node) : node :=
  fold_left (fun t p => alter_at (on_data f) p t) S t.

(** *** Changes of structure *)

(** Under the element at [P], replace the [del] children from position
    [k] on by [new]. *)
Definition splice (P : path) (k del : nat) (new : list node) (t : node) : node :=
  alter_at (on_kids (fun ks => firstn k ks ++ new ++ skipn (k + del) ks)) P t.

(** Where the element at [q] is after [splice P k del new], [n] being the
    length of [new]; [None] for an element that was taken out. *)
Fixpoint reloc (k del n : nat) (P q : path) : option path :=
  match P, q with
  | [], [] => Some []
  | [], j :: rest =>
      if Nat.ltb j k then Some q
      else if Nat.ltb j (k + del) then None
      else Some ((j - del + n) :: rest)
  | _ :: _, [] => Some []
  | i :: P', j :: q' =>
      if Nat.eqb i j then option_map (cons j) (reloc k del n P' q') else Some q
  end.

(** One relocation after another. *)
Definition then_ (f f' : path -> option path) (q : path) : option path :=
  match f q with
  | Some q1 => f' q1
  | None => None
  end.

(** A jQuery object after an edit: its elements that are still in the
    document, at their new places. *)
Definition moved (f : path -> option path) (S : list path) : list path :=
  flat_map (fun q => match f q with Some q' => [q'] | None => [] end) S.

(** [.append(new)] on one element: [new] becomes its last children. *)
Definition append_at (new : list node) (P : path) (t : node) : node :=
  splice P (List.length (kids_at t P)) 0 new t.

(** *** Attributes and classes *)

Fixpoint assoc (k : string) (l : list (string * string)) : option string :=
  match l with
  | [] => None
  | (k', v) :: l' => if String.eqb k k' then Some v else assoc k l'
  end.

Fixpoint assoc_set (k v : string) (l : list (string * string))
  : list (string * string) :=
  match l with
  | [] => [(k, v)]
  | (k', v') :: l' =>
      if String.eqb k k' then (k, v) :: l' else (k', v') :: assoc_set k v l'
  end.

Definition getAttr (k : string) (d : edata) : option string := assoc k (attrs d).

Definition attr_at (k : string) (t : node) (p : path) : option string :=
  match data_at t p with
  | Some d => getAttr k d
  | None => None
  end.

Definition setAttr (k v : string) (d : edata) : edata :=
  mkData (tag d) (assoc_set k v (attrs d)) (classes d) (checked d)
         (valueProp d) (hidden d).

Definition hasClass (c : string) (d : edata) : bool :=
  existsb (String.eqb c) (classes d).

Definition setClasses (cs : list string) (d : edata) : edata :=
  mkData (tag d) (attrs d) cs (checked d) (valueProp d) (hidden d).

Definition addClass (c : string) (d : edata) : edata :=
  if hasClass c d then d else setClasses (classes d ++ [c]) d.

Definition removeClass (c : string) (d : edata) : edata :=
  setClasses (filter (fun c' => negb (String.eqb c c')) (classes d)) d.

Definition toggleClass (c : string) (d : edata) : edata :=
  if hasClass c d then removeClass c d else addClass c d.

Definition setChecked (b : bool) (d : edata) : edata :=
  mkData (tag d) (attrs d) (classes d) b (valueProp d) (hidden d).

Definition setVal (v : string) (d : edata) : edata :=
  mkData (tag d) (attrs d) (classes d) (checked d) (Some v) (hidden d).

Definition setHidden (b : bool) (d : edata) : edata :=
  mkData (tag d) (attrs d) (classes d) (checked d) (valueProp d) b.

(** [.val()] of a control: the value set from script, else the [value]
    attribute, else (radio buttons and checkboxes) ["on"]. *)
Definition getVal (d : edata) : string :=
  match valueProp d with
  | Some v => v
  | None =>
      match getAttr "value" d with
      | Some v => v
      | None => "on"
      end
  end.

(** The [checked] property of the element at [p], if there is one. *)
Definition checked_at (t : node) (p : path) : option bool :=
  option_map checked (data_at t p).

(** Membership of a class, for the element at [p]. *)
Definition class_at (c : string) (t : node) (p : path) : option bool :=
  option_map (hasClass c) (data_at t p).

(** What a form submits of a control: its checked state and its value. *)
Definition control_state (d : edata) : string * list (string * string) * bool * option string :=
  (tag d, attrs d, checked d, valueProp d).

End DOM.

(** ** jQuery objects

    A jQuery object is the list of the paths of its elements.  The
    traversal methods are given by the relation they compute between the
    elements of the receiver and those of the result, evaluated over the
    elements of the document in document order, which is also how jQuery
    orders and de-duplicates a result. *)

Module JQ.
Import DOM.

Definition selector := edata -> bool.

Fixpoint is_prefix (p q : path) : bool :=
  match p, q with
  | [], _ => true
  | i :: p', j :: q' => Nat.eqb i j && is_prefix p' q'
  | _ :: _, [] => false
  end.

(** [p] is a proper ancestor of [q]. *)
Definition above (p q : path) : bool :=
  is_prefix p q && negb (Nat.eqb (List.length p) (List.length q)).

Definition path_eqb (p q : path) : bool :=
  if path_eq_dec p q then true else false.

Definition parent_of (q : path) : option path :=
  match q with
  | [] => None
  | _ => Some (removelast q)
  end.

Definition child_of (p q : path) : bool :=
  match parent_of q with
  | Some pq => path_eqb pq p
  | None => false
  end.

Definition same_parent (p q : path) : bool :=
  match parent_of p, parent_of q with
  | Some pp, Some pq => path_eqb pp pq
  | _, _ => false
  end.

Section Traversal.
Variable t : node.

Definition matches (sel : selector) (q : path) : bool :=
  match data_at t q with
  | Some d => sel d
  | None => false
  end.

(** The elements of the document that satisfy [R], in document order. *)
Definition select (R : path -> bool) : list path := filter R (subpaths t).

(** [$(sel)] *)
Definition query (sel : selector) : list path := select (matches sel).

(** [$(element)] *)
Definition wrap (p : path) : list path := select (path_eqb p).

(** [$('#id')]: the first element carrying that id. *)
Definition byId (i : string) : list path :=
  firstn 1 (query (fun d => match getAttr "id" d with
                            | Some v => String.eqb v i
                            | None => false
                            end)).

(** [.find(sel)] *)
Definition find (sel : selector) (S : list path) : list path :=
  select (fun q => existsb (fun p => above p q) S && matches sel q).

(** [.children(sel)] *)
Definition children (sel : selector) (S : list path) : list path :=
  select (fun q => existsb (fun p => child_of p q) S && matches sel q).

(** [.parent(sel)] *)
Definition parent (sel : selector) (S : list path) : list path :=
  select (fun q => existsb (fun p => child_of q p) S && matches sel q).

(** [.parents(sel)]: the matching ancestors, nearest first. *)
Definition parents (sel : selector) (S : list path) : list path :=
  rev (select (fun q => existsb (fun p => above q p) S && matches sel q)).

(** [.siblings(sel)] *)
Definition siblings (sel : selector) (S : list path) : list path :=
  select (fun q => existsb (fun p => same_parent p q && negb (path_eqb p q)) S
                   && matches sel q).

(** Nearest element that matches among [rev rp] and its ancestors. *)
Fixpoint closest_from (sel : selector) (rp : list nat) : option path :=
  if matches sel (rev rp) then Some (rev rp)
  else match rp with
       | [] => None
       | _ :: rp' => closest_from sel rp'
       end.

Definition closest1 (sel : selector) (p : path) : option path :=
  closest_from sel (rev p).

(** [.closest(sel)] *)
Definition closest (sel : selector) (S : list path) : list path :=
  select (fun q => existsb (fun p => match closest1 sel p with
                                     | Some c => path_eqb c q
                                     | None => false
                                     end) S).

(** The element sibling that immediately follows [p]: the first
    element after [p] under the same parent (text nodes are skipped). *)
Definition next_sibling (p : path) : option path :=
  hd_error (select (fun q => same_parent p q
                             && Nat.ltb (List.last p 0) (List.last q 0))).

(** [.next(sel)] *)
Definition next (sel : selector) (S : list path) : list path :=
  select (fun q => existsb (fun p => match next_sibling p with
                                     | Some n => path_eqb n q
                                     | None => false
                                     end) S
                   && matches sel q).

(** [.is(sel)] and [.hasClass(c)]: some element of the set qualifies. *)
Definition is_ (sel : selector) (S : list path) : bool := existsb (matches sel) S.

(** [.attr(k)] and [.prop('checked')] read the first element. *)
Definition attr (k : string) (S : list path) : option string :=
  match S with
  | p :: _ => match data_at t p with
              | Some d => getAttr k d
              | None => None
              end
  | [] => None
  end.

Definition propChecked (S : list path) : option bool :=
  match S with
  | p :: _ => option_map checked (data_at t p)
  | [] => None
  end.

End Traversal.

Definition first (S : list path) : list path := firstn 1 S.

Definition last (S : list path) : list path :=
  match S with
  | [] => []
  | _ => [List.last S []]
  end.

Definition any : selector := fun _ => true.

End JQ.

(** ** Selectors used by [main.js] *)

Module Sel.
Import DOM JQ.

Definition tagIs (name : string) : selector := fun d => String.eqb (tag d) name.

Definition cls (c : string) : selector := hasClass c.

(** [[k]]: the attribute is present. *)
Definition attrHas (k : string) : selector :=
  fun d => match getAttr k d with Some _ => true | None => false end.

(** [[k="v"]] *)
Definition attrEq (k v : string) : selector :=
  fun d => match getAttr k d with Some x => String.eqb x v | None => false end.

(** [[k*="v"]] *)
Definition attrContains (k v : string) : selector :=
  fun d => match getAttr k d with Some x => JS.includes x v | None => false end.

(** [[k$="v"]] *)
Definition attrEnds (k v : string) : selector :=
  fun d => match getAttr k d with Some x => JS.endsWith x v | None => false end.

Definition both (a b : selector) : selector := fun d => a d && b d.

(** [:checked] on a control. *)
Definition isChecked : selector := both (tagIs "input") checked.

(** [input[name*="flag"]] *)
Definition flagInput (flag : string) : selector :=
  both (tagIs "input") (attrContains "name" flag).

End Sel.

(** ** The handlers *)

Module Handlers.
Import DOM JQ Sel.

(** *** Statements

    A handler is a sequence of jQuery statements, each of which selects
    elements in the document as it is when the statement runs and
    applies a method to them. *)

Definition stmt := node -> node.

(** [$(...).method(...)]: [S] computes the jQuery object, [f] is what
    the method does to one element. *)
Definition on (S : node -> list path) (f : edata -> edata) : stmt :=
  fun t => update_all f (S t) t.

Definition andThen (s1 s2 : stmt) : stmt := fun t => s2 (s1 t).

(** [if (c) { body }] *)
Definition when (c : node -> bool) (body : stmt) : stmt :=
  fun t => if c t then body t else t.

Notation "s1 ;; s2" := (andThen s1 s2) (at level 61, left associativity).

(** A statement that puts elements in or takes some out also gives the
    new place of each element that stays, for the jQuery objects that
    the handler still holds. *)
Definition tracked : Type := node * (path -> option path).

(** [.after(new)] on one element. *)
Definition insertAfter (new : list node) (p : path) (t : node) : tracked :=
  match parent_of p with
  | Some pp =>
      let k := S (List.last p 0) in
      (splice pp k 0 new t, reloc k 0 (List.length new) pp)
  | None => (t, Some)
  end.

(** [.remove()] on one element. *)
Definition removeAt (p : path) (t : node) : tracked :=
  match parent_of p with
  | Some pp =>
      let k := List.last p 0 in
      (splice pp k 1 [] t, reloc k 1 0 pp)
  | None => (t, Some)
  end.

(** One edit for each element of a jQuery object, from the last element
    to the first, so that the places of the elements still to be treated
    do not move. *)
Definition forEachBack (edit1 : path -> node -> tracked) (S : list path)
    (t : node) : tracked :=
  fold_left (fun (acc : tracked) p =>
               let '(t1, r1) := acc in
               let '(t2, r2) := edit1 p t1 in
               (t2, then_ r1 r2))
            (rev S) (t, Some).

(** [.remove()] and [.after(new)] on a jQuery object. *)
Definition removeAll : list path -> node -> tracked := forEachBack removeAt.

Definition afterEach (new : list node) : list path -> node -> tracked :=
  forEachBack (insertAfter new).

(** [.append(new)] on a jQuery object; no element moves. *)
Definition appendEach (new : list node) (S : list path) (t : node) : node :=
  fold_left (fun t p => append_at new p t) S t.

(** *** Preferred and authorised flags ([main.js], lines 194-218)

    Both handlers are delegated from the document to the controls whose
    name contains the flag, so they run only when the clicked element is
    such a control. *)

Definition preferredHandler (target : path) : stmt :=
  let flag := flagInput "preferred" in
  on (fun t => find t (both flag isChecked)
                 (siblings t any (parents t (tagIs "fieldset") (wrap t target))))
     (setChecked false) ;;
  on (fun t => find t flag (closest t (tagIs "fieldset") (wrap t target)))
     (setChecked true) ;;
  on (fun t => siblings t any (parents t (tagIs "fieldset") (wrap t target)))
     (removeClass "border-left") ;;
  when (fun t => is_ t isChecked (wrap t target))
    (on (fun t => closest t (tagIs "fieldset") (wrap t target))
        (addClass "border-left")).

Definition onPreferredClick (target : path) (t : node) : node :=
  if matches t (flagInput "preferred") target then preferredHandler target t else t.

Definition authorisedHandler (target : path) : stmt :=
  let flag := flagInput "authorised" in
  on (fun t => find t (both flag isChecked)
                 (siblings t any (closest t (tagIs "fieldset") (wrap t target))))
     (setChecked false) ;;
  on (fun t => find t flag (closest t (tagIs "fieldset") (wrap t target)))
     (setChecked true) ;;
  on (fun t => siblings t any (closest t (tagIs "fieldset") (wrap t target)))
     (removeClass "border-left") ;;
  when (fun t => is_ t isChecked (wrap t target))
    (on (fun t => closest t (tagIs "fieldset") (wrap t target))
        (addClass "border-left")).

Definition onAuthorisedClick (target : path) (t : node) : node :=
  if matches t (flagInput "authorised") target then authorisedHandler target t else t.

(** *** Primary record of the duplicates table (lines 78-91)

    Delegated from [#duplicates-table] to [[name="primary_record"]]. *)

Definition primaryHandler (target : path) : stmt :=
  let dupLabels t := children t (tagIs "label") (query t (cls "duplicate-cell")) in
  let cell t :=
    next t (cls "duplicate-cell") (closest t (cls "primary-cell") (wrap t target)) in
  on (fun t => query t (cls "primary-cell")) (removeClass "border-left") ;;
  on (fun t => children t (tagIs "label") (query t (cls "primary-cell")))
     (removeClass "selected") ;;
  on dupLabels (removeClass "disabled") ;;
  on dupLabels (setHidden false) ;;
  on (fun t => closest t (cls "primary-cell") (wrap t target)) (addClass "border-left") ;;
  when (fun t => is_ t isChecked (wrap t target))
    (on (fun t => parent t (tagIs "label") (wrap t target)) (addClass "selected") ;;
     on (fun t => find t (both (both (tagIs "input") (attrEq "type" "radio")) isChecked)
                    (cell t))
        (setChecked false) ;;
     on (fun t => children t (tagIs "label") (cell t)) (addClass "disabled")).

Definition onPrimaryClick (target : path) (t : node) : node :=
  if existsb (fun r => above r target) (byId t "duplicates-table")
     && matches t (attrEq "name" "primary_record") target
  then primaryHandler target t else t.

(** *** [deleteField] (lines 622-626) *)

Definition deleteField (el : path) (toDelete : selector) : stmt :=
  on (fun t => closest t toDelete (wrap t el)) (addClass "none") ;;
  on (fun t => children t (tagIs "label")
                 (first (parents t (cls "formset") (wrap t el))))
     (setHidden false).

(** *** Formsets: [addEmptyForm] and its helpers (lines 510-618)

    A call ends normally, or with an exception that leaves the document
    as it is at that point: a [TypeError] for a method called on
    [undefined], a syntax error raised by jQuery for a selector that it
    cannot read.  [Beyond]: the call comes to a step that this model
    does not follow, which is a number outside the integers of [Num] or
    the start of a select2 or TinyMCE widget. *)

Inductive outcome :=
| Done (t : node)
| TypeError (t : node)
| SyntaxError (t : node)
| Beyond.

Definition document (o : outcome) : option node :=
  match o with
  | Done t | TypeError t | SyntaxError t => Some t
  | Beyond => None
  end.

(** What jQuery makes of a selector given as text: the test that it
    stands for, on an element of a document, or [None] when jQuery
    cannot read the text and raises a syntax error. *)
Definition reader : Type := string -> option (node -> path -> bool).

Definition cat (l : list string) : string := fold_right String.append EmptyString l.

Definition getManagementFormContainer (t : node) (context : list path) : list path :=
  children t (both (tagIs "div") (cls "management_form"))
    (first (parents t (cls "formset") context)).

Definition getNewFormParent (t : node) (context : list path) : list path :=
  last (children t (both (tagIs "div") (cls "fieldsets"))
          (first (parents t (cls "formset") context))).

(** A string computed by a helper: [Raises] is a [TypeError],
    [Unknown] a string that the model does not follow. *)
Inductive returned :=
| Returns (s : string)
| Raises
| Unknown.

Definition generateNewFormPrefix (t : node) (control : list path)
    (attrName : string) (prefixNumber : Num.num) : returned :=
  match attr t attrName control with
  | Some attrValue =>
      match Num.toString prefixNumber with
      | Some number =>
          Returns (String.append
                     (JS.slice attrValue 0 (JS.indexOf attrValue "TOTAL_FORMS"))
                     number)
      | None => Unknown
      end
  | None => Raises
  end.

Definition prefixLength : Z := Z.of_nat (String.length "__prefix__").

(** The value given to the [name] and to the [id] of a new control. *)
Definition withPrefix (newPrefix val : string) : string :=
  String.append newPrefix
    (JS.sliceFrom val (JS.lastIndexOf val "__prefix__" + prefixLength)).

(** The controls that lines 543-565 hand to select2 or to TinyMCE: a
    non-empty [data-voc-prefix], or one of two classes. *)
Definition asksWidget : selector := fun d =>
  match getAttr "data-voc-prefix" d with
  | Some (String _ _) => true
  | _ => false
  end
  || hasClass "select-with-search-dynamic" d
  || hasClass "richtext" d.

(** The [.each] loop over the new controls. *)
Fixpoint renameControls (newFormPrefixName newFormPrefixId : string)
    (newControls : list path) (t : node) : outcome :=
  match newControls with
  | [] => Done t
  | q :: rest =>
      match attr_at "name" t q with
      | None => TypeError t
      | Some nm =>
          let t1 := alter_at (on_data (setAttr "name" (withPrefix newFormPrefixName nm))) q t in
          match attr_at "id" t1 q with
          | None => TypeError t1
          | Some i =>
              let t2 := alter_at (on_data (setAttr "id" (withPrefix newFormPrefixId i))) q t1 in
              if matches t2 asksWidget q then Beyond
              else renameControls newFormPrefixName newFormPrefixId rest t2
          end
      end
  end.

Definition clones (t : node) (S : list path) : list node :=
  flat_map (fun p => match get t p with Some n => [n] | None => [] end) S.

(** [$('.autocomplete').not('[name*=__prefix__]')] (line 669) *)
Definition autocomplete : selector := fun d =>
  hasClass "autocomplete" d && negb (attrContains "name" "__prefix__" d).

(** [initAutocompleteWidgets] (lines 668-670): select2 on an empty
    jQuery object does nothing. *)
Definition initAutocompleteWidgets (t : node) : outcome :=
  match query t autocomplete with
  | [] => Done t
  | _ :: _ => Beyond
  end.

(** The selector of line 523: the form type is pasted into it as it
    is. *)
Definition formSelector (formType : string) : string :=
  cat ["*[data-form-type="; formType; "]"].

Definition addEmptyForm (compile : reader) (formType : string) (context : path)
    (t0 : node) : outcome :=
  let jContext := wrap t0 context in
  let managementFormContainer := getManagementFormContainer t0 jContext in
  let maxNumControl :=
    children t0 (both (tagIs "input") (attrEnds "name" "MAX_NUM_FORMS"))
      managementFormContainer in
  let totalControl :=
    children t0 (both (tagIs "input") (attrEnds "name" "TOTAL_FORMS"))
      managementFormContainer in
  let newFormPrefixNumber := Num.Number (attr t0 "value" totalControl) in
  match Num.geb (Num.add newFormPrefixNumber (Num.Int 1))
                (Num.Number (attr t0 "value" maxNumControl)) with
  | None => Beyond
  | Some reached =>
  let t1 :=
    if reached
    then update_all (setHidden true) (parent t0 (tagIs "label") jContext) t0
    else t0 in
  let formParent := getNewFormParent t1 (wrap t1 context) in
  match compile (formSelector formType) with
  | None => SyntaxError t1
  | Some blueprint =>
  let newForm :=
    clones t1
      (select t1 (fun q => existsb (fun p => child_of p q) (byId t1 "empty_forms")
                           && blueprint t1 q)) in
  let count := seq 0 (List.length newForm) in
  let t2 :=
    match formParent with
    | [P] => append_at newForm P t1
    | _ => t1
    end in
  match generateNewFormPrefix t2 totalControl "name" newFormPrefixNumber with
  | Raises => TypeError t2
  | Unknown => Beyond
  | Returns newFormPrefixName =>
      match generateNewFormPrefix t2 totalControl "id" newFormPrefixNumber with
      | Raises => TypeError t2
      | Unknown => Beyond
      | Returns newFormPrefixId =>
          let increment t :=
            match Num.toString (Num.add newFormPrefixNumber (Num.Int 1)) with
            | Some v =>
                initAutocompleteWidgets
                  (update_all (setAttr "value" v) totalControl t)
            | None => Beyond
            end in
          match formParent with
          | [P] =>
              let len := List.length (kids_at t1 P) in
              let placed := map (fun i => P ++ [len + i])%list count in
              let newControls := find t2 (attrContains "name" "__prefix__") placed in
              match renameControls newFormPrefixName newFormPrefixId newControls t2 with
              | Done t3 => increment t3
              | o => o
              end
          | _ =>
              (* without a parent the new forms stay outside the document *)
              let loose := Elem (mkData "#fragment" [] [] false None false) newForm in
              let newControls :=
                find loose (attrContains "name" "__prefix__")
                  (map (fun i => [i]) count) in
              match renameControls newFormPrefixName newFormPrefixId newControls loose with
              | Done _ => increment t2
              | TypeError _ => TypeError t2
              | SyntaxError _ => SyntaxError t2
              | Beyond => Beyond
              end
          end
      end
  end
  end
  end.

(** *** [addDuplicate] (lines 373-408) *)

Record duplicate := mkDuplicate {
  id : Z;
  entity_title : string;
  entity_type : string;
  publication_status : string;
  updated_date : string;
  updated_by : string
}.

(** The record of line 375. *)
Definition record : duplicate :=
  mkDuplicate 156 "[entity_title]" "[entity_type]" "[publication_status]"
    "[date_updated]" "[username]".

Definition plain (tg : string) (ats : list (string * string)) (cs : list string)
    (ks : list node) : node :=
  Elem (mkData tg ats cs false None false) ks.

(** The table row of lines 385-402 (white space between the tags left
    out); [n] is the id as [String] writes it. *)
Definition duplicateRow (r : duplicate) : node :=
  let n := Num.decimal (id r) in
  plain "tr" [] []
    [ plain "td" [] ["button-cell"; "primary-cell"]
        [ plain "label" [] []
            [ plain "input" [("type", "radio"); ("value", n); ("name", "primary_record")]
                [] [];
              Text "Primary record" ] ];
      plain "td" [] ["duplicate-cell"]
        [ plain "input" [("type", "radio"); ("id", cat ["duplicate_"; n]);
                         ("name", cat ["duplicate_"; n]); ("value", "true")] [] [];
          plain "label" [("for", cat ["duplicate_"; n])] ["disabled"]
            [Text "Merge with primary"];
          plain "input" [("type", "radio"); ("id", cat ["not_duplicate_"; n]);
                         ("name", cat ["duplicate_"; n]); ("value", "false")] [] [];
          plain "label" [("for", cat ["not_duplicate_"; n])] ["disabled"]
            [Text "Not related to primary"] ];
      plain "td" [] [] [Text "Record ID: "; plain "span" [] ["highlight"] [Text n]];
      plain "td" [] ["description"]
        [ plain "a" [("href", cat ["/editor/entities/"; n]); ("target", "_blank")] []
            [Text (entity_title r)];
          plain "br" [] [] [];
          Text (cat ["Type: "; entity_type r; " | Publication status: ";
                     publication_status r; " | Updated: "; updated_date r;
                     " by "; updated_by r]) ] ].

Definition notification (kind text : string) : node :=
  plain "div" [("id", "duplicates-search-form-notification")] [kind] [Text text].

(** [input:radio[name="primary_record"]] *)
Definition primaryRadio : selector :=
  both (both (tagIs "input") (attrEq "type" "radio")) (attrEq "name" "primary_record").

(** A string without its carriage returns. *)
Fixpoint withoutCR (s : string) : string :=
  match s with
  | String a s' =>
      if (nat_of_ascii a =? 13)%nat then withoutCR s' else String a (withoutCR s')
  | EmptyString => EmptyString
  end.

(** [$(this).val()]: jQuery gives the value without its carriage
    returns. *)
Definition val (d : edata) : string := withoutCR (getVal d).

(** [$(this).val() == record.id]: the string is converted as [Number]
    does and the numbers are compared; no answer for a value whose
    number the model does not follow. *)
Definition holds (r : duplicate) (d : edata) : option bool :=
  Num.eqb (Num.ofString (val d)) (Num.Int (id r)).

Definition holdsAt (r : duplicate) (t : node) (p : path) : option bool :=
  match data_at t p with
  | Some d => holds r d
  | None => Some false
  end.

(** The loop of lines 378-382 over the tests of the radio buttons:
    [exists] is true when one test holds, false when every test fails. *)
Definition someHolds (tests : list (option bool)) : option bool :=
  if existsb (fun x => match x with Some true => true | _ => false end) tests
  then Some true
  else if forallb (fun x => match x with Some false => true | _ => false end) tests
  then Some false
  else None.

Definition addDuplicate (t0 : node) : option node :=
  let n := Num.decimal (id record) in
  let t1 := fst (removeAll (byId t0 "duplicates-search-form-notification") t0) in
  match someHolds (map (holdsAt record t1) (query t1 primaryRadio)) with
  | None => None
  | Some exists_ =>
  if negb exists_ then
    let t2 :=
      appendEach [duplicateRow record]
        (find t1 (tagIs "tbody") (query t1 (attrEq "id" "duplicates-table"))) t1 in
    Some (fst (afterEach
           [notification "success-notification"
              (cat ["The record "; n; " has been added to the table."])]
           (byId t2 "duplicates-search-form") t2))
  else
    Some (fst (afterEach
           [notification "error-notification"
              (cat ["The record "; n; " is already included in the table."])]
           (byId t1 "duplicates-search-form") t1))
  end.

(** *** Transcriptions: [fetchTranscriptions] (lines 315-335)

    The response of the request is a parameter; [None] is a failed
    request.  [Array.prototype.sort] is stable, and on a comparator that
    is a consistent order every implementation returns the list that
    this insertion sort returns.  A comparator that returns [NaN] for
    some records is not one, and the order is then left to the
    implementation: the model follows the sort as long as the comparator
    returns integers. *)

Record fields := mkFields {
  order : string;
  transcription : string
}.

Record item := mkItem {
  pk : Z;
  itemFields : fields
}.

(** The comparator of line 319. *)
Definition compare (a b : item) : Num.num :=
  Num.sub (Num.parseInt (order (itemFields a))) (Num.parseInt (order (itemFields b))).

(** [v > 0], which is how [sort] reads a comparator. *)
Definition positive (v : Num.num) : option bool :=
  match v with
  | Num.Int z => if Num.safe z then Some (0 <? z)%Z else None
  | _ => None
  end.

Fixpoint insert (cmp : item -> item -> Num.num) (x : item) (l : list item)
  : option (list item) :=
  match l with
  | [] => Some [x]
  | y :: l' =>
      match positive (cmp x y) with
      | Some true => option_map (cons y) (insert cmp x l')
      | Some false => Some (x :: l)
      | None => None
      end
  end.

Fixpoint sort (cmp : item -> item -> Num.num) (data : list item)
  : option (list item) :=
  match data with
  | [] => Some []
  | x :: l =>
      match sort cmp l with
      | Some sorted => insert cmp x sorted
      | None => None
      end
  end.

Definition orderedData (data : list item) : option (list item) := sort compare data.

(** The white space of the template between the two tags: the end of
    line 322 and the 28 spaces in front of line 323. *)
Definition gap : string :=
  String (ascii_of_nat 10) "                            ".

(** A text that the HTML parser reads as it is written when it stands
    inside a [textarea]: it holds no [<], no [&], no carriage return
    and no NUL, and it does not start with a line feed.  The model does
    not follow the parser on other texts. *)
Fixpoint literal (s : string) : bool :=
  match s with
  | String a s' =>
      let n := nat_of_ascii a in
      negb ((n =? 60) || (n =? 38) || (n =? 13) || (n =? 0))%nat && literal s'
  | EmptyString => true
  end.

Definition plainText (s : string) : bool :=
  literal s && negb (JS.startsWith (String (ascii_of_nat 10) EmptyString) s).

(** The children of an element whose content is the text [s]. *)
Definition textNodes (s : string) : list node :=
  match s with
  | EmptyString => []
  | _ => [Text s]
  end.

(** The nodes that the markup of lines 322-323 gives for the [i]-th
    record: the hidden input, the white space and the text area. *)
Definition transcriptionField (i : nat) (t : item) : option (list node) :=
  let n := Num.stringOfNat i in
  let prefix := String.append "transcription-" n in
  match Num.toString (Num.Int (pk t)) with
  | Some key =>
      if plainText (transcription (itemFields t)) then
        Some
          [ Elem (mkData "input"
                    [("type", "hidden");
                     ("name", String.append prefix "-id");
                     ("value", key);
                     ("id", String.append "id_" (String.append prefix "-id"));
                     ("aria-label", "input field")]
                    [] false None false) [];
            Text gap;
            Elem (mkData "textarea"
                    [("name", String.append prefix "-transcription");
                     ("rows", "8");
                     ("id", String.append "id_" (String.append prefix "-transcription"));
                     ("cols", "40");
                     ("aria-label", "richtext field")]
                    ["richtext-transcription"] false None false)
                 (textNodes (transcription (itemFields t))) ]
      else None
  | None => None
  end.

(** The [forEach] of line 321, from index [i] on. *)
Fixpoint transcriptions (i : nat) (l : list item) : option (list node) :=
  match l with
  | [] => Some []
  | t :: l' =>
      match transcriptionField i t, transcriptions (S i) l' with
      | Some field, Some rest => Some (field ++ rest)
      | _, _ => None
      end
  end.

(** [addCKEditor] (lines 347-350), without the editor itself. *)
Definition addCKEditor : stmt :=
  on (fun t => query t (both (tagIs "textarea") (cls "richtext-transcription")))
     (setHidden true).

(** [None]: the response holds an order, a key or a text that the
    model does not follow. *)
Definition fetchTranscriptions (response : option (list item)) (t : node)
  : option node :=
  match response with
  | Some data =>
      match orderedData data with
      | Some sorted =>
          match transcriptions 0 sorted with
          | Some new =>
              Some (addCKEditor (appendEach new (byId t "transcription") t))
          | None => None
          end
      | None => None
      end
  | None => Some t
  end.

End Handlers.

(** ** Sample documents *)

Module Demo.
Import DOM.

Definition el (tg : string) (ats : list (string * string)) (cs : list string)
    (ks : list node) : node :=
  Elem (mkData tg ats cs false None false) ks.

Definition control (ty nm : string) (ats : list (string * string)) (chk : bool)
  : node :=
  Elem (mkData "input" (("type", ty) :: ("name", nm) :: ats) [] chk None false) [].

(** Two name rows of one group; the first is preferred and authorised. *)
Definition names : node :=
  el "div" [] ["fieldsets"]
    [ el "fieldset" [] ["border-left"]
        [ control "checkbox" "name-0-preferred" [] true;
          control "checkbox" "name-0-authorised" [] true ];
      el "fieldset" [] []
        [ control "checkbox" "name-1-preferred" [] false;
          control "checkbox" "name-1-authorised" [] false ] ].

(** A row of the duplicates table for record [rid]: [primary] says
    whether its primary radio button is checked, [shown] whether the row
    carries the marks of the primary row, [merge] whether "merge with
    primary" is chosen. *)
Definition duplicateRow (rid : string) (primary shown merge : bool) : node :=
  el "tr" [] []
    [ el "td" [] (["button-cell"; "primary-cell"] ++ (if shown then ["border-left"] else []))%list
        [ el "label" [] (if shown then ["selected"] else [])
            [ control "radio" "primary_record" [("value", rid)] primary;
              Text "Primary record" ] ];
      el "td" [] ["duplicate-cell"]
        [ control "radio" (String.append "duplicate_" rid)
            [("id", String.append "duplicate_" rid); ("value", "true")] merge;
          el "label" [("for", String.append "duplicate_" rid)] [] [Text "Merge with primary"];
          control "radio" (String.append "duplicate_" rid)
            [("id", String.append "not_duplicate_" rid); ("value", "false")] false;
          el "label" [("for", String.append "not_duplicate_" rid)] []
            [Text "Not related to primary"] ];
      el "td" [] [] [Text "Record ID: "; el "span" [] ["highlight"] [Text rid]];
      el "td" [] ["description"] [el "a" [("href", String.append "/editor/entities/" rid)] [] []] ].

Definition duplicatesPage (rows : list node) : node :=
  el "div" [] []
    [ el "form" [("id", "duplicates-search-form")] [] [];
      el "table" [("id", "duplicates-table")] [] [el "tbody" [] [] rows] ].

(** Record 7 was shown as the primary record and has "merge with
    primary" chosen; the user has just clicked the primary radio button
    of record 9. *)
Definition duplicates : node :=
  duplicatesPage [duplicateRow "7" false true true; duplicateRow "9" true false false].

Definition hiddenInput (nm value : string) : node :=
  control "hidden" nm [("id", String.append "id_" nm); ("value", value)] false.

Definition textInput (nm : string) : node :=
  control "text" nm [("id", String.append "id_" nm)] false.

(** A [names] formset holding [total] forms out of at most [maxNum],
    one rendered row, the add-row control, and the blueprint of a name
    form with the controls [blueprint]. *)
Definition formsetWith (blueprint : list node) (total maxNum : string) : node :=
  el "form" [] []
    [ el "div" [] ["formset"]
        [ el "div" [] ["management_form"]
            [ hiddenInput "names-TOTAL_FORMS" total;
              hiddenInput "names-INITIAL_FORMS" "0";
              hiddenInput "names-MIN_NUM_FORMS" "0";
              hiddenInput "names-MAX_NUM_FORMS" maxNum ];
          el "div" [] ["fieldsets"]
            [ el "fieldset" [("data-form-type", "name")] []
                [ textInput "names-0-display_name";
                  control "checkbox" "names-0-preferred"
                    [("id", "id_names-0-preferred")] false ] ];
          el "label" [] []
            [ el "input" [("type", "button"); ("value", "Add name")] [] [] ] ];
      el "div" [("id", "empty_forms")] []
        [ el "fieldset" [("data-form-type", "name")] [] blueprint;
          el "fieldset" [("data-form-type", "identity")] []
            [ textInput "identities-__prefix__-date_from" ] ] ].

Definition formsetPage : string -> string -> node :=
  formsetWith
    [ textInput "names-__prefix__-display_name";
      control "checkbox" "names-__prefix__-preferred"
        [("id", "id_names-__prefix__-preferred")] false;
      el "span" [] [] [Text "Preferred"];
      el "input" [("type", "button"); ("id", "delete-names-__prefix__")]
        [] [] ].

(** The same formset when the second control of the blueprint has no
    id. *)
Definition formsetWithoutId : string -> string -> node :=
  formsetWith
    [ textInput "names-__prefix__-display_name";
      control "checkbox" "names-__prefix__-preferred" [] false;
      textInput "names-__prefix__-language" ].

(** A reader of the selectors of line 523.  When the form type is an
    identifier, jQuery reads the selector as the test that the attribute
    [data-form-type] is the form type; this reader gives up on every
    other text. *)
Definition identifier (s : string) : bool :=
  let letter n := ((65 <=? n) && (n <=? 90) || (97 <=? n) && (n <=? 122) || (n =? 95))%nat in
  let later n := (letter n || (48 <=? n) && (n <=? 57) || (n =? 45))%nat in
  (fix all (first : bool) (s : string) : bool :=
     match s with
     | String a s' =>
         (if first then letter (nat_of_ascii a) else later (nat_of_ascii a))
         && all false s'
     | EmptyString => negb first
     end) true s.

Definition readSelector : Handlers.reader := fun s =>
  if JS.startsWith "*[data-form-type=" s && JS.endsWith s "]" then
    let v := JS.slice s 17 (-1) in
    if identifier v
    then Some (fun t => JQ.matches t (Sel.attrEq "data-form-type" v))
    else None
  else None.

(** The add-row button of [formsetPage]. *)
Definition addButton : path := [0; 2; 0].

(** The panel of the transcriptions, still empty, and the response of
    the example. *)
Definition transcriptionPage : node :=
  el "div" [("id", "transcription-div")] ["expand"]
    [ el "div" [("id", "transcription")] [] [];
      el "div" [("id", "rte-pagination")] [] [] ].

Definition response : list Handlers.item :=
  [ Handlers.mkItem 2 (Handlers.mkFields "1" "second page");
    Handlers.mkItem 1 (Handlers.mkFields "0" "first page") ].

(** The page of the duplicates before any record is listed: the table
    has a head and no body. *)
Definition bodilessPage : node :=
  el "div" [] []
    [ el "form" [("id", "duplicates-search-form")] [] [];
      el "table" [("id", "duplicates-table")] []
        [ el "thead" [] []
            [ el "tr" [] [] [ el "th" [] [] [Text "Primary"];
                              el "th" [] [] [Text "Duplicate"] ] ] ] ].

(** The page of the duplicates with an earlier notification. *)
Definition notifiedPage (rows : list node) : node :=
  el "div" [] []
    [ el "form" [("id", "duplicates-search-form")] [] [];
      el "div" [("id", "duplicates-search-form-notification")]
        ["success-notification"] [Text "The record 9 has been added to the table."];
      el "table" [("id", "duplicates-table")] [] [el "tbody" [] [] rows] ].

End Demo.

(** ** The other handlers of [main.js] *)

Module Page.
Import DOM JQ Sel Handlers.

(** *** The log dialogue (lines 22-48 and 813-819) *)

(** [.attr(k, null)] takes the attribute away. *)
Definition removeAttr (k : string) (d : edata) : edata :=
  mkData (tag d) (filter (fun kv => negb (String.eqb k (fst kv))) (attrs d))
         (classes d) (checked d) (valueProp d) (hidden d).

(** [.attr(k, value)], [value] being a string or [null]. *)
Definition attrOrNull (k : string) (value : option string) : edata -> edata :=
  match value with
  | Some v => setAttr k v
  | None => removeAttr k
  end.

Definition toggleRequiredControls (controls : list path) (add_required : bool) : stmt :=
  let value := if add_required then Some "required" else None in
  on (fun _ => controls) (attrOrNull "required" value).

(** Line 22: the required controls of the dialogue when the page is
    ready; the handlers below keep this jQuery object. *)
Definition dialogueRequiredControls (t : node) : list path :=
  find t (attrHas "required") (byId t "log-modal").

(** Line 23. *)
Definition initDialogue : stmt :=
  fun t => toggleRequiredControls (dialogueRequiredControls t) false t.

(** The click handler of [.modal-cancel] (lines 27-34). *)
Definition onModalCancel (controls : list path) (target : path) : stmt :=
  toggleRequiredControls controls false ;;
  on (fun t => first (parents t (cls "modal") (wrap t target))) (removeClass "active").

(** The submit handler of [#record-form] (lines 38-48); the boolean says
    whether [event.target.submit()] was called. *)
Definition onRecordSubmit (controls : list path) (t : node) : node * bool :=
  if is_ t (cls "active") (byId t "log-modal") then (t, true)
  else ((toggleRequiredControls controls true ;;
         on (fun t => byId t "log-modal") (addClass "active")) t, false).

(** *** Rows per page (lines 160-167) *)

(** The loop of lines 162-167: the first member of [rows] that
    [rowsPerPage] does not exceed, [label] when there is none. *)
Fixpoint firstFit (rowsPerPage : nat) (rows : list nat) (label : nat) : nat :=
  match rows with
  | [] => label
  | r :: rest => if Nat.leb rowsPerPage r then r else firstFit rowsPerPage rest label
  end.

Definition rows : list nat := [10; 25; 50; 100].

Definition pageSizeLabel (rowsPerPage : nat) : nat := firstFit rowsPerPage rows 0.

(** *** [toggleTab] (lines 416-420) *)

Definition toggleTab (el : path) : stmt :=
  on (fun t => siblings t (cls "fieldset-body")
                 (parents t (cls "fieldset-header") (wrap t el)))
     (toggleClass "expand") ;;
  on (fun t => wrap t el) (toggleClass "active").

(** *** Text of elements *)

(** [.text(s)] on one element: its children become the text node [s],
    or nothing when [s] is empty. *)
Definition textNode (s : string) : list node :=
  match s with
  | EmptyString => []
  | _ => [Text s]
  end.

Definition setTextAt (s : string) (p : path) (t : node) : node :=
  splice p 0 (List.length (kids_at t p)) (textNode s) t.

(** [.text(s)] on a jQuery object, element after element. *)
Definition setText (s : string) (S : list path) (t : node) : node :=
  fold_left (fun t p => setTextAt s p t) S t.

(** [[k^="v"]] *)
Definition attrStarts (k v : string) : selector :=
  fun d => match getAttr k d with Some x => JS.startsWith v x | None => false end.

(** A boolean read by [.prop('checked')], as a condition: [undefined]
    (the empty jQuery object) is falsy. *)
Definition truthy (b : option bool) : bool :=
  match b with
  | Some true => true
  | _ => false
  end.

(** *** [showAllMoreInformation] (lines 437-445) *)

Definition showAllMoreInformation (el : path) : stmt := fun t0 =>
  let boxes t := query t (attrStarts "id" "checkbox_") in
  let t1 := on boxes (setChecked (negb (truthy (propChecked t0 (boxes t0))))) t0 in
  if truthy (propChecked t1 (boxes t1))
  then setText "Collapse all" (wrap t1 el) t1
  else setText "Expand all" (wrap t1 el) t1.

(** The signs of the help button, U+F059 (a question mark) and U+F057
    (a cross), as the bytes of their UTF-8 form. *)
Definition questionMark : string :=
  String (Ascii.ascii_of_nat 239)
    (String (Ascii.ascii_of_nat 129) (String (Ascii.ascii_of_nat 153) EmptyString)).

Definition closeMark : string :=
  String (Ascii.ascii_of_nat 239)
    (String (Ascii.ascii_of_nat 129) (String (Ascii.ascii_of_nat 151) EmptyString)).

(** *** Closing the help texts (lines 180-187)

    The click handler of the forms; [target] is the element clicked. *)
Definition closeTooltips (target : path) : stmt := fun t =>
  if negb (is_ t (cls "additional-info") (wrap t target)) then
    if negb (Nat.eqb (List.length (query t (cls "additional-info"))) 0) then
      let t1 :=
        setText questionMark
          (siblings t (attrEq "role" "button") (query t (cls "additional-info"))) t in
      fst (removeAll (query t1 (cls "additional-info")) t1)
    else t
  else t.

(** *** Fetching the transcriptions (lines 299-309)

    The test of lines 299 and 306, and the click handler of
    [.transcription-toggle]. *)
Definition transcriptionsWanted (t : node) : bool :=
  is_ t (cls "expand") (byId t "transcription-div")
  && Nat.eqb (List.length
                (query t (both (tagIs "textarea") (cls "richtext-transcription")))) 0.

Definition onTranscriptionToggle (response : option (list item)) (t : node)
  : option node :=
  if transcriptionsWanted t then fetchTranscriptions response t else Some t.

(** *** The duplicates table when the page is ready (lines 67-76) *)

(** [psel > sel]: an element that matches [sel] and whose parent matches
    [psel]. *)
Definition childOf (psel sel : selector) (t : node) (q : path) : bool :=
  matches t sel q
  && match parent_of q with
     | Some p => matches t psel p
     | None => false
     end.

(** The body of the [.each] of lines 71-75, for the radio button [p]. *)
Definition markPrimary (p : path) : stmt :=
  on (fun t => closest t (cls "primary-cell") (wrap t p)) (addClass "border-left") ;;
  on (fun t => parent t (tagIs "label") (wrap t p)) (addClass "selected") ;;
  on (fun t => filter (childOf (cls "duplicate-cell") (tagIs "label") t)
                 (next t any (closest t (cls "primary-cell") (wrap t p))))
     (addClass "disabled").

(** [$('#duplicates-table [name="primary_record"]:checked')] *)
Definition chosenPrimary (t : node) : list path :=
  find t (both (attrEq "name" "primary_record") isChecked)
    (query t (attrEq "id" "duplicates-table")).

Definition initDuplicates : stmt := fun t =>
  if Nat.eqb (List.length (chosenPrimary t)) 0
  then on (fun t => children t (tagIs "label") (query t (cls "duplicate-cell")))
          (addClass "disabled") t
  else fold_left (fun t p => markPrimary p t) (chosenPrimary t) t.

(** *** [toggleExpand] (lines 423-435) *)

Definition toggleExpand (el : path) : stmt := fun t =>
  let t1 :=
    if is_ t (cls "not-expanded") (query t (cls "collections-level")) then
      (on (fun t => query t (cls "fieldset-body")) (addClass "expand") ;;
       on (fun t => query t (cls "toggle-tab-button")) (addClass "active") ;;
       (fun t => setText "Collapse all" (wrap t el) t)) t
    else
      (on (fun t => find t (cls "fieldset-body") (query t (cls "series-level")))
          (removeClass "expand") ;;
       on (fun t => find t (cls "toggle-tab-button") (query t (cls "series-level")))
          (removeClass "active") ;;
       (fun t => setText "Expand all" (wrap t el) t)) t in
  on (fun t => query t (cls "collections-level")) (toggleClass "not-expanded") t1.

(** *** [toggleDeleteInline] (lines 762-803)

    The handler keeps the jQuery objects [jButton], [label], [header],
    [fieldset] and [form_part] while it changes the document; where it
    has put elements in or taken some out, the objects are used at the
    new places of their elements. *)

(** [<span>Undo</span>] (line 789). *)
Definition undoSpan : node := plain "span" [] [] [Text "Undo"].

(** The button of line 790. *)
Definition deleteButton : node :=
  plain "button" [("onclick", "deleteField(this, '[data-form-type]')")]
    ["button-link"; "danger"]
    [plain "i" [] ["fas"; "fa-trash-alt"] []; Text "Delete permanently"].

Definition checkbox : selector := both (tagIs "input") (attrEq "type" "checkbox").

(** [x.prop('checked', !x.prop('checked'))] *)
Definition toggleChecked (S : list path) : stmt := fun t =>
  on (fun _ => S) (setChecked (negb (truthy (propChecked t S)))) t.

(** The signs of the delete button, U+F0E2 (undo, line 786) and U+F2ED
    (a bin, line 793), as the bytes of their UTF-8 form. *)
Definition undoMark : string :=
  String (Ascii.ascii_of_nat 239)
    (String (Ascii.ascii_of_nat 131) (String (Ascii.ascii_of_nat 162) EmptyString)).

Definition binMark : string :=
  String (Ascii.ascii_of_nat 239)
    (String (Ascii.ascii_of_nat 139) (String (Ascii.ascii_of_nat 173) EmptyString)).

Definition toggleDeleteInline (button : path) (t0 : node) : tracked :=
  let jButton := wrap t0 button in
  let label := parent t0 (tagIs "label") jButton in
  let header := parents t0 (cls "fieldset-header") label in
  let fieldset := parent t0 (tagIs "fieldset") header in
  let t1 :=
    (on (fun _ => header) (toggleClass "inactive") ;;
     on (fun t => find t (both checkbox isChecked) header) (setChecked false) ;;
     on (fun _ => fieldset) (removeClass "border-left") ;;
     on (fun t => find t (cls "toggle-tab-button") header) (toggleClass "inactive") ;;
     on (fun t => parent t any (find t checkbox header)) (toggleClass "none")) t0 in
  let form_part :=
    first (find t1 (cls "inline-deletable")
             (closest t1 (attrHas "data-form-type") jButton)) in
  let t2 := on (fun _ => form_part) (toggleClass "none") t1 in
  let '(t3, r) :=
    if is_ t2 (cls "none") form_part then
      let ta :=
        (on (fun _ => jButton) (setVal undoMark) ;;
         on (fun _ => label) (removeClass "danger") ;;
         on (fun _ => label) (addClass "save")) t2 in
      let tb := appendEach [undoSpan] label ta in
      afterEach [deleteButton] (parent tb any label) tb
    else
      let ta :=
        (on (fun _ => jButton) (setVal binMark) ;;
         on (fun _ => label) (removeClass "save") ;;
         on (fun _ => label) (addClass "danger")) t2 in
      let '(tb, rb) := removeAll (children ta (tagIs "span") label) ta in
      let '(tc, rc) :=
        removeAll (siblings tb (both (tagIs "button") (cls "danger"))
                     (parent tb any (moved rb label))) tb in
      (tc, then_ rb rc) in
  let deleteField :=
    first (find t3 (attrEnds "name" "DELETE")
             (children t3 (cls "inline-delete-form-field") (moved r form_part))) in
  (toggleChecked deleteField t3, r).

(** *** [deleteRow] (lines 629-643) *)

(** The markup of line 633. *)
Definition confirmSpan : node :=
  plain "span" [] ["confirm-deletion"]
    [ plain "i" [] ["fas"; "fa-trash-alt"] [];
      plain "input"
        [("name", "all_users_submit"); ("aria-label", "save admin table");
         ("type", "submit"); ("value", "Delete permanently and save table")]
        ["button-link"; "danger"] [] ].

(** [.hasClass(c)] of a jQuery object holds when one of its elements has
    the class. *)
Definition deleteRow (el : path) (t0 : node) : tracked :=
  let cell t := parent t any (wrap t el) in
  let '(t1, r) :=
    if negb (is_ t0 (cls "none") (siblings t0 (tagIs "td") (cell t0))) then
      let ta :=
        (on (fun t => siblings t (tagIs "td") (cell t)) (addClass "none") ;;
         on cell (setAttr "colspan" "6")) t0 in
      afterEach [confirmSpan] (wrap ta el) ta
    else
      let ta :=
        (on cell (setAttr "colspan" "1") ;;
         on (fun t => siblings t (tagIs "td") (cell t)) (removeClass "none")) t0 in
      removeAll (siblings ta (cls "confirm-deletion") (wrap ta el)) ta in
  let deleteField :=
    first (find t1 (attrEnds "name" "DELETE")
             (find t1 (cls "delete-form-field")
                (closest t1 (attrHas "data-form-type") (moved r (wrap t0 el))))) in
  (toggleChecked deleteField t1, r).

(** *** The search box of a filter (lines 236-259)

    The focus handler keeps the options beside the box in
    [filterOptions] and binds the handler of [keyup] and [change], which
    reads them as they were found at the focus. *)

(** [.text()] *)
Fixpoint textOf (n : node) : string :=
  match n with
  | Text s => s
  | Elem _ ks => cat (map textOf ks)
  end.

Definition textAt (t : node) (p : path) : string :=
  match get t p with
  | Some n => textOf n
  | None => EmptyString
  end.

(** [.val()] of a text box: the text typed or set from script, else the
    [value] attribute, else the empty string. *)
Definition valAt (t : node) (p : path) : string :=
  match data_at t p with
  | Some d =>
      match valueProp d with
      | Some v => v
      | None =>
          match getAttr "value" d with
          | Some v => v
          | None => EmptyString
          end
      end
  | None => EmptyString
  end.

(** [.slice(from, to)] of a jQuery object. *)
Definition slice (S : list path) (from to : nat) : list path :=
  firstn (to - from) (skipn from S).

(** The button of lines 244 and 232, [n] being the number shown. *)
Definition showAll (n : nat) : node :=
  plain "button" [("onclick", "toggleFilters(this)")] ["button-link"; "show-more"]
    [ plain "i" [] ["far"; "fa-plus"] [];
      Text (cat [" Show all ("; Num.stringOfNat n; ")"]) ].

(** *** [toggleHelpText] (lines 463-477) *)

(** [.before(new)] on one element. *)
Definition insertBefore (new : list node) (p : path) (t : node) : tracked :=
  match parent_of p with
  | Some pp =>
      let k := List.last p 0 in
      (splice pp k 0 new t, reloc k 0 (List.length new) pp)
  | None => (t, Some)
  end.

(** What [.text(s)] on [S] takes out: the elements inside those of
    [S]. *)
Definition emptied (S : list path) (q : path) : option path :=
  if existsb (fun p => above p q) S then None else Some q.

Definition quote : string := String (Ascii.ascii_of_nat 34) EmptyString.

Section Help.

(** What the browser supplies: the numbers [position.top - 40] and
    [position.left + 25] of line 473 as they are written into the
    style, and the nodes made of a piece of HTML. *)
Variable offsets : node -> path -> string * string.
Variable parseHTML : string -> list node.

Definition helpMarkup (t : node) (el : path) (help_text : string) : string :=
  cat [ "<p class="; quote; "additional-info"; quote; " style="; quote;
        "top:"; fst (offsets t el); "px; left:"; snd (offsets t el); "px"; quote;
        ">"; help_text; "</p>" ].

Definition toggleHelpText (el : path) (help_text : string) (t0 : node) : tracked :=
  let info t := siblings t (both (tagIs "p") (cls "additional-info")) (wrap t el) in
  if negb (Nat.eqb (List.length (info t0)) 0) then
    let t1 := setText questionMark (wrap t0 el) t0 in
    let '(t2, r) := removeAll (info t1) t1 in
    (t2, then_ (emptied (wrap t0 el)) r)
  else
    let '(t1, r) :=
      forEachBack (insertBefore (parseHTML (helpMarkup t0 el help_text)))
        (wrap t0 el) t0 in
    (setText closeMark (moved r (wrap t0 el)) t1,
     then_ r (emptied (moved r (wrap t0 el)))).

End Help.

(** *** The filter lists (lines 229-234)

    The body of the [each], [this] being one of the lists, and the loop
    over the lists found when it starts. *)

Definition initFilterList (this : path) : stmt := fun t =>
  let links t := children t (tagIs "a") [this] in
  if (5 <? List.length (links t))%nat then
    let t1 :=
      on (fun t => slice (links t) 5 (List.length (links t))) (setHidden true) t in
    append_at [showAll (List.length (links t1))] this t1
  else t.

Definition initFilterLists : stmt := fun t =>
  fold_left (fun t this => initFilterList this t) (query t (cls "filter-list")) t.

Definition filterOptionsOf (t : node) (target : path) : list path :=
  siblings t (cls "checkbox-anchor") (wrap t target).

Section Search.

(** [String.prototype.toLowerCase] *)
Variable toLowerCase : string -> string.

Definition onSearchKeyup (filterOptions : list path) (target : path) (t0 : node)
    : tracked :=
  let query := toLowerCase (valAt t0 target) in
  let fieldset t S := closest t (tagIs "fieldset") S in
  if String.eqb query EmptyString then
    let t1 :=
      (on (fun _ => slice filterOptions 0 5) (setHidden false) ;;
       on (fun _ => slice filterOptions 6 (List.length filterOptions))
          (setHidden true)) t0 in
    let '(t2, r) :=
      removeAll (children t1 (cls "show-more") (fieldset t1 (wrap t1 target))) t1 in
    let fs := fieldset t2 (moved r (wrap t0 target)) in
    (appendEach [showAll (List.length (children t2 (tagIs "a") fs))] fs t2, r)
  else
    let t1 :=
      on (fun t => children t (both (tagIs "button") (cls "show-more"))
                     (fieldset t (wrap t target)))
         (setHidden true) t0 in
    (fold_left
       (fun t o =>
          on (fun _ => [o])
             (setHidden (negb (JS.includes (toLowerCase (textAt t o)) query))) t)
       filterOptions t1,
     Some).

End Search.

End Page.

(** Pages for the examples of the other handlers. *)
Module PageDemo.
Import DOM Demo.

(** A record form with its log dialogue, which holds one required
    control and the cancel button. *)
Definition recordPage : node :=
  el "body" [] []
    [ el "form" [("id", "record-form")] []
        [ el "input" [("type", "text"); ("name", "title"); ("required", EmptyString)] [] [];
          el "div" [("id", "log-modal")] ["modal"]
            [ el "textarea" [("name", "log"); ("required", EmptyString)] [] [];
              el "input" [("type", "text"); ("name", "note")] [] [];
              el "button" [] ["modal-cancel"] [Text "Cancel"] ] ] ].

(** A section with a header that holds the toggle, and its body. *)
Definition sectionPage : node :=
  el "div" [] ["series-level"]
    [ el "div" [] ["fieldset-header"]
        [ el "button" [] ["toggle-tab-button"] [Text "Names"] ];
      el "div" [] ["fieldset-body"; "expand"] [Text "..."] ].

(** A form with an open help text beside its button. *)
Definition helpPage : node :=
  el "form" [] []
    [ el "label" [] []
        [ Text "Title";
          el "p" [] ["additional-info"] [Text "The title of the record."];
          el "a" [("role", "button")] [] [Text "x"] ];
      el "input" [("type", "text"); ("name", "title")] [] [] ].

(** A hierarchy with one section inside a series and one outside, both
    expanded, and the button that expands or collapses all. *)
Definition hierarchyPage : node :=
  el "div" [] ["collections-level"]
    [ el "button" [] [] [Text "Collapse all"];
      el "div" [] ["fieldset-body"; "expand"] [Text "collection"];
      el "div" [] ["series-level"]
        [ el "div" [] ["fieldset-body"; "expand"] [Text "series"] ] ].

(** An inline form: the header with a flag and the delete button in its
    label, and the deletable body with the DELETE checkbox. *)
Definition inlinePage : node :=
  el "fieldset" [("data-form-type", "name")] ["border-left"]
    [ el "div" [] ["fieldset-header"]
        [ el "div" [] []
            [ control "checkbox" "names-0-preferred" [] true ];
          el "div" [] []
            [ el "label" [] ["danger"]
                [ el "input" [("type", "button"); ("value", "x")] [] [] ] ] ];
      el "div" [] ["fieldset-body"; "inline-deletable"]
        [ textInput "names-0-display_name";
          el "div" [] ["inline-delete-form-field"]
            [ control "checkbox" "names-0-DELETE" [] false ] ] ].

(** Its delete button. *)
Definition inlineButton : path := [0; 1; 0; 0].

(** An inline form whose header is the deletable part and holds the
    DELETE checkbox, and its delete button. *)
Definition headerDeletePage : node :=
  el "fieldset" [("data-form-type", "name")] []
    [ el "div" [] ["fieldset-header"; "inline-deletable"]
        [ el "div" [] []
            [ el "label" [] ["danger"]
                [ el "input" [("type", "button"); ("value", "x")] [] [] ] ];
          el "div" [] ["inline-delete-form-field"]
            [ control "checkbox" "names-0-DELETE" [] false ] ] ].

Definition headerButton : path := [0; 0; 0; 0].

(** A row of the users table: the cell with the delete link, two more
    cells, and the cell with the DELETE checkbox. *)
Definition usersPage : node :=
  el "table" [] []
    [ el "tr" [("data-form-type", "user")] []
        [ el "td" [] []
            [ el "a" [("onclick", "deleteRow(this)")] [] [Text "Delete"] ];
          el "td" [] [] [Text "ada"];
          el "td" [("colspan", "2")] [] [Text "ada@example.org"];
          el "td" [] ["delete-form-field"]
            [ control "checkbox" "form-0-DELETE" [] false ] ] ].

(** Its delete link. *)
Definition rowLink : path := [0; 0; 0].

(** A filter with its search box, seven options of which the last is
    hidden, and the button that shows all. *)
Definition filterPage : node :=
  update_all (setHidden true) [[7]]
    (el "fieldset" [] ["filter-list"]
       [ el "input" [("type", "search")] ["instant-search"] [];
         el "a" [] ["checkbox-anchor"] [Text "Charter"];
         el "a" [] ["checkbox-anchor"] [Text "Diary"];
         el "a" [] ["checkbox-anchor"] [Text "Ledger"];
         el "a" [] ["checkbox-anchor"] [Text "Letter"];
         el "a" [] ["checkbox-anchor"] [Text "Map"];
         el "a" [] ["checkbox-anchor"] [Text "Receipt"];
         el "a" [] ["checkbox-anchor"] [Text "Warrant"];
         Page.showAll 7 ]).

(** Its search box. *)
Definition searchBox : path := [0].

(** The filter as the server sends it: all options shown, no button. *)
Definition freshFilter : node :=
  el "fieldset" [] ["filter-list"]
    [ el "a" [] [] [Text "Charter"];
      el "a" [] [] [Text "Diary"];
      el "a" [] [] [Text "Ledger"];
      el "a" [] [] [Text "Letter"];
      el "a" [] [] [Text "Map"];
      el "a" [] [] [Text "Receipt"];
      el "a" [] [] [Text "Warrant"] ].

(** [toLowerCase] on texts in ASCII. *)
Definition lowerChar (a : Ascii.ascii) : Ascii.ascii :=
  let n := Ascii.nat_of_ascii a in
  if ((65 <=? n) && (n <=? 90))%nat then Ascii.ascii_of_nat (n + 32) else a.

Fixpoint asciiLower (s : string) : string :=
  match s with
  | EmptyString => EmptyString
  | String a s' => String (lowerChar a) (asciiLower s')
  end.

End PageDemo.

(* ==== PROOFS ==== *)

Unset Implicit Arguments.

(** * Properties of the tree operations *)

Module DOMFacts.
Import DOM JQ.

#[local] Arguments path_eq_dec : simpl never.

Ltac case_path :=
  repeat match goal with
         | |- context [path_eq_dec ?a ?b] => destruct (path_eq_dec a b)
         end.

Lemma nth_error_alter_nth {A} (f : A -> A) (i j : nat) (l : list A) :
  nth_error (alter_nth f i l) j =
  if Nat.eq_dec i j then option_map f (nth_error l j) else nth_error l j.
Proof.
  revert i j; induction l as [|x l IH]; intros i j.
  - destruct (Nat.eq_dec i j); destruct i, j; reflexivity.
  - destruct i as [|i], j as [|j]; simpl; try reflexivity.
    + rewrite IH. destruct (Nat.eq_dec i j), (Nat.eq_dec (S i) (S j));
        try reflexivity; lia.
Qed.

Lemma map_alter_nth {A B} (g : A -> B) (f : A -> A) (i : nat) (l : list A) :
  (forall x, nth_error l i = Some x -> g (f x) = g x) ->
  map g (alter_nth f i l) = map g l.
Proof.
  revert i; induction l as [|x l IH]; intros i H; destruct i; simpl; trivial.
  - rewrite (H x eq_refl); reflexivity.
  - rewrite IH; auto.
Qed.

(** A data update leaves the shape of the tree alone. *)
Lemma subpaths_alter_data (f : edata -> edata) (p : path) (t : node) :
  subpaths (alter_at (on_data f) p t) = subpaths t.
Proof.
  revert t; induction p as [|i p IH]; intros [s|d ks]; simpl; trivial.
  rewrite map_alter_nth; auto.
Qed.

Lemma data_at_alter_data (f : edata -> edata) (p q : path) (t : node) :
  data_at (alter_at (on_data f) p t) q =
  if path_eq_dec p q then option_map f (data_at t q) else data_at t q.
Proof.
  unfold data_at.
  revert t q; induction p as [|i p IH]; intros t q.
  - destruct t as [s|d ks], q as [|j q]; simpl; case_path;
      trivial; try discriminate; try congruence.
  - destruct t as [s|d ks].
    + simpl. destruct q; simpl; case_path; trivial.
    + destruct q as [|j q]; simpl.
      * case_path; trivial; discriminate.
      * rewrite nth_error_alter_nth.
        destruct (Nat.eq_dec i j) as [->|ne].
        -- destruct (nth_error ks j) as [k|]; simpl.
           ++ rewrite IH. case_path; trivial; congruence.
           ++ case_path; trivial.
        -- case_path; [congruence|trivial].
Qed.

Lemma subpaths_update_all f S t : subpaths (update_all f S t) = subpaths t.
Proof.
  unfold update_all. revert t; induction S as [|p S IH]; intros t; simpl; trivial.
  rewrite IH. apply subpaths_alter_data.
Qed.

Lemma mem_true p S : mem p S = true <-> In p S.
Proof.
  unfold mem; destruct (in_dec _ _ _); split; intros; trivial;
    try discriminate; tauto.
Qed.

Lemma mem_false p S : mem p S = false <-> ~ In p S.
Proof.
  unfold mem; destruct (in_dec _ _ _); split; intros; trivial; try discriminate; tauto.
Qed.

(** Elements outside [S] keep their data. *)
Lemma data_at_update_out f S t q :
  ~ In q S -> data_at (update_all f S t) q = data_at t q.
Proof.
  unfold update_all. revert t; induction S as [|p S IH]; intros t H; simpl; trivial.
  rewrite IH by (intro; apply H; right; trivial).
  rewrite data_at_alter_data. destruct (path_eq_dec p q); trivial.
  exfalso; apply H; left; trivial.
Qed.

(** Elements of [S] get [f], once when [S] has no repetition. *)
Lemma data_at_update_in f S t q :
  NoDup S -> In q S -> data_at (update_all f S t) q = option_map f (data_at t q).
Proof.
  unfold update_all. revert t; induction S as [|p S IH]; intros t ND H; simpl.
  - destruct H.
  - inversion ND as [|? ? Hnot ND']; subst.
    destruct (path_eq_dec p q) as [->|ne].
    + fold (update_all f S (alter_at (on_data f) q t)).
      rewrite data_at_update_out by trivial.
      rewrite data_at_alter_data. destruct (path_eq_dec q q); congruence.
    + destruct H as [H|H]; [congruence|].
      rewrite IH by trivial. rewrite data_at_alter_data.
      destruct (path_eq_dec p q); congruence.
Qed.

(** An idempotent update needs no such condition. *)
Lemma data_at_update_idem f S t q :
  (forall d, f (f d) = f d) ->
  In q S -> data_at (update_all f S t) q = option_map f (data_at t q).
Proof.
  intros Hf. unfold update_all.
  revert t; induction S as [|p S IH]; intros t H; simpl.
  - destruct H.
  - destruct (in_dec path_eq_dec q S) as [Hin|Hout].
    + rewrite IH by trivial. rewrite data_at_alter_data.
      destruct (path_eq_dec p q); trivial.
      destruct (data_at t q); simpl; congruence.
    + fold (update_all f S (alter_at (on_data f) p t)).
      rewrite data_at_update_out by trivial.
      rewrite data_at_alter_data.
      destruct H as [->|H]; [|tauto].
      destruct (path_eq_dec q q); congruence.
Qed.

End DOMFacts.

(** * Properties of the traversals *)

Module JQFacts.
Import DOM JQ Handlers DOMFacts.

#[local] Arguments path_eq_dec : simpl never.

Lemma path_eqb_true p q : path_eqb p q = true <-> p = q.
Proof.
  unfold path_eqb; destruct (path_eq_dec p q); split; intros; trivial;
    try discriminate; tauto.
Qed.

Lemma path_eqb_refl p : path_eqb p p = true.
Proof. apply path_eqb_true; trivial. Qed.

Lemma is_prefix_spec p q : is_prefix p q = true <-> exists r, q = p ++ r.
Proof.
  revert q; induction p as [|i p IH]; intros q; simpl.
  - split; eauto.
  - destruct q as [|j q].
    + split; [discriminate | intros [r H]; discriminate].
    + rewrite andb_true_iff, Nat.eqb_eq, IH. split.
      * intros [-> [r ->]]; eauto.
      * intros [r H]; injection H as -> ->; eauto.
Qed.

Lemma above_spec p q :
  above p q = true <-> exists i r, q = p ++ i :: r.
Proof.
  unfold above. rewrite andb_true_iff, is_prefix_spec, negb_true_iff, Nat.eqb_neq.
  split.
  - intros [[r ->] H]. destruct r as [|i r]; eauto.
    rewrite app_nil_r in H; tauto.
  - intros (i & r & ->). split; eauto.
    rewrite length_app; simpl; lia.
Qed.

Lemma above_irrefl p : above p p = false.
Proof.
  unfold above. rewrite Nat.eqb_refl. apply andb_false_r.
Qed.

Lemma number_from_In i ls q :
  In q (number_from i ls) <->
  exists j q' l, q = j :: q' /\ i <= j /\ nth_error ls (j - i) = Some l /\ In q' l.
Proof.
  revert i; induction ls as [|l ls IH]; intros i; simpl.
  - split; [tauto|]. intros (j & q' & l & _ & _ & H & _).
    destruct (j - i); discriminate.
  - rewrite in_app_iff, in_map_iff, IH. split.
    + intros [(q' & <- & H)|(j & q' & l' & -> & Hle & Hn & H)].
      * exists i, q', l. rewrite Nat.sub_diag. auto.
      * exists j, q', l'. replace (j - i) with (S (j - S i)) by lia.
        repeat split; trivial; lia.
    + intros (j & q' & l' & -> & Hle & Hn & H).
      destruct (Nat.eq_dec i j) as [->|ne].
      * rewrite Nat.sub_diag in Hn. injection Hn as ->. left; eauto.
      * right. exists j, q', l'. replace (j - i) with (S (j - S i)) in Hn by lia.
        repeat split; trivial; lia.
Qed.

(** The enumeration lists exactly the paths that lead to an element. *)
Lemma subpaths_spec t q : In q (subpaths t) <-> exists d, data_at t q = Some d.
Proof.
  unfold data_at.
  revert t; induction q as [|i q IH]; intros [s|d ks]; simpl.
  - split; [tauto | intros [d H]; discriminate].
  - split; eauto.
  - split; [tauto | intros [d H]; discriminate].
  - split.
    + intros [H|H]; [discriminate|].
      apply number_from_In in H as (j & q' & l & E & _ & Hn & H).
      injection E as -> ->. rewrite Nat.sub_0_r, nth_error_map in Hn.
      destruct (nth_error ks j) as [k|]; [|discriminate].
      injection Hn as <-. apply IH; trivial.
    + intros H. right. apply number_from_In.
      destruct (nth_error ks i) as [k|] eqn:E; [|destruct H; discriminate].
      exists i, q, (subpaths k). rewrite Nat.sub_0_r, nth_error_map, E.
      repeat split; trivial; [lia|]. apply IH; trivial.
Qed.

Lemma matches_elem t sel q : matches t sel q = true -> In q (subpaths t).
Proof.
  unfold matches; intros H. apply subpaths_spec.
  destruct (data_at t q); [eauto|discriminate].
Qed.

Lemma select_In t R q : In q (select t R) <-> In q (subpaths t) /\ R q = true.
Proof. apply filter_In. Qed.

Lemma wrap_In t p q : In q (wrap t p) <-> q = p /\ In p (subpaths t).
Proof.
  unfold wrap. rewrite select_In, path_eqb_true. split.
  - intros [H <-]; auto.
  - intros [-> H]; auto.
Qed.

(** The ancestors of an element are elements. *)
Lemma get_app t p r : get t (p ++ r) =
  match get t p with Some n => get n r | None => None end.
Proof.
  revert t; induction p as [|i p IH]; intros t; simpl; trivial.
  destruct t as [s|d ks]; trivial.
  destruct (nth_error ks i); trivial.
Qed.

Lemma prefix_elem t p r : In (p ++ r) (subpaths t) -> In p (subpaths t).
Proof.
  rewrite !subpaths_spec. unfold data_at. rewrite get_app.
  intros [d H]. destruct (get t p) as [[s|d' ks]|]; eauto;
    destruct r; simpl in H; discriminate.
Qed.

(** *** Traversals after a data update

    A traversal reads the shape of the tree and the selector on each
    element; an update that changes neither gives the same result. *)

Definition stable (sel : selector) (f : edata -> edata) : Prop :=
  forall d, sel (f d) = sel d.

Definition agree (sel : selector) (t t' : node) : Prop :=
  forall q, matches t sel q = matches t' sel q.

Lemma agree_update sel f S t : stable sel f -> agree sel (update_all f S t) t.
Proof.
  intros Hf q. unfold update_all.
  revert t; induction S as [|p S IH]; intros t; simpl; trivial.
  rewrite IH. unfold matches. rewrite data_at_alter_data.
  destruct (path_eq_dec p q); trivial.
  destruct (data_at t q); simpl; auto.
Qed.

Lemma existsb_ext {A} (f g : A -> bool) (l : list A) :
  (forall x, f x = g x) -> existsb f l = existsb g l.
Proof. intros H; induction l; simpl; congruence. Qed.

Section Ext.
Variables (t t' : node) (sel : selector).
Hypothesis shape : subpaths t = subpaths t'.
Hypothesis same : agree sel t t'.

Lemma query_ext : query t sel = query t' sel.
Proof. unfold query, select. rewrite shape. apply filter_ext, same. Qed.

Lemma find_ext S : find t sel S = find t' sel S.
Proof.
  unfold find, select. rewrite shape. apply filter_ext; intros q.
  rewrite same; trivial.
Qed.

Lemma children_ext S : children t sel S = children t' sel S.
Proof.
  unfold children, select. rewrite shape. apply filter_ext; intros q.
  rewrite same; trivial.
Qed.

Lemma parent_ext S : parent t sel S = parent t' sel S.
Proof.
  unfold parent, select. rewrite shape. apply filter_ext; intros q.
  rewrite same; trivial.
Qed.

Lemma parents_ext S : parents t sel S = parents t' sel S.
Proof.
  unfold parents, select. rewrite shape. f_equal. apply filter_ext; intros q.
  rewrite same; trivial.
Qed.

Lemma siblings_ext S : siblings t sel S = siblings t' sel S.
Proof.
  unfold siblings, select. rewrite shape. apply filter_ext; intros q.
  rewrite same; trivial.
Qed.

Lemma closest1_ext p : closest1 t sel p = closest1 t' sel p.
Proof.
  unfold closest1. induction (rev p) as [|i rp IH]; simpl; rewrite same; trivial.
  rewrite IH; trivial.
Qed.

Lemma closest_ext S : closest t sel S = closest t' sel S.
Proof.
  unfold closest, select. rewrite shape. apply filter_ext; intros q.
  apply existsb_ext; intros p. rewrite closest1_ext; trivial.
Qed.

Lemma next_sibling_ext p : next_sibling t p = next_sibling t' p.
Proof. unfold next_sibling, select. rewrite shape; trivial. Qed.

Lemma next_ext S : next t sel S = next t' sel S.
Proof.
  unfold next, select. rewrite shape. apply filter_ext; intros q.
  rewrite same. f_equal. apply existsb_ext; intros p.
  rewrite next_sibling_ext; trivial.
Qed.

End Ext.

Lemma wrap_ext t t' p : subpaths t = subpaths t' -> wrap t p = wrap t' p.
Proof. unfold wrap, select; intros ->; trivial. Qed.

(** What a data update does to each element, when applying it twice is
    the same as applying it once. *)
Lemma data_at_update f S t q :
  (forall d, f (f d) = f d) ->
  data_at (update_all f S t) q =
  option_map (fun d => if mem q S then f d else d) (data_at t q).
Proof.
  intros Hf. destruct (mem q S) eqn:E.
  - apply mem_true in E. apply data_at_update_idem; trivial.
  - apply mem_false in E. rewrite data_at_update_out by trivial.
    destruct (data_at t q); trivial.
Qed.

(** A component of the data that the update does not write is kept. *)
Lemma proj_update {A} (pr : edata -> A) f S t q :
  (forall d, pr (f d) = pr d) ->
  option_map pr (data_at (update_all f S t) q) = option_map pr (data_at t q).
Proof.
  intros Hf. unfold update_all.
  revert t; induction S as [|p S IH]; intros t; simpl; trivial.
  rewrite IH, data_at_alter_data. destruct (path_eq_dec p q); trivial.
  destruct (data_at t q); simpl; congruence.
Qed.

Lemma closest_from_some t sel rp c :
  closest_from t sel rp = Some c ->
  matches t sel c = true /\ is_prefix c (rev rp) = true.
Proof.
  induction rp as [|i rp IH]; simpl.
  - destruct (matches t sel []) eqn:E; [|discriminate].
    intros H; injection H as <-; auto.
  - destruct (matches t sel (rev rp ++ [i])) eqn:E.
    + intros H; injection H as <-. split; trivial.
      apply is_prefix_spec. exists []. rewrite app_nil_r; trivial.
    + intros H. apply IH in H as [H1 H2]. split; trivial.
      apply is_prefix_spec in H2 as [r ->]. apply is_prefix_spec.
      exists (r ++ [i]). rewrite app_assoc; trivial.
Qed.

Lemma closest1_some t sel p c :
  closest1 t sel p = Some c -> matches t sel c = true /\ is_prefix c p = true.
Proof.
  unfold closest1; intros H. apply closest_from_some in H.
  rewrite rev_involutive in H; trivial.
Qed.

(** The nearest match is a proper ancestor when the element itself does
    not match. *)
Lemma closest1_above t sel p c :
  closest1 t sel p = Some c -> matches t sel p = false -> above c p = true.
Proof.
  intros H Hp. apply closest1_some in H as [Hc Hpre].
  unfold above. rewrite Hpre; simpl.
  apply negb_true_iff, Nat.eqb_neq. intros E.
  apply is_prefix_spec in Hpre as [r ->].
  rewrite length_app in E. destruct r; [|simpl in E; lia].
  rewrite app_nil_r in Hp; congruence.
Qed.

Lemma closest_single t sel p q :
  In q (closest t sel (wrap t p)) <->
  In p (subpaths t) /\ closest1 t sel p = Some q.
Proof.
  unfold closest. rewrite select_In, existsb_exists. split.
  - intros [Hq (x & Hx & H)]. apply wrap_In in Hx as [-> Hp].
    destruct (closest1 t sel p) as [c|]; [|discriminate].
    apply path_eqb_true in H as ->; auto.
  - intros [Hp H]. split.
    + apply closest1_some in H as [H _]. eapply matches_elem; eauto.
    + exists p. rewrite H, path_eqb_refl. split; trivial.
      apply wrap_In; auto.
Qed.

Lemma same_parent_spec p q :
  same_parent p q = true <-> exists r i j, p = r ++ [i] /\ q = r ++ [j].
Proof.
  unfold same_parent, parent_of. split.
  - destruct p as [|a p]; [discriminate|]. destruct q as [|b q]; [discriminate|].
    intros H; apply path_eqb_true in H.
    exists (removelast (a :: p)), (List.last (a :: p) 0), (List.last (b :: q) 0).
    split; [|rewrite H]; apply app_removelast_last; discriminate.
  - intros (r & i & j & -> & ->).
    destruct (r ++ [i]) eqn:E1; [destruct r; discriminate|].
    destruct (r ++ [j]) eqn:E2; [destruct r; discriminate|].
    rewrite <- E1, <- E2, !removelast_last. apply path_eqb_refl.
Qed.

(** Nothing lies below two different siblings. *)
Lemma siblings_disjoint p q x :
  same_parent p q = true -> p <> q -> above q x = true -> above p x = false.
Proof.
  intros H ne Hq. apply same_parent_spec in H as (r & i & j & -> & ->).
  apply above_spec in Hq as (a & s & ->).
  destruct (above _ _) eqn:E; trivial.
  apply above_spec in E as (b & s' & E).
  rewrite <- !app_assoc in E. apply app_inv_head in E.
  simpl in E. injection E as -> _. tauto.
Qed.

Lemma firstn_In {A} n (l : list A) x : In x (firstn n l) -> In x l.
Proof.
  revert l; induction n as [|n IH]; intros [|y l]; simpl; try tauto.
  intros [->|H]; auto.
Qed.

Lemma byId_elem t i p : In p (byId t i) -> In p (subpaths t).
Proof.
  unfold byId. intros H. apply firstn_In, select_In in H. tauto.
Qed.

(** The same, for the trees the handlers build. *)
Section AfterUpdate.
Variables (sel : selector) (f : edata -> edata) (U : list path) (t : node).
Hypothesis Hst : stable sel f.

Lemma wrap_update p : wrap (update_all f U t) p = wrap t p.
Proof. apply wrap_ext, subpaths_update_all. Qed.

Lemma matches_update q : matches (update_all f U t) sel q = matches t sel q.
Proof. apply agree_update; trivial. Qed.

Lemma query_update : query (update_all f U t) sel = query t sel.
Proof. apply query_ext; [apply subpaths_update_all | apply agree_update; trivial]. Qed.

Lemma find_update S : find (update_all f U t) sel S = find t sel S.
Proof. apply find_ext; [apply subpaths_update_all | apply agree_update; trivial]. Qed.

Lemma children_update S : children (update_all f U t) sel S = children t sel S.
Proof. apply children_ext; [apply subpaths_update_all | apply agree_update; trivial]. Qed.

Lemma parent_update S : parent (update_all f U t) sel S = parent t sel S.
Proof. apply parent_ext; [apply subpaths_update_all | apply agree_update; trivial]. Qed.

Lemma parents_update S : parents (update_all f U t) sel S = parents t sel S.
Proof. apply parents_ext; [apply subpaths_update_all | apply agree_update; trivial]. Qed.

Lemma siblings_update S : siblings (update_all f U t) sel S = siblings t sel S.
Proof. apply siblings_ext; [apply subpaths_update_all | apply agree_update; trivial]. Qed.

Lemma closest1_update p : closest1 (update_all f U t) sel p = closest1 t sel p.
Proof. apply closest1_ext, agree_update; trivial. Qed.

Lemma closest_update S : closest (update_all f U t) sel S = closest t sel S.
Proof. apply closest_ext; [apply subpaths_update_all | apply agree_update; trivial]. Qed.

Lemma next_update S : next (update_all f U t) sel S = next t sel S.
Proof. apply next_ext; [apply subpaths_update_all | apply agree_update; trivial]. Qed.

End AfterUpdate.

(** And for a statement. *)
Section AfterStatement.
Variables (sel : selector) (f : edata -> edata) (S : node -> list path) (t : node).
Hypothesis Hst : stable sel f.

Lemma subpaths_on : subpaths (on S f t) = subpaths t.
Proof. apply subpaths_update_all. Qed.

Lemma wrap_on p : wrap (on S f t) p = wrap t p.
Proof. apply wrap_update. Qed.

Lemma matches_on q : matches (on S f t) sel q = matches t sel q.
Proof. apply matches_update; trivial. Qed.

Lemma query_on : query (on S f t) sel = query t sel.
Proof. apply query_update; trivial. Qed.

Lemma find_on X : find (on S f t) sel X = find t sel X.
Proof. apply find_update; trivial. Qed.

Lemma children_on X : children (on S f t) sel X = children t sel X.
Proof. apply children_update; trivial. Qed.

Lemma parent_on X : parent (on S f t) sel X = parent t sel X.
Proof. apply parent_update; trivial. Qed.

Lemma parents_on X : parents (on S f t) sel X = parents t sel X.
Proof. apply parents_update; trivial. Qed.

Lemma siblings_on X : siblings (on S f t) sel X = siblings t sel X.
Proof. apply siblings_update; trivial. Qed.

Lemma closest_on X : closest (on S f t) sel X = closest t sel X.
Proof. apply closest_update; trivial. Qed.

Lemma next_on X : next (on S f t) sel X = next t sel X.
Proof. apply next_update; trivial. Qed.

Lemma is_on X : is_ (on S f t) sel X = is_ t sel X.
Proof.
  unfold is_. apply existsb_ext. intros q. apply matches_on.
Qed.

End AfterStatement.

End JQFacts.

(** * Classes and visibility *)

Module ClassFacts.
Import DOM JQ Sel Handlers DOMFacts JQFacts.

Lemma hasClass_addClass c d : hasClass c (addClass c d) = true.
Proof.
  unfold addClass. destruct (hasClass c d) eqn:E; trivial.
  unfold hasClass; simpl. rewrite existsb_app; simpl.
  rewrite String.eqb_refl, orb_true_r; trivial.
Qed.

Lemma hasClass_addClass_other c c' d :
  c <> c' -> hasClass c (addClass c' d) = hasClass c d.
Proof.
  intros ne. unfold addClass. destruct (hasClass c' d); trivial.
  unfold hasClass; simpl. rewrite existsb_app; simpl.
  apply String.eqb_neq in ne. rewrite ne, !orb_false_r; trivial.
Qed.

Lemma hasClass_removeClass c d : hasClass c (removeClass c d) = false.
Proof.
  unfold hasClass, removeClass; simpl.
  induction (classes d) as [|x l IH]; simpl; trivial.
  destruct (String.eqb c x) eqn:E; simpl; trivial. rewrite E; trivial.
Qed.

Lemma hasClass_removeClass_other c c' d :
  c <> c' -> hasClass c (removeClass c' d) = hasClass c d.
Proof.
  intros ne. unfold hasClass, removeClass; simpl.
  induction (classes d) as [|x l IH]; simpl; trivial.
  destruct (String.eqb c' x) eqn:E; simpl; [|congruence].
  apply String.eqb_eq in E as <-. apply String.eqb_neq in ne.
  rewrite ne; trivial.
Qed.

Lemma hasClass_toggleClass c d : hasClass c (toggleClass c d) = negb (hasClass c d).
Proof.
  unfold toggleClass. destruct (hasClass c d) eqn:E.
  - apply hasClass_removeClass.
  - rewrite <- E at 1. unfold addClass. rewrite E.
    unfold hasClass; simpl. rewrite existsb_app; simpl.
    rewrite String.eqb_refl, orb_true_r; trivial.
Qed.

Lemma hasClass_toggleClass_other c c' d :
  c <> c' -> hasClass c (toggleClass c' d) = hasClass c d.
Proof.
  intros ne. unfold toggleClass. destruct (hasClass c' d).
  - apply hasClass_removeClass_other; trivial.
  - apply hasClass_addClass_other; trivial.
Qed.

Lemma addClass_idem c d : addClass c (addClass c d) = addClass c d.
Proof.
  unfold addClass at 1. rewrite hasClass_addClass; trivial.
Qed.

Lemma removeClass_idem c d : removeClass c (removeClass c d) = removeClass c d.
Proof.
  unfold removeClass; simpl. unfold setClasses; simpl. f_equal.
  induction (classes d) as [|x l IH]; simpl; trivial.
  destruct (String.eqb c x) eqn:E; simpl; trivial. rewrite E; simpl; congruence.
Qed.

Lemma setHidden_idem b d : setHidden b (setHidden b d) = setHidden b d.
Proof. reflexivity. Qed.

(** The class selectors of the handlers are not disturbed by a change
    of another class. *)
Lemma cls_stable_add c c' : c <> c' -> stable (cls c) (addClass c').
Proof. intros ne d; apply hasClass_addClass_other; trivial. Qed.

Lemma cls_stable_remove c c' : c <> c' -> stable (cls c) (removeClass c').
Proof. intros ne d; apply hasClass_removeClass_other; trivial. Qed.

Lemma cls_stable_toggle c c' : c <> c' -> stable (cls c) (toggleClass c').
Proof. intros ne d; apply hasClass_toggleClass_other; trivial. Qed.

Lemma stable_both a b f : stable a f -> stable b f -> stable (both a b) f.
Proof. intros Ha Hb d; unfold both; rewrite Ha, Hb; trivial. Qed.

(** Selectors on the tag, the attributes and the checked state do not
    see class changes, nor [.show()] and [.hide()]. *)
Ltac stable_basic :=
  intros ?; unfold toggleClass, addClass, removeClass;
  repeat match goal with
         | |- context [if ?c then _ else _] => destruct c
         end; reflexivity.

Ltac solve_stable :=
  repeat apply stable_both;
  first [ apply cls_stable_add; discriminate
        | apply cls_stable_remove; discriminate
        | apply cls_stable_toggle; discriminate
        | stable_basic ].

(** *** One class, or the checked state, across an update *)

Lemma class_at_add c S t q :
  class_at c (update_all (addClass c) S t) q =
  option_map (fun b => mem q S || b) (class_at c t q).
Proof.
  unfold class_at. rewrite data_at_update by apply addClass_idem.
  destruct (data_at t q); simpl; trivial. destruct (mem q S); simpl; trivial.
  rewrite hasClass_addClass; trivial.
Qed.

Lemma class_at_remove c S t q :
  class_at c (update_all (removeClass c) S t) q =
  option_map (fun b => negb (mem q S) && b) (class_at c t q).
Proof.
  unfold class_at. rewrite data_at_update by apply removeClass_idem.
  destruct (data_at t q); simpl; trivial. destruct (mem q S); simpl; trivial.
  rewrite hasClass_removeClass; trivial.
Qed.

Lemma class_at_other c f S t q :
  stable (cls c) f -> class_at c (update_all f S t) q = class_at c t q.
Proof. intros H. apply proj_update. apply H. Qed.

Lemma checked_at_set v S t q :
  checked_at (update_all (setChecked v) S t) q =
  option_map (fun b => if mem q S then v else b) (checked_at t q).
Proof.
  unfold checked_at. rewrite data_at_update by reflexivity.
  destruct (data_at t q); simpl; trivial. destruct (mem q S); trivial.
Qed.

Lemma checked_at_other f S t q :
  stable checked f -> checked_at (update_all f S t) q = checked_at t q.
Proof. intros H. apply proj_update. apply H. Qed.

Lemma proj_on {A} (pr : edata -> A) f S t q :
  (forall d, pr (f d) = pr d) ->
  option_map pr (data_at (on S f t) q) = option_map pr (data_at t q).
Proof. apply proj_update. Qed.

Lemma data_at_on f S t q :
  (forall d, f (f d) = f d) ->
  data_at (on S f t) q =
  option_map (fun d => if mem q (S t) then f d else d) (data_at t q).
Proof. apply data_at_update. Qed.

Lemma class_at_add_on c S t q :
  class_at c (on S (addClass c) t) q =
  option_map (fun b => mem q (S t) || b) (class_at c t q).
Proof. apply class_at_add. Qed.

Lemma class_at_remove_on c S t q :
  class_at c (on S (removeClass c) t) q =
  option_map (fun b => negb (mem q (S t)) && b) (class_at c t q).
Proof. apply class_at_remove. Qed.

Lemma class_at_other_on c f S t q :
  stable (cls c) f -> class_at c (on S f t) q = class_at c t q.
Proof. apply class_at_other. Qed.

Lemma checked_at_set_on v S t q :
  checked_at (on S (setChecked v) t) q =
  option_map (fun b => if mem q (S t) then v else b) (checked_at t q).
Proof. apply checked_at_set. Qed.

Lemma checked_at_other_on f S t q :
  stable checked f -> checked_at (on S f t) q = checked_at t q.
Proof. apply checked_at_other. Qed.

(** Bring the traversals back to the tree the handler started from. *)
Ltac to_start :=
  cbv beta;
  repeat first
    [ rewrite wrap_on
    | rewrite is_on by solve_stable
    | rewrite query_on by solve_stable
    | rewrite closest_on by solve_stable
    | rewrite next_on by solve_stable
    | rewrite children_on by solve_stable
    | rewrite parent_on by solve_stable
    | rewrite parents_on by solve_stable
    | rewrite siblings_on by solve_stable
    | rewrite find_on by solve_stable ].

Lemma is_update sel f U t S :
  stable sel f -> is_ (update_all f U t) sel S = is_ t sel S.
Proof.
  intros H. unfold is_. apply existsb_ext. intros q.
  apply matches_update; trivial.
Qed.

End ClassFacts.

(** * The preferred and authorised flags *)

Module FlagFacts.
Import DOM JQ Sel Handlers DOMFacts JQFacts ClassFacts.

Lemma setChecked_idem b d : setChecked b (setChecked b d) = setChecked b d.
Proof. reflexivity. Qed.

Lemma flag_not_fieldset t name q :
  matches t (flagInput name) q = true -> matches t (tagIs "fieldset") q = false.
Proof.
  unfold matches, flagInput, both, tagIs.
  destruct (data_at t q) as [d|]; trivial.
  intros H. apply andb_true_iff in H as [H _].
  apply String.eqb_eq in H. rewrite H. reflexivity.
Qed.

(** The controls that the second step of a handler checks: those of the
    clicked row. *)
Lemma clicked_in_row t name target R :
  matches t (flagInput name) target = true ->
  closest1 t (tagIs "fieldset") target = Some R ->
  In target (find t (flagInput name) (closest t (tagIs "fieldset") (wrap t target))).
Proof.
  intros Hm HR. unfold find. apply select_In. split.
  - eapply matches_elem; eauto.
  - rewrite Hm, andb_true_r. apply existsb_exists. exists R. split.
    + apply closest_single. split; trivial. eapply matches_elem; eauto.
    + eapply closest1_above; eauto. eapply flag_not_fieldset; eauto.
Qed.

Lemma stable_checked sel b :
  (forall d c, sel (setChecked c d) = sel d) -> stable sel (setChecked b).
Proof. intros H d; apply H. Qed.

(** The elements a handler unchecks (the flagged, checked controls of
    [rows]), then checks (the flagged controls of the clicked row). *)
Definition unchecked (t : node) (name : string) (rows : list path) : list path :=
  find t (both (flagInput name) isChecked) rows.

Definition rechecked (t : node) (name : string) (target : path) : list path :=
  find t (flagInput name) (closest t (tagIs "fieldset") (wrap t target)).

Definition after_click (t : node) (name : string) (target : path)
    (rows : list path) (q : path) (d : edata) : bool :=
  if mem q (rechecked t name target) then true
  else if mem q (unchecked t name rows) then false
  else checked d.

Ltac flag_steps :=
  unfold andThen, when; cbv beta zeta; to_start;
  match goal with
  | |- context [if ?c then _ else _] => destruct c
  end;
  rewrite ?checked_at_other_on by solve_stable;
  rewrite !checked_at_set_on; to_start;
  unfold after_click, rechecked, unchecked, checked_at;
  match goal with
  | |- context [data_at ?t ?q] => destruct (data_at t q); simpl; trivial
  end;
  repeat match goal with
         | |- context [mem ?a ?b] => destruct (mem a b)
         end; trivial.

Lemma preferredHandler_checked t target q :
  checked_at (preferredHandler target t) q =
  option_map (after_click t "preferred" target
                (siblings t any (parents t (tagIs "fieldset") (wrap t target))) q)
             (data_at t q).
Proof. unfold preferredHandler. flag_steps. Qed.

Lemma authorisedHandler_checked t target q :
  checked_at (authorisedHandler target t) q =
  option_map (after_click t "authorised" target
                (siblings t any (closest t (tagIs "fieldset") (wrap t target))) q)
             (data_at t q).
Proof. unfold authorisedHandler. flag_steps. Qed.

Section Row.
Variables (t : node) (name : string) (target R : path).
Hypothesis Hm : matches t (flagInput name) target = true.
Hypothesis HR : closest1 t (tagIs "fieldset") target = Some R.

Lemma target_elem : In target (subpaths t).
Proof. eapply matches_elem; eauto. Qed.

Lemma row_above : above R target = true.
Proof. eapply closest1_above; eauto. eapply flag_not_fieldset; eauto. Qed.

Lemma row_fieldset : matches t (tagIs "fieldset") R = true.
Proof. apply closest1_some in HR; tauto. Qed.

Lemma row_in_closest p :
  In p (closest t (tagIs "fieldset") (wrap t target)) <-> p = R.
Proof.
  rewrite closest_single, HR. split.
  - intros [_ H]; congruence.
  - intros ->; split; trivial. apply target_elem.
Qed.

Lemma row_in_parents : In R (parents t (tagIs "fieldset") (wrap t target)).
Proof.
  unfold parents. apply in_rev. rewrite rev_involutive. apply select_In. split.
  - eapply matches_elem, row_fieldset.
  - rewrite row_fieldset, andb_true_r. apply existsb_exists.
    exists target. split; [|apply row_above].
    apply wrap_In; split; trivial. apply target_elem.
Qed.

(** A sibling of the clicked row is among the rows the handler clears,
    whichever of the two ways it finds them. *)
Lemma sibling_in_rows rows S :
  In R rows -> same_parent R S = true -> S <> R -> In S (subpaths t) ->
  In S (siblings t any rows).
Proof.
  intros Hin Hs ne HS. unfold siblings. apply select_In. split; trivial.
  unfold any, matches. apply subpaths_spec in HS as [d ->].
  rewrite andb_true_r. apply existsb_exists. exists R. split; trivial.
  rewrite Hs. simpl. apply negb_true_iff.
  destruct (path_eqb R S) eqn:E; trivial. apply path_eqb_true in E; congruence.
Qed.

(** After the click, a flagged control of a sibling row is unchecked. *)
Lemma sibling_cleared rows S q d :
  In R rows -> same_parent R S = true -> S <> R -> above S q = true ->
  matches t (flagInput name) q = true -> data_at t q = Some d ->
  after_click t name target (siblings t any rows) q d = false.
Proof.
  intros Hin Hs ne Hq Hf Hd. unfold after_click.
  destruct (mem q (rechecked t name target)) eqn:E1.
  { apply mem_true in E1. unfold rechecked, find in E1.
    apply select_In in E1 as [_ E1]. apply andb_true_iff in E1 as [E1 _].
    apply existsb_exists in E1 as (p & Hp & Hab).
    apply row_in_closest in Hp as ->.
    rewrite (@siblings_disjoint R S q) in Hab; trivial; try discriminate.
    congruence. }
  destruct (mem q (unchecked t name (siblings t any rows))) eqn:E2; trivial.
  apply mem_false in E2. destruct (checked d) eqn:Ec; trivial.
  exfalso; apply E2. unfold unchecked, find. apply select_In. split.
  - eapply matches_elem; eauto.
  - apply andb_true_iff; split.
    + apply existsb_exists. exists S; split; trivial.
      apply sibling_in_rows; trivial.
      apply above_spec in Hq as (i & r & ->).
      eapply prefix_elem, matches_elem; eauto.
    + unfold matches, both, isChecked, both in *. rewrite Hd in *.
      rewrite Hf, Ec. unfold flagInput, both in Hf.
      apply andb_true_iff in Hf as [-> _]. reflexivity.
Qed.

End Row.

(** C9.  A click on a preferred (or authorised) control of a row leaves
    that control checked whatever its state was when the handler
    started: the handler checks every flagged control of the clicked
    fieldset, the clicked one included. *)
Theorem click_rechecks_flag (t : node) (target R : path) :
  closest1 t (tagIs "fieldset") target = Some R ->
  (matches t (flagInput "preferred") target = true ->
   checked_at (onPreferredClick target t) target = Some true) /\
  (matches t (flagInput "authorised") target = true ->
   checked_at (onAuthorisedClick target t) target = Some true).
Proof.
  intros HR. split; intros Hm.
  - unfold onPreferredClick. rewrite Hm, preferredHandler_checked.
    pose proof (@clicked_in_row _ _ _ _ Hm HR) as Hin.
    apply mem_true in Hin. unfold after_click, rechecked. 
    pose proof (@target_elem _ _ _ Hm) as He.
    apply subpaths_spec in He as [d ->]. simpl. rewrite Hin. trivial.
  - unfold onAuthorisedClick. rewrite Hm, authorisedHandler_checked.
    pose proof (@clicked_in_row _ _ _ _ Hm HR) as Hin.
    apply mem_true in Hin. unfold after_click, rechecked.
    pose proof (@target_elem _ _ _ Hm) as He.
    apply subpaths_spec in He as [d ->]. simpl. rewrite Hin. trivial.
Qed.

Lemma click_rechecks_flag_witness :
  checked_at Demo.names [0; 0] = Some true /\
  checked_at (onPreferredClick [0; 0] Demo.names) [0; 0] = Some true /\
  checked_at (onAuthorisedClick [0; 1] Demo.names) [0; 1] = Some true.
Proof.
  split; [reflexivity|]. split.
  - apply (proj1 (@click_rechecks_flag Demo.names [0; 0] [0] eq_refl)).
    reflexivity.
  - apply (proj2 (@click_rechecks_flag Demo.names [0; 1] [0] eq_refl)).
    reflexivity.
Defined.

(** Controls that do not carry the flag of a handler keep their state:
    the two flags do not interfere. *)
Lemma other_controls_kept t name target rows q d :
  matches t (flagInput name) q = false -> data_at t q = Some d ->
  after_click t name target rows q d = checked d.
Proof.
  intros Hq Hd. unfold after_click, rechecked, unchecked.
  destruct (mem q (find t (flagInput name) _)) eqn:E1.
  { apply mem_true, select_In in E1 as [_ E1].
    apply andb_true_iff in E1 as [_ E1]. congruence. }
  destruct (mem q (find t (both (flagInput name) isChecked) rows)) eqn:E2; trivial.
  apply mem_true, select_In in E2 as [_ E2].
  apply andb_true_iff in E2 as [_ E2].
  unfold matches, both in *. rewrite Hd in *.
  apply andb_true_iff in E2 as [E2 _]. congruence.
Qed.

(** C5.  Let [R] be the fieldset of the clicked control and [S] another
    fieldset-level sibling of [R].  After the preferred handler no
    preferred control inside [S] is checked, and after the authorised
    handler no authorised control inside [S] is checked; each handler
    leaves alone the controls that do not carry its flag. *)
Theorem flags_exclusive_among_siblings (t : node) (target R S q : path) :
  closest1 t (tagIs "fieldset") target = Some R ->
  same_parent R S = true -> S <> R -> above S q = true ->
  (matches t (flagInput "preferred") target = true ->
   (matches t (flagInput "preferred") q = true ->
    checked_at (onPreferredClick target t) q = Some false) /\
   (matches t (flagInput "preferred") q = false ->
    checked_at (onPreferredClick target t) q = checked_at t q)) /\
  (matches t (flagInput "authorised") target = true ->
   (matches t (flagInput "authorised") q = true ->
    checked_at (onAuthorisedClick target t) q = Some false) /\
   (matches t (flagInput "authorised") q = false ->
    checked_at (onAuthorisedClick target t) q = checked_at t q)).
Proof.
  intros HR Hs ne Hq. split; intros Hm; split; intros Hf.
  - unfold onPreferredClick. rewrite Hm, preferredHandler_checked.
    pose proof (matches_elem _ _ _ Hf) as He.
    apply subpaths_spec in He as [d Hd]. rewrite Hd. simpl. f_equal.
    eapply sibling_cleared; eauto. eapply row_in_parents; eauto.
  - unfold onPreferredClick. rewrite Hm, preferredHandler_checked.
    unfold checked_at. destruct (data_at t q) as [d|] eqn:Hd; trivial.
    simpl. f_equal. eapply other_controls_kept; eauto.
  - unfold onAuthorisedClick. rewrite Hm, authorisedHandler_checked.
    pose proof (matches_elem _ _ _ Hf) as He.
    apply subpaths_spec in He as [d Hd]. rewrite Hd. simpl. f_equal.
    eapply sibling_cleared; eauto. eapply row_in_closest; eauto.
  - unfold onAuthorisedClick. rewrite Hm, authorisedHandler_checked.
    unfold checked_at. destruct (data_at t q) as [d|] eqn:Hd; trivial.
    simpl. f_equal. eapply other_controls_kept; eauto.
Qed.

Lemma flags_exclusive_among_siblings_witness :
  checked_at Demo.names [0; 0] = Some true /\
  checked_at (onPreferredClick [1; 0] Demo.names) [0; 0] = Some false /\
  checked_at (onAuthorisedClick [1; 1] Demo.names) [0; 1] = Some false.
Proof.
  split; [reflexivity|]. split.
  - refine (proj1 (proj1 (@flags_exclusive_among_siblings
                     Demo.names [1; 0] [1] [0] [0; 0] eq_refl eq_refl _ eq_refl)
                   eq_refl) eq_refl).
    discriminate.
  - refine (proj1 (proj2 (@flags_exclusive_among_siblings
                     Demo.names [1; 1] [1] [0] [0; 1] eq_refl eq_refl _ eq_refl)
                   eq_refl) eq_refl).
    discriminate.
Defined.

End FlagFacts.


(** * Hiding a single field *)

Module DeleteFieldFacts.
Import DOM JQ Sel Handlers DOMFacts JQFacts ClassFacts.

(** The element [deleteField] hides and the notices it reveals. *)
Definition hiddenTarget (t : node) (el : path) (toDelete : selector) : list path :=
  closest t toDelete (wrap t el).

Definition notices (t : node) (el : path) : list path :=
  children t (tagIs "label") (first (parents t (cls "formset") (wrap t el))).

(** C8.  [deleteField] adds the class [none] to the nearest element
    matching [toDelete] above the trigger and shows the labels that are
    children of the enclosing formset; it adds and removes no element and
    leaves the tag, the attributes, the checked state and the value of
    every element as they were.  In particular no DELETE checkbox
    changes. *)
Theorem deleteField_only_hides (t : node) (el : path) (toDelete : selector) :
  let t' := deleteField el toDelete t in
  subpaths t' = subpaths t /\
  forall q,
    option_map control_state (data_at t' q) = option_map control_state (data_at t q) /\
    class_at "none" t' q =
      option_map (fun d => if mem q (hiddenTarget t el toDelete) then true
                           else hasClass "none" d) (data_at t q) /\
    option_map hidden (data_at t' q) =
      option_map (fun d => if mem q (notices t el) then false else hidden d)
                 (data_at t q).
Proof.
  unfold deleteField, andThen. cbv zeta. split.
  - rewrite !subpaths_on; trivial.
  - intros q. split; [|split].
    + rewrite !proj_on; trivial; intros d; trivial.
      unfold control_state, addClass. destruct (hasClass "none" d); trivial.
    + rewrite class_at_other_on by solve_stable.
      rewrite class_at_add_on. unfold class_at, hiddenTarget.
      destruct (data_at t q) as [d|]; simpl; trivial.
    + rewrite data_at_on by apply setHidden_idem. to_start.
      rewrite data_at_on by apply addClass_idem. cbv beta.
      unfold notices.
      destruct (data_at t q) as [d|]; simpl; trivial.
      repeat match goal with
             | |- context [mem ?a ?b] => destruct (mem a b)
             end; trivial;
        unfold addClass; destruct (hasClass "none" d); trivial.
Qed.

End DeleteFieldFacts.

(** * The primary record of the duplicates table *)

Module PrimaryFacts.
Import DOM JQ Sel Handlers DOMFacts JQFacts ClassFacts.

(** The duplicate cell that follows the primary cell of the clicked
    radio button, its labels, and its checked merge choices. *)
Definition pairedCell (t : node) (target : path) : list path :=
  next t (cls "duplicate-cell") (closest t (cls "primary-cell") (wrap t target)).

Definition pairedLabels (t : node) (target : path) : list path :=
  children t (tagIs "label") (pairedCell t target).

Definition radioChecked : selector :=
  both (both (tagIs "input") (attrEq "type" "radio")) isChecked.

Definition pairedChoices (t : node) (target : path) : list path :=
  find t radioChecked (pairedCell t target).

(** The labels of all the duplicate cells. *)
Definition mergeLabels (t : node) : list path :=
  children t (tagIs "label") (query t (cls "duplicate-cell")).

Lemma primaryHandler_disabled t target q :
  class_at "disabled" (primaryHandler target t) q =
  option_map (fun b => (is_ t isChecked (wrap t target) && mem q (pairedLabels t target))
                       || (negb (mem q (mergeLabels t)) && b))
             (class_at "disabled" t q).
Proof.
  unfold primaryHandler, andThen, when. cbv beta zeta. to_start.
  destruct (is_ t isChecked (wrap t target)); simpl.
  - rewrite class_at_add_on.
    rewrite !class_at_other_on by solve_stable.
    rewrite class_at_remove_on.
    rewrite !class_at_other_on by solve_stable.
    to_start.
    fold (pairedCell t target). fold (pairedLabels t target). fold (mergeLabels t).
    destruct (class_at "disabled" t q); simpl; trivial.
  - rewrite !class_at_other_on by solve_stable.
    rewrite class_at_remove_on.
    rewrite !class_at_other_on by solve_stable.
    to_start. fold (mergeLabels t).
    destruct (class_at "disabled" t q); simpl; trivial.
Qed.

Lemma primaryHandler_checked t target q :
  checked_at (primaryHandler target t) q =
  option_map (fun b => if is_ t isChecked (wrap t target)
                          && mem q (pairedChoices t target)
                       then false else b)
             (checked_at t q).
Proof.
  unfold primaryHandler, andThen, when. cbv beta zeta. to_start.
  destruct (is_ t isChecked (wrap t target)); simpl.
  - rewrite checked_at_other_on by solve_stable.
    rewrite checked_at_set_on.
    rewrite !checked_at_other_on by solve_stable.
    to_start.
    fold (pairedCell t target). fold radioChecked. fold (pairedChoices t target).
    destruct (checked_at t q); simpl; trivial.
  - rewrite !checked_at_other_on by solve_stable.
    destruct (checked_at t q); simpl; trivial.
Qed.

Lemma is_wrap t sel p : is_ t sel (wrap t p) = matches t sel p.
Proof.
  unfold is_. destruct (matches t sel p) eqn:E.
  - apply existsb_exists. exists p; split; trivial.
    apply wrap_In; split; trivial. eapply matches_elem; eauto.
  - destruct (existsb _ _) eqn:E'; trivial.
    apply existsb_exists in E' as (x & Hx & H).
    apply wrap_In in Hx as [-> _]. congruence.
Qed.

Lemma In_class_at t c sel S q :
  In q (children t sel S) -> exists b, class_at c t q = Some b.
Proof.
  intros H. apply select_In in H as [H _].
  apply subpaths_spec in H as [d Hd]. unfold class_at. rewrite Hd. simpl; eauto.
Qed.

(** C4, as the handler has it.  When a checked primary radio button of
    the table is clicked, the labels of every duplicate cell other than
    the one paired with the clicked row are enabled, the labels of the
    paired cell are disabled, the checked merge choices of the paired
    cell (the cell of the newly selected primary row) are cleared, and no
    other control changes its checked state. *)
Theorem primary_click_effects (t : node) (target : path) :
  existsb (fun r => above r target) (byId t "duplicates-table") = true ->
  matches t (attrEq "name" "primary_record") target = true ->
  matches t isChecked target = true ->
  forall q,
    (In q (mergeLabels t) -> ~ In q (pairedLabels t target) ->
     class_at "disabled" (onPrimaryClick target t) q = Some false) /\
    (In q (pairedLabels t target) ->
     class_at "disabled" (onPrimaryClick target t) q = Some true) /\
    (In q (pairedChoices t target) ->
     checked_at (onPrimaryClick target t) q = Some false) /\
    (~ In q (pairedChoices t target) ->
     checked_at (onPrimaryClick target t) q = checked_at t q).
Proof.
  intros Hin Hm Hc q. unfold onPrimaryClick. rewrite Hin, Hm. simpl.
  rewrite primaryHandler_disabled, primaryHandler_checked, is_wrap, Hc. simpl.
  repeat split.
  - intros H1 H2. destruct (@In_class_at _ "disabled" _ _ _ H1) as [b ->].
    apply mem_true in H1. apply mem_false in H2. rewrite H1, H2. trivial.
  - intros H1. destruct (@In_class_at _ "disabled" _ _ _ H1) as [b ->].
    apply mem_true in H1. rewrite H1. trivial.
  - intros H1. pose proof H1 as H2. apply select_In in H2 as [H2 _].
    apply subpaths_spec in H2 as [d Hd]. unfold checked_at. rewrite Hd.
    apply mem_true in H1. simpl. rewrite H1. trivial.
  - intros H1. apply mem_false in H1. rewrite H1.
    destruct (checked_at t q); trivial.
Qed.

Lemma primary_click_effects_witness :
  class_at "disabled" (onPrimaryClick [1; 0; 1; 0; 0; 0] Demo.duplicates)
    [1; 0; 0; 1; 1] = Some false /\
  class_at "disabled" (onPrimaryClick [1; 0; 1; 0; 0; 0] Demo.duplicates)
    [1; 0; 1; 1; 1] = Some true.
Proof.
  pose proof (@primary_click_effects Demo.duplicates [1; 0; 1; 0; 0; 0]
                eq_refl eq_refl eq_refl) as H.
  split.
  - destruct (H [1; 0; 0; 1; 1]) as (H1 & _). apply H1.
    + vm_compute. tauto.
    + vm_compute. intuition discriminate.
  - destruct (H [1; 0; 1; 1; 1]) as (_ & H1 & _). apply H1.
    vm_compute. tauto.
Defined.

(** The claim as stated fails: the merge choice of the row that was the
    primary one (record 7) is still checked after record 9 is made the
    primary record. *)
Lemma former_primary_choice_not_cleared :
  class_at "border-left" Demo.duplicates [1; 0; 0; 0] = Some true /\
  checked_at Demo.duplicates [1; 0; 0; 1; 0] = Some true /\
  matches Demo.duplicates isChecked [1; 0; 1; 0; 0; 0] = true /\
  checked_at (onPrimaryClick [1; 0; 1; 0; 0; 0] Demo.duplicates)
    [1; 0; 0; 1; 0] <> Some false.
Proof. vm_compute. repeat split; discriminate. Qed.

End PrimaryFacts.


(** * Changes of structure *)

Module SpliceFacts.
Import DOM JQ DOMFacts JQFacts.

Lemma nth_error_splice_before {A} (ks new : list A) k del j :
  j < k -> k <= List.length ks ->
  nth_error (firstn k ks ++ new ++ skipn (k + del) ks) j = nth_error ks j.
Proof.
  intros Hj Hk. rewrite nth_error_app1 by (rewrite length_firstn; lia).
  rewrite nth_error_firstn. destruct (Nat.ltb_spec j k); trivial; lia.
Qed.

Lemma nth_error_splice_new {A} (ks new : list A) k del i :
  k <= List.length ks ->
  nth_error (firstn k ks ++ new ++ skipn (k + del) ks) (k + i) =
  if Nat.ltb i (List.length new) then nth_error new i
  else nth_error ks (k + del + (i - List.length new)).
Proof.
  intros Hk. rewrite nth_error_app2 by (rewrite length_firstn; lia).
  rewrite length_firstn. replace (k + i - Nat.min k (List.length ks)) with i by lia.
  destruct (Nat.ltb_spec i (List.length new)).
  - apply nth_error_app1; trivial.
  - rewrite nth_error_app2 by trivial. apply nth_error_skipn.
Qed.

Lemma nth_error_splice_after {A} (ks new : list A) k del j :
  k + del <= j -> k <= List.length ks ->
  nth_error (firstn k ks ++ new ++ skipn (k + del) ks) (j - del + List.length new) =
  nth_error ks j.
Proof.
  intros Hj Hk.
  replace (j - del + List.length new) with (k + (j - del - k + List.length new)) by lia.
  rewrite nth_error_splice_new by trivial.
  destruct (Nat.ltb_spec (j - del - k + List.length new) (List.length new)); [lia|].
  f_equal; lia.
Qed.

Lemma kids_at_cons d ks i P :
  kids_at (Elem d ks) (i :: P) =
  match nth_error ks i with Some c => kids_at c P | None => [] end.
Proof. unfold kids_at; simpl. destruct (nth_error ks i); trivial. Qed.

Lemma data_at_cons d ks i q :
  data_at (Elem d ks) (i :: q) =
  match nth_error ks i with Some c => data_at c q | None => None end.
Proof. unfold data_at; simpl. destruct (nth_error ks i); trivial. Qed.

(** An element that stays has its data at its new place. *)
Lemma data_at_splice P k del new t q q' :
  k <= List.length (kids_at t P) ->
  reloc k del (List.length new) P q = Some q' ->
  data_at (splice P k del new t) q' = data_at t q.
Proof.
  unfold splice. revert t q q'; induction P as [|i P IH]; intros t q q' Hk Hr.
  - destruct t as [s|d ks]; simpl in *.
    + destruct q; [injection Hr as <-; trivial|].
      unfold data_at; simpl. destruct q'; trivial.
    + destruct q as [|j rest]; [injection Hr as <-; trivial|].
      unfold kids_at in Hk; simpl in Hk.
      destruct (Nat.ltb_spec j k).
      * injection Hr as <-. rewrite !data_at_cons, nth_error_splice_before; trivial.
      * destruct (Nat.ltb_spec j (k + del)); [discriminate|].
        injection Hr as <-. rewrite !data_at_cons, nth_error_splice_after; trivial.
  - destruct t as [s|d ks]; simpl in *.
    + unfold data_at. destruct q, q'; simpl; trivial; discriminate.
    + destruct q as [|j q0]; [injection Hr as <-; trivial|].
      destruct (Nat.eqb_spec i j) as [->|ne].
      * destruct (reloc k del (List.length new) P q0) as [r|] eqn:E; [|discriminate].
        injection Hr as <-. rewrite !data_at_cons, nth_error_alter_nth.
        destruct (Nat.eq_dec j j); [|tauto].
        rewrite kids_at_cons in Hk.
        destruct (nth_error ks j) as [c|]; simpl; trivial.
        apply IH; trivial.
      * injection Hr as <-. rewrite !data_at_cons, nth_error_alter_nth.
        destruct (Nat.eq_dec i j); [tauto|trivial].
Qed.

Lemma get_alter_at f P t : get (alter_at f P t) P = option_map f (get t P).
Proof.
  revert t; induction P as [|i P IH]; intros t; simpl; trivial.
  destruct t as [s|d ks]; simpl; trivial.
  rewrite nth_error_alter_nth. destruct (Nat.eq_dec i i); [|tauto].
  destruct (nth_error ks i); simpl; trivial.
Qed.

Lemma kids_at_splice P k del new t d :
  data_at t P = Some d ->
  kids_at (splice P k del new t) P =
  firstn k (kids_at t P) ++ new ++ skipn (k + del) (kids_at t P).
Proof.
  unfold data_at, kids_at, splice. rewrite get_alter_at.
  destruct (get t P) as [[s|d' ks]|]; simpl; trivial; discriminate.
Qed.

(** The nodes put in are found from position [k] on. *)
Lemma get_splice_new P k del new t d i rest :
  data_at t P = Some d -> k <= List.length (kids_at t P) ->
  i < List.length new ->
  get (splice P k del new t) (P ++ (k + i) :: rest) =
  match nth_error new i with Some c => get c rest | None => None end.
Proof.
  intros Hd Hk Hi. rewrite get_app. unfold splice. rewrite get_alter_at.
  unfold data_at, kids_at in *.
  destruct (get t P) as [[s|d' ks]|]; try discriminate. simpl.
  rewrite nth_error_splice_new by trivial.
  destruct (Nat.ltb_spec i (List.length new)); [trivial|lia].
Qed.

(** [.append] moves no element. *)
Lemma reloc_append n P t q d :
  data_at t q = Some d -> reloc (List.length (kids_at t P)) 0 n P q = Some q.
Proof.
  revert t q; induction P as [|i P IH]; intros t q Hd.
  - destruct q as [|j rest]; simpl; trivial.
    destruct t as [s|d' ks]; [discriminate|].
    rewrite data_at_cons in Hd. unfold kids_at; simpl.
    destruct (nth_error ks j) eqn:E; [|discriminate].
    assert (j < List.length ks) by (apply nth_error_Some; congruence).
    destruct (Nat.ltb_spec j (List.length ks)); [trivial|lia].
  - destruct q as [|j q0]; simpl; trivial.
    destruct (Nat.eqb_spec i j) as [->|ne]; trivial.
    destruct t as [s|d' ks]; [discriminate|].
    rewrite data_at_cons in Hd. rewrite kids_at_cons.
    destruct (nth_error ks j) as [c|]; [|discriminate].
    rewrite (IH c q0 Hd); trivial.
Qed.

Lemma data_at_append new P t q d :
  data_at t q = Some d -> data_at (append_at new P t) q = Some d.
Proof.
  intros Hd. unfold append_at. rewrite <- Hd.
  apply data_at_splice; trivial. eapply reloc_append; eauto.
Qed.

Lemma kids_at_append new P t d :
  data_at t P = Some d -> kids_at (append_at new P t) P = kids_at t P ++ new.
Proof.
  intros Hd. unfold append_at. rewrite (kids_at_splice _ _ _ _ _ _ Hd).
  rewrite firstn_all, Nat.add_0_r, skipn_all, app_nil_r; trivial.
Qed.

Lemma get_append_new new P t d i rest :
  data_at t P = Some d -> i < List.length new ->
  get (append_at new P t) (P ++ (List.length (kids_at t P) + i) :: rest) =
  match nth_error new i with Some c => get c rest | None => None end.
Proof.
  intros Hd Hi. unfold append_at. eapply get_splice_new; eauto.
Qed.

Lemma length_alter_nth {A} (f : A -> A) i (l : list A) :
  List.length (alter_nth f i l) = List.length l.
Proof.
  revert i; induction l as [|x l IH]; intros [|i]; simpl; trivial.
  rewrite IH; trivial.
Qed.

(** A data update keeps the number of children of every element. *)
Lemma length_kids_alter_data f p t P :
  List.length (kids_at (alter_at (on_data f) p t) P) = List.length (kids_at t P).
Proof.
  revert t P; induction p as [|i p IH]; intros t P.
  - destruct t as [s|d ks]; trivial. destruct P; trivial.
  - destruct t as [s|d ks]; trivial. simpl.
    destruct P as [|j P].
    + unfold kids_at; simpl. apply length_alter_nth.
    + rewrite !kids_at_cons, nth_error_alter_nth.
      destruct (Nat.eq_dec i j) as [->|]; trivial.
      destruct (nth_error ks j); simpl; trivial.
Qed.

Lemma length_kids_update f S t P :
  List.length (kids_at (update_all f S t) P) = List.length (kids_at t P).
Proof.
  unfold update_all. revert t; induction S as [|p S IH]; intros t; simpl; trivial.
  rewrite IH. apply length_kids_alter_data.
Qed.

End SpliceFacts.

(** * Document order *)

Module OrderFacts.
Import DOM JQ DOMFacts JQFacts.

(** [p] comes before [q] in document order: an element precedes its
    descendants, and the subtrees of earlier children precede those of
    later ones. *)
Fixpoint before (p q : path) : bool :=
  match p, q with
  | [], [] => false
  | [], _ :: _ => true
  | _ :: _, [] => false
  | i :: p', j :: q' => Nat.ltb i j || (Nat.eqb i j && before p' q')
  end.

Definition precedes (p q : path) : Prop := before p q = true.

Lemma before_irrefl p : before p p = false.
Proof.
  induction p as [|i p IH]; simpl; trivial.
  rewrite Nat.ltb_irrefl, Nat.eqb_refl, IH; trivial.
Qed.

Lemma before_trans p q r : precedes p q -> precedes q r -> precedes p r.
Proof.
  unfold precedes. revert q r; induction p as [|i p IH]; intros [|j q] [|k r];
    simpl; trivial; try discriminate.
  rewrite !orb_true_iff, !andb_true_iff, !Nat.ltb_lt, !Nat.eqb_eq.
  intros [H1|[-> H1]] [H2|[-> H2]]; try (left; lia).
  right; split; trivial. eapply IH; eauto.
Qed.

Lemma before_total p q : p = q \/ precedes p q \/ precedes q p.
Proof.
  unfold precedes. revert q; induction p as [|i p IH]; intros [|j q]; simpl; auto.
  destruct (Nat.lt_trichotomy i j) as [H|[->|H]].
  - right; left. apply orb_true_iff; left. apply Nat.ltb_lt; trivial.
  - rewrite Nat.ltb_irrefl, Nat.eqb_refl; simpl.
    destruct (IH q) as [->|[H|H]]; auto.
  - right; right. apply orb_true_iff; left. apply Nat.ltb_lt; trivial.
Qed.

Section NodeInd.
Variable Q : node -> Prop.
Hypothesis HText : forall s, Q (Text s).
Hypothesis HElem : forall d ks, Forall Q ks -> Q (Elem d ks).

Fixpoint node_induction (t : node) : Q t :=
  match t with
  | Text s => HText s
  | Elem d ks =>
      HElem d ks
        ((fix all (l : list node) : Forall Q l :=
            match l with
            | [] => Forall_nil Q
            | k :: l' => Forall_cons k (node_induction k) (all l')
            end) ks)
  end.
End NodeInd.

Lemma sorted_app {A} (R : A -> A -> Prop) l1 l2 :
  StronglySorted R l1 -> StronglySorted R l2 ->
  (forall x y, In x l1 -> In y l2 -> R x y) ->
  StronglySorted R (l1 ++ l2).
Proof.
  intros H1 H2 H. induction H1 as [|x l1 Hs IH Hx]; simpl; trivial.
  constructor.
  - apply IH. intros; apply H; simpl; auto.
  - apply Forall_app; split; trivial.
    apply Forall_forall; intros y Hy. apply H; simpl; auto.
Qed.

Lemma sorted_map_cons i l :
  StronglySorted precedes l -> StronglySorted precedes (map (cons i) l).
Proof.
  induction 1 as [|x l Hs IH Hx]; simpl; constructor; trivial.
  apply Forall_forall. intros y Hy. apply in_map_iff in Hy as (z & <- & Hz).
  rewrite Forall_forall in Hx. unfold precedes; simpl.
  rewrite Nat.eqb_refl, (Hx z Hz), orb_true_r; trivial.
Qed.

Lemma number_from_sorted i ls :
  Forall (StronglySorted precedes) ls -> StronglySorted precedes (number_from i ls).
Proof.
  intros H; revert i; induction H as [|l ls Hl Hls IH]; intros i; simpl.
  - constructor.
  - apply sorted_app; auto using sorted_map_cons.
    intros x y Hx Hy. apply in_map_iff in Hx as (x' & <- & _).
    apply number_from_In in Hy as (j & q' & l' & -> & Hle & _).
    unfold precedes; simpl. apply orb_true_iff; left. apply Nat.ltb_lt; lia.
Qed.

(** The enumeration of the elements is in document order. *)
Theorem subpaths_sorted t : StronglySorted precedes (subpaths t).
Proof.
  induction t as [s|d ks IH] using node_induction; simpl.
  - constructor.
  - constructor.
    + apply number_from_sorted. apply Forall_map; trivial.
    + apply Forall_forall. intros q Hq.
      apply number_from_In in Hq as (j & q' & l & -> & _). reflexivity.
Qed.

Lemma sorted_NoDup l : StronglySorted precedes l -> NoDup l.
Proof.
  induction 1 as [|x l Hs IH Hx]; constructor; trivial.
  intros Hin. rewrite Forall_forall in Hx. specialize (Hx x Hin).
  unfold precedes in Hx. rewrite before_irrefl in Hx; discriminate.
Qed.

(** A list in document order is determined by its members. *)
Lemma sorted_unique l1 : forall l2,
  StronglySorted precedes l1 -> StronglySorted precedes l2 ->
  (forall x, In x l1 <-> In x l2) -> l1 = l2.
Proof.
  induction l1 as [|a l1 IH]; intros [|b l2] H1 H2 Hin; trivial.
  - destruct (proj2 (Hin b)); simpl; auto.
  - destruct (proj1 (Hin a)); simpl; auto.
  - inversion H1 as [|? ? Hs1 Ha]; inversion H2 as [|? ? Hs2 Hb]; subst.
    rewrite Forall_forall in Ha, Hb.
    assert (E : a = b).
    { destruct (proj1 (Hin a) (or_introl eq_refl)) as [E|Hab]; [auto|].
      destruct (proj2 (Hin b) (or_introl eq_refl)) as [E|Hba]; [auto|].
      exfalso. pose proof (before_trans _ _ _ (Ha _ Hba) (Hb _ Hab)) as Hc.
      unfold precedes in Hc. rewrite before_irrefl in Hc. discriminate. }
    subst b. f_equal. apply IH; trivial.
    intros x. split; intros Hx.
    + destruct (proj1 (Hin x) (or_intror Hx)) as [<-|]; trivial.
      exfalso. pose proof (Ha _ Hx) as Hc.
      unfold precedes in Hc. rewrite before_irrefl in Hc. discriminate.
    + destruct (proj2 (Hin x) (or_intror Hx)) as [<-|]; trivial.
      exfalso. pose proof (Hb _ Hx) as Hc.
      unfold precedes in Hc. rewrite before_irrefl in Hc. discriminate.
Qed.

Lemma sorted_filter (R : path -> bool) l :
  StronglySorted precedes l -> StronglySorted precedes (filter R l).
Proof.
  induction 1 as [|a l Hs IH Ha]; simpl; [constructor|].
  destruct (R a); trivial. constructor; trivial.
  rewrite Forall_forall in *. intros x Hx. apply filter_In in Hx. apply Ha; tauto.
Qed.

Lemma select_sorted t R : StronglySorted precedes (select t R).
Proof. apply sorted_filter, subpaths_sorted. Qed.

Lemma NoDup_subpaths t : NoDup (subpaths t).
Proof. apply sorted_NoDup, subpaths_sorted. Qed.

Lemma NoDup_select t R : NoDup (select t R).
Proof. apply NoDup_filter, NoDup_subpaths. Qed.

End OrderFacts.

(** * Elements across a change of structure *)

Module RelocFacts.
Import DOM JQ DOMFacts JQFacts OrderFacts SpliceFacts.

Ltac reloc_cases :=
  repeat match goal with
         | H : context [Nat.ltb ?a ?b] |- _ => destruct (Nat.ltb_spec a b)
         | H : context [Nat.eqb ?a ?b] |- _ => destruct (Nat.eqb_spec a b)
         | H : option_map _ ?x = Some _ |- _ =>
             let E := fresh "E" in destruct x eqn:E; simpl in H
         | H : Some _ = Some _ |- _ => injection H as H; subst
         | H : None = Some _ |- _ => discriminate H
         | H : Some _ = None |- _ => discriminate H
         end.

Ltac num_cases :=
  repeat match goal with
         | |- context [Nat.ltb ?a ?b] => destruct (Nat.ltb_spec a b)
         | |- context [Nat.eqb ?a ?b] => destruct (Nat.eqb_spec a b)
         end; simpl; trivial; try lia.

Section Reloc.
Variables k del n : nat.

Lemma reloc_length P : forall q q',
  reloc k del n P q = Some q' -> List.length q' = List.length q.
Proof.
  induction P as [|i P IH]; intros [|j q] q' H; simpl in H; reloc_cases;
    simpl; trivial.
  f_equal. eapply IH; eauto.
Qed.

(** Relocation keeps the document order. *)
Lemma reloc_before P : forall q1 q2 q1' q2',
  reloc k del n P q1 = Some q1' -> reloc k del n P q2 = Some q2' ->
  before q1' q2' = before q1 q2.
Proof.
  induction P as [|i P IH]; intros [|a q1] [|b q2] q1' q2' H1 H2;
    simpl in H1, H2; reloc_cases; simpl; trivial; num_cases.
  eapply IH; eauto.
Qed.

Lemma reloc_is_prefix P : forall q1 q2 q1' q2',
  reloc k del n P q1 = Some q1' -> reloc k del n P q2 = Some q2' ->
  is_prefix q1' q2' = is_prefix q1 q2.
Proof.
  induction P as [|i P IH]; intros [|a q1] [|b q2] q1' q2' H1 H2;
    simpl in H1, H2; reloc_cases; simpl; trivial; num_cases.
  eapply IH; eauto.
Qed.

Lemma reloc_above P q1 q2 q1' q2' :
  reloc k del n P q1 = Some q1' -> reloc k del n P q2 = Some q2' ->
  above q1' q2' = above q1 q2.
Proof.
  intros H1 H2. unfold above.
  rewrite (reloc_is_prefix P _ _ _ _ H1 H2).
  rewrite (reloc_length P _ _ H1), (reloc_length P _ _ H2); trivial.
Qed.

Lemma reloc_inj P q1 q2 q' :
  reloc k del n P q1 = Some q' -> reloc k del n P q2 = Some q' -> q1 = q2.
Proof.
  intros H1 H2.
  pose proof (reloc_before P _ _ _ _ H1 H2) as E1.
  pose proof (reloc_before P _ _ _ _ H2 H1) as E2.
  rewrite before_irrefl in E1, E2.
  destruct (before_total q1 q2) as [|[H|H]]; trivial; unfold precedes in H;
    congruence.
Qed.

(** What lies below an element that is taken out goes with it. *)
Lemma reloc_removed_below P : forall p q,
  reloc k del n P p = None -> is_prefix p q = true -> reloc k del n P q = None.
Proof.
  induction P as [|i P IH]; intros [|a p] [|b q] H1 H2; simpl in *;
    try discriminate.
  - apply andb_true_iff in H2 as [E H2]. apply Nat.eqb_eq in E as ->.
    destruct (Nat.ltb b k); [discriminate|].
    destruct (Nat.ltb b (k + del)); [trivial|discriminate].
  - apply andb_true_iff in H2 as [E H2]. apply Nat.eqb_eq in E as ->.
    destruct (Nat.eqb i b); [|discriminate].
    destruct (reloc k del n P p) eqn:E; [discriminate|].
    rewrite (IH _ _ E H2); trivial.
Qed.

Lemma removelast_cons (a : nat) (x : path) :
  x <> [] -> removelast (a :: x) = a :: removelast x.
Proof. destruct x; [tauto|trivial]. Qed.

Lemma reloc_cons i P j q :
  reloc k del n (i :: P) (j :: q) =
  if Nat.eqb i j then option_map (cons j) (reloc k del n P q) else Some (j :: q).
Proof. reflexivity. Qed.

(** The parent of an element moves with it. *)
Lemma reloc_removelast P : forall q q',
  reloc k del n P q = Some q' -> q <> [] ->
  reloc k del n P (removelast q) = Some (removelast q').
Proof.
  induction P as [|i P IH]; intros [|a x] q' H Hne; try tauto.
  - simpl in H. destruct x as [|b x].
    + reloc_cases; trivial.
    + rewrite (removelast_cons a (b :: x)) by discriminate.
      reloc_cases; rewrite (removelast_cons _ (b :: x)) by discriminate;
        simpl; num_cases.
  - simpl in H. destruct (Nat.eqb_spec i a) as [->|ne].
    + destruct (reloc k del n P x) as [x'|] eqn:E; [|discriminate].
      simpl in H. injection H as <-.
      destruct x as [|b x].
      * destruct P; simpl in E; injection E as <-; trivial.
      * assert (Hx' : x' <> []).
        { intros ->. apply reloc_length in E. discriminate. }
        rewrite (removelast_cons a (b :: x)) by discriminate.
        rewrite (removelast_cons a x') by trivial.
        rewrite reloc_cons, Nat.eqb_refl, (IH _ _ E) by discriminate. trivial.
    + injection H as <-. destruct x as [|b x]; trivial.
      rewrite (removelast_cons a (b :: x)) by discriminate.
      rewrite reloc_cons. destruct (Nat.eqb_spec i a); [tauto|trivial].
Qed.

Lemma child_of_spec p q : child_of p q = true <-> q <> [] /\ removelast q = p.
Proof.
  unfold child_of, parent_of. destruct q as [|a q].
  - split; [discriminate|tauto].
  - rewrite path_eqb_true. split; [intros H; split; [discriminate|trivial]|tauto].
Qed.

Lemma reloc_nonempty P q q' :
  reloc k del n P q = Some q' -> q <> [] -> q' <> [].
Proof.
  intros H Hne ->. apply reloc_length in H. destruct q; [tauto|discriminate].
Qed.

Lemma reloc_child_of P p q p' q' :
  reloc k del n P p = Some p' -> reloc k del n P q = Some q' ->
  child_of p' q' = child_of p q.
Proof.
  intros Hp Hq. apply eq_true_iff_eq. rewrite !child_of_spec. split.
  - intros [Hne E]. assert (Hq0 : q <> []).
    { intros ->. apply reloc_length in Hq. destruct q'; [tauto|discriminate]. }
    split; trivial.
    pose proof (reloc_removelast P _ _ Hq Hq0) as H. rewrite E in H.
    eapply reloc_inj; eauto.
  - intros [Hne E]. split; [eapply reloc_nonempty; eauto|].
    pose proof (reloc_removelast P _ _ Hq Hne) as H. rewrite E in H. congruence.
Qed.

Lemma same_parent_removelast p q :
  same_parent p q = true <-> p <> [] /\ q <> [] /\ removelast p = removelast q.
Proof.
  unfold same_parent, parent_of. destruct p as [|a p], q as [|b q];
    try (split; [discriminate|tauto]).
  rewrite path_eqb_true. split; [intros H; repeat split; trivial; discriminate|tauto].
Qed.

Lemma reloc_same_parent P p q p' q' :
  reloc k del n P p = Some p' -> reloc k del n P q = Some q' ->
  same_parent p' q' = same_parent p q.
Proof.
  intros Hp Hq. apply eq_true_iff_eq. rewrite !same_parent_removelast. split.
  - intros (H1 & H2 & E).
    assert (Hp0 : p <> []).
    { intros ->. apply reloc_length in Hp. destruct p'; [tauto|discriminate]. }
    assert (Hq0 : q <> []).
    { intros ->. apply reloc_length in Hq. destruct q'; [tauto|discriminate]. }
    repeat split; trivial.
    pose proof (reloc_removelast P _ _ Hp Hp0) as Ha.
    pose proof (reloc_removelast P _ _ Hq Hq0) as Hb.
    rewrite E in Ha. eapply reloc_inj; eauto.
  - intros (H1 & H2 & E).
    repeat split; try (eapply reloc_nonempty; eauto).
    pose proof (reloc_removelast P _ _ Hp H1) as Ha.
    pose proof (reloc_removelast P _ _ Hq H2) as Hb.
    rewrite E in Ha. congruence.
Qed.

(** Every place of the new tree is that of an element which stayed, or
    of one that was put in. *)
Lemma reloc_onto P : forall q',
  (exists q, reloc k del n P q = Some q') \/
  (exists i rest, i < n /\ q' = (P ++ (k + i) :: rest)%list).
Proof.
  induction P as [|i P IH]; intros [|a x].
  - left. exists []. trivial.
  - destruct (Nat.ltb_spec a k) as [H1|H1].
    + left. exists (a :: x). simpl. num_cases.
    + destruct (Nat.ltb_spec a (k + n)) as [H2|H2].
      * right. exists (a - k), x. split; [lia|]. simpl. f_equal. lia.
      * left. exists ((a - n + del) :: x). simpl. num_cases.
        repeat f_equal. lia.
  - left. exists []. trivial.
  - destruct (Nat.eqb_spec i a) as [->|ne].
    + destruct (IH x) as [[q H]|(j & rest & Hj & ->)].
      * left. exists (a :: q). simpl. rewrite Nat.eqb_refl, H. trivial.
      * right. exists j, rest. split; trivial.
    + left. exists (a :: x). simpl. num_cases.
Qed.

End Reloc.

(** The elements taken out are those below the children [k] to
    [k + del - 1] of [P]. *)
Lemma reloc_none k del n P : forall q,
  reloc k del n P q = None <->
  exists j rest, q = (P ++ j :: rest)%list /\ k <= j < k + del.
Proof.
  induction P as [|i P IH]; intros [|a x]; simpl.
  - split; [discriminate|]. intros (j & rest & Eq & _). discriminate.
  - destruct (Nat.ltb_spec a k); [|destruct (Nat.ltb_spec a (k + del))].
    + split; [discriminate|]. intros (j & rest & Eq & Hj). injection Eq as -> _. lia.
    + split; [|trivial]. intros _. exists a, x. split; trivial. lia.
    + split; [discriminate|]. intros (j & rest & Eq & Hj). injection Eq as -> _. lia.
  - split; [discriminate|]. intros (j & rest & Eq & _). discriminate.
  - destruct (Nat.eqb_spec i a) as [->|ne].
    + destruct (reloc k del n P x) eqn:E; simpl.
      * split; [discriminate|]. intros (j & rest & Eq & Hj). injection Eq as Hx.
        assert (Hn : reloc k del n P x = None) by (apply IH; eauto).
        congruence.
      * split; [|trivial]. intros _. apply IH in E as (j & rest & -> & Hj).
        exists j, rest. auto.
    + split; [discriminate|]. intros (j & rest & Eq & _). injection Eq as Hi _. congruence.
Qed.

(** Taking [n] nodes out where [del] were put in undoes the change. *)
Lemma reloc_inverse k del n P : forall q q',
  reloc k del n P q = Some q' <-> reloc k n del P q' = Some q.
Proof.
  induction P as [|i P IH]; intros [|a x] [|b y].
  - simpl; tauto.
  - simpl. split; intros H; reloc_cases; discriminate.
  - simpl. split; intros H; reloc_cases; discriminate.
  - simpl. split; intros H; reloc_cases; num_cases; repeat f_equal; lia.
  - simpl; tauto.
  - simpl. split; intros H; reloc_cases; discriminate.
  - simpl. split; intros H; reloc_cases; discriminate.
  - rewrite !reloc_cons.
    destruct (Nat.eq_dec i a) as [Ea|ne], (Nat.eq_dec i b) as [Eb|ne']; subst;
      rewrite ?Nat.eqb_refl;
      repeat match goal with
             | H : ?u <> ?v |- context [Nat.eqb ?u ?v] =>
                 rewrite (proj2 (Nat.eqb_neq u v) H)
             end.
    + destruct (reloc k del n P x) as [x'|] eqn:E1,
               (reloc k n del P y) as [y'|] eqn:E2; simpl.
      * split; intros H; injection H as H; subst.
        -- apply IH in E1. rewrite E1 in E2. injection E2 as <-. trivial.
        -- apply IH in E2. rewrite E2 in E1. injection E1 as <-. trivial.
      * split; [|discriminate]. intros H; injection H as H; subst.
        apply IH in E1. rewrite E1 in E2. discriminate.
      * split; [discriminate|]. intros H; injection H as H; subst.
        apply IH in E2. rewrite E2 in E1. discriminate.
      * split; discriminate.
    + destruct (reloc k del n P x); simpl; split; intros H;
        try discriminate; injection H as E; congruence.
    + destruct (reloc k n del P y); simpl; split; intros H;
        try discriminate; injection H as E; congruence.
    + split; intros H; injection H as -> ->; trivial.
Qed.

End RelocFacts.

(** * Following the elements through an edit

    An edit of the tree (children put in or taken out) comes with the map
    [f] from the place of an element before the edit to its place after
    it, and the map [g] back; an element that is taken out has no image
    under [f], one that is put in has none under [g]. *)

Module EditFacts.
Import DOM JQ Handlers DOMFacts JQFacts OrderFacts SpliceFacts RelocFacts.

Record edit (t t' : node) (f g : path -> option path) : Prop := Edit {
  ed_inv : forall q q', f q = Some q' <-> g q' = Some q;
  ed_data : forall q q', f q = Some q' -> data_at t' q' = data_at t q;
  ed_before : forall q1 q2 q1' q2',
      f q1 = Some q1' -> f q2 = Some q2' -> before q1' q2' = before q1 q2;
  ed_prefix : forall q1 q2 q1' q2',
      f q1 = Some q1' -> f q2 = Some q2' -> is_prefix q1' q2' = is_prefix q1 q2;
  ed_length : forall q q', f q = Some q' -> List.length q' = List.length q;
  ed_parent : forall q q',
      f q = Some q' -> q <> [] -> f (removelast q) = Some (removelast q');
  ed_gone : forall p q, f p = None -> is_prefix p q = true -> f q = None;
  ed_fresh : forall p q, g p = None -> is_prefix p q = true -> g q = None
}.

(** The change of one list of children. *)
Lemma splice_edit t P k del new :
  k <= List.length (kids_at t P) ->
  edit t (splice P k del new t)
       (reloc k del (List.length new) P) (reloc k (List.length new) del P).
Proof.
  intros Hk. constructor.
  - apply reloc_inverse.
  - intros q q'. apply data_at_splice; trivial.
  - apply reloc_before.
  - apply reloc_is_prefix.
  - apply reloc_length.
  - apply reloc_removelast.
  - apply reloc_removed_below.
  - apply reloc_removed_below.
Qed.

Lemma child_index t pp i :
  In (pp ++ [i])%list (subpaths t) -> i < List.length (kids_at t pp).
Proof.
  intros H. apply subpaths_spec in H as [d H]. unfold data_at in H.
  rewrite get_app in H. unfold kids_at.
  destruct (get t pp) as [[s|d' ks]|]; try discriminate. simpl in H.
  apply nth_error_Some. destruct (nth_error ks i); [discriminate|discriminate].
Qed.

Lemma split_last (p : path) : p <> [] -> p = (removelast p ++ [List.last p 0])%list.
Proof. apply app_removelast_last. Qed.

Lemma removeAt_edit t N :
  In N (subpaths t) -> N <> [] ->
  edit t (fst (removeAt N t)) (snd (removeAt N t))
       (reloc (List.last N 0) 0 1 (removelast N)).
Proof.
  intros Hin Hne. unfold removeAt, parent_of.
  destruct N as [|a N]; [tauto|]. cbv zeta. simpl fst. simpl snd.
  apply (splice_edit t (removelast (a :: N)) (List.last (a :: N) 0) 1 []).
  rewrite (split_last (a :: N) Hne) in Hin. apply child_index in Hin. lia.
Qed.

Lemma insertAfter_edit new t p :
  In p (subpaths t) -> p <> [] ->
  edit t (fst (insertAfter new p t)) (snd (insertAfter new p t))
       (reloc (S (List.last p 0)) (List.length new) 0 (removelast p)).
Proof.
  intros Hin Hne. unfold insertAfter, parent_of.
  destruct p as [|a p]; [tauto|]. cbv zeta. simpl fst. simpl snd.
  apply (splice_edit t (removelast (a :: p)) (S (List.last (a :: p) 0)) 0 new).
  rewrite (split_last (a :: p) Hne) in Hin. apply child_index in Hin. lia.
Qed.

Lemma append_edit new P t :
  edit t (append_at new P t)
       (reloc (List.length (kids_at t P)) 0 (List.length new) P)
       (reloc (List.length (kids_at t P)) (List.length new) 0 P).
Proof. apply splice_edit. lia. Qed.

(** No element of the nodes [new] satisfies [sel]. *)
Definition nowhere (sel : selector) (new : list node) : bool :=
  forallb (fun c => forallb (fun rest => negb (matches c sel rest)) (subpaths c)) new.

Lemma nowhere_spec sel new c rest d :
  nowhere sel new = true -> In c new -> data_at c rest = Some d -> sel d = false.
Proof.
  unfold nowhere. rewrite forallb_forall. intros H Hc Hd.
  specialize (H c Hc). rewrite forallb_forall in H.
  assert (Hin : In rest (subpaths c)) by (apply subpaths_spec; eauto).
  specialize (H rest Hin). unfold matches in H. rewrite Hd in H.
  apply negb_true_iff in H; trivial.
Qed.

(** The elements put in by a splice are those of the new nodes. *)
Lemma fresh_data t P k del new q' :
  k <= List.length (kids_at t P) ->
  In q' (subpaths (splice P k del new t)) ->
  reloc k (List.length new) del P q' = None ->
  exists c rest d, In c new /\ data_at c rest = Some d /\
                   data_at (splice P k del new t) q' = Some d.
Proof.
  intros Hk Hin Hg. apply reloc_none in Hg as (j & rest & -> & Hj).
  apply subpaths_spec in Hin as [d Hd].
  assert (HP : exists dP, data_at t P = Some dP).
  { destruct (data_at t P) as [dP|] eqn:EP; [eauto|]. exfalso.
    assert (Hp : In P (subpaths (splice P k del new t))).
    { apply (prefix_elem _ P (j :: rest)). apply subpaths_spec; eauto. }
    apply subpaths_spec in Hp as [dP' HdP'].
    rewrite <- (data_at_splice P k del new t P P Hk) in EP; [congruence|].
    clear. induction P as [|i P IH]; simpl; trivial.
    rewrite Nat.eqb_refl, IH; trivial. }
  destruct HP as [dP HdP].
  replace j with (k + (j - k)) in Hd |- * by lia.
  unfold data_at in Hd.
  rewrite (get_splice_new P k del new t dP (j - k) rest HdP Hk) in Hd by lia.
  destruct (nth_error new (j - k)) as [c|] eqn:Ec; [|discriminate].
  exists c, rest, d. split; [eapply nth_error_In; eauto|]. split.
  - unfold data_at. destruct (get c rest) as [[|]|]; trivial; discriminate.
  - unfold data_at.
    rewrite (get_splice_new P k del new t dP (j - k) rest HdP Hk) by lia.
    rewrite Ec; trivial.
Qed.

Lemma fresh_no_match sel t P k del new q' :
  k <= List.length (kids_at t P) -> nowhere sel new = true ->
  In q' (subpaths (splice P k del new t)) ->
  reloc k (List.length new) del P q' = None ->
  matches (splice P k del new t) sel q' = false.
Proof.
  intros Hk Hno Hin Hg.
  destruct (fresh_data t P k del new q' Hk Hin Hg) as (c & rest & d & Hc & Hd & E).
  unfold matches. rewrite E. eapply nowhere_spec; eauto.
Qed.

(** Outside the element whose children change, the subtrees are the
    same. *)
Lemma get_splice_outside P k del new t : forall q q',
  k <= List.length (kids_at t P) ->
  reloc k del (List.length new) P q = Some q' -> is_prefix q P = false ->
  get (splice P k del new t) q' = get t q.
Proof.
  unfold splice. revert t; induction P as [|i P IH]; intros t q q' Hk Hr Hpre.
  - destruct q as [|j rest]; [discriminate|].
    destruct t as [s|d ks]; simpl in *.
    + destruct (Nat.ltb j k); [injection Hr as <-; trivial|].
      destruct (Nat.ltb j (k + del)); [discriminate|injection Hr as <-; trivial].
    + unfold kids_at in Hk; simpl in Hk.
      destruct (Nat.ltb_spec j k).
      * injection Hr as <-. simpl. rewrite nth_error_splice_before; trivial.
      * destruct (Nat.ltb_spec j (k + del)); [discriminate|].
        injection Hr as <-. simpl. rewrite nth_error_splice_after; trivial.
  - destruct q as [|j q0]; [discriminate|].
    destruct t as [s|d ks].
    + simpl in *. destruct (Nat.eqb i j); simpl in *.
      * destruct (reloc k del (List.length new) P q0); [|discriminate].
        injection Hr as <-; trivial.
      * injection Hr as <-; trivial.
    + rewrite reloc_cons in Hr. simpl in Hpre. simpl.
      destruct (Nat.eqb_spec j i) as [->|ne].
      * rewrite Nat.eqb_refl in Hr. simpl in Hpre.
        destruct (reloc k del (List.length new) P q0) as [r|] eqn:Er; [|discriminate].
        injection Hr as <-. simpl. rewrite nth_error_alter_nth.
        destruct (Nat.eq_dec i i); [|tauto].
        rewrite kids_at_cons in Hk.
        destruct (nth_error ks i) as [c|]; simpl; trivial.
        apply IH; trivial.
      * destruct (Nat.eqb_spec i j); [congruence|].
        injection Hr as <-. simpl. rewrite nth_error_alter_nth.
        destruct (Nat.eq_dec i j); [congruence|trivial].
Qed.

Lemma same_edit t : edit t t Some Some.
Proof.
  constructor; try congruence.
  - intros q q'; split; congruence.
  - intros q q' H _; injection H as <-; trivial.
Qed.

Lemma edit_trans t t1 t2 f g f' g' :
  edit t t1 f g -> edit t1 t2 f' g' -> edit t t2 (then_ f f') (then_ g' g).
Proof.
  intros E1 E2. unfold then_. constructor.
  - intros q q'. split; intros H.
    + destruct (f q) as [q1|] eqn:E; [|discriminate].
      apply (ed_inv _ _ _ _ E2) in H. rewrite H.
      apply (ed_inv _ _ _ _ E1); trivial.
    + destruct (g' q') as [q1|] eqn:E; [|discriminate].
      apply (ed_inv _ _ _ _ E1) in H. rewrite H.
      apply (ed_inv _ _ _ _ E2); trivial.
  - intros q q' H. destruct (f q) as [q1|] eqn:E; [|discriminate].
    rewrite (ed_data _ _ _ _ E2 _ _ H). apply (ed_data _ _ _ _ E1); trivial.
  - intros q1 q2 q1' q2' H1 H2.
    destruct (f q1) as [a|] eqn:Ea; [|discriminate].
    destruct (f q2) as [b|] eqn:Eb; [|discriminate].
    rewrite (ed_before _ _ _ _ E2 _ _ _ _ H1 H2).
    apply (ed_before _ _ _ _ E1); trivial.
  - intros q1 q2 q1' q2' H1 H2.
    destruct (f q1) as [a|] eqn:Ea; [|discriminate].
    destruct (f q2) as [b|] eqn:Eb; [|discriminate].
    rewrite (ed_prefix _ _ _ _ E2 _ _ _ _ H1 H2).
    apply (ed_prefix _ _ _ _ E1); trivial.
  - intros q q' H. destruct (f q) as [q1|] eqn:E; [|discriminate].
    rewrite (ed_length _ _ _ _ E2 _ _ H). apply (ed_length _ _ _ _ E1); trivial.
  - intros q q' H Hne. destruct (f q) as [q1|] eqn:E; [|discriminate].
    rewrite (ed_parent _ _ _ _ E1 _ _ E Hne).
    apply (ed_parent _ _ _ _ E2); trivial.
    intros ->. apply (ed_length _ _ _ _ E1) in E. destruct q; [tauto|discriminate].
  - intros p q H Hpre.
    destruct (f p) as [p1|] eqn:Ep.
    + destruct (f q) as [q1|] eqn:Eq; trivial.
      apply (ed_gone _ _ _ _ E2 p1); trivial.
      rewrite (ed_prefix _ _ _ _ E1 _ _ _ _ Ep Eq); trivial.
    + rewrite (ed_gone _ _ _ _ E1 p q Ep Hpre); trivial.
  - intros p q H Hpre.
    destruct (g' p) as [p1|] eqn:Ep.
    + destruct (g' q) as [q1|] eqn:Eq; trivial.
      apply (ed_fresh _ _ _ _ E1 p1); trivial.
      apply (ed_inv _ _ _ _ E2) in Ep, Eq.
      rewrite <- (ed_prefix _ _ _ _ E2 _ _ _ _ Ep Eq); trivial.
    + rewrite (ed_fresh _ _ _ _ E2 p q Ep Hpre); trivial.
Qed.

Lemma In_moved f S q' : In q' (moved f S) <-> exists q, In q S /\ f q = Some q'.
Proof.
  unfold moved. rewrite in_flat_map. split.
  - intros (q & Hq & H). destruct (f q) as [x|] eqn:E; [|destruct H].
    destruct H as [<-|[]]; eauto.
  - intros (q & Hq & H). exists q. rewrite H. simpl; auto.
Qed.

Section Edit.
Variables (t t' : node) (f g : path -> option path).
Hypothesis E : edit t t' f g.

Lemma ed_inj q1 q2 q' : f q1 = Some q' -> f q2 = Some q' -> q1 = q2.
Proof.
  intros H1 H2. apply (ed_inv _ _ _ _ E) in H1, H2. congruence.
Qed.

Lemma ed_above q1 q2 q1' q2' :
  f q1 = Some q1' -> f q2 = Some q2' -> above q1' q2' = above q1 q2.
Proof.
  intros H1 H2. unfold above.
  rewrite (ed_prefix _ _ _ _ E _ _ _ _ H1 H2).
  rewrite (ed_length _ _ _ _ E _ _ H1), (ed_length _ _ _ _ E _ _ H2); trivial.
Qed.

Lemma ed_nonempty q q' : f q = Some q' -> (q = [] <-> q' = []).
Proof.
  intros H. apply (ed_length _ _ _ _ E) in H.
  destruct q, q'; simpl in H; split; intros; trivial; discriminate.
Qed.

Lemma ed_child_of p q p' q' :
  f p = Some p' -> f q = Some q' -> child_of p' q' = child_of p q.
Proof.
  intros Hp Hq. apply eq_true_iff_eq. rewrite !child_of_spec.
  pose proof (ed_nonempty _ _ Hq) as Hne. split.
  - intros [H1 H2]. assert (Hq0 : q <> []) by tauto. split; trivial.
    pose proof (ed_parent _ _ _ _ E _ _ Hq Hq0) as H. rewrite H2 in H.
    eapply ed_inj; eauto.
  - intros [H1 H2]. split; [tauto|].
    pose proof (ed_parent _ _ _ _ E _ _ Hq H1) as H. rewrite H2 in H. congruence.
Qed.

Lemma ed_same_parent p q p' q' :
  f p = Some p' -> f q = Some q' -> same_parent p' q' = same_parent p q.
Proof.
  intros Hp Hq. apply eq_true_iff_eq. rewrite !same_parent_removelast.
  pose proof (ed_nonempty _ _ Hp) as Hnp. pose proof (ed_nonempty _ _ Hq) as Hnq.
  split.
  - intros (H1 & H2 & H3).
    assert (Hp0 : p <> []) by tauto. assert (Hq0 : q <> []) by tauto.
    repeat split; trivial.
    pose proof (ed_parent _ _ _ _ E _ _ Hp Hp0) as Ha.
    pose proof (ed_parent _ _ _ _ E _ _ Hq Hq0) as Hb.
    rewrite H3 in Ha. eapply ed_inj; eauto.
  - intros (H1 & H2 & H3). repeat split; try tauto.
    pose proof (ed_parent _ _ _ _ E _ _ Hp H1) as Ha.
    pose proof (ed_parent _ _ _ _ E _ _ Hq H2) as Hb.
    rewrite H3 in Ha. congruence.
Qed.

Lemma ed_elem q q' : f q = Some q' -> (In q (subpaths t) <-> In q' (subpaths t')).
Proof.
  intros H. rewrite !subpaths_spec, (ed_data _ _ _ _ E _ _ H). tauto.
Qed.

Lemma ed_matches sel q q' : f q = Some q' -> matches t' sel q' = matches t sel q.
Proof. intros H. unfold matches. rewrite (ed_data _ _ _ _ E _ _ H); trivial. Qed.

Lemma moved_sorted S :
  StronglySorted precedes S -> StronglySorted precedes (moved f S).
Proof.
  induction 1 as [|a S Hs IH Ha]; simpl; [constructor|].
  destruct (f a) as [a'|] eqn:Ea; trivial. simpl. constructor; trivial.
  apply Forall_forall. intros x' Hx. apply In_moved in Hx as (x & Hx & Ex).
  rewrite Forall_forall in Ha. unfold precedes.
  rewrite (ed_before _ _ _ _ E _ _ _ _ Ea Ex). apply Ha; trivial.
Qed.

(** A selection after the edit is the selection before it, moved, when
    the criterion reads the same on the elements that stay and rejects
    those that are put in. *)
Lemma select_edit (R R' : path -> bool) :
  (forall q q', In q (subpaths t) -> f q = Some q' -> R' q' = R q) ->
  (forall q', In q' (subpaths t') -> g q' = None -> R' q' = false) ->
  select t' R' = moved f (select t R).
Proof.
  intros Hold Hnew. apply sorted_unique.
  - apply select_sorted.
  - apply moved_sorted, select_sorted.
  - intros q'. rewrite In_moved, select_In. split.
    + intros [Hin HR]. destruct (g q') as [q|] eqn:Eg.
      * apply (ed_inv _ _ _ _ E) in Eg. exists q. split; trivial.
        apply select_In. assert (Hq : In q (subpaths t)) by (apply (ed_elem _ _ Eg); trivial).
        split; trivial. rewrite <- (Hold _ _ Hq Eg); trivial.
      * rewrite (Hnew _ Hin Eg) in HR. discriminate.
    + intros (q & Hq & Eq). apply select_In in Hq as [Hq HR]. split.
      * apply (ed_elem _ _ Eq); trivial.
      * rewrite (Hold _ _ Hq Eq); trivial.
Qed.

(** The traversals after the edit, from jQuery objects that were moved
    along.  [sel] is a selector that no element put in satisfies. *)
Section Transport.
Variable sel : selector.
Hypothesis Hsel : forall q', In q' (subpaths t') -> g q' = None ->
                             matches t' sel q' = false.

Lemma query_edit : query t' sel = moved f (query t sel).
Proof.
  apply select_edit.
  - intros q q' _ H. apply ed_matches; trivial.
  - apply Hsel.
Qed.

Lemma wrap_edit q q' : f q = Some q' -> wrap t' q' = moved f (wrap t q).
Proof.
  intros H. unfold wrap. apply select_edit.
  - intros x x' _ Hx. apply eq_true_iff_eq. rewrite !path_eqb_true. split.
    + intros ->. eapply ed_inj; eauto.
    + intros ->. congruence.
  - intros x' _ Hx. destruct (path_eqb q' x') eqn:Ex; trivial.
    apply path_eqb_true in Ex as <-. apply (ed_inv _ _ _ _ E) in H. congruence.
Qed.

(** An element that stays keeps, among the moved elements, the
    relatives it had. *)
Lemma related_moved (rel : path -> path -> bool) S q q' :
  (forall p p', f p = Some p' -> rel p' q' = rel p q) ->
  (forall p, rel p q = true -> f p <> None) ->
  existsb (fun p' => rel p' q') (moved f S) = existsb (fun p => rel p q) S.
Proof.
  intros Hrel Hstay. apply eq_true_iff_eq. rewrite !existsb_exists. split.
  - intros (p' & Hp' & H). apply In_moved in Hp' as (p & Hp & Ep).
    exists p. split; trivial. rewrite <- (Hrel _ _ Ep); trivial.
  - intros (p & Hp & H). destruct (f p) as [p'|] eqn:Ep.
    + exists p'. split; [apply In_moved; eauto|]. rewrite (Hrel _ _ Ep); trivial.
    + exfalso. apply (Hstay p H); trivial.
Qed.

Lemma above_stays p q q' : f q = Some q' -> above p q = true -> f p <> None.
Proof.
  intros Hq Hab Hp. unfold above in Hab. apply andb_true_iff in Hab as [Hpre _].
  rewrite (ed_gone _ _ _ _ E _ _ Hp Hpre) in Hq. discriminate.
Qed.

Lemma find_edit S : find t' sel (moved f S) = moved f (find t sel S).
Proof.
  unfold find. apply select_edit.
  - intros q q' _ H. rewrite (ed_matches sel _ _ H). f_equal.
    apply related_moved.
    + intros p p' Hp. apply ed_above; trivial.
    + intros p. apply (above_stays p q q'); trivial.
  - intros q' Hq Hg. rewrite (Hsel _ Hq Hg). apply andb_false_r.
Qed.

Lemma child_stays p q q' : f q = Some q' -> child_of p q = true -> f p <> None.
Proof.
  intros Hq Hc Hp. apply child_of_spec in Hc as [Hne <-].
  rewrite (ed_parent _ _ _ _ E _ _ Hq Hne) in Hp. discriminate.
Qed.

Lemma children_edit S : children t' sel (moved f S) = moved f (children t sel S).
Proof.
  unfold children. apply select_edit.
  - intros q q' _ H. rewrite (ed_matches sel _ _ H). f_equal.
    apply related_moved.
    + intros p p' Hp. apply ed_child_of; trivial.
    + intros p. apply (child_stays p q q'); trivial.
  - intros q' Hq Hg. rewrite (Hsel _ Hq Hg). apply andb_false_r.
Qed.

End Transport.

End Edit.

Lemma singleton (l : list path) a :
  NoDup l -> (forall x, In x l <-> x = a) -> l = [a].
Proof.
  intros Hnd H. destruct l as [|b l].
  - destruct (proj2 (H a) eq_refl).
  - assert (b = a) by (apply H; simpl; auto). subst b.
    destruct l as [|c l]; trivial.
    assert (c = a) by (apply H; simpl; auto). subst c.
    inversion Hnd as [|? ? Hn _]. exfalso. apply Hn. simpl; auto.
Qed.

(** An insertion takes no element away. *)
Lemma reloc_total k n P q : reloc k 0 n P q <> None.
Proof.
  intros H. apply reloc_none in H as (j & rest & _ & Hj). lia.
Qed.

(** After one node is put in, a selector that no element satisfied
    before selects what it selects in the new node. *)
Lemma query_fresh t P k c sel dP r :
  data_at t P = Some dP -> k <= List.length (kids_at t P) ->
  query t sel = [] -> query c sel = [r] ->
  query (splice P k 0 [c] t) sel = [(P ++ k :: r)%list].
Proof.
  intros HP Hk Hold Hnew.
  pose proof (splice_edit t P k 0 [c] Hk) as E. simpl List.length in E.
  assert (Hget : forall rest,
             get (splice P k 0 [c] t) (P ++ k :: rest) = get c rest).
  { intros rest. replace k with (k + 0) at 2 by lia.
    rewrite (get_splice_new P k 0 [c] t dP 0 rest HP Hk); simpl; trivial. lia. }
  assert (Hm : forall rest, matches (splice P k 0 [c] t) sel (P ++ k :: rest)
                            = matches c sel rest).
  { intros rest. unfold matches, data_at. rewrite Hget; trivial. }
  assert (Hr : In r (query c sel)) by (rewrite Hnew; simpl; auto).
  apply select_In in Hr as [Hr1 Hr2].
  apply singleton; [apply NoDup_select|]. intros x. split.
  - intros Hx. apply select_In in Hx as [Hx1 Hx2].
    destruct (reloc k 1 0 P x) as [q|] eqn:Eg.
    + exfalso. apply (ed_inv _ _ _ _ E) in Eg.
      assert (Hq : In q (query t sel)).
      { apply select_In. split.
        - apply (ed_elem _ _ _ _ E _ _ Eg); trivial.
        - rewrite <- (ed_matches _ _ _ _ E sel _ _ Eg); trivial. }
      rewrite Hold in Hq. destruct Hq.
    + apply reloc_none in Eg as (j & rest & -> & Hj).
      assert (j = k) by lia. subst j. rewrite Hm in Hx2.
      assert (Hin : In rest (query c sel)).
      { apply select_In. split; trivial. eapply matches_elem; eauto. }
      rewrite Hnew in Hin. destruct Hin as [<-|[]]; trivial.
  - intros ->. apply select_In. split.
    + apply matches_elem with (sel := sel). rewrite Hm; trivial.
    + rewrite Hm; trivial.
Qed.

End EditFacts.

(** * Strings *)

Module StringFacts.
Import JS.

Lemma take_drop k s : String.append (take k s) (drop k s) = s.
Proof.
  revert s; induction k as [|k IH]; intros [|a s]; simpl; trivial.
  rewrite IH; trivial.
Qed.

Lemma drop_drop a b s : drop a (drop b s) = drop (b + a) s.
Proof.
  revert s; induction b as [|b IH]; intros s; simpl; trivial.
  destruct s as [|c s]; simpl; [destruct a; trivial|apply IH].
Qed.

Lemma length_drop k s : String.length (drop k s) = String.length s - k.
Proof.
  revert s; induction k as [|k IH]; intros [|a s]; simpl; trivial.
Qed.

Lemma drop_all k s : String.length s <= k -> drop k s = EmptyString.
Proof.
  revert s; induction k as [|k IH]; intros [|a s]; simpl; trivial; try lia.
  intros; apply IH; lia.
Qed.

Lemma append_assoc a b c :
  String.append (String.append a b) c = String.append a (String.append b c).
Proof. induction a as [|x a IH]; simpl; trivial. rewrite IH; trivial. Qed.

Lemma startsWith_spec needle s :
  startsWith needle s = true <->
  s = String.append needle (drop (String.length needle) s).
Proof.
  revert s; induction needle as [|a n IH]; intros s; simpl.
  - split; trivial.
  - destruct s as [|b s].
    + split; discriminate.
    + rewrite andb_true_iff, IH. split.
      * intros [E E']. apply Ascii.eqb_eq in E as ->. f_equal. exact E'.
      * intros E. injection E as -> E. split; [apply Ascii.eqb_refl|trivial].
Qed.

(** [needle] occurs in [s] at position [j]. *)
Definition occurs_at (needle s : string) (j : nat) : Prop :=
  j <= String.length s /\ startsWith needle (drop j s) = true.

Definition first_at (needle s : string) (j : nat) : Prop :=
  occurs_at needle s j /\ forall i, i < j -> ~ occurs_at needle s i.

Definition last_at (needle s : string) (j : nat) : Prop :=
  occurs_at needle s j /\ forall i, j < i -> ~ occurs_at needle s i.

Lemma occurs_at_cons needle a s i :
  occurs_at needle (String a s) (S i) <-> occurs_at needle s i.
Proof. unfold occurs_at; simpl. split; intros [H1 H2]; split; trivial; lia. Qed.

Lemma indexFrom_some needle s : forall k r,
  indexFrom k needle s = Some r ->
  exists j, r = k + j /\ first_at needle s j.
Proof.
  induction s as [|a s IH]; intros k r; simpl.
  - destruct (startsWith needle EmptyString) eqn:E; [|discriminate].
    intros H; injection H as <-. exists 0. split; [lia|].
    split; [split; simpl; trivial|intros i Hi; lia].
  - destruct (startsWith needle (String a s)) eqn:E.
    + intros H; injection H as <-. exists 0. split; [lia|].
      split; [split; simpl; trivial; lia|intros i Hi; lia].
    + intros H. apply IH in H as (j & -> & [Ho Hf]).
      exists (S j). split; [lia|]. split.
      * apply occurs_at_cons; trivial.
      * intros [|i] Hi.
        -- intros [_ Hc]. simpl in Hc. congruence.
        -- rewrite occurs_at_cons. apply Hf; lia.
Qed.

Lemma indexFrom_none needle s : forall k,
  indexFrom k needle s = None -> forall i, ~ occurs_at needle s i.
Proof.
  induction s as [|a s IH]; intros k; simpl.
  - destruct (startsWith needle EmptyString) eqn:E; [discriminate|].
    intros _ i [Hi Hc]. simpl in Hi. assert (i = 0) by lia. subst.
    simpl in Hc. congruence.
  - destruct (startsWith needle (String a s)) eqn:E; [discriminate|].
    intros H [|i].
    + intros [_ Hc]. simpl in Hc. congruence.
    + rewrite occurs_at_cons. eapply IH; eauto.
Qed.

Lemma lastIndexFrom_none_aux needle s : forall k,
  lastIndexFrom k needle s = None -> forall i, ~ occurs_at needle s i.
Proof.
  induction s as [|a s IH]; intros k; simpl.
  - destruct (startsWith needle EmptyString) eqn:E; [discriminate|].
    intros _ i [Hi Hc]. simpl in Hi. assert (i = 0) by lia. subst.
    simpl in Hc. congruence.
  - destruct (lastIndexFrom (S k) needle s) eqn:E; [discriminate|].
    destruct (startsWith needle (String a s)) eqn:E'; [discriminate|].
    intros _ [|i].
    + intros [_ Hc]. simpl in Hc. congruence.
    + rewrite occurs_at_cons. eapply IH; eauto.
Qed.

Lemma lastIndexFrom_some needle s : forall k r,
  lastIndexFrom k needle s = Some r ->
  exists j, r = k + j /\ last_at needle s j.
Proof.
  induction s as [|a s IH]; intros k r; simpl.
  - destruct (startsWith needle EmptyString) eqn:E; [|discriminate].
    intros H; injection H as <-. exists 0. split; [lia|].
    split; [split; simpl; trivial|].
    intros i Hi [Hl _]. simpl in Hl. lia.
  - destruct (lastIndexFrom (S k) needle s) as [r'|] eqn:E.
    + intros H; injection H as <-. apply IH in E as (j & -> & [Ho Hl]).
      exists (S j). split; [lia|]. split.
      * apply occurs_at_cons; trivial.
      * intros [|i] Hi; [lia|]. rewrite occurs_at_cons. apply Hl; lia.
    + destruct (startsWith needle (String a s)) eqn:E'; [|discriminate].
      intros H; injection H as <-. exists 0. split; [lia|].
      split; [split; simpl; trivial; lia|].
      intros [|i] Hi; [lia|]. rewrite occurs_at_cons.
      revert i Hi. intros i _. revert i.
      apply (lastIndexFrom_none_aux needle s (S k) E).
Qed.

Lemma includes_first s needle :
  includes s needle = true ->
  exists j, indexOf s needle = Z.of_nat j /\ first_at needle s j.
Proof.
  unfold includes, indexOf. destruct (indexFrom 0 needle s) as [r|] eqn:E;
    [|discriminate].
  intros _. apply indexFrom_some in E as (j & -> & H). exists j; auto.
Qed.

Lemma includes_last s needle :
  includes s needle = true ->
  exists j, lastIndexOf s needle = Z.of_nat j /\ last_at needle s j.
Proof.
  intros H. apply includes_first in H as (i & _ & [Ho _]).
  unfold lastIndexOf. destruct (lastIndexFrom 0 needle s) as [r|] eqn:E.
  - apply lastIndexFrom_some in E as (j & -> & Hl). exists j; auto.
  - exfalso. eapply lastIndexFrom_none_aux; eauto.
Qed.

(** An occurrence splits the string. *)
Lemma occurs_split needle s j :
  occurs_at needle s j ->
  s = String.append (take j s)
        (String.append needle (drop (j + String.length needle) s)).
Proof.
  intros [_ H]. apply startsWith_spec in H.
  rewrite drop_drop in H. rewrite <- H. symmetry; apply take_drop.
Qed.

Lemma take_all k s : String.length s <= k -> take k s = s.
Proof.
  revert s; induction k as [|k IH]; intros [|a s]; simpl; trivial; try lia.
  intros; f_equal; apply IH; lia.
Qed.

Lemma slice_take s j :
  j <= String.length s -> slice s 0 (Z.of_nat j) = take j s.
Proof.
  intros Hj. unfold slice, clamp. simpl.
  destruct (Z.ltb_spec (Z.of_nat j) 0); [lia|].
  rewrite Nat2Z.id, Nat.min_0_r, Nat.sub_0_r. simpl.
  f_equal. lia.
Qed.

Lemma sliceFrom_drop s j :
  sliceFrom s (Z.of_nat j) = drop j s.
Proof.
  unfold sliceFrom, clamp. destruct (Z.ltb_spec (Z.of_nat j) 0); [lia|].
  rewrite Nat2Z.id. destruct (Nat.le_gt_cases j (String.length s)).
  - f_equal; lia.
  - rewrite Nat.min_l by lia. rewrite !drop_all; trivial; lia.
Qed.

Lemma startsWith_refl s : startsWith s s = true.
Proof. induction s as [|a s IH]; simpl; trivial. rewrite Ascii.eqb_refl; trivial. Qed.

Lemma occurs_includes s needle j : occurs_at needle s j -> includes s needle = true.
Proof.
  intros H. unfold includes. destruct (indexFrom 0 needle s) eqn:E; trivial.
  exfalso. eapply indexFrom_none; eauto.
Qed.

Lemma endsWith_includes s needle : endsWith s needle = true -> includes s needle = true.
Proof.
  unfold endsWith. intros H. apply andb_true_iff in H as [Hl He].
  apply Nat.leb_le in Hl. apply String.eqb_eq in He.
  apply (occurs_includes s needle (String.length s - String.length needle)).
  split; [lia|]. rewrite He. apply startsWith_refl.
Qed.

End StringFacts.
(** * Numbers and their decimal form *)

Module NumFacts.
Import Num.

Lemma digit_char d s :
  d < 10 ->
  let ch := ascii_of_nat (48 + d) in
  isDigit ch = true /\ isSpace ch = false /\ nat_of_ascii ch - 48 = d /\
  signed (String ch s) = (1%Z, String ch s).
Proof.
  intros Hd.
  do 10 (destruct d as [|d]; [vm_compute; auto|]). lia.
Qed.

Lemma digits_cons a c ch s :
  digits a c (String ch s) =
  if isDigit ch
  then digits (10 * a + Z.of_nat (nat_of_ascii ch - 48)) (S c) s
  else (a, c, String ch s).
Proof. reflexivity. Qed.

Lemma digitsOfPos_S fuel n acc :
  digitsOfPos (S fuel) n acc =
  if (n / 10 =? 0)%nat then String (ascii_of_nat (48 + n mod 10)) acc
  else digitsOfPos fuel (n / 10) (String (ascii_of_nat (48 + n mod 10)) acc).
Proof. reflexivity. Qed.

(** Reading back the digits written by [digitsOfPos]. *)
Lemma digits_digitsOfPos fuel : forall n acc,
  n < fuel ->
  exists k, 1 <= k /\
    forall a c, digits a c (digitsOfPos fuel n acc) =
                digits (a * 10 ^ Z.of_nat k + Z.of_nat n) (c + k) acc.
Proof.
  induction fuel as [|fuel IH]; intros n acc Hn; [lia|].
  rewrite digitsOfPos_S.
  pose proof (Nat.mod_upper_bound n 10 ltac:(lia)) as Hm.
  destruct (digit_char (n mod 10) acc Hm) as (Hd & _ & Hv & _).
  pose proof (Nat.div_mod_eq n 10) as Hdm.
  destruct (Nat.eqb_spec (n / 10) 0) as [E|E].
  - exists 1. split; [lia|]. intros a c. rewrite digits_cons, Hd, Hv.
    replace (c + 1) with (S c) by lia. f_equal. lia.
  - assert (Hlt : n / 10 < fuel).
    { assert (n / 10 < n) by (apply Nat.div_lt; lia). lia. }
    destruct (IH (n / 10) (String (ascii_of_nat (48 + n mod 10)) acc) Hlt)
      as (k & Hk & Hdig).
    exists (S k). split; [lia|]. intros a c. rewrite Hdig, digits_cons.
    rewrite Hd, Hv. replace (c + S k) with (S (c + k)) by lia. f_equal.
    rewrite Nat2Z.inj_succ, Z.pow_succ_r by lia. lia.
Qed.

Lemma digitsOfPos_head fuel : forall n acc,
  exists d rest, d < 10 /\
    digitsOfPos (S fuel) n acc = String (ascii_of_nat (48 + d)) rest.
Proof.
  induction fuel as [|fuel IH]; intros n acc; rewrite digitsOfPos_S.
  - exists (n mod 10), acc. split; [apply Nat.mod_upper_bound; lia|].
    destruct (n / 10 =? 0)%nat; trivial.
  - destruct (n / 10 =? 0)%nat.
    + exists (n mod 10), acc. split; [apply Nat.mod_upper_bound; lia|trivial].
    + apply IH.
Qed.

(** A decimal numeral: it starts with a digit and reads back as [n]. *)
Lemma stringOfNat_read n :
  exists ch rest k,
    stringOfNat n = String ch rest /\ isSpace ch = false /\
    signed (String ch rest) = (1%Z, String ch rest) /\
    digits 0 0 (String ch rest) = (Z.of_nat n, S k, EmptyString).
Proof.
  unfold stringOfNat.
  destruct (digitsOfPos_head n n EmptyString) as (d & rest & Hd & E).
  destruct (digit_char d rest Hd) as (_ & Hsp & _ & Hsg).
  destruct (digits_digitsOfPos (S n) n EmptyString ltac:(lia)) as (k & Hk & Hdig).
  destruct k as [|k]; [lia|].
  exists (ascii_of_nat (48 + d)), rest, k. repeat split; trivial.
  rewrite <- E, Hdig. reflexivity.
Qed.

Lemma isAscii_digit d : d < 10 -> isAscii (ascii_of_nat (48 + d)) = true.
Proof. intros Hd. do 10 (destruct d as [|d]; [reflexivity|]). lia. Qed.

Lemma allAscii_digitsOfPos fuel : forall n acc,
  allAscii acc = true -> allAscii (digitsOfPos fuel n acc) = true.
Proof.
  induction fuel as [|fuel IH]; intros n acc Ha; trivial.
  rewrite digitsOfPos_S.
  assert (H : allAscii (String (ascii_of_nat (48 + n mod 10)) acc) = true).
  { cbn [allAscii]. rewrite isAscii_digit, Ha; trivial.
    apply Nat.mod_upper_bound; lia. }
  destruct (n / 10 =? 0)%nat; auto.
Qed.

Lemma allAscii_stringOfNat n : allAscii (stringOfNat n) = true.
Proof. apply allAscii_digitsOfPos. reflexivity. Qed.

Lemma allAscii_decimal z : allAscii (decimal z) = true.
Proof.
  unfold decimal. destruct (z <? 0)%Z.
  - cbn [allAscii]. rewrite allAscii_stringOfNat. reflexivity.
  - apply allAscii_stringOfNat.
Qed.

Lemma int_safe z : safe z = true -> int z = Int z.
Proof. unfold int. intros ->. trivial. Qed.

Lemma int_Int z n : int z = Int n -> z = n /\ safe n = true.
Proof.
  unfold int. destruct (safe z) eqn:E; [|discriminate].
  intros H; injection H as <-. auto.
Qed.

Lemma ofString_numeral s sg ds v k :
  allAscii s = true ->
  trimStart s = s -> s <> EmptyString -> signed s = (sg, ds) ->
  digits 0 0 ds = (v, S k, EmptyString) ->
  ofString s = int (sg * v).
Proof.
  intros Ha Ht Hne Hsg Hd. unfold ofString. rewrite Ha, Ht. cbn [negb].
  destruct s as [|a s]; [tauto|]. rewrite Hsg, Hd. reflexivity.
Qed.

(** [Number(String(z)) = z] *)
Lemma Number_decimal z : safe z = true -> Number (Some (decimal z)) = Int z.
Proof.
  intros Hz. rewrite <- (int_safe z Hz).
  pose proof (allAscii_decimal z) as Ha.
  unfold Number. unfold decimal in *. destruct (Z.ltb_spec z 0).
  - destruct (stringOfNat_read (Z.to_nat (- z))) as (ch & rest & k & E & Hsp & Hsg & Hd).
    rewrite E in *.
    transitivity (int (-1 * Z.of_nat (Z.to_nat (- z)))); [|f_equal; lia].
    apply (ofString_numeral _ _ (String ch rest) _ k); trivial; discriminate.
  - destruct (stringOfNat_read (Z.to_nat z)) as (ch & rest & k & E & Hsp & Hsg & Hd).
    rewrite E in *.
    assert (Ht : trimStart (String ch rest) = String ch rest)
      by (simpl; rewrite Hsp; trivial).
    transitivity (int (1 * Z.of_nat (Z.to_nat z))); [|f_equal; lia].
    apply (ofString_numeral _ _ (String ch rest) _ k); trivial; discriminate.
Qed.

(** An integer that [Number] or [parseInt] returns is one that the
    model follows. *)
Lemma ofString_safe s n : ofString s = Int n -> safe n = true.
Proof.
  unfold ofString. destruct (negb (allAscii s)); [discriminate|].
  destruct (trimStart s) as [|a s1]; [intros H; injection H as <-; reflexivity|].
  destruct (signed (String a s1)) as [sg s2].
  destruct (digits 0 0 s2) as [[v count] rest].
  destruct count as [|count].
  - destruct (hasDigit s || JS.includes s "Infinity"); discriminate.
  - destruct (trimStart rest).
    + intros H. apply int_Int in H. tauto.
    + destruct (hasDigit s || JS.includes s "Infinity"); discriminate.
Qed.

Lemma Number_safe x n : Number x = Int n -> safe n = true.
Proof. destruct x as [s|]; [apply ofString_safe|discriminate]. Qed.

Lemma parseInt_safe s n : parseInt s = Int n -> safe n = true.
Proof.
  unfold parseInt. destruct (negb (allAscii s)); [discriminate|].
  destruct (signed (trimStart s)) as [sg s2].
  destruct (JS.startsWith "0x" s2 || JS.startsWith "0X" s2); [discriminate|].
  destruct (digits 0 0 s2) as [[v count] rest].
  destruct count; [discriminate|].
  intros H. apply int_Int in H. tauto.
Qed.

Lemma safe_spec z : safe z = true <-> (- limit <= z <= limit)%Z.
Proof. unfold safe. rewrite Z.leb_le. lia. Qed.

Lemma add_Int x y :
  safe x = true -> safe y = true -> safe (x + y) = true ->
  add (Int x) (Int y) = Int (x + y).
Proof. intros Hx Hy Hs. unfold add. rewrite Hx, Hy. apply int_safe; trivial. Qed.

Lemma toString_Int z : safe z = true -> toString (Int z) = Some (decimal z).
Proof. intros H. unfold toString. rewrite H. trivial. Qed.

Lemma geb_Int x y :
  safe x = true -> safe y = true -> geb (Int x) (Int y) = Some (y <=? x)%Z.
Proof. intros Hx Hy. unfold geb. rewrite Hx, Hy. trivial. Qed.

End NumFacts.
(** * Adding a form to a formset *)

Module FormsetFacts.
Import DOM JQ Sel Handlers DOMFacts JQFacts ClassFacts SpliceFacts OrderFacts StringFacts.

#[local] Arguments path_eq_dec : simpl never.

Lemma assoc_set_same k v l : assoc k (assoc_set k v l) = Some v.
Proof.
  induction l as [|[k' v'] l IH]; simpl.
  - rewrite String.eqb_refl; trivial.
  - destruct (String.eqb k k') eqn:E; simpl.
    + rewrite String.eqb_refl; trivial.
    + rewrite E; trivial.
Qed.

Lemma assoc_set_other k k' v l : k <> k' -> assoc k (assoc_set k' v l) = assoc k l.
Proof.
  intros ne. apply String.eqb_neq in ne.
  induction l as [|[k0 v0] l IH]; simpl.
  - rewrite ne; trivial.
  - destruct (String.eqb k' k0) eqn:E; simpl.
    + apply String.eqb_eq in E as <-. rewrite ne; trivial.
    + rewrite IH; trivial.
Qed.

Lemma getAttr_setAttr_same k v d : getAttr k (setAttr k v d) = Some v.
Proof. apply assoc_set_same. Qed.

Lemma getAttr_setAttr_other k k' v d :
  k <> k' -> getAttr k (setAttr k' v d) = getAttr k d.
Proof. apply assoc_set_other. Qed.

Lemma assoc_set_idem k v l : assoc_set k v (assoc_set k v l) = assoc_set k v l.
Proof.
  induction l as [|[k' v'] l IH]; simpl.
  - rewrite String.eqb_refl; trivial.
  - destruct (String.eqb k k') eqn:E; simpl.
    + rewrite String.eqb_refl; trivial.
    + rewrite E, IH; trivial.
Qed.

Lemma setAttr_idem k v d : setAttr k v (setAttr k v d) = setAttr k v d.
Proof. unfold setAttr; simpl. rewrite assoc_set_idem; trivial. Qed.

(** *** Pages without widgets

    The handler hands to select2 or to TinyMCE the new controls that
    ask for it and, at its end, every element of the class
    [autocomplete]; the model follows it on a page that holds no such
    element. *)

Definition widget : selector := fun d => asksWidget d || hasClass "autocomplete" d.

Fixpoint widgetFree (n : node) : bool :=
  match n with
  | Text _ => true
  | Elem d ks => negb (widget d) && forallb widgetFree ks
  end.

Lemma widgetFree_get : forall p t n,
  widgetFree t = true -> get t p = Some n -> widgetFree n = true.
Proof.
  induction p as [|i p IH]; intros t n Ht Hg; simpl in Hg.
  - injection Hg as <-; trivial.
  - destruct t as [s|d ks]; [discriminate|].
    destruct (nth_error ks i) as [k|] eqn:Ek; [|discriminate].
    simpl in Ht. apply andb_true_iff in Ht as [_ Hks].
    rewrite forallb_forall in Hks.
    apply (IH k); trivial. apply Hks. eapply nth_error_In; eauto.
Qed.

Lemma widgetFree_data t q d :
  widgetFree t = true -> data_at t q = Some d -> widget d = false.
Proof.
  intros Ht Hd. unfold data_at in Hd.
  destruct (get t q) as [[s|d' ks]|] eqn:Eg; try discriminate.
  injection Hd as ->.
  pose proof (widgetFree_get _ _ _ Ht Eg) as H. simpl in H.
  apply andb_true_iff in H as [H _]. apply negb_true_iff in H. trivial.
Qed.

Lemma forallb_alter_nth {A} (g : A -> bool) (h : A -> A) : forall i l,
  (forall x, g x = true -> g (h x) = true) ->
  forallb g l = true -> forallb g (alter_nth h i l) = true.
Proof.
  intros i l Hh. revert i. induction l as [|x l IH]; intros i Hl; [destruct i; trivial|].
  simpl in Hl. apply andb_true_iff in Hl as [Hx Hl].
  destruct i as [|i]; simpl.
  - rewrite Hh, Hl; trivial.
  - rewrite Hx, IH; trivial.
Qed.

Lemma widgetFree_alter f : forall p t,
  (forall n, widgetFree n = true -> widgetFree (f n) = true) ->
  widgetFree t = true -> widgetFree (alter_at f p t) = true.
Proof.
  induction p as [|i p IH]; intros t Hf Ht; simpl; [auto|].
  destruct t as [s|d ks]; trivial.
  simpl in *. apply andb_true_iff in Ht as [Hd Hks]. rewrite Hd. simpl.
  apply forallb_alter_nth; trivial. intros x Hx. apply IH; trivial.
Qed.

Lemma widgetFree_on_data f n :
  (forall d, widget (f d) = widget d) ->
  widgetFree n = true -> widgetFree (on_data f n) = true.
Proof. intros Hf. destruct n as [s|d ks]; simpl; trivial. rewrite Hf; trivial. Qed.

Lemma widgetFree_update f S : forall t,
  (forall d, widget (f d) = widget d) ->
  widgetFree t = true -> widgetFree (update_all f S t) = true.
Proof.
  unfold update_all. induction S as [|p S IH]; intros t Hf Ht; simpl; trivial.
  apply IH; trivial. apply widgetFree_alter; trivial.
  intros n. apply widgetFree_on_data; trivial.
Qed.

Lemma widgetFree_append new P t :
  forallb widgetFree new = true ->
  widgetFree t = true -> widgetFree (append_at new P t) = true.
Proof.
  intros Hnew Ht. unfold append_at, splice. apply widgetFree_alter; trivial.
  intros [s|d ks]; simpl; trivial. intros H.
  apply andb_true_iff in H as [Hd Hks]. rewrite Hd. simpl.
  rewrite Nat.add_0_r.
  rewrite <- (firstn_skipn (List.length (kids_at t P)) ks) in Hks.
  rewrite forallb_app in Hks. apply andb_true_iff in Hks as [H1 H2].
  rewrite !forallb_app, H1, Hnew, H2; trivial.
Qed.

Lemma widgetFree_clones t S :
  widgetFree t = true -> forallb widgetFree (clones t S) = true.
Proof.
  intros Ht. unfold clones. induction S as [|p S IH]; simpl; trivial.
  rewrite forallb_app, IH, andb_true_r.
  destruct (get t p) as [n|] eqn:E; simpl; trivial.
  rewrite (widgetFree_get _ _ _ Ht E); trivial.
Qed.

Lemma widget_setAttr k v d :
  k <> "data-voc-prefix" -> widget (setAttr k v d) = widget d.
Proof.
  intros ne. unfold widget, asksWidget.
  rewrite getAttr_setAttr_other by congruence. reflexivity.
Qed.

Lemma widgetFree_query t : widgetFree t = true -> query t autocomplete = [].
Proof.
  intros Ht. unfold query. destruct (select t (matches t autocomplete)) as [|q l] eqn:E; trivial.
  assert (Hin : In q (select t (matches t autocomplete))) by (rewrite E; left; trivial).
  apply select_In in Hin as [_ Hm]. unfold matches in Hm.
  destruct (data_at t q) as [d|] eqn:Hd; [|discriminate].
  pose proof (widgetFree_data _ _ _ Ht Hd) as Hw.
  unfold widget in Hw. apply orb_false_iff in Hw as [_ Hw].
  unfold autocomplete in Hm. rewrite Hw in Hm. discriminate.
Qed.

Lemma initAutocompleteWidgets_free t :
  widgetFree t = true -> initAutocompleteWidgets t = Done t.
Proof. intros Ht. unfold initAutocompleteWidgets. rewrite widgetFree_query; trivial. Qed.

(** On such a page the loop starts no widget. *)
Lemma renameControls_free pn pi qs : forall t,
  widgetFree t = true ->
  exists t', document (renameControls pn pi qs t) = Some t' /\ widgetFree t' = true.
Proof.
  induction qs as [|q qs IH]; intros t Ht; simpl; [eauto|].
  destruct (attr_at "name" t q) as [nm|]; [|simpl; eauto].
  set (t1 := alter_at _ q t).
  assert (H1 : widgetFree t1 = true).
  { apply widgetFree_alter; trivial. intros n. apply widgetFree_on_data.
    intros d. apply widget_setAttr. discriminate. }
  destruct (attr_at "id" t1 q) as [i|]; [|simpl; eauto].
  set (t2 := alter_at _ q t1).
  assert (H2 : widgetFree t2 = true).
  { apply widgetFree_alter; trivial. intros n. apply widgetFree_on_data.
    intros d. apply widget_setAttr. discriminate. }
  assert (Hm : matches t2 asksWidget q = false).
  { unfold matches. destruct (data_at t2 q) as [d|] eqn:Hd; trivial.
    pose proof (widgetFree_data _ _ _ H2 Hd) as Hw.
    unfold widget in Hw. apply orb_false_iff in Hw. tauto. }
  rewrite Hm. apply IH; trivial.
Qed.

(** What the loop of [addEmptyForm] does to one control. *)
Definition renamed (newFormPrefixName newFormPrefixId : string) (d : edata) : edata :=
  match getAttr "name" d, getAttr "id" d with
  | Some nm, Some i =>
      setAttr "id" (withPrefix newFormPrefixId i)
        (setAttr "name" (withPrefix newFormPrefixName nm) d)
  | _, _ => d
  end.

Definition renamable (t : node) (q : path) : Prop :=
  exists d nm i,
    data_at t q = Some d /\ getAttr "name" d = Some nm /\ getAttr "id" d = Some i /\
    asksWidget d = false.

Lemma asksWidget_setAttr k v d :
  k <> "data-voc-prefix" -> asksWidget (setAttr k v d) = asksWidget d.
Proof.
  intros ne. unfold asksWidget.
  rewrite getAttr_setAttr_other by congruence. reflexivity.
Qed.

(** When every control has a name and an id and asks for no widget, the
    loop ends normally, having renamed each control once and touched
    nothing else. *)
Lemma renameControls_spec pn pi qs :
  forall t, NoDup qs -> (forall q, In q qs -> renamable t q) ->
  exists t', renameControls pn pi qs t = Done t' /\
    subpaths t' = subpaths t /\
    (forall P, List.length (kids_at t' P) = List.length (kids_at t P)) /\
    forall q, data_at t' q =
              option_map (fun d => if mem q qs then renamed pn pi d else d)
                         (data_at t q).
Proof.
  induction qs as [|q qs IH]; intros t ND Hall; simpl.
  - exists t. repeat split; trivial. intros q. destruct (data_at t q); trivial.
  - inversion ND as [|? ? Hq ND']; subst.
    destruct (Hall q (or_introl eq_refl)) as (d & nm & i & Hd & Hn & Hi & Hw).
    unfold attr_at at 1. rewrite Hd, Hn.
    unfold attr_at at 1. rewrite data_at_alter_data.
    destruct (path_eq_dec q q) as [_|]; [|tauto]. rewrite Hd.
    cbn [option_map].
    rewrite getAttr_setAttr_other by discriminate. rewrite Hi.
    match goal with
    | |- context [matches ?t2 asksWidget q] =>
        assert (Hm : matches t2 asksWidget q = false)
    end.
    { unfold matches. rewrite !data_at_alter_data.
      destruct (path_eq_dec q q) as [_|]; [|tauto]. rewrite Hd. cbn [option_map].
      rewrite !asksWidget_setAttr by discriminate. trivial. }
    rewrite Hm.
    match goal with
    | |- context [renameControls pn pi qs ?t2] => destruct (IH t2 ND') as (t' & E & Hs & Hk & Hdat)
    end.
    { intros x Hx. destruct (Hall x (or_intror Hx)) as (dx & nx & ix & H1 & H2 & H3 & H4).
      exists dx, nx, ix. repeat split; trivial.
      rewrite !data_at_alter_data.
      destruct (path_eq_dec q x) as [->|]; [tauto|trivial]. }
    exists t'. split; [trivial|]. split; [|split].
    + rewrite Hs, !subpaths_alter_data; trivial.
    + intros P. rewrite Hk, !length_kids_alter_data; trivial.
    + intros x. rewrite Hdat, !data_at_alter_data.
      destruct (path_eq_dec q x) as [->|ne].
      * apply mem_false in Hq. rewrite Hq, Hd. simpl.
        unfold mem. destruct (in_dec path_eq_dec x (x :: qs)) as [_|n];
          [|exfalso; apply n; left; trivial].
        unfold renamed. rewrite Hn, Hi; trivial.
      * destruct (data_at t x); simpl; trivial.
        unfold mem. destruct (in_dec path_eq_dec x qs) as [Hin|Hout],
          (in_dec path_eq_dec x (q :: qs)) as [Hin'|Hout']; trivial.
        -- exfalso; apply Hout'; right; trivial.
        -- destruct Hin' as [->|]; tauto.
Qed.

(** *** The parts of [addEmptyForm] *)

Definition managementForm (t : node) (context : path) : list path :=
  getManagementFormContainer t (wrap t context).

Definition maxNumControl (t : node) (context : path) : list path :=
  children t (both (tagIs "input") (attrEnds "name" "MAX_NUM_FORMS"))
    (managementForm t context).

Definition totalControl (t : node) (context : path) : list path :=
  children t (both (tagIs "input") (attrEnds "name" "TOTAL_FORMS"))
    (managementForm t context).

(** The counter and the bound the handler reads. *)
Definition totalRows (t : node) (context : path) : Num.num :=
  Num.Number (attr t "value" (totalControl t context)).

Definition maxRows (t : node) (context : path) : Num.num :=
  Num.Number (attr t "value" (maxNumControl t context)).

(** The add-row control: the label around the element that calls the
    handler. *)
Definition addControl (t : node) (context : path) : list path :=
  parent t (tagIs "label") (wrap t context).

Definition blueprints (t : node) (formType : string) : list path :=
  children t (attrEq "data-form-type" formType) (byId t "empty_forms").

(** jQuery reads the selector of line 523 as the test that the
    attribute [data-form-type] is the form type, which it does when the
    form type is an identifier. *)
Definition reads (compile : reader) (formType : string) : Prop :=
  compile (formSelector formType)
  = Some (fun t => matches t (attrEq "data-form-type" formType)).

(** The test of line 517. *)
Definition boundReached (t : node) (context : path) : option bool :=
  Num.geb (Num.add (totalRows t context) (Num.Int 1)) (maxRows t context).

(** The elements hidden by line 518. *)
Definition hiddenByAdd (t : node) (context : path) : list path :=
  match boundReached t context with
  | Some true => addControl t context
  | _ => []
  end.

(** [addEmptyForm] from line 520 on, [t1] being the document after the
    test of the bound. *)
Definition finish (compile : reader) (formType : string) (context : path)
    (total : list path) (number : Num.num) (t1 : node) : outcome :=
  let formParent := getNewFormParent t1 (wrap t1 context) in
  match compile (formSelector formType) with
  | None => SyntaxError t1
  | Some blueprint =>
  let newForm :=
    clones t1
      (select t1 (fun q => existsb (fun p => child_of p q) (byId t1 "empty_forms")
                           && blueprint t1 q)) in
  let count := seq 0 (List.length newForm) in
  let t2 :=
    match formParent with
    | [P] => append_at newForm P t1
    | _ => t1
    end in
  match generateNewFormPrefix t2 total "name" number with
  | Raises => TypeError t2
  | Unknown => Beyond
  | Returns newFormPrefixName =>
      match generateNewFormPrefix t2 total "id" number with
      | Raises => TypeError t2
      | Unknown => Beyond
      | Returns newFormPrefixId =>
          let increment t :=
            match Num.toString (Num.add number (Num.Int 1)) with
            | Some v =>
                initAutocompleteWidgets (update_all (setAttr "value" v) total t)
            | None => Beyond
            end in
          match formParent with
          | [P] =>
              let len := List.length (kids_at t1 P) in
              let placed := map (fun i => P ++ [len + i])%list count in
              let newControls := find t2 (attrContains "name" "__prefix__") placed in
              match renameControls newFormPrefixName newFormPrefixId newControls t2 with
              | Done t3 => increment t3
              | o => o
              end
          | _ =>
              let loose := Elem (mkData "#fragment" [] [] false None false) newForm in
              let newControls :=
                find loose (attrContains "name" "__prefix__")
                  (map (fun i => [i]) count) in
              match renameControls newFormPrefixName newFormPrefixId newControls loose with
              | Done _ => increment t2
              | TypeError _ => TypeError t2
              | SyntaxError _ => SyntaxError t2
              | Beyond => Beyond
              end
          end
      end
  end
  end.

Lemma addEmptyForm_parts compile formType context t :
  addEmptyForm compile formType context t =
  match boundReached t context with
  | Some _ =>
      finish compile formType context (totalControl t context) (totalRows t context)
        (update_all (setHidden true) (hiddenByAdd t context) t)
  | None => Beyond
  end.
Proof.
  unfold addEmptyForm, hiddenByAdd, boundReached, totalRows, maxRows,
    maxNumControl, totalControl, managementForm, addControl.
  cbv zeta.
  destruct (Num.geb _ _) as [[|]|]; reflexivity.
Qed.

(** The loop writes the [name] and the [id] only. *)
Lemma renameControls_keeps {A} (pr : edata -> A) pn pi qs :
  (forall k v d, pr (setAttr k v d) = pr d) ->
  forall t t' q,
    document (renameControls pn pi qs t) = Some t' ->
    option_map pr (data_at t' q) = option_map pr (data_at t q).
Proof.
  intros Hpr. induction qs as [|x qs IH]; intros t t' q; simpl.
  { intros E; injection E as <-; trivial. }
  destruct (attr_at "name" t x); [|intros E; injection E as <-; trivial].
  destruct (attr_at "id" _ x) eqn:E.
  - destruct (matches _ asksWidget x); [discriminate|].
    intros E'. rewrite (IH _ _ _ E'), !data_at_alter_data.
    destruct (path_eq_dec x q); trivial.
    destruct (data_at t q); simpl; trivial. rewrite !Hpr; trivial.
  - simpl. intros E'; injection E' as <-. rewrite data_at_alter_data.
    destruct (path_eq_dec x q); trivial.
    destruct (data_at t q); simpl; trivial. rewrite !Hpr; trivial.
Qed.

Lemma initAutocompleteWidgets_document t t' :
  document (initAutocompleteWidgets t) = Some t' -> t' = t.
Proof.
  unfold initAutocompleteWidgets. destruct (query t autocomplete); [|discriminate].
  intros E; injection E as <-; trivial.
Qed.

(** From line 520 on, nothing is hidden or shown. *)
Lemma finish_keeps {A} (pr : edata -> A) compile formType context total number t1 t' q d :
  (forall k v d, pr (setAttr k v d) = pr d) ->
  data_at t1 q = Some d ->
  document (finish compile formType context total number t1) = Some t' ->
  option_map pr (data_at t' q) = Some (pr d).
Proof.
  intros Hpr Hd. unfold finish. cbv zeta.
  destruct (compile (formSelector formType)) as [blueprint|];
    [|intros E; injection E as <-; rewrite Hd; trivial].
  set (newForm := clones t1 _).
  assert (Hinc : forall t3 v,
            option_map pr (data_at t3 q) = Some (pr d) ->
            document (initAutocompleteWidgets (update_all (setAttr "value" v) total t3))
            = Some t' ->
            option_map pr (data_at t' q) = Some (pr d)).
  { intros t3 v H3 E. apply initAutocompleteWidgets_document in E as ->.
    rewrite proj_update by (intros; apply Hpr). trivial. }
  assert (H1 : option_map pr (data_at t1 q) = Some (pr d)) by (rewrite Hd; trivial).
  destruct (getNewFormParent t1 (wrap t1 context)) as [|P [|P' rest]].
  - destruct (generateNewFormPrefix _ _ _ _);
      [|intros E; injection E as <-; trivial|discriminate].
    destruct (generateNewFormPrefix _ _ _ _);
      [|intros E; injection E as <-; trivial|discriminate].
    destruct (renameControls _ _ _ _); simpl;
      try (intros E; injection E as <-; trivial); try discriminate.
    destruct (Num.toString _); [|discriminate]. apply Hinc; trivial.
  - assert (H2 : data_at (append_at newForm P t1) q = Some d)
      by (apply data_at_append; trivial).
    assert (H2' : option_map pr (data_at (append_at newForm P t1) q) = Some (pr d))
      by (rewrite H2; trivial).
    destruct (generateNewFormPrefix _ _ _ _);
      [|intros E; injection E as <-; trivial|discriminate].
    destruct (generateNewFormPrefix _ _ _ _);
      [|intros E; injection E as <-; trivial|discriminate].
    match goal with
    | |- context [renameControls ?a ?b ?c ?t] =>
        pose proof (renameControls_keeps pr a b c Hpr t) as Hk;
        destruct (renameControls a b c t) as [t3|t3|t3|]
    end; simpl in *.
    + destruct (Num.toString _); [|discriminate]. apply Hinc.
      rewrite (Hk t3 q eq_refl); trivial.
    + intros E; injection E as <-. rewrite (Hk t3 q eq_refl); trivial.
    + intros E; injection E as <-. rewrite (Hk t3 q eq_refl); trivial.
    + discriminate.
  - destruct (generateNewFormPrefix _ _ _ _);
      [|intros E; injection E as <-; trivial|discriminate].
    destruct (generateNewFormPrefix _ _ _ _);
      [|intros E; injection E as <-; trivial|discriminate].
    destruct (renameControls _ _ _ _); simpl;
      try (intros E; injection E as <-; trivial); try discriminate.
    destruct (Num.toString _); [|discriminate]. apply Hinc; trivial.
Qed.

(** On a page without widgets, and with a counter that [String] can
    write, the handler is followed to its end. *)
Lemma finish_free compile formType context total number t1 s v :
  widgetFree t1 = true ->
  Num.toString number = Some s ->
  Num.toString (Num.add number (Num.Int 1)) = Some v ->
  exists t', document (finish compile formType context total number t1) = Some t'.
Proof.
  intros Ht Hs Hv. unfold finish. cbv zeta.
  destruct (compile (formSelector formType)) as [blueprint|]; [|simpl; eauto].
  set (newForm := clones t1 _).
  assert (Hnew : forallb widgetFree newForm = true) by (apply widgetFree_clones; trivial).
  assert (Hinc : forall t3, widgetFree t3 = true ->
            exists t', document (initAutocompleteWidgets
                                   (update_all (setAttr "value" v) total t3)) = Some t').
  { intros t3 H3. rewrite initAutocompleteWidgets_free; [simpl; eauto|].
    apply widgetFree_update; trivial. intros d. apply widget_setAttr. discriminate. }
  unfold generateNewFormPrefix. rewrite Hs, Hv.
  destruct (getNewFormParent t1 (wrap t1 context)) as [|P [|P' rest]].
  - destruct (attr t1 "name" total); [|simpl; eauto].
    destruct (attr t1 "id" total); [|simpl; eauto].
    match goal with
    | |- context [renameControls ?a ?b ?c ?t] =>
        destruct (renameControls_free a b c t) as (t3 & E3 & H3);
          [|destruct (renameControls a b c t)]
    end; simpl; eauto; try discriminate.
  - assert (H2 : widgetFree (append_at newForm P t1) = true)
      by (apply widgetFree_append; trivial).
    destruct (attr _ "name" total); [|simpl; eauto].
    destruct (attr _ "id" total); [|simpl; eauto].
    match goal with
    | |- context [renameControls ?a ?b ?c ?t] =>
        destruct (renameControls_free a b c t) as (t3 & E3 & H3);
          [trivial|destruct (renameControls a b c t)]
    end; simpl; eauto; try discriminate.
    simpl in E3. injection E3 as ->. auto.
  - destruct (attr t1 "name" total); [|simpl; eauto].
    destruct (attr t1 "id" total); [|simpl; eauto].
    match goal with
    | |- context [renameControls ?a ?b ?c ?t] =>
        destruct (renameControls_free a b c t) as (t3 & E3 & H3);
          [|destruct (renameControls a b c t)]
    end; simpl; eauto; try discriminate.
Qed.

Lemma fresh_place t P sub :
  data_at t (P ++ List.length (kids_at t P) :: sub)%list = None.
Proof.
  unfold data_at, kids_at. rewrite get_app.
  destruct (get t P) as [[s|d ks]|]; simpl; trivial.
  assert (H : nth_error ks (List.length ks) = None)
    by (apply nth_error_None; lia).
  rewrite H; trivial.
Qed.

Lemma above_child P k q :
  above (P ++ [k]) q = true <-> exists i r, q = (P ++ k :: i :: r)%list.
Proof.
  rewrite above_spec. split; intros (i & r & ->); exists i, r;
    rewrite <- app_assoc; trivial.
Qed.

Lemma elem_get t q d : data_at t q = Some d -> exists ks, get t q = Some (Elem d ks).
Proof.
  unfold data_at. destruct (get t q) as [[s|d' ks]|]; try discriminate.
  intros H; injection H as ->; eauto.
Qed.

Lemma attrs_setHidden_if (c : bool) d :
  attrs (if c then setHidden true d else d) = attrs d.
Proof. destruct c; trivial. Qed.

(** The prefixes of line 533 and 534, from the attributes of the counter
    control and the digits of the counter. *)
Definition newPrefix (attrValue number : string) : string :=
  String.append (JS.slice attrValue 0 (JS.indexOf attrValue "TOTAL_FORMS")) number.

Definition isNewControl (sub : path) (d : edata) : bool :=
  match sub with
  | [] => false
  | _ => attrContains "name" "__prefix__" d
  end.

Lemma last_In (S : list path) (p : path) : last S = [p] -> In p S.
Proof.
  unfold last. destruct S as [|x S]; [discriminate|].
  intros H; injection H as <-.
  revert x; induction S as [|y S IH]; intros x; simpl; auto.
  right. apply (IH y).
Qed.

Section Finish.
Variables (compile : reader) (formType : string) (context : path)
  (total : list path) (number : Num.num) (t0 : node) (H : list path)
  (P B : path) (tn ti s v : string).

Let t1 := update_all (setHidden true) H t0.
Let len := List.length (kids_at t0 P).

Hypothesis Hread : reads compile formType.
Hypothesis HP : getNewFormParent t0 (wrap t0 context) = [P].
Hypothesis HB : blueprints t0 formType = [B].
Hypothesis Htot : forall q, In q total -> In q (subpaths t0).
Hypothesis Hname : attr t0 "name" total = Some tn.
Hypothesis Hid : attr t0 "id" total = Some ti.
Hypothesis Hids : forall sub d,
  data_at t0 (B ++ sub) = Some d -> isNewControl sub d = true ->
  exists i, getAttr "id" d = Some i.
Hypothesis Hfree : widgetFree t0 = true.
Hypothesis Hs : Num.toString number = Some s.
Hypothesis Hv : Num.toString (Num.add number (Num.Int 1)) = Some v.

Lemma parent_after_hide : getNewFormParent t1 (wrap t1 context) = [P].
Proof.
  rewrite <- HP. unfold getNewFormParent, t1.
  rewrite wrap_update, parents_update, children_update by solve_stable; trivial.
Qed.

Lemma blueprint_after_hide :
  children t1 (attrEq "data-form-type" formType) (byId t1 "empty_forms") = [B].
Proof.
  rewrite <- HB. unfold blueprints, byId, t1.
  rewrite query_update, children_update by solve_stable; trivial.
Qed.

Lemma data_after_hide q :
  data_at t1 q =
  option_map (fun d => if mem q H then setHidden true d else d) (data_at t0 q).
Proof. apply data_at_update. reflexivity. Qed.

Lemma free_after_hide : widgetFree t1 = true.
Proof. apply widgetFree_update; trivial. Qed.

Lemma parent_elem : exists d, data_at t0 P = Some d.
Proof.
  apply subpaths_spec. pose proof (last_In _ _ HP) as Hin.
  apply select_In in Hin; tauto.
Qed.

Lemma blueprint_elem : exists d, data_at t0 B = Some d.
Proof.
  apply subpaths_spec. unfold blueprints in HB.
  assert (Hin : In B (children t0 (attrEq "data-form-type" formType)
                        (byId t0 "empty_forms"))) by (rewrite HB; left; trivial).
  apply select_In in Hin; tauto.
Qed.

Lemma len_after_hide : List.length (kids_at t1 P) = len.
Proof. apply length_kids_update. Qed.

Lemma attr_after_hide k S : attr t1 k S = attr t0 k S.
Proof.
  unfold attr. destruct S as [|q0 rest]; trivial.
  rewrite data_after_hide. destruct (data_at t0 q0); simpl; trivial.
  destruct (mem q0 H); trivial.
Qed.

Lemma prefix_after_append k new a :
  attr t0 k total = Some a ->
  generateNewFormPrefix (append_at new P t1) total k number = Returns (newPrefix a s).
Proof.
  intros Ha. unfold generateNewFormPrefix.
  assert (E : attr (append_at new P t1) k total = Some a).
  { rewrite <- (attr_after_hide k) in Ha. revert Ha. unfold attr.
    generalize total. intros [|q0 rest]; trivial.
    destruct (data_at t1 q0) as [d|] eqn:E; [|discriminate].
    rewrite (data_at_append _ _ _ _ _ E); trivial. }
  rewrite E, Hs; trivial.
Qed.

(** The new row is a copy of the blueprint. *)
Lemma new_row_data bp sub :
  get t1 B = Some bp ->
  data_at (append_at [bp] P t1) (P ++ len :: sub) = data_at t1 (B ++ sub).
Proof.
  intros Hbp. destruct parent_elem as [d Hd].
  assert (Hd1 : exists d1, data_at t1 P = Some d1).
  { rewrite data_after_hide, Hd; simpl; eauto. }
  destruct Hd1 as [d1 Hd1].
  unfold data_at. rewrite <- len_after_hide.
  replace (List.length (kids_at t1 P)) with (List.length (kids_at t1 P) + 0) by lia.
  rewrite (get_append_new [bp] P t1 d1 0 sub Hd1) by (simpl; lia).
  simpl. rewrite get_app, Hbp; trivial.
Qed.

(** The controls of the new row that the loop renames. *)
Lemma new_controls bp q :
  get t1 B = Some bp ->
  In q (find (append_at [bp] P t1) (attrContains "name" "__prefix__")
          (map (fun i => P ++ [List.length (kids_at t1 P) + i]) (seq 0 1))) <->
  exists sub d, q = (P ++ len :: sub)%list /\ data_at t0 (B ++ sub) = Some d /\
                isNewControl sub d = true.
Proof.
  intros Hbp. rewrite len_after_hide. simpl. rewrite Nat.add_0_r.
  unfold find. rewrite select_In, subpaths_spec. simpl. rewrite orb_false_r.
  rewrite andb_true_iff, above_child. unfold matches. split.
  - intros ([d Hd] & (i & r & ->) & Hm). rewrite Hd in Hm.
    rewrite new_row_data, data_after_hide in Hd by trivial.
    destruct (data_at t0 (B ++ i :: r)) as [d0|] eqn:E; [|discriminate].
    exists (i :: r), d0. repeat split; trivial. simpl in *.
    injection Hd as <-. unfold attrContains in *.
    destruct (mem _ H); trivial.
  - intros (sub & d & -> & Hd & Hc). destruct sub as [|i r]; [discriminate|].
    rewrite new_row_data, data_after_hide, Hd by trivial. simpl.
    repeat split; eauto.
    unfold attrContains in *. destruct (mem _ H); trivial.
Qed.

(** What line 518 leaves of an element. *)
Definition afterHide (q : path) (d : edata) : edata :=
  if mem q H then setHidden true d else d.

Lemma finish_done :
  exists t', finish compile formType context total number t1 = Done t' /\
    List.length (kids_at t' P) = S len /\
    (forall sub,
        data_at t' (P ++ len :: sub) =
        option_map (fun d => if isNewControl sub d
                             then renamed (newPrefix tn s) (newPrefix ti s)
                                    (afterHide (B ++ sub) d)
                             else afterHide (B ++ sub) d)
                   (data_at t0 (B ++ sub))) /\
    (forall q d, data_at t0 q = Some d ->
        data_at t' q =
        Some (if mem q total
              then setAttr "value" v (afterHide q d)
              else afterHide q d)).
Proof.
  destruct blueprint_elem as [dB HdB].
  assert (Hbp : exists bp, get t1 B = Some bp).
  { assert (E : exists d, data_at t1 B = Some d)
      by (rewrite data_after_hide, HdB; simpl; eauto).
    destruct E as [d E]. apply elem_get in E as [ks E]. eauto. }
  destruct Hbp as [bp Hbp].
  destruct parent_elem as [dP HdP].
  assert (HdP1 : exists d1, data_at t1 P = Some d1)
    by (rewrite data_after_hide, HdP; simpl; eauto).
  destruct HdP1 as [dP1 HdP1].
  unfold finish. cbv zeta.
  rewrite parent_after_hide, Hread. cbv beta.
  change (select t1 (fun q => existsb (fun p => child_of p q) (byId t1 "empty_forms")
                              && matches t1 (attrEq "data-form-type" formType) q))
    with (children t1 (attrEq "data-form-type" formType) (byId t1 "empty_forms")).
  rewrite blueprint_after_hide.
  unfold clones. simpl flat_map. rewrite Hbp. simpl app. simpl List.length.
  rewrite (prefix_after_append "name" [bp] tn Hname).
  rewrite (prefix_after_append "id" [bp] ti Hid).
  set (t2 := append_at [bp] P t1).
  set (ctl := find t2 _ _).
  assert (H2 : widgetFree t2 = true).
  { apply widgetFree_append; [|apply free_after_hide].
    simpl. rewrite (widgetFree_get _ _ _ free_after_hide Hbp). trivial. }
  destruct (renameControls_spec (newPrefix tn s) (newPrefix ti s) ctl t2)
    as (t3 & E3 & Hs3 & Hk3 & Hd3).
  { apply NoDup_select. }
  { intros q Hq. apply (new_controls bp q Hbp) in Hq as (sub & d & -> & Hd & Hc).
    destruct (Hids sub d Hd Hc) as [i Hi].
    destruct sub as [|j r]; [discriminate|]. simpl in Hc.
    unfold attrContains in Hc.
    destruct (getAttr "name" d) as [nm|] eqn:Hn; [|discriminate].
    exists (if mem (B ++ j :: r) H then setHidden true d else d), nm, i.
    unfold t2. rewrite new_row_data, data_after_hide, Hd by trivial. simpl.
    pose proof (widgetFree_data _ _ _ Hfree Hd) as Hw.
    unfold widget in Hw. apply orb_false_iff in Hw as [Hw _].
    repeat split; trivial; destruct (mem _ H); trivial. }
  rewrite E3, Hv.
  assert (H3 : widgetFree t3 = true).
  { destruct (renameControls_free (newPrefix tn s) (newPrefix ti s) ctl t2 H2)
      as (t3' & E & H3). rewrite E3 in E. injection E as <-. trivial. }
  rewrite initAutocompleteWidgets_free
    by (apply widgetFree_update; trivial; intros d; apply widget_setAttr; discriminate).
  eexists; split; [reflexivity|]. split; [|split].
  - rewrite length_kids_update, Hk3. unfold t2.
    rewrite (kids_at_append _ _ _ _ HdP1), length_app, len_after_hide.
    simpl; lia.
  - intros sub.
    rewrite data_at_update_out.
    2:{ intros Hin. apply Htot, subpaths_spec in Hin as [d Hd].
        unfold len in Hd. rewrite fresh_place in Hd. discriminate. }
    rewrite Hd3. unfold t2. rewrite new_row_data, data_after_hide by trivial.
    unfold afterHide.
    destruct (data_at t0 (B ++ sub)) as [d|] eqn:Hd; simpl; trivial.
    f_equal. destruct (isNewControl sub d) eqn:Hc.
    + assert (Hin : In (P ++ len :: sub)%list ctl).
      { apply (new_controls bp _ Hbp). eauto. }
      apply mem_true in Hin. rewrite Hin. trivial.
    + assert (Hout : ~ In (P ++ len :: sub)%list ctl).
      { intros Hin. apply (new_controls bp _ Hbp) in Hin as (sub' & d' & E & Hd' & Hc').
        apply app_inv_head in E. injection E as <-. congruence. }
      apply mem_false in Hout. rewrite Hout. trivial.
  - intros q d Hd.
    rewrite data_at_update by apply setAttr_idem. rewrite Hd3.
    assert (Hout : ~ In q ctl).
    { intros Hin. apply (new_controls bp _ Hbp) in Hin as (sub' & d' & -> & _).
      unfold len in Hd. rewrite fresh_place in Hd. discriminate. }
    apply mem_false in Hout. rewrite Hout.
    assert (E1 : data_at t1 q = Some (afterHide q d))
      by (rewrite data_after_hide, Hd; trivial).
    unfold t2. rewrite (data_at_append _ _ _ _ _ E1). simpl. trivial.
Qed.

End Finish.

(** Every control of the blueprint at [B] that the loop will rename has
    an [id]. *)
Definition controlsHaveIds (t : node) (B : path) : bool :=
  match get t B with
  | Some bp =>
      forallb (fun sub => match data_at bp sub with
                          | Some d => negb (isNewControl sub d) || attrHas "id" d
                          | None => true
                          end) (subpaths bp)
  | None => true
  end.

Lemma controlsHaveIds_spec t B sub d :
  controlsHaveIds t B = true ->
  data_at t (B ++ sub) = Some d -> isNewControl sub d = true ->
  exists i, getAttr "id" d = Some i.
Proof.
  unfold controlsHaveIds, data_at. rewrite get_app.
  destruct (get t B) as [bp|]; [|discriminate].
  intros Hall Hd Hc. rewrite forallb_forall in Hall.
  specialize (Hall sub). unfold data_at in Hall.
  assert (Hin : In sub (subpaths bp)).
  { apply subpaths_spec. unfold data_at. eauto. }
  apply Hall in Hin. rewrite Hd, Hc in Hin. simpl in Hin. unfold attrHas in Hin.
  destruct (getAttr "id" d); [eauto|discriminate].
Qed.

(** The counter is an integer [n] below 2^53, and the bound is an
    integer or no number: line 517 is decided, and [String] writes [n]
    and [n + 1] in plain digits. *)
Lemma counter_followed t context n :
  totalRows t context = Num.Int n -> (n < Num.limit)%Z ->
  maxRows t context <> Num.Other ->
  Num.toString (totalRows t context) = Some (Num.decimal n) /\
  Num.toString (Num.add (totalRows t context) (Num.Int 1)) = Some (Num.decimal (n + 1)) /\
  exists reached, boundReached t context = Some reached.
Proof.
  intros Hn Hlt Hm. rewrite Hn.
  pose proof (NumFacts.Number_safe _ _ Hn) as Hsafe.
  assert (Hsafe1 : Num.safe (n + 1) = true).
  { apply NumFacts.safe_spec. apply NumFacts.safe_spec in Hsafe.
    unfold Num.limit in *. lia. }
  rewrite NumFacts.add_Int, !NumFacts.toString_Int by trivial.
  split; trivial. split; trivial.
  unfold boundReached. rewrite Hn, NumFacts.add_Int by trivial.
  destruct (maxRows t context) as [|m|] eqn:Em; [simpl; eauto| |tauto].
  pose proof (NumFacts.Number_safe _ _ Em) as Hm'.
  rewrite NumFacts.geb_Int by trivial. eauto.
Qed.

(** A successful call: one new child under the row container, a copy of
    the blueprint with its controls renamed, the counter written back,
    and nothing else changed but what line 518 hides. *)
Lemma add_row compile t formType context P B tn ti n :
  reads compile formType ->
  totalRows t context = Num.Int n -> (n < Num.limit)%Z ->
  maxRows t context <> Num.Other ->
  getNewFormParent t (wrap t context) = [P] ->
  blueprints t formType = [B] ->
  attr t "name" (totalControl t context) = Some tn ->
  attr t "id" (totalControl t context) = Some ti ->
  controlsHaveIds t B = true ->
  widgetFree t = true ->
  let number := Num.decimal n in
  let len := List.length (kids_at t P) in
  let hide := afterHide (hiddenByAdd t context) in
  exists t', addEmptyForm compile formType context t = Done t' /\
    List.length (kids_at t' P) = S len /\
    (forall sub,
        data_at t' (P ++ len :: sub) =
        option_map (fun d => if isNewControl sub d
                             then renamed (newPrefix tn number) (newPrefix ti number)
                                    (hide (B ++ sub)%list d)
                             else hide (B ++ sub)%list d)
                   (data_at t (B ++ sub))) /\
    (forall q d, data_at t q = Some d ->
        data_at t' q =
        Some (if mem q (totalControl t context)
              then setAttr "value" (Num.decimal (n + 1)) (hide q d)
              else hide q d)).
Proof.
  intros Hread Hn Hlt Hm HP HB Htn Hti Hids Hfree. cbv zeta.
  destruct (counter_followed t context n Hn Hlt Hm) as (Hs & Hv & reached & Hb).
  rewrite addEmptyForm_parts, Hb.
  apply finish_done; trivial.
  - intros q Hq. apply select_In in Hq; tauto.
  - intros sub d. apply controlsHaveIds_spec; trivial.
Qed.

(** The new prefix is what precedes the first [TOTAL_FORMS] in the
    attribute of the counter control, followed by the number. *)
Lemma newPrefix_first attrValue number :
  JS.includes attrValue "TOTAL_FORMS" = true ->
  exists b, first_at "TOTAL_FORMS" attrValue b /\
            newPrefix attrValue number =
            String.append (JS.take b attrValue) number.
Proof.
  intros H. apply includes_first in H as (b & E & Hf). exists b. split; trivial.
  unfold newPrefix. rewrite E, slice_take; trivial. apply Hf.
Qed.

(** The new value keeps what follows the last [__prefix__]. *)
Lemma withPrefix_last newPrefix val :
  JS.includes val "__prefix__" = true ->
  exists k, last_at "__prefix__" val k /\
            withPrefix newPrefix val = String.append newPrefix (JS.drop (k + 10) val).
Proof.
  intros H. apply includes_last in H as (k & E & Hl). exists k. split; trivial.
  unfold withPrefix, prefixLength. rewrite E, <- Nat2Z.inj_add, sliceFrom_drop.
  reflexivity.
Qed.

(** The counter control is selected by the end of its name. *)
Lemma total_name_marker t context tn :
  attr t "name" (totalControl t context) = Some tn ->
  JS.includes tn "TOTAL_FORMS" = true.
Proof.
  unfold attr. destruct (totalControl t context) as [|q0 rest] eqn:E; [discriminate|].
  assert (Hin : In q0 (totalControl t context)) by (rewrite E; left; trivial).
  apply select_In in Hin as [_ Hin]. apply andb_true_iff in Hin as [_ Hm].
  unfold matches in Hm. destruct (data_at t q0) as [d|]; [|discriminate].
  unfold both, attrEnds in Hm. apply andb_true_iff in Hm as [_ Hm].
  intros Hn. rewrite Hn in Hm. apply endsWith_includes; trivial.
Qed.

(** The parts of an element that neither line 518 nor the loop write. *)
Definition shape (d : edata) : string * list string * bool * option string :=
  (tag d, classes d, checked d, valueProp d).

Lemma afterHide_attr H q k d : getAttr k (afterHide H q d) = getAttr k d.
Proof. unfold afterHide. destruct (mem q H); trivial. Qed.

Lemma afterHide_shape H q d : shape (afterHide H q d) = shape d.
Proof. unfold afterHide. destruct (mem q H); trivial. Qed.

Lemma shape_setAttr k v d : shape (setAttr k v d) = shape d.
Proof. reflexivity. Qed.

Lemma renamed_shape pn pi d : shape (renamed pn pi d) = shape d.
Proof.
  unfold renamed. destruct (getAttr "name" d), (getAttr "id" d); trivial.
Qed.

Lemma renamed_other pn pi d k :
  k <> "name" -> k <> "id" -> getAttr k (renamed pn pi d) = getAttr k d.
Proof.
  intros n1 n2. unfold renamed.
  destruct (getAttr "name" d), (getAttr "id" d); trivial.
  rewrite !getAttr_setAttr_other by congruence. trivial.
Qed.

Lemma renamed_attrs pn pi d nm i :
  getAttr "name" d = Some nm -> getAttr "id" d = Some i ->
  getAttr "name" (renamed pn pi d) = Some (withPrefix pn nm) /\
  getAttr "id" (renamed pn pi d) = Some (withPrefix pi i).
Proof.
  intros Hn Hi. unfold renamed. rewrite Hn, Hi. split.
  - rewrite getAttr_setAttr_other by discriminate. apply getAttr_setAttr_same.
  - apply getAttr_setAttr_same.
Qed.

Lemma isNewControl_name sub d :
  isNewControl sub d = true ->
  exists nm, getAttr "name" d = Some nm /\ JS.includes nm "__prefix__" = true.
Proof.
  destruct sub; [discriminate|]. simpl. unfold attrContains.
  destruct (getAttr "name" d); [eauto|discriminate].
Qed.

(** The document that a call leaves, when the model follows it. *)
Definition resultOf (o : outcome) (t : node) : node :=
  match document o with
  | Some t' => t'
  | None => t
  end.

Lemma setHidden_idem' b d : setHidden b (setHidden b d) = setHidden b d.
Proof. reflexivity. Qed.

(** The first and the last occurrence of a marker are unique. *)
Lemma first_at_here needle s b k :
  first_at needle s b -> first_at needle s k -> b = k.
Proof.
  intros [Hb Hfb] [Hk Hfk].
  destruct (Nat.lt_trichotomy b k) as [Hlt|[->|Hgt]]; trivial.
  - exfalso. apply (Hfk b Hlt Hb).
  - exfalso. apply (Hfb k Hgt Hk).
Qed.

Lemma last_at_here needle s b k :
  last_at needle s b -> last_at needle s k -> b = k.
Proof.
  intros [Hb Hfb] [Hk Hfk].
  destruct (Nat.lt_trichotomy b k) as [Hlt|[->|Hgt]]; trivial.
  - exfalso. apply (Hfb k Hlt Hk).
  - exfalso. apply (Hfk b Hgt Hb).
Qed.





(** The marker of the counter and the placeholder of the first control
    of the sample page. *)
Lemma sample_marker : first_at "TOTAL_FORMS" "names-TOTAL_FORMS" 6.
Proof.
  split; [split; [simpl; lia|reflexivity]|].
  intros i Hi [_ Ho]. do 6 (destruct i as [|i]; [discriminate|]). lia.
Qed.

Lemma sample_placeholder : last_at "__prefix__" "names-__prefix__-display_name" 6.
Proof.
  split; [split; [simpl; lia|reflexivity]|].
  intros i Hi [Hle Ho]. simpl in Hle.
  do 7 (destruct i as [|i]; [lia|]).
  do 23 (destruct i as [|i]; [discriminate|]). lia.
Qed.


Lemma sample_marker_id : first_at "TOTAL_FORMS" "id_names-TOTAL_FORMS" 9.
Proof.
  split; [split; [simpl; lia|reflexivity]|].
  intros i Hi [_ Ho]. do 9 (destruct i as [|i]; [discriminate|]). lia.
Qed.

Lemma sample_placeholder_name : last_at "__prefix__" "names-__prefix__-preferred" 6.
Proof.
  split; [split; [simpl; lia|reflexivity]|].
  intros i Hi [Hle Ho]. simpl in Hle.
  do 7 (destruct i as [|i]; [lia|]).
  do 20 (destruct i as [|i]; [discriminate|]). lia.
Qed.

Lemma sample_placeholder_id : last_at "__prefix__" "id_names-__prefix__-preferred" 9.
Proof.
  split; [split; [simpl; lia|reflexivity]|].
  intros i Hi [Hle Ho]. simpl in Hle.
  do 10 (destruct i as [|i]; [lia|]).
  do 20 (destruct i as [|i]; [discriminate|]). lia.
Qed.






End FormsetFacts.
(** * The transcription loader *)

Module TranscriptionFacts.
Import DOM JQ Sel Handlers DOMFacts JQFacts ClassFacts SpliceFacts.

(** The number a record is sorted by. *)
Definition key (r : item) : Z :=
  match Num.parseInt (order (itemFields r)) with
  | Num.Int z => z
  | _ => 0%Z
  end.

(** The comparator is followed on a pair of records: it gives an
    integer, which it does when both orders are integers that
    [parseInt] reads in decimal digits and their difference is at most
    2^53 in absolute value. *)
Definition followed (a b : item) : bool :=
  match compare a b with
  | Num.Int _ => true
  | _ => false
  end.

Definition comparable (data : list item) : bool :=
  forallb (fun a => forallb (followed a) data) data.

Definition ascending (a b : item) : Prop := (key a <= key b)%Z.

Lemma positive_compare a b :
  followed a b = true ->
  positive (compare a b) = Some (key b <? key a)%Z.
Proof.
  unfold followed, compare, key.
  destruct (Num.parseInt (order (itemFields a))) as [|x|];
    destruct (Num.parseInt (order (itemFields b))) as [|y|]; try discriminate.
  unfold Num.sub. destruct (Num.safe x && Num.safe y); [|discriminate].
  unfold Num.int. destruct (Num.safe (x - y)) eqn:E; [|discriminate].
  intros _. unfold positive. rewrite E. f_equal.
  destruct (Z.ltb_spec 0 (x - y)), (Z.ltb_spec y x); trivial; lia.
Qed.

Lemma comparable_spec data a b :
  comparable data = true -> In a data -> In b data -> followed a b = true.
Proof.
  unfold comparable. rewrite forallb_forall. intros H Ha Hb.
  specialize (H a Ha). rewrite forallb_forall in H. auto.
Qed.

(** Inserting a record into a sorted list: the result holds the same
    records, is sorted, and keeps records with the same number in their
    order. *)
Lemma insert_spec x l :
  (forall y, In y l -> followed x y = true) ->
  exists l', insert compare x l = Some l' /\
    Permutation (x :: l) l' /\
    (StronglySorted ascending l -> StronglySorted ascending l') /\
    forall k, filter (fun r => key r =? k)%Z l' = filter (fun r => key r =? k)%Z (x :: l).
Proof.
  induction l as [|y l IH]; intros Hf.
  - exists [x]. repeat split; auto. intros _. repeat constructor.
  - simpl insert. rewrite positive_compare by (apply Hf; left; trivial).
    destruct (Z.ltb_spec (key y) (key x)) as [Hlt|Hge].
    + destruct IH as (l' & E & Hp & Hs & Hk).
      { intros z Hz. apply Hf. right; trivial. }
      rewrite E. exists (y :: l'). split; [reflexivity|]. split; [|split].
      * eapply perm_trans; [apply perm_swap|]. auto.
      * intros Hsorted. inversion Hsorted as [|? ? Hs' Hy]; subst.
        constructor; [auto|].
        apply (Permutation_Forall Hp). constructor; trivial.
        unfold ascending; lia.
      * intros k. simpl. rewrite Hk. simpl.
        destruct (Z.eqb_spec (key x) k), (Z.eqb_spec (key y) k); trivial; lia.
    + exists (x :: y :: l). split; [reflexivity|]. split; [auto|]. split; [|trivial].
      intros Hsorted. constructor; trivial.
      inversion Hsorted as [|? ? Hs' Hy]; subst.
      constructor; [trivial|].
      apply Forall_forall. intros z Hz. rewrite Forall_forall in Hy.
      specialize (Hy z Hz). unfold ascending in *; lia.
Qed.

Lemma sort_spec data :
  comparable data = true ->
  exists sorted, sort compare data = Some sorted /\
    Permutation data sorted /\
    StronglySorted ascending sorted /\
    forall k, filter (fun r => key r =? k)%Z sorted = filter (fun r => key r =? k)%Z data.
Proof.
  intros Hc.
  assert (H : forall l, (forall a, In a l -> In a data) ->
    exists sorted, sort compare l = Some sorted /\
      Permutation l sorted /\
      StronglySorted ascending sorted /\
      forall k, filter (fun r => key r =? k)%Z sorted = filter (fun r => key r =? k)%Z l).
  { induction l as [|x l IH]; intros Hl.
    - exists []. repeat split; auto. constructor.
    - destruct IH as (s & E & Hp & Hs & Hk).
      { intros a Ha. apply Hl. right; trivial. }
      destruct (insert_spec x s) as (l' & E' & Hp' & Hs' & Hk').
      { intros y Hy. apply (comparable_spec data); trivial.
        - apply Hl. left; trivial.
        - apply Hl. right. apply (Permutation_in _ (Permutation_sym Hp)); trivial. }
      exists l'. simpl. rewrite E. split; [trivial|]. split; [|split].
      + eapply perm_trans; [|apply Hp']. auto.
      + auto.
      + intros k. rewrite Hk'. simpl. rewrite Hk. trivial. }
  apply H. trivial.
Qed.

(** A sorted response is not empty when the response is not. *)
Lemma insert_cons cmp x l l' : insert cmp x l = Some l' -> l' <> [].
Proof.
  destruct l as [|y l]; simpl.
  - intros E; injection E as <-. discriminate.
  - destruct (positive (cmp x y)) as [[|]|]; try discriminate.
    + destruct (insert cmp x l); simpl; [|discriminate].
      intros E; injection E as <-. discriminate.
    + intros E; injection E as <-. discriminate.
Qed.

Lemma sort_cons cmp x l s : sort cmp (x :: l) = Some s -> s <> [].
Proof.
  simpl. destruct (sort cmp l); [|discriminate]. apply insert_cons.
Qed.

(** A record whose key and text the model follows on their way through
    the markup. *)
Definition printable (r : item) : bool :=
  Num.safe (pk r) && plainText (transcription (itemFields r)).

Definition textArea : selector := both (tagIs "textarea") (cls "richtext-transcription").

(** The three nodes of a record. *)
Lemma transcriptionField_nodes i r new :
  transcriptionField i r = Some new ->
  exists d d', new = [Elem d []; Text gap; Elem d' (textNodes (transcription (itemFields r)))] /\
    tag d = "input" /\ getAttr "type" d = Some "hidden" /\
    getAttr "value" d = Some (Num.decimal (pk r)) /\
    textArea d' = true.
Proof.
  unfold transcriptionField, Num.toString.
  destruct (Num.safe (pk r)); [|discriminate].
  destruct (plainText (transcription (itemFields r))); [|discriminate].
  intros E; injection E as <-.
  eexists; eexists. split; [reflexivity|]. repeat split.
Qed.

Lemma transcriptionField_printable i r :
  printable r = true -> exists new, transcriptionField i r = Some new.
Proof.
  unfold printable, transcriptionField, Num.toString.
  intros H. apply andb_true_iff in H as [-> ->]. eauto.
Qed.

Lemma transcriptions_printable l : forall i,
  forallb printable l = true -> exists new, transcriptions i l = Some new.
Proof.
  induction l as [|r l IH]; intros i H; simpl; [eauto|].
  simpl in H. apply andb_true_iff in H as [Hr Hl].
  destruct (transcriptionField_printable i r Hr) as [f ->].
  destruct (IH (S i) Hl) as [rest ->]. eauto.
Qed.

Lemma nth_transcriptions l : forall i new j r,
  transcriptions i l = Some new ->
  nth_error l j = Some r ->
  exists d d',
    nth_error new (3 * j) = Some (Elem d []) /\
    nth_error new (3 * j + 2)
    = Some (Elem d' (textNodes (transcription (itemFields r)))) /\
    tag d = "input" /\ getAttr "type" d = Some "hidden" /\
    getAttr "value" d = Some (Num.decimal (pk r)) /\
    textArea d' = true.
Proof.
  induction l as [|x l IH]; intros i new j r Hnew Hr.
  - destruct j; discriminate.
  - simpl in Hnew.
    destruct (transcriptionField i x) as [f|] eqn:Ef; [|discriminate].
    destruct (transcriptions (S i) l) as [rest|] eqn:Er; [|discriminate].
    injection Hnew as <-.
    destruct (transcriptionField_nodes i x f Ef) as (d & d' & -> & H1 & H2 & H3 & H4).
    destruct j as [|j].
    + injection Hr as <-. exists d, d'. repeat split; trivial.
    + simpl in Hr.
      destruct (IH (S i) rest j r Er Hr) as (e & e' & G1 & G2 & G).
      exists e, e'. split; [|split; [|exact G]].
      * replace (3 * S j) with (S (S (S (3 * j)))) by lia. exact G1.
      * replace (3 * S j + 2) with (S (S (S (3 * j + 2)))) by lia. exact G2.
Qed.

Lemma length_transcriptions l : forall i new,
  transcriptions i l = Some new -> List.length new = 3 * List.length l.
Proof.
  induction l as [|x l IH]; intros i new Hnew; simpl in Hnew.
  - injection Hnew as <-; trivial.
  - destruct (transcriptionField i x) as [f|] eqn:Ef; [|discriminate].
    destruct (transcriptions (S i) l) as [rest|] eqn:Er; [|discriminate].
    injection Hnew as <-.
    destruct (transcriptionField_nodes i x f Ef) as (d & d' & -> & _).
    simpl. rewrite (IH _ _ Er). lia.
Qed.

(** A data update keeps the text nodes. *)
Lemma get_alter_data_text f : forall p t q s,
  get t q = Some (Text s) -> get (alter_at (on_data f) p t) q = Some (Text s).
Proof.
  induction p as [|i p IH]; intros t q s Hg.
  - destruct t as [s0|d ks]; trivial. destruct q; [discriminate|trivial].
  - destruct t as [s0|d ks]; trivial. destruct q as [|j q]; [discriminate|].
    simpl in *. rewrite nth_error_alter_nth.
    destruct (Nat.eq_dec i j) as [->|ne]; trivial.
    destruct (nth_error ks j) as [k|]; [|discriminate]. simpl. auto.
Qed.

Lemma get_update_text f S : forall t q s,
  get t q = Some (Text s) -> get (update_all f S t) q = Some (Text s).
Proof.
  unfold update_all. induction S as [|p S IH]; intros t q s Hg; simpl; trivial.
  apply IH. apply get_alter_data_text; trivial.
Qed.

Lemma kids_texts f S t P s :
  kids_at t P = textNodes s -> kids_at (update_all f S t) P = textNodes s.
Proof.
  intros Hk. pose proof (length_kids_update f S t P) as Hlen. rewrite Hk in Hlen.
  destruct s as [|a s]; simpl in *.
  - destruct (kids_at (update_all f S t) P); [trivial|discriminate].
  - assert (Hg : get t (P ++ [0]) = Some (Text (String a s))).
    { rewrite get_app. unfold kids_at in Hk.
      destruct (get t P) as [[s0|d ks]|]; try discriminate. subst ks. trivial. }
    apply (get_update_text f S) in Hg. rewrite get_app in Hg.
    unfold kids_at in *.
    destruct (get (update_all f S t) P) as [[s0|d ks]|]; try discriminate.
    destruct ks as [|x [|y ks]]; try discriminate.
    simpl in Hg. injection Hg as ->. trivial.
Qed.



End TranscriptionFacts.
(** * The duplicates table: [addDuplicate] *)

Module DuplicateFacts.
Import DOM JQ Sel Handlers DOMFacts JQFacts OrderFacts SpliceFacts RelocFacts EditFacts.

Definition formId : string := "duplicates-search-form".
Definition noteId : string := "duplicates-search-form-notification".

(** [$('#duplicates-search-form')] *)
Definition forms (t : node) : list path := byId t formId.

(** Every element that carries the id of the notification. *)
Definition notes (t : node) : list path := query t (attrEq "id" noteId).

(** [$('#duplicates-table tbody')] *)
Definition tableBodies (t : node) : list path :=
  find t (tagIs "tbody") (query t (attrEq "id" "duplicates-table")).

(** The primary radio buttons whose value is the id of the record, and
    those of which the model cannot tell. *)
Definition holder : selector :=
  both primaryRadio
    (fun d => match holds record d with Some true => true | _ => false end).

Definition doubtful : selector :=
  both primaryRadio
    (fun d => match holds record d with None => true | _ => false end).

Definition holders (t : node) : list path := query t holder.

Definition doubts (t : node) : list path := query t doubtful.

(** The test of lines 378-382. *)
Definition already (t : node) : option bool :=
  someHolds (map (holdsAt record t) (query t primaryRadio)).

Lemma matches_both t a b q :
  matches t (both a b) q = matches t a q && matches t b q.
Proof. unfold matches, both. destruct (data_at t q); trivial. Qed.

Lemma query_both_nil t a b :
  query t (both a b) = [] <->
  forall q, In q (query t a) -> matches t b q = false.
Proof.
  unfold query. split.
  - intros E q Hq. apply select_In in Hq as [Hq Hm].
    destruct (matches t b q) eqn:Hb; trivial.
    assert (Hin : In q (select t (matches t (both a b)))).
    { apply select_In. split; trivial. rewrite matches_both, Hm, Hb; trivial. }
    rewrite E in Hin. destruct Hin.
  - intros H. destruct (select t (matches t (both a b))) as [|q l] eqn:E; trivial.
    assert (Hin : In q (q :: l)) by (simpl; auto). rewrite <- E in Hin.
    apply select_In in Hin as [Hq Hm]. rewrite matches_both in Hm.
    apply andb_true_iff in Hm as [H1 H2].
    rewrite (H q) in H2; [discriminate|]. apply select_In; auto.
Qed.

(** The test finds the record when a button holds its id, and finds
    none when every button is known not to hold it. *)
Lemma already_spec t :
  already t =
  match holders t, doubts t with
  | _ :: _, _ => Some true
  | [], [] => Some false
  | [], _ :: _ => None
  end.
Proof.
  unfold already, someHolds.
  set (tests := map (holdsAt record t) (query t primaryRadio)).
  assert (Hat : forall q, In q (query t primaryRadio) ->
            forall v, holdsAt record t q = v <->
                      matches t (fun d => match holds record d, v with
                                          | Some true, Some true => true
                                          | Some false, Some false => true
                                          | None, None => true
                                          | _, _ => false
                                          end) q = true).
  { intros q Hq v. apply select_In in Hq as [_ Hm]. unfold matches, holdsAt in *.
    destruct (data_at t q) as [d|]; [|discriminate].
    destruct (holds record d) as [[|]|], v as [[|]|]; split; congruence. }
  destruct (holders t) as [|h hs] eqn:Eh.
  - assert (H1 : existsb (fun x => match x with Some true => true | _ => false end) tests
                 = false).
    { apply not_true_is_false. intros Hex. apply existsb_exists in Hex as (x & Hx & Hv).
      apply in_map_iff in Hx as (q & <- & Hq).
      pose proof (proj1 (query_both_nil t _ _) Eh q Hq) as Hm.
      unfold matches, holdsAt in *. apply select_In in Hq as [_ Hr].
      unfold matches in Hr. destruct (data_at t q) as [d|]; [|discriminate].
      rewrite Hm in Hv. discriminate. }
    rewrite H1. destruct (doubts t) as [|u us] eqn:Eu.
    + assert (H2 : forallb (fun x => match x with Some false => true | _ => false end) tests
                   = true).
      { apply forallb_forall. intros x Hx.
        apply in_map_iff in Hx as (q & <- & Hq).
        pose proof (proj1 (query_both_nil t _ _) Eh q Hq) as Hm.
        pose proof (proj1 (query_both_nil t _ _) Eu q Hq) as Hm'.
        unfold matches, holdsAt in *. apply select_In in Hq as [_ Hr].
        unfold matches in Hr. destruct (data_at t q) as [d|]; [|discriminate].
        destruct (holds record d) as [[|]|]; trivial; discriminate. }
      rewrite H2. trivial.
    + assert (H2 : forallb (fun x => match x with Some false => true | _ => false end) tests
                   = false).
      { apply not_true_is_false. intros Hall. rewrite forallb_forall in Hall.
        assert (Hin : In u (doubts t)) by (rewrite Eu; simpl; auto).
        unfold doubts, doubtful, query in Hin.
        apply select_In in Hin as [Hu Hm]. rewrite matches_both in Hm.
        apply andb_true_iff in Hm as [Hr Hd].
        assert (Hq : In u (query t primaryRadio)) by (apply select_In; auto).
        specialize (Hall _ (in_map (holdsAt record t) _ _ Hq)).
        unfold matches, holdsAt in *. destruct (data_at t u) as [d|]; [|discriminate].
        destruct (holds record d) as [[|]|]; discriminate. }
      rewrite H2. trivial.
  - assert (H1 : existsb (fun x => match x with Some true => true | _ => false end) tests
                 = true).
    { apply existsb_exists.
      assert (Hin : In h (holders t)) by (rewrite Eh; simpl; auto).
      unfold holders, holder, query in Hin.
      apply select_In in Hin as [Hh Hm]. rewrite matches_both in Hm.
      apply andb_true_iff in Hm as [Hr Hd].
      exists (holdsAt record t h). split.
      - apply in_map. apply select_In; auto.
      - unfold matches, holdsAt in *. destruct (data_at t h) as [d|]; [|discriminate].
        destruct (holds record d) as [[|]|]; trivial; discriminate. }
    rewrite H1. trivial.
Qed.

Lemma length_moved f (S : list path) :
  (forall q, In q S -> f q <> None) -> List.length (moved f S) = List.length S.
Proof.
  induction S as [|a S IH]; simpl; intros H; trivial.
  destruct (f a) eqn:Ea; [|exfalso; apply (H a); auto].
  simpl. rewrite IH; auto.
Qed.

Lemma is_prefix_refl p : is_prefix p p = true.
Proof. apply is_prefix_spec. exists []. rewrite app_nil_r; trivial. Qed.

Lemma is_prefix_removelast p q :
  is_prefix p (removelast q) = true -> is_prefix p q = true.
Proof.
  rewrite !is_prefix_spec. intros [r H]. destruct q as [|a q].
  - simpl in H. exists []. destruct p; [trivial|discriminate].
  - exists (r ++ [List.last (a :: q) 0])%list.
    rewrite app_assoc, <- H. apply app_removelast_last. discriminate.
Qed.

(** What stays of the page across an edit that puts in no form, table,
    table body, notification or primary radio button. *)
Section Stage.
Variables (t t' : node) (f g : path -> option path).
Hypothesis E : edit t t' f g.

Definition rejects (sel : selector) : Prop :=
  forall q', In q' (subpaths t') -> g q' = None -> matches t' sel q' = false.

Lemma forms_edit F F' :
  rejects (attrEq "id" formId) -> forms t = [F] -> f F = Some F' -> forms t' = [F'].
Proof.
  intros Hr HF Hf. unfold forms, byId in *.
  change (firstn 1 (query t (attrEq "id" formId)) = [F]) in HF.
  change (firstn 1 (query t' (attrEq "id" formId)) = [F']).
  rewrite (query_edit t t' f g E _ Hr).
  destruct (query t (attrEq "id" formId)) as [|a l]; [discriminate|].
  simpl in HF. injection HF as ->. simpl. rewrite Hf. trivial.
Qed.

Lemma notes_edit :
  rejects (attrEq "id" noteId) -> notes t' = moved f (notes t).
Proof. intros Hr. apply (query_edit t t' f g E _ Hr). Qed.

Lemma bodies_edit B B' :
  rejects (attrEq "id" "duplicates-table") -> rejects (tagIs "tbody") ->
  tableBodies t = [B] -> f B = Some B' -> tableBodies t' = [B'].
Proof.
  intros Hr1 Hr2 HB Hf. unfold tableBodies in *.
  rewrite (query_edit t t' f g E _ Hr1), (find_edit t t' f g E _ Hr2), HB.
  simpl. rewrite Hf. trivial.
Qed.

Lemma holders_edit :
  rejects holder -> holders t' = moved f (holders t).
Proof. intros Hr. apply (query_edit t t' f g E _ Hr). Qed.

Lemma doubts_edit :
  rejects doubtful -> doubts t' = moved f (doubts t).
Proof. intros Hr. apply (query_edit t t' f g E _ Hr). Qed.

End Stage.

(** The page once the earlier notification is gone: one search form,
    one table body that does not hold the form, no notification. *)
Record clean (t : node) (F B : path) : Prop := Clean {
  cl_form : forms t = [F];
  cl_root : F <> [];
  cl_body : tableBodies t = [B];
  cl_apart : is_prefix B F = false;
  cl_notes : notes t = []
}.

Lemma afterEach_single new p t :
  fst (afterEach new [p] t) = fst (insertAfter new p t).
Proof.
  unfold afterEach, forEachBack. simpl. destruct (insertAfter new p t); trivial.
Qed.

Lemma removeAll_single p t : fst (removeAll [p] t) = fst (removeAt p t).
Proof.
  unfold removeAll, forEachBack. simpl. destruct (removeAt p t); trivial.
Qed.

Lemma insertAfter_splice new p t :
  p <> [] ->
  insertAfter new p t =
  (splice (removelast p) (S (List.last p 0)) 0 new t,
   reloc (S (List.last p 0)) 0 (List.length new) (removelast p)).
Proof. destruct p; [tauto|trivial]. Qed.

Lemma removeAt_splice p t :
  p <> [] ->
  removeAt p t =
  (splice (removelast p) (List.last p 0) 1 [] t,
   reloc (List.last p 0) 1 0 (removelast p)).
Proof. destruct p; [tauto|trivial]. Qed.

Lemma removelast_elem t p : In p (subpaths t) -> In (removelast p) (subpaths t).
Proof.
  intros H. destruct p as [|a p]; trivial.
  rewrite (split_last (a :: p)) in H by discriminate.
  eapply prefix_elem; eauto.
Qed.

Lemma forms_elem t F : forms t = [F] -> In F (subpaths t).
Proof.
  intros H. apply (byId_elem t formId). fold (forms t). rewrite H. simpl; auto.
Qed.

Lemma bodies_elem t B : tableBodies t = [B] -> In B (subpaths t).
Proof.
  intros H. assert (Hin : In B (tableBodies t)) by (rewrite H; simpl; auto).
  apply select_In in Hin. tauto.
Qed.

Lemma note_data kind text :
  query (notification kind text) (attrEq "id" noteId) = [[]].
Proof. reflexivity. Qed.

(** Showing the notification after the form. *)
Lemma note_shown t F B kind text :
  clean t F B ->
  exists B' N',
    let t' := fst (afterEach [notification kind text] (forms t) t) in
    tableBodies t' = [B'] /\ get t' B' = get t B /\
    notes t' = [N'] /\ get t' N' = Some (notification kind text) /\
    List.length (holders t') = List.length (holders t).
Proof.
  intros [HF Hne HB Hap Hno]. rewrite HF, afterEach_single.
  pose proof (forms_elem _ _ HF) as HFin.
  pose proof (insertAfter_edit [notification kind text] t F HFin Hne) as E.
  rewrite (insertAfter_splice _ _ _ Hne) in *. simpl fst in *. simpl snd in E.
  set (P := removelast F) in *. set (k := S (List.last F 0)) in *.
  simpl List.length in E.
  assert (Hk : k <= List.length (kids_at t P)).
  { unfold k, P. rewrite (split_last F Hne) in HFin.
    apply child_index in HFin. lia. }
  assert (HP : exists dP, data_at t P = Some dP).
  { apply subpaths_spec, removelast_elem; trivial. }
  destruct HP as [dP HP].
  set (t' := splice P k 0 [notification kind text] t) in *.
  assert (Hrej : forall sel, nowhere sel [notification kind text] = true ->
                             rejects t' (reloc k 1 0 P) sel).
  { intros sel Hsel q' Hq Hg.
    apply (fresh_no_match sel t P k 0 [notification kind text] q' Hk Hsel Hq Hg). }
  destruct (reloc k 0 1 P B) as [B'|] eqn:EB; [|destruct (reloc_total _ _ _ _ EB)].
  exists B', (P ++ [k])%list. cbv zeta. split; [|split; [|split; [|split]]].
  - apply (bodies_edit t t' _ _ E B B'); trivial; apply Hrej; reflexivity.
  - apply (get_splice_outside P k 0 [notification kind text] t B B' Hk EB).
    destruct (is_prefix B P) eqn:Ep; trivial.
    apply is_prefix_removelast in Ep. congruence.
  - apply (query_fresh t P k (notification kind text) _ dP [] HP Hk Hno).
    apply note_data.
  - pose proof (get_splice_new P k 0 [notification kind text] t dP 0 [] HP Hk
                  (Nat.lt_0_succ 0)) as Hg.
    rewrite Nat.add_0_r in Hg. exact Hg.
  - rewrite (holders_edit t t' _ _ E); [|apply Hrej; reflexivity].
    apply length_moved. intros q _. apply reloc_total.
Qed.

Lemma row_holder : query (duplicateRow record) holder = [[0; 0; 0]].
Proof. vm_compute. reflexivity. Qed.

(** Appending the row of the record to the table body. *)
Lemma row_added t F B :
  clean t F B -> holders t = [] ->
  let t2 := appendEach [duplicateRow record] (tableBodies t) t in
  clean t2 F B /\
  get t2 B = option_map (on_kids (fun ks => ks ++ [duplicateRow record])%list) (get t B) /\
  List.length (holders t2) = 1.
Proof.
  intros [HF Hne HB Hap Hno] Hold. rewrite HB. unfold appendEach. simpl fold_left.
  pose proof (append_edit [duplicateRow record] B t) as E. simpl List.length in E.
  pose proof (forms_elem _ _ HF) as HFin. pose proof (bodies_elem _ _ HB) as HBin.
  apply subpaths_spec in HFin as [dF HdF]. apply subpaths_spec in HBin as [dB HdB].
  set (len := List.length (kids_at t B)) in *.
  assert (Hrej : forall sel, nowhere sel [duplicateRow record] = true ->
                             rejects (append_at [duplicateRow record] B t)
                                     (reloc len 1 0 B) sel).
  { intros sel Hsel q' Hq Hg. unfold append_at in *.
    apply (fresh_no_match sel t B len 0 [duplicateRow record] q'); trivial. }
  split; [|split].
  - constructor; trivial.
    + apply (forms_edit t _ _ _ E F F); trivial.
      * apply Hrej. vm_compute. reflexivity.
      * apply (reloc_append 1 B t F dF HdF).
    + apply (bodies_edit t _ _ _ E B B); trivial.
      * apply Hrej. vm_compute. reflexivity.
      * apply Hrej. vm_compute. reflexivity.
      * apply (reloc_append 1 B t B dB HdB).
    + rewrite (notes_edit t _ _ _ E), Hno; trivial.
      apply Hrej. vm_compute. reflexivity.
  - unfold append_at, splice. rewrite get_alter_at.
    unfold len, kids_at. unfold data_at in HdB.
    destruct (get t B) as [[s|d ks]|]; try discriminate. simpl.
    rewrite firstn_all, Nat.add_0_r, skipn_all. trivial.
  - unfold holders, append_at. fold len.
    rewrite (query_fresh t B len (duplicateRow record) holder dB [0; 0; 0]);
      trivial.
Qed.

(** An earlier notification as the handler leaves it: a [div] that
    holds text only. *)
Definition textDiv (t : node) (N : path) : Prop :=
  exists d text, get t N = Some (Elem d [Text text]) /\ tag d = "div".

Lemma text_leaf t N d text j rest :
  get t N = Some (Elem d [Text text]) -> data_at t (N ++ j :: rest) = None.
Proof.
  intros H. unfold data_at. rewrite get_app, H. simpl.
  destruct j as [|j]; simpl; [destruct rest; trivial|destruct j; trivial].
Qed.

(** The state of the page before the handler runs. *)
Record ready (t : node) (F B : path) : Prop := Ready {
  rd_form : forms t = [F];
  rd_root : F <> [];
  rd_body : tableBodies t = [B];
  rd_apart : is_prefix B F = false;
  rd_notes : notes t = [] \/
             exists N, notes t = [N] /\ textDiv t N /\ is_prefix B N = false
}.

(** Removing the earlier notification. *)
Lemma note_removed t F B :
  ready t F B ->
  exists F1 B1,
    let t1 := fst (removeAll (byId t noteId) t) in
    clean t1 F1 B1 /\ get t1 B1 = get t B /\
    List.length (holders t1) = List.length (holders t) /\
    List.length (doubts t1) = List.length (doubts t).
Proof.
  intros [HF Hne HB Hap Hno].
  change (byId t noteId) with (firstn 1 (notes t)).
  destruct Hno as [Hno|(N & Hno & (d & text & HN & Hdiv) & HBN)]; rewrite Hno.
  { exists F, B. simpl. split; [constructor; trivial|repeat split; trivial]. }
  simpl firstn. rewrite removeAll_single.
  pose proof (forms_elem _ _ HF) as HFin. pose proof (bodies_elem _ _ HB) as HBin.
  assert (HdN : data_at t N = Some d) by (unfold data_at; rewrite HN; trivial).
  assert (HNin : In N (subpaths t)) by (apply subpaths_spec; eauto).
  assert (HNne : N <> []).
  { intros ->. destruct F as [|a r]; [tauto|].
    apply subpaths_spec in HFin as [dF HdF].
    pose proof (text_leaf t [] d text a r HN) as Hl. simpl in Hl.
    congruence. }
  pose proof (removeAt_edit t N HNin HNne) as E.
  rewrite (removeAt_splice _ _ HNne) in *. simpl fst in *. simpl snd in E.
  set (P := removelast N) in *. set (k := List.last N 0) in *.
  assert (Hk : k <= List.length (kids_at t P)).
  { unfold k, P. rewrite (split_last N HNne) in HNin.
    apply child_index in HNin. lia. }
  set (t1 := splice P k 1 [] t) in *.
  assert (Hrej : forall sel, rejects t1 (reloc k 0 1 P) sel).
  { intros sel q' _ Hg. destruct (reloc_total _ _ _ _ Hg). }
  assert (Hstay : forall q, In q (subpaths t) -> q <> N -> reloc k 1 0 P q <> None).
  { intros q Hq Hne' Hg. apply reloc_none in Hg as (j & rest & -> & Hj).
    assert (j = k) by lia. subst j.
    assert (EN : (P ++ k :: rest = N ++ rest)%list).
    { transitivity ((P ++ [k]) ++ rest)%list; [rewrite <- app_assoc; trivial|].
      f_equal. symmetry. apply split_last; trivial. }
    rewrite EN in *. destruct rest as [|a r].
    - rewrite app_nil_r in Hne'. tauto.
    - apply subpaths_spec in Hq as [dq Hdq].
      rewrite (text_leaf t N d text a r HN) in Hdq. discriminate. }
  assert (HFN : F <> N).
  { intros ->. assert (Hin : In N (forms t)) by (rewrite HF; simpl; auto).
    apply firstn_In, select_In in Hin as [_ Hm].
    assert (Hin : In N (notes t)) by (rewrite Hno; simpl; auto).
    apply select_In in Hin as [_ Hm'].
    unfold matches in Hm, Hm'. rewrite HdN in Hm, Hm'. unfold attrEq in Hm'.
    destruct (getAttr "id" d) as [x|]; [|discriminate].
    apply String.eqb_eq in Hm, Hm'. subst x. discriminate. }
  assert (HBne : B <> N).
  { intros ->. rewrite is_prefix_refl in HBN. discriminate. }
  destruct (reloc k 1 0 P F) as [F1|] eqn:EF; [|destruct (Hstay F HFin HFN EF)].
  destruct (reloc k 1 0 P B) as [B1|] eqn:EB; [|destruct (Hstay B HBin HBne EB)].
  exists F1, B1. cbv zeta. split; [|split; [|split]].
  - constructor.
    + apply (forms_edit t t1 _ _ E F F1); trivial.
    + intros ->. apply Hne, (ed_nonempty _ _ _ _ E _ _ EF). trivial.
    + apply (bodies_edit t t1 _ _ E B B1); trivial.
    + rewrite (ed_prefix _ _ _ _ E _ _ _ _ EB EF); trivial.
    + rewrite (notes_edit t t1 _ _ E (Hrej _)), Hno. simpl.
      assert (Hg : reloc k 1 0 P N = None).
      { apply reloc_none. exists k, []. split; [apply split_last; trivial|lia]. }
      rewrite Hg. trivial.
  - apply (get_splice_outside P k 1 [] t B B1 Hk EB).
    destruct (is_prefix B P) eqn:Ep; trivial.
    apply is_prefix_removelast in Ep. congruence.
  - rewrite (holders_edit t t1 _ _ E (Hrej _)).
    apply length_moved. intros q Hq. apply select_In in Hq as [Hq Hm].
    apply Hstay; trivial. intros ->.
    unfold matches in Hm. rewrite HdN in Hm.
    unfold holder, both, primaryRadio, both, tagIs in Hm. rewrite Hdiv in Hm.
    discriminate.
  - rewrite (doubts_edit t t1 _ _ E (Hrej _)).
    apply length_moved. intros q Hq. apply select_In in Hq as [Hq Hm].
    apply Hstay; trivial. intros ->.
    unfold matches in Hm. rewrite HdN in Hm.
    unfold doubtful, both, primaryRadio, both, tagIs in Hm. rewrite Hdiv in Hm.
    discriminate.
Qed.

Lemma already_kept t t1 :
  List.length (holders t1) = List.length (holders t) ->
  List.length (doubts t1) = List.length (doubts t) ->
  already t1 = already t.
Proof.
  intros H H'. rewrite !already_spec.
  destruct (holders t), (holders t1); try discriminate; trivial.
  destruct (doubts t), (doubts t1); try discriminate; trivial.
Qed.

(** What a call of [addDuplicate] does.  Take a page with the search form, one table body that
    does not hold the form, and at most one earlier notification (a
    [div] of text outside the table body), on which the test of lines
    378-382 is followed: some primary radio button has a value that is
    the id of the record in plain digits, or every one has a value that
    is another integer or no number.  When a primary radio button
    already holds the id of the record, the table body is left as it
    was, the number of radio buttons that hold the id is unchanged, and
    the only notification of the page afterwards is the error
    notification; otherwise the table body gets the row of the record as
    its last child and nothing else, exactly one primary radio button
    holds the id afterwards, and the only notification of the page is
    the success notification.  In both cases the earlier notification is
    gone. *)
Lemma addDuplicate_spec t F B (found : bool) :
  ready t F B ->
  already t = Some found ->
  exists t' B' N',
    let n := Num.decimal (id record) in
    addDuplicate t = Some t' /\
    tableBodies t' = [B'] /\ notes t' = [N'] /\
    if found then
      get t' B' = get t B /\
      get t' N' = Some (notification "error-notification"
                          (cat ["The record "; n; " is already included in the table."])) /\
      List.length (holders t') = List.length (holders t)
    else
      get t' B' = option_map (on_kids (fun ks => ks ++ [duplicateRow record])%list)
                             (get t B) /\
      get t' N' = Some (notification "success-notification"
                          (cat ["The record "; n; " has been added to the table."])) /\
      List.length (holders t') = 1.
Proof.
  intros Hr Eal.
  destruct (note_removed t F B Hr) as (F1 & B1 & Hcl & Hget & Hlen & Hlen').
  cbv zeta in Hcl, Hget, Hlen, Hlen'. unfold addDuplicate. cbv zeta.
  change (byId t "duplicates-search-form-notification") with (byId t noteId).
  set (t1 := fst (removeAll (byId t noteId) t)) in *.
  change (someHolds (map (holdsAt record t1) (query t1 primaryRadio)))
    with (already t1).
  pose proof (already_kept t t1 Hlen Hlen') as Hal. rewrite Hal, Eal.
  destruct found; simpl negb; cbv iota.
  - change (byId t1 "duplicates-search-form") with (forms t1).
    destruct (note_shown t1 F1 B1 "error-notification"
                (cat ["The record "; Num.decimal (id record);
                      " is already included in the table."]) Hcl)
      as (B' & N' & HB' & Hg' & HN' & HgN & Hl').
    eexists; exists B', N'. split; [reflexivity|].
    split; trivial. split; trivial. split; [congruence|].
    split; [trivial|congruence].
  - assert (Hold : holders t1 = []).
    { rewrite already_spec in Hal. rewrite Eal in Hal.
      destruct (holders t1); [trivial|discriminate]. }
    change (find t1 (tagIs "tbody") (query t1 (attrEq "id" "duplicates-table")))
      with (tableBodies t1).
    destruct (row_added t1 F1 B1 Hcl Hold) as (Hcl2 & Hg2 & Hl2).
    cbv zeta in Hcl2, Hg2, Hl2.
    set (t2 := appendEach [duplicateRow record] (tableBodies t1) t1) in *.
    change (byId t2 "duplicates-search-form") with (forms t2).
    destruct (note_shown t2 F1 B1 "success-notification"
                (cat ["The record "; Num.decimal (id record);
                      " has been added to the table."]) Hcl2)
      as (B' & N' & HB' & Hg' & HN' & HgN & Hl').
    eexists; exists B', N'. split; [reflexivity|].
    split; trivial. split; trivial. split; [congruence|].
    split; [trivial|congruence].
Qed.


(** X1. [addDuplicate] keeps the ids of the records of the duplicates
    table unique.  Take a page with the search form, one table body that
    does not hold the form, and at most one earlier notification (a
    [div] of text outside the table body), on which the test of lines
    378-382 is followed: some primary radio button has a value that is
    the id of the record in plain digits, or every one has a value that
    is another integer or no number.  When a primary radio button
    already holds the id of the record, the table body is left as it
    was, the number of radio buttons that hold the id is unchanged, and
    the only notification of the page afterwards is the error
    notification; otherwise the table body gets the row of the record as
    its last child and nothing else, exactly one primary radio button
    holds the id afterwards, and the only notification of the page is
    the success notification.  In both cases the earlier notification is
    gone. *)
Theorem addDuplicate_keeps_ids_unique t F B (found : bool) :
  ready t F B ->
  already t = Some found ->
  exists t' B' N',
    let n := Num.decimal (id record) in
    addDuplicate t = Some t' /\
    tableBodies t' = [B'] /\ notes t' = [N'] /\
    if found then
      get t' B' = get t B /\
      get t' N' = Some (notification "error-notification"
                          (cat ["The record "; n; " is already included in the table."])) /\
      List.length (holders t') = List.length (holders t)
    else
      get t' B' = option_map (on_kids (fun ks => ks ++ [duplicateRow record])%list)
                             (get t B) /\
      get t' N' = Some (notification "success-notification"
                          (cat ["The record "; n; " has been added to the table."])) /\
      List.length (holders t') = 1.
Proof. apply addDuplicate_spec. Qed.

(** C10, as the handler has it.  On a page with the search form, one
    table body that does not hold the form and at most one earlier
    notification, and when the test of lines 378-382 is followed, the
    call removes the earlier notification and then: if a primary radio
    button holds the id of the record, it leaves the table body as it
    was and shows the error notification; otherwise it appends the row
    of the record to the table body, so that exactly one primary radio
    button holds the id, and shows the success notification. *)
Theorem addDuplicate_atomic t F B (found : bool) :
  ready t F B ->
  already t = Some found ->
  exists t' B' N',
    addDuplicate t = Some t' /\
    tableBodies t' = [B'] /\
    notes t' = [N'] /\
    get t' N' = Some (notification
                        (if found then "error-notification" else "success-notification")
                        (cat ["The record "; Num.decimal (id record);
                              if found then " is already included in the table."
                              else " has been added to the table."])) /\
    get t' B' = (if found then get t B
                 else option_map (on_kids (fun ks => ks ++ [duplicateRow record])%list)
                                 (get t B)) /\
    (found = false -> List.length (holders t') = 1).
Proof.
  intros Hr Ha.
  destruct (addDuplicate_spec t F B found Hr Ha) as (t' & B' & N' & E & HB & HN & H).
  cbv zeta in *. exists t', B', N'.
  destruct found; destruct H as (Hg & Hn & Hl);
    (split; [exact E|]); (split; [exact HB|]); (split; [exact HN|]);
    (split; [exact Hn|]); (split; [exact Hg|]); intros; congruence.
Qed.

Lemma addDuplicate_atomic_witness :
  exists t' B' N',
    let t := Demo.notifiedPage [Demo.duplicateRow "156" true true false] in
    addDuplicate t = Some t' /\
    tableBodies t' = [B'] /\
    notes t' = [N'] /\
    get t' N' = Some (notification "error-notification"
                        "The record 156 is already included in the table.") /\
    get t' B' = get t [2; 0].
Proof.
  assert (Hr : ready (Demo.notifiedPage [Demo.duplicateRow "156" true true false])
                     [0] [2; 0]).
  { constructor; try reflexivity; try discriminate.
    right. exists [1]. split; [reflexivity|]. split; [|reflexivity].
    eexists; eexists. split; reflexivity. }
  destruct (addDuplicate_atomic _ [0] [2; 0] true Hr ltac:(vm_compute; reflexivity))
    as (t' & B' & N' & E & HB & HN & Hn & Hg & _).
  exists t', B', N'. cbv zeta. repeat split; assumption.
Defined.

(** The claim as stated fails: on a page whose table has no body yet
    the test finds no button that holds the id, no row is appended, and
    the success notification says that the record has been added. *)
Lemma added_without_table_body :
  let t := Demo.bodilessPage in
  already t = Some false /\
  exists t',
    addDuplicate t = Some t' /\
    tableBodies t' = [] /\
    query t' primaryRadio = [] /\
    notes t' = [[1]] /\
    get t' [1] = Some (notification "success-notification"
                         "The record 156 has been added to the table.").
Proof.
  split; [vm_compute; reflexivity|].
  exists (match addDuplicate Demo.bodilessPage with Some t' => t' | None => Text EmptyString end).
  vm_compute. repeat split.
Qed.

Lemma addDuplicate_keeps_ids_unique_witness :
  ready (Demo.notifiedPage [Demo.duplicateRow "7" true true false]) [0] [2; 0] /\
  already (Demo.notifiedPage [Demo.duplicateRow "7" true true false]) = Some false /\
  exists t' B' N',
    let t := Demo.notifiedPage [Demo.duplicateRow "7" true true false] in
    addDuplicate t = Some t' /\
    tableBodies t' = [B'] /\ notes t' = [N'] /\
    get t' B' = option_map (on_kids (fun ks => ks ++ [duplicateRow record])%list)
                           (get t [2; 0]) /\
    List.length (holders t') = 1.
Proof.
  assert (Hr : ready (Demo.notifiedPage [Demo.duplicateRow "7" true true false])
                     [0] [2; 0]).
  { constructor; try reflexivity; try discriminate.
    right. exists [1]. split; [reflexivity|]. split; [|reflexivity].
    eexists; eexists. split; reflexivity. }
  assert (Ha : already (Demo.notifiedPage [Demo.duplicateRow "7" true true false])
               = Some false) by (vm_compute; reflexivity).
  split; [exact Hr|]. split; [exact Ha|].
  destruct (addDuplicate_keeps_ids_unique _ [0] [2; 0] false Hr Ha)
    as (t' & B' & N' & E & HB & HN & Hg & _ & Hl).
  exists t', B', N'. cbv zeta. split; [exact E|]. split; [exact HB|].
  split; [exact HN|]. split; [exact Hg|exact Hl].
Defined.

End DuplicateFacts.
(** * Formsets: the edges of [addEmptyForm] *)

Module FormsetEdges.
Import DOM JQ Sel Handlers DOMFacts JQFacts SpliceFacts StringFacts FormsetFacts.

Lemma select_none t (R : path -> bool) : (forall q, R q = false) -> select t R = [].
Proof.
  intros H. unfold select. induction (subpaths t) as [|q l IH]; simpl; trivial.
  rewrite H; trivial.
Qed.

Lemma children_nil t sel : children t sel [] = [].
Proof. apply select_none. trivial. Qed.

Lemma find_nil t sel : find t sel [] = [].
Proof. apply select_none. trivial. Qed.

Lemma parent_nil t sel : parent t sel [] = [].
Proof. apply select_none. trivial. Qed.

(** X2. Called from an element that lies in no formset, [addEmptyForm]
    ends with an exception and leaves the document as it was: no row is
    added, nothing is hidden and no counter is written.  The exception
    is the syntax error of line 523 when jQuery cannot read the selector
    made with the form type, and otherwise the [TypeError] of line 585,
    where the attribute read from the missing counter control is
    [undefined]. *)
Theorem addEmptyForm_outside_formset (compile : reader) (t : node)
    (formType : string) (context : path) :
  parents t (cls "formset") (wrap t context) = [] ->
  addEmptyForm compile formType context t =
  match compile (formSelector formType) with
  | Some _ => TypeError t
  | None => SyntaxError t
  end.
Proof.
  intros H. unfold addEmptyForm, getManagementFormContainer, getNewFormParent.
  cbv zeta. rewrite H. simpl first. rewrite !children_nil. simpl attr.
  simpl Num.Number. simpl Num.geb. cbv iota. rewrite H. simpl first.
  rewrite !children_nil.
  destruct (compile (formSelector formType)); reflexivity.
Qed.

Lemma addEmptyForm_outside_formset_witness :
  addEmptyForm Demo.readSelector "name" [1; 0; 0] (Demo.formsetPage "1" "3")
  = TypeError (Demo.formsetPage "1" "3").
Proof.
  apply (addEmptyForm_outside_formset Demo.readSelector (Demo.formsetPage "1" "3")
           "name" [1; 0; 0]).
  reflexivity.
Defined.

Lemma alter_nth_id {A} (f : A -> A) i (l : list A) :
  (forall x, In x l -> f x = x) -> alter_nth f i l = l.
Proof.
  revert i; induction l as [|x l IH]; intros i H; [destruct i; trivial|].
  destruct i as [|i]; simpl.
  - rewrite H; simpl; auto.
  - rewrite IH; trivial. intros y Hy. apply H. simpl; auto.
Qed.

Lemma alter_at_id f P : (forall n, f n = n) -> forall t, alter_at f P t = t.
Proof.
  intros Hf. induction P as [|i P IH]; intros t; simpl; trivial.
  destruct t as [s|d ks]; trivial. rewrite alter_nth_id; trivial.
Qed.

(** Appending nothing changes nothing. *)
Lemma append_at_nil P t : append_at [] P t = t.
Proof.
  unfold append_at, splice. apply alter_at_id. intros [s|d ks]; simpl; trivial.
  rewrite Nat.add_0_r, firstn_skipn; trivial.
Qed.

Lemma attr_update_hidden k S H t :
  attr (update_all (setHidden true) H t) k S = attr t k S.
Proof.
  unfold attr. destruct S as [|q0 rest]; trivial.
  rewrite data_at_update by reflexivity.
  destruct (data_at t q0); simpl; trivial. destruct (mem q0 H); trivial.
Qed.

Lemma autocomplete_setAttr k v :
  k <> "name" -> stable autocomplete (setAttr k v).
Proof.
  intros ne d. unfold autocomplete, attrContains.
  rewrite getAttr_setAttr_other by congruence. reflexivity.
Qed.

(** X3. With no blueprint of the form type asked for, [addEmptyForm]
    still counts a new form.  Let jQuery read the selector of line 523
    as the test of the form type, the counter control have a [name] and
    an [id], the counter and the counter plus one be numbers that
    [String] writes as [v], the test of line 517 be decided, and no
    element of the page be handed to select2 at the end of the call.
    Then the call returns normally, the counter control holds [v], and
    no element has been added to the document. *)
Theorem addEmptyForm_unknown_type (compile : reader) (t : node)
    (formType : string) (context : path) (tn ti s v : string) (reached : bool) :
  reads compile formType ->
  blueprints t formType = [] ->
  attr t "name" (totalControl t context) = Some tn ->
  attr t "id" (totalControl t context) = Some ti ->
  Num.toString (totalRows t context) = Some s ->
  Num.toString (Num.add (totalRows t context) (Num.Int 1)) = Some v ->
  boundReached t context = Some reached ->
  query t autocomplete = [] ->
  exists t',
    addEmptyForm compile formType context t = Done t' /\
    subpaths t' = subpaths t /\
    (forall P, List.length (kids_at t' P) = List.length (kids_at t P)) /\
    attr t' "value" (totalControl t context) = Some v.
Proof.
  intros Hread HB Hn Hi Hs Hv Hb Hauto. rewrite addEmptyForm_parts, Hb.
  set (H := hiddenByAdd t context). set (total := totalControl t context) in *.
  set (number := totalRows t context) in *.
  set (t1 := update_all (setHidden true) H t).
  assert (Eb : children t1 (attrEq "data-form-type" formType) (byId t1 "empty_forms") = []).
  { rewrite <- HB. unfold blueprints, byId, t1.
    rewrite query_update, children_update by ClassFacts.solve_stable; trivial. }
  assert (En : generateNewFormPrefix t1 total "name" number = Returns (newPrefix tn s)).
  { unfold generateNewFormPrefix, t1. rewrite attr_update_hidden, Hn, Hs; trivial. }
  assert (Ei : generateNewFormPrefix t1 total "id" number = Returns (newPrefix ti s)).
  { unfold generateNewFormPrefix, t1. rewrite attr_update_hidden, Hi, Hs; trivial. }
  assert (Ea : initAutocompleteWidgets (update_all (setAttr "value" v) total t1)
               = Done (update_all (setAttr "value" v) total t1)).
  { unfold initAutocompleteWidgets, t1.
    rewrite query_update by (apply autocomplete_setAttr; discriminate).
    rewrite query_update by (intros d; reflexivity).
    rewrite Hauto. trivial. }
  exists (update_all (setAttr "value" v) total t1). split; [|split; [|split]].
  - unfold finish. cbv zeta. rewrite Hread. cbv beta.
    change (select t1 (fun q => existsb (fun p => child_of p q) (byId t1 "empty_forms")
                                && matches t1 (attrEq "data-form-type" formType) q))
      with (children t1 (attrEq "data-form-type" formType) (byId t1 "empty_forms")).
    rewrite Eb. simpl clones. simpl List.length. simpl seq. simpl map.
    destruct (getNewFormParent t1 (wrap t1 context)) as [|P [|P' rest]];
      rewrite ?append_at_nil, En, Ei, ?find_nil; simpl renameControls; cbv iota;
      rewrite Hv; exact Ea.
  - unfold t1. rewrite !subpaths_update_all; trivial.
  - intros P. unfold t1. rewrite !length_kids_update; trivial.
  - unfold attr in *. destruct total as [|q0 rest]; [discriminate|].
    rewrite (data_at_update_idem _ _ _ _ (setAttr_idem "value" v))
      by (simpl; auto).
    unfold t1. rewrite data_at_update by reflexivity.
    destruct (data_at t q0) as [d|]; [|discriminate]. simpl.
    destruct (mem q0 H); apply getAttr_setAttr_same.
Qed.

Lemma addEmptyForm_unknown_type_witness :
  exists t',
    addEmptyForm Demo.readSelector "place" Demo.addButton (Demo.formsetPage "1" "3")
    = Done t' /\
    subpaths t' = subpaths (Demo.formsetPage "1" "3") /\
    attr t' "value" (totalControl (Demo.formsetPage "1" "3") Demo.addButton) = Some "2".
Proof.
  destruct (addEmptyForm_unknown_type Demo.readSelector (Demo.formsetPage "1" "3")
              "place" Demo.addButton "names-TOTAL_FORMS" "id_names-TOTAL_FORMS"
              "1" "2" false
              eq_refl ltac:(vm_compute; reflexivity)
              ltac:(vm_compute; reflexivity) ltac:(vm_compute; reflexivity)
              ltac:(vm_compute; reflexivity) ltac:(vm_compute; reflexivity)
              ltac:(vm_compute; reflexivity) ltac:(vm_compute; reflexivity))
    as (t' & E & Hs & _ & Hv).
  exists t'. split; [exact E|]. split; [exact Hs|exact Hv].
Defined.



End FormsetEdges.
(** * The log dialogue *)

Module DialogueFacts.
Import DOM JQ Sel Handlers Page DOMFacts JQFacts ClassFacts.

Lemma assoc_filter_same k l :
  assoc k (filter (fun kv => negb (String.eqb k (fst kv))) l) = None.
Proof.
  induction l as [|[k' v'] l IH]; simpl; trivial.
  destruct (String.eqb k k') eqn:E; simpl; trivial. rewrite E; trivial.
Qed.

Lemma assoc_filter_other k k' l :
  k <> k' ->
  assoc k (filter (fun kv => negb (String.eqb k' (fst kv))) l) = assoc k l.
Proof.
  intros ne. induction l as [|[x v] l IH]; simpl; trivial.
  destruct (String.eqb k' x) eqn:E; simpl.
  - apply String.eqb_eq in E as <-. apply String.eqb_neq in ne. rewrite ne; trivial.
  - rewrite IH; trivial.
Qed.

Lemma getAttr_removeAttr_same k d : getAttr k (removeAttr k d) = None.
Proof. apply assoc_filter_same. Qed.

Lemma getAttr_removeAttr_other k k' d :
  k <> k' -> getAttr k (removeAttr k' d) = getAttr k d.
Proof. apply assoc_filter_other. Qed.

Lemma removeAttr_idem k d : removeAttr k (removeAttr k d) = removeAttr k d.
Proof.
  unfold removeAttr; simpl. f_equal.
  induction (attrs d) as [|[x v] l IH]; simpl; trivial.
  destruct (String.eqb k x) eqn:E; simpl; trivial. rewrite E; simpl; congruence.
Qed.

Lemma attrOrNull_idem k value d :
  attrOrNull k value (attrOrNull k value d) = attrOrNull k value d.
Proof.
  destruct value as [v|]; simpl.
  - unfold setAttr; simpl. rewrite FormsetFacts.assoc_set_idem; trivial.
  - apply removeAttr_idem.
Qed.

Lemma getAttr_attrOrNull_same k value d : getAttr k (attrOrNull k value d) = value.
Proof.
  destruct value as [v|]; simpl.
  - apply FormsetFacts.getAttr_setAttr_same.
  - apply getAttr_removeAttr_same.
Qed.

Lemma getAttr_attrOrNull_other k k' value d :
  k <> k' -> getAttr k (attrOrNull k' value d) = getAttr k d.
Proof.
  intros ne. destruct value as [v|]; simpl.
  - apply FormsetFacts.getAttr_setAttr_other; trivial.
  - apply getAttr_removeAttr_other; trivial.
Qed.

Lemma stable_byId i value :
  stable (fun d => match getAttr "id" d with
                   | Some v => String.eqb v i
                   | None => false
                   end) (attrOrNull "required" value).
Proof. intros d. rewrite getAttr_attrOrNull_other by discriminate. trivial. Qed.

Lemma stable_cls_attr c value : stable (cls c) (attrOrNull "required" value).
Proof. intros d. destruct value; reflexivity. Qed.

Lemma byId_toggled controls b t i :
  byId (toggleRequiredControls controls b t) i = byId t i.
Proof.
  unfold byId, toggleRequiredControls. cbv zeta.
  rewrite query_on by apply stable_byId. trivial.
Qed.

(** Which elements carry [required] after [toggleRequiredControls]. *)
Lemma required_toggled controls b t q :
  matches (toggleRequiredControls controls b t) (attrHas "required") q =
  match data_at t q with
  | Some d => if mem q controls then b else attrHas "required" d
  | None => false
  end.
Proof.
  unfold matches, toggleRequiredControls. cbv zeta.
  rewrite data_at_on by apply attrOrNull_idem.
  destruct (data_at t q) as [d|]; simpl; trivial.
  destruct (mem q controls); trivial.
  unfold attrHas. rewrite getAttr_attrOrNull_same. destruct b; trivial.
Qed.

Lemma subpaths_toggled controls b t :
  subpaths (toggleRequiredControls controls b t) = subpaths t.
Proof. apply subpaths_on. Qed.

Lemma find_agree t t' sel S :
  subpaths t = subpaths t' -> (forall q, matches t sel q = matches t' sel q) ->
  find t sel S = find t' sel S.
Proof.
  intros Hs Hm. unfold find, select. rewrite Hs. apply filter_ext.
  intros q. rewrite Hm; trivial.
Qed.

Lemma is_inactive t c M :
  class_at c t M = Some false -> is_ t (cls c) [M] = false.
Proof.
  unfold class_at, is_, matches, cls. simpl.
  destruct (data_at t M); simpl; [|discriminate].
  intros H; injection H as ->; trivial.
Qed.

Lemma controls_required t q :
  In q (dialogueRequiredControls t) ->
  exists d, data_at t q = Some d /\ attrHas "required" d = true.
Proof.
  intros H. apply select_In in H as [Hq H]. apply andb_true_iff in H as [_ H].
  unfold matches in H. destruct (data_at t q) as [d|]; [eauto|discriminate].
Qed.

(** The document after the first submit, when the dialogue is not
    active. *)
Definition asked (controls : list path) : stmt :=
  toggleRequiredControls controls true ;;
  on (fun t => byId t "log-modal") (addClass "active").

Lemma submit_inactive controls t M :
  byId t "log-modal" = [M] -> class_at "active" t M = Some false ->
  onRecordSubmit controls t = (asked controls t, false).
Proof.
  intros HM Hact. unfold onRecordSubmit. rewrite HM, (is_inactive _ _ _ Hact).
  trivial.
Qed.

Lemma byId_asked controls t i : byId (asked controls t) i = byId t i.
Proof.
  unfold asked, andThen, byId.
  rewrite query_on by solve_stable. apply byId_toggled.
Qed.

Lemma byId_asked' controls t i :
  byId ((toggleRequiredControls controls true ;;
         on (fun t => byId t "log-modal") (addClass "active")) t) i = byId t i.
Proof. apply byId_asked. Qed.

Lemma active_asked controls t M :
  byId t "log-modal" = [M] -> In M (subpaths t) ->
  class_at "active" (asked controls t) M = Some true.
Proof.
  intros HM Hin. unfold asked, andThen. rewrite class_at_add_on.
  rewrite byId_toggled, HM.
  unfold toggleRequiredControls. cbv zeta.
  rewrite class_at_other_on by apply stable_cls_attr.
  apply subpaths_spec in Hin as [d Hd]. unfold class_at. rewrite Hd. simpl.
  unfold mem. destruct (in_dec path_eq_dec M [M]) as [_|n]; trivial.
  exfalso. apply n. simpl; auto.
Qed.

(** X5. The required controls of the log dialogue make a round trip.
    When the page is ready their [required] attribute is taken away, so
    that the hidden dialogue does not block the validation of the form;
    the first submit, which shows the dialogue instead of sending the
    form, puts [required] back on exactly the controls that had it. *)
Theorem dialogue_required_round_trip (t : node) (M : path) :
  byId t "log-modal" = [M] -> class_at "active" t M = Some false ->
  let controls := dialogueRequiredControls t in
  let t1 := initDialogue t in
  let t2 := fst (onRecordSubmit controls t1) in
  dialogueRequiredControls t1 = [] /\
  dialogueRequiredControls t2 = controls /\
  (forall q, In q controls -> attr_at "required" t2 q = Some "required") /\
  class_at "active" t2 M = Some true.
Proof.
  intros HM Hact. cbv zeta.
  set (controls := dialogueRequiredControls t). set (t1 := initDialogue t).
  assert (E1 : byId t1 "log-modal" = [M]).
  { unfold t1, initDialogue. rewrite byId_toggled; trivial. }
  assert (Hact1 : class_at "active" t1 M = Some false).
  { unfold t1, initDialogue, toggleRequiredControls. cbv zeta.
    rewrite class_at_other_on by apply stable_cls_attr. trivial. }
  assert (HMin : In M (subpaths t1)).
  { apply (byId_elem t1 "log-modal"). rewrite E1. simpl; auto. }
  assert (Hs1 : subpaths t1 = subpaths t) by apply subpaths_on.
  assert (Hreq1 : forall q, matches t1 (attrHas "required") q =
                            match data_at t q with
                            | Some d => if mem q controls then false
                                        else attrHas "required" d
                            | None => false
                            end).
  { intros q. apply required_toggled. }
  rewrite (submit_inactive controls t1 M E1 Hact1). simpl fst.
  split; [|split; [|split]].
  - unfold dialogueRequiredControls. rewrite E1. apply FormsetEdges.select_none.
    intros q. rewrite Hreq1.
    destruct (data_at t q) as [d|] eqn:Ed; [|apply andb_false_r].
    destruct (mem q controls) eqn:Em; [apply andb_false_r|].
    destruct (existsb (fun p => above p q) [M]) eqn:Ea; trivial. simpl.
    destruct (attrHas "required" d) eqn:Er; trivial.
    apply mem_false in Em. exfalso. apply Em.
    unfold controls, dialogueRequiredControls. rewrite HM. apply select_In. split.
    + apply subpaths_spec; eauto.
    + rewrite Ea. unfold matches. rewrite Ed. trivial.
  - unfold dialogueRequiredControls at 1. rewrite byId_asked, E1.
    transitivity (find t (attrHas "required") [M]);
      [|unfold controls, dialogueRequiredControls; rewrite HM; trivial].
    apply find_agree.
    + unfold asked, andThen. rewrite subpaths_on, subpaths_toggled. exact Hs1.
    + intros q. unfold asked, andThen. rewrite matches_on by solve_stable.
      rewrite required_toggled. unfold matches.
      pose proof (Hreq1 q) as Hq. unfold matches in Hq.
      destruct (data_at t1 q) as [d1|] eqn:E1q.
      * destruct (data_at t q) as [d|] eqn:Eq.
        2:{ exfalso. assert (Hin : In q (subpaths t)).
            { rewrite <- Hs1. apply subpaths_spec; eauto. }
            apply subpaths_spec in Hin as [d Hd]. congruence. }
        destruct (mem q controls) eqn:Em; [|exact Hq].
        apply mem_true in Em. apply controls_required in Em as (d' & Hd' & Hr).
        congruence.
      * destruct (data_at t q) as [d|] eqn:Eq; trivial.
        exfalso. assert (Hin : In q (subpaths t1)).
        { rewrite Hs1. apply subpaths_spec; eauto. }
        apply subpaths_spec in Hin as [d1 Hd1]. congruence.
  - intros q Hq. unfold attr_at, asked, andThen.
    assert (Hd : exists d, data_at t1 q = Some d).
    { apply subpaths_spec. rewrite Hs1.
      apply controls_required in Hq as (d & Hd & _). apply subpaths_spec; eauto. }
    destruct Hd as [d1 Hd1].
    assert (Hp : option_map (getAttr "required")
                   (data_at (on (fun t => byId t "log-modal") (addClass "active")
                               (toggleRequiredControls controls true t1)) q)
                 = option_map (getAttr "required")
                     (data_at (toggleRequiredControls controls true t1) q)).
    { apply proj_on. intros d. unfold addClass.
      destruct (hasClass "active" d); trivial. }
    unfold toggleRequiredControls in *. cbv zeta in *.
    rewrite (data_at_on _ (fun _ => controls) t1) in Hp by apply attrOrNull_idem.
    rewrite Hd1 in Hp. cbn [option_map] in Hp.
    apply mem_true in Hq. rewrite Hq in Hp.
    rewrite getAttr_attrOrNull_same in Hp.
    match goal with
    | |- context [data_at ?x q] => destruct (data_at x q) as [d2|]
    end; cbn [option_map] in Hp; [|discriminate].
    injection Hp as Hp. exact Hp.
  - apply active_asked; trivial.
Qed.

Lemma dialogue_required_round_trip_witness :
  dialogueRequiredControls (initDialogue PageDemo.recordPage) = [] /\
  dialogueRequiredControls
    (fst (onRecordSubmit (dialogueRequiredControls PageDemo.recordPage)
            (initDialogue PageDemo.recordPage)))
  = [[0; 1; 0]].
Proof.
  destruct (dialogue_required_round_trip PageDemo.recordPage [0; 1] eq_refl eq_refl)
    as (H1 & H2 & _).
  split; [exact H1|exact H2].
Defined.

Lemma is_active t c M :
  class_at c t M = Some true -> is_ t (cls c) [M] = true.
Proof.
  unfold class_at, is_, matches, cls. simpl.
  destruct (data_at t M); simpl; [|discriminate].
  intros H; injection H as ->; trivial.
Qed.

(** X6. The record form is sent in two steps.  While the log dialogue
    is not active a submit is held back and shows the dialogue; the next
    submit is sent and leaves the document as it is. *)
Theorem submit_asks_then_sends (controls : list path) (t : node) (M : path) :
  byId t "log-modal" = [M] -> class_at "active" t M = Some false ->
  let t1 := fst (onRecordSubmit controls t) in
  snd (onRecordSubmit controls t) = false /\
  class_at "active" t1 M = Some true /\
  onRecordSubmit controls t1 = (t1, true).
Proof.
  intros HM Hact. cbv zeta. rewrite (submit_inactive controls t M HM Hact).
  simpl fst. simpl snd.
  assert (HMin : In M (subpaths t)).
  { apply (byId_elem t "log-modal"). rewrite HM. simpl; auto. }
  pose proof (active_asked controls t M HM HMin) as Ha.
  split; trivial. split; trivial.
  unfold onRecordSubmit. rewrite byId_asked, HM, (is_active _ _ _ Ha). trivial.
Qed.

Lemma submit_asks_then_sends_witness :
  snd (onRecordSubmit [[0; 1; 0]] PageDemo.recordPage) = false /\
  snd (onRecordSubmit [[0; 1; 0]]
         (fst (onRecordSubmit [[0; 1; 0]] PageDemo.recordPage))) = true.
Proof.
  destruct (submit_asks_then_sends [[0; 1; 0]] PageDemo.recordPage [0; 1]
              eq_refl eq_refl) as (H1 & _ & H2).
  split; [exact H1|]. rewrite H2. reflexivity.
Defined.

(** The document after [n] submits. *)
Fixpoint afterSubmits (n : nat) (controls : list path) (t : node) : node :=
  match n with
  | O => t
  | S n' => afterSubmits n' controls (fst (onRecordSubmit controls t))
  end.

(** X7. On a page without the log dialogue the record form is never
    sent, however often it is submitted: the test of line 40 is false on
    an empty jQuery object, and line 45 finds nothing to make active. *)
Theorem submit_never_sends_without_dialogue (controls : list path) (t : node) (n : nat) :
  byId t "log-modal" = [] ->
  snd (onRecordSubmit controls (afterSubmits n controls t)) = false.
Proof.
  revert t; induction n as [|n IH]; intros t H; simpl.
  - unfold onRecordSubmit. rewrite H. trivial.
  - apply IH. unfold onRecordSubmit. rewrite H. simpl fst.
    rewrite byId_asked'. trivial.
Qed.

Lemma submit_never_sends_without_dialogue_witness :
  snd (onRecordSubmit [] (afterSubmits 2 [] (Demo.formsetPage "1" "3"))) = false.
Proof. apply submit_never_sends_without_dialogue. reflexivity. Defined.

Lemma filter_assoc_set k v l :
  assoc k l = None ->
  filter (fun kv => negb (String.eqb k (fst kv))) (assoc_set k v l) = l.
Proof.
  induction l as [|[x w] l IH]; simpl.
  - rewrite String.eqb_refl. trivial.
  - destruct (String.eqb k x) eqn:E; [discriminate|]. intros H. simpl.
    rewrite E. simpl. rewrite IH; trivial.
Qed.

Lemma filter_class_added c l :
  existsb (String.eqb c) l = false ->
  filter (fun c' => negb (String.eqb c c')) (l ++ [c]) = l.
Proof.
  induction l as [|x l IH]; simpl.
  - rewrite String.eqb_refl. trivial.
  - destruct (String.eqb c x) eqn:E; [discriminate|]. simpl. intros H.
    rewrite IH; trivial.
Qed.

Lemma removeAttr_setAttr k v d :
  getAttr k d = None -> removeAttr k (setAttr k v d) = d.
Proof.
  destruct d as [tg ats cs ch vp hd]. unfold getAttr, removeAttr, setAttr. simpl.
  intros H. rewrite filter_assoc_set; trivial.
Qed.

Lemma removeClass_addClass c d :
  hasClass c d = false -> removeClass c (addClass c d) = d.
Proof.
  intros H. unfold addClass. rewrite H.
  destruct d as [tg ats cs ch vp hd]. unfold hasClass in H. simpl in H.
  unfold removeClass, setClasses. simpl. rewrite filter_class_added; trivial.
Qed.

Lemma removeAttr_addClass k c d :
  removeAttr k (addClass c d) = addClass c (removeAttr k d).
Proof.
  unfold addClass.
  replace (hasClass c (removeAttr k d)) with (hasClass c d) by reflexivity.
  destruct (hasClass c d); reflexivity.
Qed.

(** One element across a submit that is held back and the cancel that
    follows. *)
Lemma undo_data (inC isM : bool) d :
  (inC = true -> getAttr "required" d = None) ->
  (isM = true -> hasClass "active" d = false) ->
  (if isM then removeClass "active" else fun x => x)
    ((if inC then attrOrNull "required" None else fun x => x)
       ((if isM then addClass "active" else fun x => x)
          ((if inC then attrOrNull "required" (Some "required") else fun x => x) d)))
  = d.
Proof.
  intros HC HM. unfold attrOrNull. destruct inC, isM.
  - rewrite removeAttr_addClass, removeAttr_setAttr, removeClass_addClass; auto.
  - apply removeAttr_setAttr; auto.
  - apply removeClass_addClass; auto.
  - trivial.
Qed.

(** X8. Cancelling the log dialogue undoes the submit that showed it:
    when the controls of the dialogue carry no [required] attribute and
    the dialogue, the nearest [.modal] above the cancel button, is not
    active, a held-back submit followed by a click on cancel leaves
    every element of the document with the data it had. *)
Theorem cancel_undoes_submit (controls : list path) (target : path) (t : node) (M : path) :
  byId t "log-modal" = [M] -> class_at "active" t M = Some false ->
  first (parents t (cls "modal") (wrap t target)) = [M] ->
  (forall q, In q controls -> attr_at "required" t q = None) ->
  forall q,
    data_at (onModalCancel controls target (fst (onRecordSubmit controls t))) q
    = data_at t q.
Proof.
  intros HM Hact Hpar Hreq q. rewrite (submit_inactive controls t M HM Hact).
  simpl fst. unfold onModalCancel, asked, andThen, toggleRequiredControls.
  cbv zeta.
  rewrite data_at_on by apply removeClass_idem.
  rewrite wrap_on, parents_on by solve_stable.
  rewrite wrap_on, parents_on by solve_stable.
  rewrite wrap_on, parents_on by apply stable_cls_attr.
  rewrite Hpar.
  rewrite data_at_on by apply attrOrNull_idem.
  rewrite data_at_on by apply addClass_idem.
  rewrite data_at_on by apply attrOrNull_idem.
  change (byId (on (fun _ => controls) (attrOrNull "required" (Some "required")) t)
               "log-modal")
    with (byId (toggleRequiredControls controls true t) "log-modal").
  rewrite byId_toggled, HM.
  destruct (data_at t q) as [d|] eqn:Ed; simpl; trivial. f_equal.
  pose proof (undo_data (mem q controls) (mem q [M]) d) as Hu.
  destruct (mem q controls) eqn:Ec, (mem q [M]) eqn:Em; apply Hu; intros E;
    try discriminate.
  - apply mem_true in Ec. specialize (Hreq q Ec). unfold attr_at in Hreq.
    rewrite Ed in Hreq. trivial.
  - apply mem_true in Em. destruct Em as [<-|[]].
    unfold class_at in Hact. rewrite Ed in Hact. simpl in Hact. congruence.
  - apply mem_true in Ec. specialize (Hreq q Ec). unfold attr_at in Hreq.
    rewrite Ed in Hreq. trivial.
  - apply mem_true in Em. destruct Em as [<-|[]].
    unfold class_at in Hact. rewrite Ed in Hact. simpl in Hact. congruence.
Qed.

Lemma cancel_undoes_submit_witness :
  data_at (onModalCancel [[0; 1; 0]] [0; 1; 2]
             (fst (onRecordSubmit [[0; 1; 0]] (initDialogue PageDemo.recordPage))))
          [0; 1; 0]
  = data_at (initDialogue PageDemo.recordPage) [0; 1; 0].
Proof.
  apply (cancel_undoes_submit _ _ _ [0; 1]); try reflexivity.
  intros q [<-|[]]. reflexivity.
Defined.

End DialogueFacts.

(** * Toggles of classes *)

Module ToggleFacts.
Import DOM JQ Sel Handlers Page DOMFacts JQFacts ClassFacts OrderFacts.

(** What an update does to each element, for a jQuery object (which
    holds no element twice). *)
Lemma data_at_update_nodup f S t q :
  NoDup S ->
  data_at (update_all f S t) q =
  option_map (fun d => if mem q S then f d else d) (data_at t q).
Proof.
  intros ND. destruct (mem q S) eqn:E.
  - apply mem_true in E. apply data_at_update_in; trivial.
  - apply mem_false in E. rewrite data_at_update_out by trivial.
    destruct (data_at t q); trivial.
Qed.

(** What class changes leave alone, and the classes as a set. *)
Definition rest (d : edata) : string * list (string * string) * bool * option string * bool :=
  (tag d, attrs d, checked d, valueProp d, hidden d).

Definition alike (d d' : edata) : Prop :=
  rest d = rest d' /\ forall c, hasClass c d = hasClass c d'.

Lemma alike_refl d : alike d d.
Proof. split; trivial. Qed.

Lemma alike_trans d1 d2 d3 : alike d1 d2 -> alike d2 d3 -> alike d1 d3.
Proof. intros [H1 H2] [H3 H4]. split; [congruence|]. intros c. rewrite H2; trivial. Qed.

Lemma rest_toggleClass c d : rest (toggleClass c d) = rest d.
Proof.
  unfold toggleClass, addClass, removeClass.
  destruct (hasClass c d); trivial.
Qed.

Lemma toggleClass_twice c d : alike (toggleClass c (toggleClass c d)) d.
Proof.
  split; [rewrite !rest_toggleClass; trivial|]. intros x.
  destruct (String.eqb_spec x c) as [->|ne].
  - rewrite !hasClass_toggleClass, negb_involutive. trivial.
  - rewrite !hasClass_toggleClass_other; trivial.
Qed.

Lemma toggleClass_alike c d d' : alike d d' -> alike (toggleClass c d) (toggleClass c d').
Proof.
  intros [H1 H2]. split; [rewrite !rest_toggleClass; trivial|]. intros x.
  destruct (String.eqb_spec x c) as [->|ne].
  - rewrite !hasClass_toggleClass, H2. trivial.
  - rewrite !hasClass_toggleClass_other; trivial.
Qed.

Lemma toggleClass_swap a b d :
  alike (toggleClass a (toggleClass b d)) (toggleClass b (toggleClass a d)).
Proof.
  split; [rewrite !rest_toggleClass; trivial|]. intros x.
  destruct (String.eqb_spec x a) as [Ea|na]; destruct (String.eqb_spec x b) as [Eb|nb];
    subst; trivial;
    repeat first [ rewrite hasClass_toggleClass
                 | rewrite hasClass_toggleClass_other by congruence ];
    trivial.
Qed.

(** The body toggled by [toggleTab]. *)
Definition tabBodies (t : node) (el : path) : list path :=
  siblings t (cls "fieldset-body") (parents t (cls "fieldset-header") (wrap t el)).

Lemma toggleTab_data el t q :
  data_at (toggleTab el t) q =
  option_map (fun d => (if mem q (wrap t el) then toggleClass "active" else fun x => x)
                         ((if mem q (tabBodies t el) then toggleClass "expand"
                           else fun x => x) d))
             (data_at t q).
Proof.
  unfold toggleTab, andThen, on. rewrite data_at_update_nodup by apply NoDup_select.
  rewrite wrap_update.
  rewrite data_at_update_nodup by apply NoDup_select.
  fold (tabBodies t el).
  destruct (data_at t q); simpl; trivial.
  destruct (mem q (wrap t el)), (mem q (tabBodies t el)); trivial.
Qed.

Lemma tabBodies_toggleTab el t : tabBodies (toggleTab el t) el = tabBodies t el.
Proof.
  unfold tabBodies, toggleTab, andThen.
  rewrite wrap_on, parents_on, siblings_on by solve_stable.
  rewrite wrap_on, parents_on, siblings_on by solve_stable. trivial.
Qed.

Lemma wrap_toggleTab el t p : wrap (toggleTab el t) p = wrap t p.
Proof. unfold toggleTab, andThen. rewrite !wrap_on. trivial. Qed.

(** X9. [toggleTab] is its own inverse: after two calls on the same
    toggle every element has the tag, attributes, checked state, value
    and visibility it had, and the same classes (their order in the
    class list may differ). *)
Theorem toggleTab_twice (el : path) (t : node) (q : path) :
  match data_at (toggleTab el (toggleTab el t)) q, data_at t q with
  | Some d', Some d => alike d' d
  | None, None => True
  | _, _ => False
  end.
Proof.
  rewrite !toggleTab_data, tabBodies_toggleTab, wrap_toggleTab.
  destruct (data_at t q) as [d|]; simpl; trivial.
  destruct (mem q (wrap t el)), (mem q (tabBodies t el)).
  - eapply alike_trans; [apply toggleClass_alike, toggleClass_swap|].
    eapply alike_trans; [apply toggleClass_twice|]. apply toggleClass_twice.
  - apply toggleClass_twice.
  - apply toggleClass_twice.
  - apply alike_refl.
Qed.

End ToggleFacts.

(** * Rows per page *)

Module PagerFacts.
Import Page.

(** X10. The page size that is marked as current is the smallest of 10,
    25, 50 and 100 that is not below the number of rows shown; above 100
    rows the label is 0, which is no page size, so none is marked. *)
Theorem pageSizeLabel_least (rowsPerPage : nat) :
  if Nat.leb rowsPerPage 100
  then In (pageSizeLabel rowsPerPage) rows /\
       rowsPerPage <= pageSizeLabel rowsPerPage /\
       forall r, In r rows -> rowsPerPage <= r -> pageSizeLabel rowsPerPage <= r
  else pageSizeLabel rowsPerPage = 0.
Proof.
  unfold pageSizeLabel, rows, firstFit.
  destruct (Nat.leb_spec rowsPerPage 100) as [H100|H100];
    destruct (Nat.leb_spec rowsPerPage 10) as [H10|H10];
    destruct (Nat.leb_spec rowsPerPage 25) as [H25|H25];
    destruct (Nat.leb_spec rowsPerPage 50) as [H50|H50];
    try lia; trivial;
    (split; [simpl; auto|split; [lia|]]);
    intros r [<-|[<-|[<-|[<-|[]]]]]; lia.
Qed.

End PagerFacts.

(** * Taking elements out *)

Module RemoveFacts.
Import DOM JQ Sel Handlers Page DOMFacts JQFacts OrderFacts SpliceFacts RelocFacts
  EditFacts.

(** The document that a sequence of edits gives does not depend on the
    relocation carried along. *)
Lemma forEachBack_fst edit1 (L : list path) : forall t r r',
  fst (fold_left (fun (acc : tracked) p =>
                    let '(t1, r1) := acc in
                    let '(t2, r2) := edit1 p t1 in
                    (t2, then_ r1 r2)) L (t, r))
  = fst (fold_left (fun (acc : tracked) p =>
                      let '(t1, r1) := acc in
                      let '(t2, r2) := edit1 p t1 in
                      (t2, then_ r1 r2)) L (t, r')).
Proof.
  induction L as [|p L IH]; intros t r r'; simpl; trivial.
  destruct (edit1 p t) as [t2 r2]. apply IH.
Qed.

Lemma removeAll_snoc S N t :
  fst (removeAll (S ++ [N]) t) = fst (removeAll S (fst (removeAt N t))).
Proof.
  unfold removeAll, forEachBack. rewrite rev_app_distr. simpl.
  destruct (removeAt N t) as [t2 r2]. simpl. apply forEachBack_fst.
Qed.

(** An edit of the children of [P] from the [k]-th on leaves every
    element before the [k]-th child where it is. *)
Lemma reloc_before_same k del n : forall P q,
  before q (P ++ [k]) = true -> reloc k del n P q = Some q.
Proof.
  induction P as [|i P IH]; intros [|j q] H; simpl in *; trivial.
  - assert (Hq : before q [] = false) by (destruct q; trivial).
    rewrite Hq, andb_false_r, orb_false_r in H. rewrite H. trivial.
  - apply orb_true_iff in H as [H|H].
    + apply Nat.ltb_lt in H. destruct (Nat.eqb_spec i j); [lia|trivial].
    + apply andb_true_iff in H as [E H]. apply Nat.eqb_eq in E as ->.
      rewrite Nat.eqb_refl, (IH q H). trivial.
Qed.

Lemma moved_app f (S1 S2 : list path) : moved f (S1 ++ S2) = moved f S1 ++ moved f S2.
Proof. apply flat_map_app. Qed.

Lemma moved_same f (S : list path) : (forall q, In q S -> f q = Some q) -> moved f S = S.
Proof.
  induction S as [|a S IH]; simpl; intros H; trivial.
  rewrite (H a) by auto. simpl. rewrite IH; auto.
Qed.

Lemma sorted_last (l : list path) N :
  StronglySorted precedes (l ++ [N]) -> forall q, In q l -> precedes q N.
Proof.
  induction l as [|a l IH]; simpl; intros H q Hq; [destruct Hq|].
  inversion H as [|? ? Hs Ha]; subst. destruct Hq as [<-|Hq].
  - rewrite Forall_forall in Ha. apply Ha. apply in_or_app. simpl; auto.
  - apply IH; trivial.
Qed.

(** After [$(sel).remove()] nothing in the document matches [sel],
    unless it is the root, which has no parent to be taken from. *)
Lemma removeAll_clears sel : forall S t,
  query t sel = S -> matches t sel [] = false ->
  query (fst (removeAll S t)) sel = [].
Proof.
  induction S as [|N l IH] using rev_ind; intros t HS Hroot.
  - trivial.
  - rewrite removeAll_snoc.
    assert (HN : In N (query t sel)) by (rewrite HS; apply in_or_app; simpl; auto).
    apply select_In in HN as [HNin HNm].
    assert (HNne : N <> []) by (intros ->; congruence).
    pose proof (removeAt_edit t N HNin HNne) as E.
    rewrite (DuplicateFacts.removeAt_splice _ _ HNne) in *. simpl fst in *.
    simpl snd in E.
    set (P := removelast N) in *. set (k := List.last N 0) in *.
    set (t1 := splice P k 1 [] t) in *.
    assert (Hrej : forall q', In q' (subpaths t1) -> reloc k 0 1 P q' = None ->
                              matches t1 sel q' = false).
    { intros q' _ Hg. destruct (reloc_total _ _ _ _ Hg). }
    assert (Hbefore : forall q, before q N = true -> reloc k 1 0 P q = Some q).
    { intros q Hq. apply reloc_before_same. unfold P, k.
      rewrite <- (split_last N HNne). trivial. }
    assert (Hsorted : StronglySorted precedes (l ++ [N]))
      by (rewrite <- HS; apply select_sorted).
    apply IH.
    + rewrite (query_edit t t1 _ _ E sel Hrej), HS, moved_app.
      rewrite moved_same.
      * simpl. assert (Hg : reloc k 1 0 P N = None).
        { apply reloc_none. exists k, []. split; [apply split_last; trivial|lia]. }
        rewrite Hg. apply app_nil_r.
      * intros q Hq. apply Hbefore. apply (sorted_last l N Hsorted q Hq).
    + rewrite (ed_matches t t1 _ _ E sel [] []); trivial.
      apply Hbefore. destruct N; [tauto|trivial].
Qed.

End RemoveFacts.

(** * Text of elements *)

Module TextFacts.
Import DOM JQ Sel Handlers Page DOMFacts JQFacts ClassFacts OrderFacts SpliceFacts
  RelocFacts EditFacts.

(** An edit of the children of [P] leaves the elements that are not
    below [P] where they are. *)
Lemma reloc_outside k del n : forall P q,
  above P q = false -> reloc k del n P q = Some q.
Proof.
  induction P as [|i P IH]; intros [|j q] H; trivial.
  - discriminate.
  - rewrite reloc_cons. destruct (Nat.eqb_spec i j) as [->|ne]; trivial.
    rewrite IH; trivial.
    unfold above in *. simpl in H. rewrite Nat.eqb_refl in H. exact H.
Qed.

Lemma setTextAt_data s p t q :
  above p q = false -> data_at (setTextAt s p t) q = data_at t q.
Proof.
  intros H. unfold setTextAt. apply data_at_splice; [lia|].
  apply reloc_outside; trivial.
Qed.

Lemma setText_data s S : forall t q,
  (forall p, In p S -> above p q = false) ->
  data_at (setText s S t) q = data_at t q.
Proof.
  unfold setText. induction S as [|p S IH]; intros t q H; simpl; trivial.
  rewrite IH by (intros; apply H; simpl; auto).
  apply setTextAt_data. apply H. simpl; auto.
Qed.

Lemma setTextAt_kids s p t d :
  data_at t p = Some d -> kids_at (setTextAt s p t) p = textNode s.
Proof.
  intros H. unfold setTextAt. rewrite (kids_at_splice _ _ _ _ _ _ H).
  simpl. rewrite skipn_all, app_nil_r. trivial.
Qed.

Lemma wrap_elem t p : In p (subpaths t) -> wrap t p = [p].
Proof.
  intros H. apply singleton; [apply NoDup_select|].
  intros x. rewrite wrap_In. split; [tauto|intros ->; auto].
Qed.

Lemma wrap_none t p : ~ In p (subpaths t) -> wrap t p = [].
Proof.
  intros H. destruct (wrap t p) as [|x l] eqn:E; trivial.
  assert (Hx : In x (wrap t p)) by (rewrite E; simpl; auto).
  apply wrap_In in Hx as [-> Hx]. tauto.
Qed.

(** The controls that [showAllMoreInformation] sets. *)
Definition boxes (t : node) : list path := query t (attrStarts "id" "checkbox_").

(** X11. [showAllMoreInformation] gives every control whose id starts
    with [checkbox_] the same checked state, the opposite of the state
    the first of them had, whatever the others had; the element clicked
    is labelled "Collapse all" when that state is checked and "Expand
    all" when it is not or when there is no such control.  (A control
    below the element clicked is replaced by the label and is left
    out.) *)
Theorem showAllMoreInformation_levels (el : path) (t : node) :
  let v := negb (truthy (propChecked t (boxes t))) in
  let t' := showAllMoreInformation el t in
  (forall p, In p (boxes t) -> above el p = false -> checked_at t' p = Some v) /\
  (In el (subpaths t) ->
   kids_at t' el =
   [Text (if v && negb (Nat.eqb (List.length (boxes t)) 0)
          then "Collapse all" else "Expand all")]).
Proof.
  cbv zeta. unfold showAllMoreInformation. fold (boxes t).
  remember (negb (truthy (propChecked t (boxes t)))) as v eqn:Ev. clear Ev.
  set (t1 := on (fun t => query t (attrStarts "id" "checkbox_")) (setChecked v) t).
  assert (Hb : query t1 (attrStarts "id" "checkbox_") = boxes t).
  { unfold t1. rewrite query_on by solve_stable. trivial. }
  rewrite Hb.
  assert (Hc : forall p, In p (boxes t) -> checked_at t1 p = Some v).
  { intros p Hp. unfold t1. rewrite checked_at_set_on. fold (boxes t).
    apply mem_true in Hp. rewrite Hp.
    apply mem_true, select_In in Hp as [Hp _].
    apply subpaths_spec in Hp as [d Hd]. unfold checked_at. rewrite Hd. trivial. }
  assert (Ht : truthy (propChecked t1 (boxes t))
               = v && negb (Nat.eqb (List.length (boxes t)) 0)).
  { destruct (boxes t) as [|p0 l] eqn:Eb; [simpl; rewrite andb_false_r; trivial|].
    simpl. rewrite andb_true_r.
    assert (H0 : checked_at t1 p0 = Some v) by (apply Hc; simpl; auto).
    unfold checked_at in H0. rewrite H0. destruct v; trivial. }
  rewrite Ht.
  set (s := if v && negb (Nat.eqb (List.length (boxes t)) 0)
            then "Collapse all" else "Expand all").
  assert (Hs1 : subpaths t1 = subpaths t) by apply subpaths_on.
  assert (Hcases : (if v && negb (Nat.eqb (List.length (boxes t)) 0)
                    then setText "Collapse all" (wrap t1 el) t1
                    else setText "Expand all" (wrap t1 el) t1)
                   = setText s (wrap t1 el) t1).
  { unfold s. destruct (v && _); trivial. }
  rewrite Hcases. split.
  - intros p Hp Hab. unfold checked_at. rewrite setText_data.
    + apply Hc; trivial.
    + intros x Hx. apply wrap_In in Hx as [-> _]. trivial.
  - intros Hel. rewrite wrap_elem by (rewrite Hs1; trivial).
    unfold setText. simpl.
    assert (Hd : exists d, data_at t1 el = Some d)
      by (apply subpaths_spec; rewrite Hs1; trivial).
    destruct Hd as [d Hd]. rewrite (setTextAt_kids _ _ _ _ Hd).
    unfold s. destruct (v && _); trivial.
Qed.

Lemma above_nil p : above p [] = false.
Proof. destruct p; trivial. Qed.

Lemma is_wrap_false t sel p : matches t sel p = false -> is_ t sel (wrap t p) = false.
Proof.
  intros H. unfold is_. destruct (existsb (matches t sel) (wrap t p)) eqn:E; trivial.
  apply existsb_exists in E as (x & Hx & Hm). apply wrap_In in Hx as [-> _].
  congruence.
Qed.

(** X12. A click in a form outside the help texts closes them all:
    afterwards no element of the document has the class
    [additional-info].  (The root of the document is not a help text;
    it could not be taken out.) *)
Theorem closeTooltips_clears (target : path) (t : node) :
  matches t (cls "additional-info") [] = false ->
  matches t (cls "additional-info") target = false ->
  query (closeTooltips target t) (cls "additional-info") = [].
Proof.
  intros Hroot Htarget. unfold closeTooltips.
  rewrite (is_wrap_false _ _ _ Htarget). simpl negb. cbv iota.
  destruct (Nat.eqb_spec (List.length (query t (cls "additional-info"))) 0) as [E|E];
    simpl negb; cbv iota.
  - apply length_zero_iff_nil; trivial.
  - cbv zeta. apply RemoveFacts.removeAll_clears; trivial.
    unfold matches in *. rewrite setText_data; trivial.
    intros p _. apply above_nil.
Qed.

Lemma closeTooltips_clears_witness :
  query PageDemo.helpPage (cls "additional-info") = [[0; 1]] /\
  query (closeTooltips [1] PageDemo.helpPage) (cls "additional-info") = [].
Proof.
  split; [reflexivity|]. apply closeTooltips_clears; reflexivity.
Defined.

End TextFacts.
(** * Fetching the transcriptions *)

Module FetchFacts.
Import DOM JQ Sel Handlers Page DOMFacts JQFacts ClassFacts SpliceFacts
  TranscriptionFacts.

Definition transcriptionArea : selector :=
  both (tagIs "textarea") (cls "richtext-transcription").

(** X13. The transcriptions are fetched once.  After a response with at
    least one record has been rendered into the panel, the test of the
    toggle fails, so a later click on the toggle changes nothing,
    whatever a new request would return. *)
Theorem transcriptions_fetched_once (data : list item) (t t' : node) (T : path)
    (later : option (list item)) :
  byId t "transcription" = [T] -> data <> [] ->
  fetchTranscriptions (Some data) t = Some t' ->
  transcriptionsWanted t' = false /\ onTranscriptionToggle later t' = Some t'.
Proof.
  intros HT Hdata Hfetch.
  assert (Hw : transcriptionsWanted t' = false).
  { unfold transcriptionsWanted. fold transcriptionArea.
    unfold fetchTranscriptions in Hfetch.
    destruct (orderedData data) as [sorted|] eqn:Eo; [|discriminate].
    destruct (transcriptions 0 sorted) as [new|] eqn:En; [|discriminate].
    injection Hfetch as <-.
    destruct sorted as [|r l].
    { exfalso. destruct data as [|x data]; [tauto|].
      apply (sort_cons _ _ _ _ Eo). trivial. }
    destruct (nth_transcriptions _ 0 new 0 r En eq_refl)
      as (d & d' & _ & Hn & _ & _ & _ & Harea).
    pose proof (length_transcriptions _ _ _ En) as Hlen. simpl in Hlen.
    assert (HTe : exists d, data_at t T = Some d).
    { apply subpaths_spec. apply (byId_elem t "transcription").
      rewrite HT. simpl; auto. }
    destruct HTe as [dT HdT].
    set (t2 := addCKEditor (appendEach new (byId t "transcription") t)).
    assert (Hin : In (T ++ [List.length (kids_at t T) + 2])%list
                     (query t2 transcriptionArea)).
    { assert (Hm : matches t2 transcriptionArea
                     (T ++ [List.length (kids_at t T) + 2]) = true).
      { unfold t2, addCKEditor.
        rewrite matches_on by (unfold transcriptionArea; solve_stable).
        rewrite HT. unfold appendEach. simpl fold_left.
        unfold matches, data_at.
        rewrite (get_append_new _ T t dT 2 [] HdT) by lia.
        change (3 * 0 + 2) with 2 in Hn. rewrite Hn. exact Harea. }
      apply select_In. split; trivial. eapply matches_elem; eauto. }
    destruct (query _ transcriptionArea); [destruct Hin|].
    simpl. apply andb_false_r. }
  split; trivial. unfold onTranscriptionToggle. rewrite Hw. trivial.
Qed.

Lemma transcriptions_fetched_once_witness :
  exists t',
    fetchTranscriptions (Some Demo.response) Demo.transcriptionPage = Some t' /\
    transcriptionsWanted Demo.transcriptionPage = true /\
    transcriptionsWanted t' = false /\
    onTranscriptionToggle (Some Demo.response) t' = Some t'.
Proof.
  assert (E : exists t',
            fetchTranscriptions (Some Demo.response) Demo.transcriptionPage = Some t').
  { vm_compute. eauto. }
  destruct E as [t' E]. exists t'. split; [exact E|]. split; [reflexivity|].
  apply (transcriptions_fetched_once Demo.response Demo.transcriptionPage t' [0]);
    [reflexivity|discriminate|exact E].
Defined.

End FetchFacts.
(** * The duplicates table when the page is ready *)

Module InitFacts.
Import DOM JQ Sel Handlers Page DOMFacts JQFacts ClassFacts.

Lemma next_In t sel S n :
  In n (next t sel S) -> exists c, In c S /\ same_parent c n = true.
Proof.
  unfold next. rewrite select_In. intros [_ H].
  apply andb_true_iff in H as [H _]. apply existsb_exists in H as (c & Hc & H).
  exists c. split; trivial.
  destruct (next_sibling t c) as [x|] eqn:E; [|discriminate].
  apply path_eqb_true in H as ->. unfold next_sibling in E.
  destruct (select t _) as [|y l] eqn:Es; [discriminate|].
  simpl in E. injection E as ->.
  assert (Hin : In n (n :: l)) by (simpl; auto). rewrite <- Es in Hin.
  apply select_In in Hin as [_ Hin]. apply andb_true_iff in Hin. tauto.
Qed.

Lemma closest_matches t sel S c : In c (closest t sel S) -> matches t sel c = true.
Proof.
  unfold closest. rewrite select_In. intros [_ H].
  apply existsb_exists in H as (p & _ & H).
  destruct (closest1 t sel p) as [x|] eqn:E; [|discriminate].
  apply path_eqb_true in H as ->. apply closest1_some in E. tauto.
Qed.

Lemma filter_none {A} (f : A -> bool) (l : list A) :
  (forall x, In x l -> f x = false) -> filter f l = [].
Proof.
  induction l as [|x l IH]; simpl; intros H; trivial.
  rewrite (H x) by auto. apply IH. auto.
Qed.

(** No element of class [duplicate-cell] has a child of class
    [primary-cell]: in the table the two are cells of one row. *)
Definition cellsApart (t : node) : Prop :=
  forall c pc, matches t (cls "primary-cell") c = true -> parent_of c = Some pc ->
               matches t (cls "duplicate-cell") pc = false.

Lemma cellsApart_on S c t :
  c <> "primary-cell" -> c <> "duplicate-cell" ->
  cellsApart t -> cellsApart (on S (addClass c) t).
Proof.
  intros n1 n2 H x px Hx Hp.
  rewrite matches_on in * by (apply cls_stable_add; congruence).
  apply (H x px); trivial.
Qed.

(** What line 74 selects. *)
Definition labelAfter (t : node) (p : path) : list path :=
  filter (childOf (cls "duplicate-cell") (tagIs "label") t)
    (next t any (closest t (cls "primary-cell") (wrap t p))).

Lemma labelAfter_none t p : cellsApart t -> labelAfter t p = [].
Proof.
  intros H. apply filter_none. intros n Hn.
  apply next_In in Hn as (c & Hc & Hs). apply closest_matches in Hc.
  unfold childOf. unfold same_parent in Hs.
  destruct (parent_of c) as [pc|] eqn:Ec; [|discriminate].
  destruct (parent_of n) as [pn|]; [|apply andb_false_r].
  apply path_eqb_true in Hs as <-. rewrite (H c pc Hc Ec). apply andb_false_r.
Qed.

Lemma markPrimary_disabled p t :
  cellsApart t ->
  cellsApart (markPrimary p t) /\
  forall q, class_at "disabled" (markPrimary p t) q = class_at "disabled" t q.
Proof.
  intros H. unfold markPrimary, andThen.
  set (t1 := on _ (addClass "border-left") t).
  set (t2 := on _ (addClass "selected") t1).
  assert (H1 : cellsApart t1) by (apply cellsApart_on; trivial; discriminate).
  assert (H2 : cellsApart t2) by (apply cellsApart_on; trivial; discriminate).
  assert (E : on (fun t => filter (childOf (cls "duplicate-cell") (tagIs "label") t)
                     (next t any (closest t (cls "primary-cell") (wrap t p))))
                 (addClass "disabled") t2 = t2).
  { unfold on. fold (labelAfter t2 p). rewrite (labelAfter_none t2 p H2). trivial. }
  rewrite E. split; trivial. intros q. unfold t2, t1.
  rewrite !class_at_other_on by (apply cls_stable_add; discriminate). trivial.
Qed.

Lemma markAll_disabled S : forall t,
  cellsApart t ->
  forall q, class_at "disabled" (fold_left (fun t p => markPrimary p t) S t) q
            = class_at "disabled" t q.
Proof.
  induction S as [|p S IH]; intros t H q; simpl; trivial.
  destruct (markPrimary_disabled p t H) as [H1 Hq].
  rewrite IH by trivial. apply Hq.
Qed.

(** X14. When the page is ready and a primary record is already chosen
    in the duplicates table, no label is disabled: line 74 looks for a
    label of a duplicate cell right after the primary cell, where the
    table has the duplicate cell itself.  (The click handler of the
    radio buttons, in contrast, disables the labels of that cell.) *)
Theorem initDuplicates_disables_nothing (t : node) (q : path) :
  cellsApart t -> chosenPrimary t <> [] ->
  class_at "disabled" (initDuplicates t) q = class_at "disabled" t q.
Proof.
  intros H Hc. unfold initDuplicates.
  destruct (chosenPrimary t) as [|p S] eqn:E; [tauto|].
  simpl Nat.eqb. cbv iota. apply markAll_disabled; trivial.
Qed.

Lemma initDuplicates_disables_nothing_witness :
  chosenPrimary Demo.duplicates = [[1; 0; 1; 0; 0; 0]] /\
  class_at "disabled" (initDuplicates Demo.duplicates) [1; 0; 1; 1; 1] = Some false.
Proof.
  split; [reflexivity|].
  rewrite initDuplicates_disables_nothing; [reflexivity| |discriminate].
  intros c pc Hc Hp.
  assert (Hin : In c (query Demo.duplicates (cls "primary-cell"))).
  { apply select_In. split; trivial. eapply matches_elem; eauto. }
  vm_compute in Hin. destruct Hin as [<-|[<-|[]]]; injection Hp as <-; reflexivity.
Defined.

End InitFacts.

(** * Expanding and collapsing the hierarchy *)

Module ExpandFacts.
Import DOM JQ Sel Handlers Page DOMFacts JQFacts ClassFacts TextFacts.

Lemma mem_select t R q d :
  data_at t q = Some d -> mem q (select t R) = R q.
Proof.
  intros Hd. destruct (R q) eqn:E.
  - apply mem_true, select_In. split; trivial. apply subpaths_spec; eauto.
  - apply mem_false. rewrite select_In. intros [_ H]. congruence.
Qed.

Lemma mem_query t sel q d : data_at t q = Some d -> mem q (query t sel) = sel d.
Proof.
  intros Hd. unfold query. rewrite (mem_select _ _ _ _ Hd). unfold matches.
  rewrite Hd. trivial.
Qed.

Lemma mem_find t sel S q d :
  data_at t q = Some d ->
  mem q (find t sel S) = existsb (fun p => above p q) S && sel d.
Proof.
  intros Hd. unfold find. rewrite (mem_select _ _ _ _ Hd). unfold matches.
  rewrite Hd. trivial.
Qed.

Lemma class_at_setText c s S t q :
  (forall p, In p S -> above p q = false) ->
  class_at c (setText s S t) q = class_at c t q.
Proof. intros H. unfold class_at. rewrite setText_data; trivial. Qed.

Lemma wrap_not_above t el q : above el q = false ->
  forall p, In p (wrap t el) -> above p q = false.
Proof. intros H p Hp. apply wrap_In in Hp as [-> _]. trivial. Qed.

(** X15. What [toggleExpand] does to the class [expand] of an element
    outside the button.  While some [.collections-level] is marked
    [not-expanded] it expands every [.fieldset-body] of the document;
    otherwise it collapses the bodies that lie inside a [.series-level]
    only: a body outside every series stays expanded after "collapse
    all". *)
Theorem toggleExpand_bodies (el : path) (t : node) (q : path) (d : edata) :
  data_at t q = Some d -> above el q = false ->
  class_at "expand" (toggleExpand el t) q =
  Some (if is_ t (cls "not-expanded") (query t (cls "collections-level"))
        then hasClass "fieldset-body" d || hasClass "expand" d
        else negb (existsb (fun p => above p q) (query t (cls "series-level"))
                   && hasClass "fieldset-body" d)
             && hasClass "expand" d).
Proof.
  intros Hd Hq. unfold toggleExpand. cbv zeta.
  rewrite class_at_other_on by (apply cls_stable_toggle; discriminate).
  destruct (is_ t (cls "not-expanded") (query t (cls "collections-level")));
    unfold andThen.
  - rewrite class_at_setText by (apply wrap_not_above; trivial).
    rewrite class_at_other_on by (apply cls_stable_add; discriminate).
    rewrite class_at_add_on, (mem_query _ _ _ _ Hd).
    unfold class_at. rewrite Hd. trivial.
  - rewrite class_at_setText by (apply wrap_not_above; trivial).
    rewrite class_at_other_on by (apply cls_stable_remove; discriminate).
    rewrite class_at_remove_on, (mem_find _ _ _ _ _ Hd).
    unfold class_at. rewrite Hd. trivial.
Qed.

Lemma toggleExpand_bodies_witness :
  class_at "expand" (toggleExpand [0] PageDemo.hierarchyPage) [1] = Some true /\
  class_at "expand" (toggleExpand [0] PageDemo.hierarchyPage) [2; 0] = Some false.
Proof.
  split.
  - rewrite (toggleExpand_bodies [0] PageDemo.hierarchyPage [1]
               (mkData "div" [] ["fieldset-body"; "expand"] false None false));
      reflexivity.
  - rewrite (toggleExpand_bodies [0] PageDemo.hierarchyPage [2; 0]
               (mkData "div" [] ["fieldset-body"; "expand"] false None false));
      reflexivity.
Defined.

End ExpandFacts.

(** * Elements kept by a handler across its changes of structure *)

Module TrackFacts.
Import DOM JQ Sel Handlers Page DOMFacts JQFacts OrderFacts SpliceFacts RelocFacts
  EditFacts RemoveFacts.

Lemma edit_ext t t' f f' g :
  (forall q, f q = f' q) -> edit t t' f g -> edit t t' f' g.
Proof.
  intros Hf [H1 H2 H3 H4 H5 H6 H7 H8]. constructor.
  - intros q q'. rewrite <- Hf. apply H1.
  - intros q q'. rewrite <- Hf. apply H2.
  - intros q1 q2 q1' q2'. rewrite <- !Hf. apply H3.
  - intros q1 q2 q1' q2'. rewrite <- !Hf. apply H4.
  - intros q q'. rewrite <- Hf. apply H5.
  - intros q q'. rewrite <- !Hf. apply H6.
  - intros p q. rewrite <- !Hf. apply H7.
  - exact H8.
Qed.

Lemma then_assoc f1 f2 f3 q : then_ (then_ f1 f2) f3 q = then_ f1 (then_ f2 f3) q.
Proof. unfold then_. destruct (f1 q); trivial. Qed.

Lemma then_Some_l f q : then_ Some f q = f q.
Proof. reflexivity. Qed.

Lemma then_Some_r f q : then_ f Some q = f q.
Proof. unfold then_. destruct (f q); trivial. Qed.

(** The relocation that a sequence of edits gives, from the one it
    started with. *)
Lemma forEachBack_snd_ext edit1 (L : list path) : forall t r r',
  (forall q, r q = r' q) ->
  forall q,
    snd (fold_left (fun (acc : tracked) p =>
                      let '(t1, r1) := acc in
                      let '(t2, r2) := edit1 p t1 in
                      (t2, then_ r1 r2)) L (t, r)) q
    = snd (fold_left (fun (acc : tracked) p =>
                        let '(t1, r1) := acc in
                        let '(t2, r2) := edit1 p t1 in
                        (t2, then_ r1 r2)) L (t, r')) q.
Proof.
  induction L as [|p L IH]; intros t r r' H q; simpl; [apply H|].
  destruct (edit1 p t) as [t2 r2]. apply IH.
  intros x. unfold then_. rewrite H. trivial.
Qed.

Lemma forEachBack_snd_then edit1 (L : list path) : forall t r0 r1 q,
  snd (fold_left (fun (acc : tracked) p =>
                    let '(t1, r1) := acc in
                    let '(t2, r2) := edit1 p t1 in
                    (t2, then_ r1 r2)) L (t, then_ r0 r1)) q
  = then_ r0 (snd (fold_left (fun (acc : tracked) p =>
                                let '(t1, r1) := acc in
                                let '(t2, r2) := edit1 p t1 in
                                (t2, then_ r1 r2)) L (t, r1))) q.
Proof.
  induction L as [|p L IH]; intros t r0 r1 q; simpl; trivial.
  destruct (edit1 p t) as [t2 r2]. rewrite <- IH.
  apply forEachBack_snd_ext. intros x. apply then_assoc.
Qed.

Lemma removeAll_snoc_snd S N t q :
  snd (removeAll (S ++ [N]) t) q
  = then_ (snd (removeAt N t)) (snd (removeAll S (fst (removeAt N t)))) q.
Proof.
  unfold removeAll, forEachBack. rewrite rev_app_distr. simpl.
  destruct (removeAt N t) as [t2 r2]. simpl.
  rewrite <- forEachBack_snd_then. apply forEachBack_snd_ext.
  intros x. unfold then_. destruct (r2 x); trivial.
Qed.

Lemma sorted_front (l : list path) N :
  StronglySorted precedes (l ++ [N]) -> StronglySorted precedes l.
Proof.
  induction l as [|a l IH]; simpl; intros H; [constructor|].
  inversion H as [|? ? Hs Ha]; subst. constructor; [apply IH; trivial|].
  rewrite Forall_forall in *. intros x Hx. apply Ha. apply in_or_app; auto.
Qed.

(** [$(S).remove()], [S] being a jQuery object of elements below the
    root: the elements that stay are those outside every member of
    [S]. *)
Lemma removeAll_spec : forall S t,
  StronglySorted precedes S ->
  (forall N, In N S -> In N (subpaths t) /\ N <> []) ->
  exists g,
    edit t (fst (removeAll S t)) (snd (removeAll S t)) g /\
    (forall q', g q' <> None) /\
    (forall q, snd (removeAll S t) q = None <->
               exists N, In N S /\ is_prefix N q = true).
Proof.
  induction S as [|N l IH] using rev_ind; intros t Hs Hel.
  - exists Some. split; [apply same_edit|]. split; [discriminate|].
    intros q. simpl. split; [discriminate|]. intros (N & [] & _).
  - destruct (Hel N) as [HNin HNne]; [apply in_or_app; simpl; auto|].
    pose proof (removeAt_edit t N HNin HNne) as E.
    assert (Hbefore : forall q, before q N = true -> snd (removeAt N t) q = Some q).
    { intros q Hq. rewrite (DuplicateFacts.removeAt_splice _ _ HNne). simpl.
      apply reloc_before_same. rewrite <- (split_last N HNne). trivial. }
    assert (Hgone : forall q, snd (removeAt N t) q = None <-> is_prefix N q = true).
    { intros q. rewrite (DuplicateFacts.removeAt_splice _ _ HNne). simpl.
      assert (EN : forall rest, (removelast N ++ List.last N 0 :: rest = N ++ rest)%list).
      { intros rest.
        transitivity ((removelast N ++ [List.last N 0]) ++ rest)%list;
          [rewrite <- app_assoc; trivial|].
        rewrite <- (split_last N HNne). trivial. }
      rewrite reloc_none, is_prefix_spec. split.
      - intros (j & rest & -> & Hj). exists rest.
        assert (j = List.last N 0) by lia. subst j. apply EN.
      - intros [rest ->]. exists (List.last N 0), rest. split; [|lia].
        symmetry. apply EN. }
    set (t1 := fst (removeAt N t)) in *. set (rN := snd (removeAt N t)) in *.
    assert (Hl : forall q, In q l -> rN q = Some q).
    { intros q Hq. apply Hbefore. apply (sorted_last l N Hs q Hq). }
    destruct (IH t1) as (g1 & E1 & Hg1 & Hr1).
    { eapply sorted_front; eauto. }
    { intros q Hq. destruct (Hel q) as [Hqin Hqne]; [apply in_or_app; auto|].
      split; trivial. apply (ed_elem _ _ _ _ E q q (Hl q Hq)); trivial. }
    exists (then_ g1 (reloc (List.last N 0) 0 1 (removelast N))).
    split; [|split].
    + rewrite removeAll_snoc.
      apply (edit_ext _ _ (then_ rN (snd (removeAll l t1)))).
      * intros q. symmetry. apply removeAll_snoc_snd.
      * apply (edit_trans _ _ _ _ _ _ _ E E1).
    + intros q' H. unfold then_ in H.
      destruct (g1 q') as [x|] eqn:Ex; [|apply (Hg1 q'); trivial].
      apply (reloc_total _ _ _ _ H).
    + intros q. rewrite removeAll_snoc_snd. unfold then_. fold rN. fold t1.
      destruct (rN q) as [q1|] eqn:Eq.
      * rewrite Hr1. split.
        -- intros (N1 & HN1 & Hp). exists N1. split; [apply in_or_app; auto|].
           rewrite <- (ed_prefix _ _ _ _ E _ _ _ _ (Hl N1 HN1) Eq). trivial.
        -- intros (N1 & HN1 & Hp). apply in_app_or in HN1 as [HN1|[<-|[]]].
           ++ exists N1. split; trivial.
              rewrite (ed_prefix _ _ _ _ E _ _ _ _ (Hl N1 HN1) Eq). trivial.
           ++ apply Hgone in Hp. congruence.
      * split; trivial. intros _. exists N. split; [apply in_or_app; simpl; auto|].
        apply Hgone; trivial.
Qed.

(** The traversals that start from elements all of which stay. *)
Section Kept.
Variables (t t' : node) (f g : path -> option path).
Hypothesis E : edit t t' f g.
Variable sel : selector.
Hypothesis Hsel : forall q', In q' (subpaths t') -> g q' = None ->
                             matches t' sel q' = false.
Variable S : list path.
Hypothesis Hkept : forall p, In p S -> f p <> None.

Lemma related_moved_kept (rel : path -> path -> bool) q q' :
  (forall p p', f p = Some p' -> rel p' q' = rel p q) ->
  existsb (fun p' => rel p' q') (moved f S) = existsb (fun p => rel p q) S.
Proof.
  intros Hrel. apply eq_true_iff_eq. rewrite !existsb_exists. split.
  - intros (p' & Hp' & H). apply In_moved in Hp' as (p & Hp & Ep).
    exists p. split; trivial. rewrite <- (Hrel _ _ Ep); trivial.
  - intros (p & Hp & H). destruct (f p) as [p'|] eqn:Ep.
    + exists p'. split; [apply In_moved; eauto|]. rewrite (Hrel _ _ Ep); trivial.
    + exfalso. apply (Hkept p Hp); trivial.
Qed.

Lemma parent_edit_kept : parent t' sel (moved f S) = moved f (parent t sel S).
Proof.
  unfold parent. apply (select_edit t t' f g E).
  - intros q q' _ H. rewrite (ed_matches t t' f g E sel _ _ H). f_equal.
    apply (related_moved_kept (fun p q => child_of q p)).
    intros p p' Hp. apply (ed_child_of t t' f g E); trivial.
  - intros q' Hq Hg. rewrite (Hsel _ Hq Hg). apply andb_false_r.
Qed.

Lemma siblings_edit_kept : siblings t' sel (moved f S) = moved f (siblings t sel S).
Proof.
  unfold siblings. apply (select_edit t t' f g E).
  - intros q q' _ H. rewrite (ed_matches t t' f g E sel _ _ H). f_equal.
    apply (related_moved_kept (fun p q => same_parent p q && negb (path_eqb p q))).
    intros p p' Hp. rewrite (ed_same_parent t t' f g E _ _ _ _ Hp H). f_equal.
    f_equal. apply eq_true_iff_eq. rewrite !path_eqb_true. split.
    + intros ->. eapply (ed_inj t t' f g E); eauto.
    + intros ->. congruence.
  - intros q' Hq Hg. rewrite (Hsel _ Hq Hg). apply andb_false_r.
Qed.

End Kept.

End TrackFacts.

(** * Marking an inline form for deletion *)

Module DeleteInlineFacts.
Import DOM JQ Sel Handlers Page DOMFacts JQFacts ClassFacts OrderFacts SpliceFacts
  RelocFacts EditFacts RemoveFacts TrackFacts.

Definition labelOf (t : node) (b : path) : list path :=
  parent t (tagIs "label") (wrap t b).

Definition headersOf (t : node) (b : path) : list path :=
  parents t (cls "fieldset-header") (labelOf t b).

(** The part of the form that is shown or hidden. *)
Definition formPartOf (t : node) (b : path) : list path :=
  first (find t (cls "inline-deletable")
           (closest t (attrHas "data-form-type") (wrap t b))).

(** The DELETE checkbox of a form part. *)
Definition deleteFieldOf (t : node) (part : list path) : list path :=
  first (find t (attrEnds "name" "DELETE")
           (children t (cls "inline-delete-form-field") part)).

(** What the handler may take out: the spans in the label and the
    danger buttons beside its parent. *)
Definition removable (t : node) (b : path) : list path :=
  children t (tagIs "span") (labelOf t b)
  ++ siblings t (both (tagIs "button") (cls "danger")) (parent t any (labelOf t b)).

(** What the theorem follows through the handler: the form part [F],
    its DELETE checkbox [D], whether the checkbox is checked and whether
    the part is hidden. *)
Record view (t : node) (F D : path) (c n : bool) : Prop := View {
  v_field : deleteFieldOf t [F] = [D];
  v_checked : checked_at t D = Some c;
  v_none : class_at "none" t F = Some n
}.

(** A data update that does not write the selectors of the DELETE
    checkbox, and that leaves the two states alone, or the two elements
    out. *)
Lemma view_on S f t F D c n :
  stable (cls "inline-delete-form-field") f -> stable (attrEnds "name" "DELETE") f ->
  (forall d, checked (f d) = checked d) \/ ~ In D (S t) ->
  (forall d, hasClass "none" (f d) = hasClass "none" d) \/ ~ In F (S t) ->
  view t F D c n -> view (on S f t) F D c n.
Proof.
  intros S1 S2 HD HF [Hf Hc Hn]. constructor.
  - unfold deleteFieldOf in *. rewrite children_on, find_on; trivial.
  - rewrite <- Hc. unfold checked_at. destruct HD as [HD|HD].
    + apply proj_on; trivial.
    + unfold on. rewrite data_at_update_out; trivial.
  - rewrite <- Hn. unfold class_at. destruct HF as [HF|HF].
    + apply proj_on; trivial.
    + unfold on. rewrite data_at_update_out; trivial.
Qed.

(** An edit that puts in no DELETE checkbox and keeps the two
    elements. *)
Lemma view_edit t t' f g F D F' D' c n :
  edit t t' f g ->
  (forall sel, In sel [cls "inline-delete-form-field"; attrEnds "name" "DELETE"] ->
     forall q', In q' (subpaths t') -> g q' = None -> matches t' sel q' = false) ->
  f F = Some F' -> f D = Some D' ->
  view t F D c n -> view t' F' D' c n.
Proof.
  intros E Hrej HF HD [Hf Hc Hn]. constructor.
  - unfold deleteFieldOf in *.
    assert (EF : [F'] = moved f [F]) by (simpl; rewrite HF; trivial).
    rewrite EF.
    rewrite (children_edit t t' f g E _ (Hrej _ (or_introl eq_refl))).
    rewrite (find_edit t t' f g E _ (Hrej _ (or_intror (or_introl eq_refl)))).
    destruct (find t (attrEnds "name" "DELETE")
                (children t (cls "inline-delete-form-field") [F])) as [|x l];
      [discriminate|].
    simpl in Hf. injection Hf as ->. simpl. rewrite HD. trivial.
  - rewrite <- Hc. unfold checked_at. rewrite (ed_data _ _ _ _ E _ _ HD). trivial.
  - rewrite <- Hn. unfold class_at. rewrite (ed_data _ _ _ _ E _ _ HF). trivial.
Qed.

Lemma is_prefix_trans p q r :
  is_prefix p q = true -> is_prefix q r = true -> is_prefix p r = true.
Proof.
  rewrite !is_prefix_spec. intros [a ->] [b ->]. exists (a ++ b)%list.
  rewrite app_assoc. trivial.
Qed.

Lemma above_prefix p q : above p q = true -> is_prefix p q = true.
Proof. unfold above. intros H. apply andb_true_iff in H. tauto. Qed.

Lemma find_above t sel S q :
  In q (find t sel S) -> exists p, In p S /\ above p q = true.
Proof.
  intros H. apply select_In in H as [_ H]. apply andb_true_iff in H as [H _].
  apply existsb_exists in H. trivial.
Qed.

Lemma children_child t sel S q :
  In q (children t sel S) -> exists p, In p S /\ child_of p q = true.
Proof.
  intros H. apply select_In in H as [_ H]. apply andb_true_iff in H as [H _].
  apply existsb_exists in H. trivial.
Qed.

Lemma parent_child t sel S q :
  In q (parent t sel S) -> exists p, In p S /\ child_of q p = true.
Proof.
  intros H. apply select_In in H as [_ H]. apply andb_true_iff in H as [H _].
  apply existsb_exists in H. trivial.
Qed.

Lemma child_above p q : child_of p q = true -> above p q = true.
Proof.
  intros H. apply child_of_spec in H as [Hne <-]. apply above_spec.
  exists (List.last q 0), []. apply app_removelast_last; trivial.
Qed.

Lemma above_trans p q r : above p q = true -> above q r = true -> above p r = true.
Proof.
  rewrite !above_spec. intros (i & a & ->) (j & b & ->).
  rewrite <- app_assoc. simpl. eauto.
Qed.

(** The DELETE checkbox lies in the form part. *)
Lemma view_below t F D c n : view t F D c n -> above F D = true.
Proof.
  intros [Hf _ _]. unfold deleteFieldOf, first in Hf.
  assert (Hin : In D (find t (attrEnds "name" "DELETE")
                        (children t (cls "inline-delete-form-field") [F]))).
  { apply (firstn_In 1). rewrite Hf. simpl; auto. }
  apply find_above in Hin as (C & HC & Hab).
  apply children_child in HC as (x & [<-|[]] & Hc).
  eapply above_trans; [apply child_above|]; eauto.
Qed.

(** What lies in a header or is the parent of something in it. *)
Lemma in_header_parent t sel (header : list path) q :
  In q (parent t any (find t sel header)) ->
  exists H, In H header /\ is_prefix H q = true.
Proof.
  intros Hq. apply parent_child in Hq as (p & Hp & Hc).
  apply find_above in Hp as (H & HH & Hab). exists H. split; trivial.
  apply child_of_spec in Hc as [Hne <-].
  apply above_spec in Hab as (i & r & ->). apply is_prefix_spec.
  exists (removelast (i :: r)).
  rewrite removelast_app by discriminate. trivial.
Qed.

(** Lines 769-777: the header is greyed out. *)
Definition greyOut (header fieldset : list path) : stmt :=
  on (fun _ => header) (toggleClass "inactive") ;;
  on (fun t => find t (both checkbox isChecked) header) (setChecked false) ;;
  on (fun _ => fieldset) (removeClass "border-left") ;;
  on (fun t => find t (cls "toggle-tab-button") header) (toggleClass "inactive") ;;
  on (fun t => parent t any (find t checkbox header)) (toggleClass "none").

Lemma checked_toggleClass c d : checked (toggleClass c d) = checked d.
Proof. unfold toggleClass, addClass, removeClass. repeat destruct (hasClass _ _); trivial. Qed.

Lemma checked_addClass c d : checked (addClass c d) = checked d.
Proof. unfold addClass. destruct (hasClass _ _); trivial. Qed.

Lemma greyOut_view header fieldset t F D c n :
  (forall H, In H header -> is_prefix H D = false) ->
  view t F D c n -> view (greyOut header fieldset t) F D c n.
Proof.
  intros Hh V. pose proof (view_below _ _ _ _ _ V) as Hb.
  unfold greyOut, andThen.
  apply view_on; try solve_stable.
  { left. apply checked_toggleClass. }
  { right. intros Hin. apply in_header_parent in Hin as (H & HH & Hp).
    specialize (Hh H HH).
    rewrite (is_prefix_trans _ _ _ Hp (above_prefix _ _ Hb)) in Hh.
    discriminate. }
  apply view_on; try solve_stable.
  { left. apply checked_toggleClass. }
  { left. intros d. apply hasClass_toggleClass_other. discriminate. }
  apply view_on; try solve_stable.
  { left. reflexivity. }
  { left. intros d. apply hasClass_removeClass_other. discriminate. }
  apply view_on; try solve_stable.
  { right. intros Hin. apply find_above in Hin as (H & HH & Hab).
    apply above_prefix in Hab. rewrite (Hh H HH) in Hab. discriminate. }
  { left. reflexivity. }
  apply view_on; try solve_stable; trivial.
  { left. apply checked_toggleClass. }
  { left. intros d. apply hasClass_toggleClass_other. discriminate. }
Qed.

Lemma greyOut_formPart header fieldset t b :
  formPartOf (greyOut header fieldset t) b = formPartOf t b.
Proof.
  unfold formPartOf, greyOut, andThen. to_start. trivial.
Qed.

(** Line 782: the form part is hidden or shown. *)
Lemma hide_view t F D c n :
  view t F D c n ->
  view (on (fun _ => [F]) (toggleClass "none") t) F D c (negb n).
Proof.
  intros [Hf Hc Hn]. constructor.
  - unfold deleteFieldOf in *. rewrite children_on, find_on by solve_stable. trivial.
  - rewrite <- Hc. unfold checked_at. apply proj_on. apply checked_toggleClass.
  - unfold class_at in *. unfold on.
    rewrite data_at_update_in; [|repeat constructor; simpl; tauto|simpl; auto].
    destruct (data_at t F) as [d|]; [|discriminate]. simpl in *.
    rewrite hasClass_toggleClass. congruence.
Qed.

Lemma is_none t F n : class_at "none" t F = Some n -> is_ t (cls "none") [F] = n.
Proof.
  unfold class_at, is_, matches, cls. simpl.
  destruct (data_at t F); [|discriminate]. simpl. intros H. injection H as ->.
  apply orb_false_r.
Qed.

(** Lines 786-788 and 793-795: the value of the button and the classes
    of the label. *)
Definition relabel (jButton label : list path) (mark off on_ : string) : stmt :=
  on (fun _ => jButton) (setVal mark) ;;
  on (fun _ => label) (removeClass off) ;;
  on (fun _ => label) (addClass on_).

Lemma relabel_view jButton label mark off on_ t F D c n :
  off <> "none" -> on_ <> "none" ->
  off <> "inline-delete-form-field" -> on_ <> "inline-delete-form-field" ->
  view t F D c n -> view (relabel jButton label mark off on_ t) F D c n.
Proof.
  intros n1 n2 n3 n4 V. unfold relabel, andThen.
  apply view_on.
  { apply cls_stable_add. congruence. }
  { stable_basic. }
  { left. apply checked_addClass. }
  { left. intros d. apply hasClass_addClass_other. congruence. }
  apply view_on.
  { apply cls_stable_remove. congruence. }
  { stable_basic. }
  { left. reflexivity. }
  { left. intros d. apply hasClass_removeClass_other. congruence. }
  apply view_on; trivial.
  { stable_basic. }
  { stable_basic. }
  { left. reflexivity. }
  { left. reflexivity. }
Qed.

(** A jQuery object all of whose elements are [a] is empty or [[a]]. *)
Lemma at_most (l : list path) a :
  NoDup l -> (forall x, In x l -> x = a) -> l = [] \/ l = [a].
Proof.
  intros ND H. destruct l as [|b l]; auto. right.
  assert (b = a) by (apply H; simpl; auto). subst b.
  destruct l as [|c l]; trivial.
  assert (c = a) by (apply H; simpl; auto). subst c.
  inversion ND as [|? ? Hn _]. exfalso. apply Hn. simpl; auto.
Qed.

Lemma parent_of_one t sel p :
  parent t sel [p] = [] \/
  (parent t sel [p] = [removelast p] /\ p <> [] /\ In (removelast p) (subpaths t)).
Proof.
  destruct (at_most (parent t sel [p]) (removelast p)) as [H|H]; auto.
  - apply NoDup_select.
  - intros x Hx. apply parent_child in Hx as (y & [<-|[]] & Hc).
    apply child_of_spec in Hc. symmetry. tauto.
  - right. split; trivial.
    assert (Hin : In (removelast p) (parent t sel [p])) by (rewrite H; simpl; auto).
    pose proof Hin as Hin'. apply parent_child in Hin as (y & [<-|[]] & Hc).
    apply child_of_spec in Hc. split; [tauto|].
    apply select_In in Hin'. tauto.
Qed.

Lemma parent_of_none t sel : parent t sel [] = [].
Proof. apply FormsetEdges.select_none. trivial. Qed.

Lemma above_not_back p q : above p q = true -> is_prefix q p = false.
Proof.
  intros H. apply above_spec in H as (i & r & ->).
  destruct (is_prefix _ p) eqn:E; trivial.
  apply is_prefix_spec in E as [x E].
  apply (f_equal (@List.length nat)) in E. rewrite !length_app in E.
  simpl in E. lia.
Qed.

Lemma elem_of_view t F D c n :
  view t F D c n -> In F (subpaths t) /\ In D (subpaths t).
Proof.
  intros [_ Hc Hn]. unfold checked_at, class_at in *. split; apply subpaths_spec.
  - destruct (data_at t F); [eauto|discriminate].
  - destruct (data_at t D); [eauto|discriminate].
Qed.

Lemma gone_above t t' f g p q :
  edit t t' f g -> is_prefix p q = true -> f q <> None -> f p <> None.
Proof. intros E Hp Hq Hn. apply Hq. apply (ed_gone _ _ _ _ E p q); trivial. Qed.

Lemma nowhere_field new :
  nowhere (cls "inline-delete-form-field") new = true ->
  nowhere (attrEnds "name" "DELETE") new = true ->
  forall sel, In sel [cls "inline-delete-form-field"; attrEnds "name" "DELETE"] ->
              nowhere sel new = true.
Proof. intros H1 H2 sel [<-|[<-|[]]]; trivial. Qed.

(** An edit by [splice] keeps the view when it keeps the checkbox. *)
Lemma view_splice P k del new t F D c n :
  k <= List.length (kids_at t P) ->
  nowhere (cls "inline-delete-form-field") new = true ->
  nowhere (attrEnds "name" "DELETE") new = true ->
  reloc k del (List.length new) P D <> None ->
  view t F D c n ->
  exists F' D',
    reloc k del (List.length new) P F = Some F' /\
    reloc k del (List.length new) P D = Some D' /\
    view (splice P k del new t) F' D' c n.
Proof.
  intros Hk N1 N2 HD V. pose proof (splice_edit t P k del new Hk) as E.
  pose proof (view_below _ _ _ _ _ V) as Hb. apply above_prefix in Hb.
  pose proof (gone_above _ _ _ _ _ _ E Hb HD) as HF.
  destruct (reloc k del (List.length new) P F) as [F'|] eqn:EF; [|tauto].
  destruct (reloc k del (List.length new) P D) as [D'|] eqn:ED; [|tauto].
  exists F', D'. split; trivial. split; trivial.
  apply (view_edit t _ _ _ F D F' D' c n E); trivial.
  intros sel Hsel q' Hq Hg.
  apply (fresh_no_match sel t P k del new q' Hk); trivial.
  apply nowhere_field; trivial.
Qed.

(** Line 789: "Undo" is added to the label. *)
Lemma append_branch label t F D c n :
  label = [] \/ (exists L, label = [L]) ->
  view t F D c n -> view (appendEach [undoSpan] label t) F D c n.
Proof.
  intros [->|[L ->]] V; trivial. unfold appendEach. simpl fold_left.
  destruct (elem_of_view _ _ _ _ _ V) as [HF HD].
  apply subpaths_spec in HF as [dF HdF]. apply subpaths_spec in HD as [dD HdD].
  destruct (view_splice L (List.length (kids_at t L)) 0 [undoSpan] t F D c n
              (le_n _) eq_refl eq_refl (reloc_total _ _ _ _) V)
    as (F' & D' & EF & ED & V').
  simpl List.length in EF, ED.
  rewrite (reloc_append 1 L t F dF HdF) in EF.
  rewrite (reloc_append 1 L t D dD HdD) in ED.
  injection EF as <-. injection ED as <-. exact V'.
Qed.

(** Line 790: the button that deletes for good is put after the parent
    of the label. *)
Lemma after_branch S t F D c n :
  S = [] \/ (exists p, S = [p] /\ In p (subpaths t)) ->
  view t F D c n ->
  exists F' D',
    snd (afterEach [deleteButton] S t) F = Some F' /\
    snd (afterEach [deleteButton] S t) D = Some D' /\
    view (fst (afterEach [deleteButton] S t)) F' D' c n.
Proof.
  intros [->|(p & -> & Hp)] V.
  - exists F, D. split; [reflexivity|]. split; [reflexivity|exact V].
  - unfold afterEach, forEachBack. simpl.
    destruct p as [|a p].
    + exists F, D. split; [reflexivity|]. split; [reflexivity|exact V].
    + rewrite (DuplicateFacts.insertAfter_splice _ (a :: p)) by discriminate.
      simpl fst. simpl snd.
      assert (Hk : S (List.last (a :: p) 0)
                   <= List.length (kids_at t (removelast (a :: p)))).
      { rewrite (split_last (a :: p)) in Hp by discriminate.
        apply child_index in Hp. lia. }
      destruct (view_splice (removelast (a :: p)) (S (List.last (a :: p) 0)) 0
                  [deleteButton] t F D c n Hk eq_refl eq_refl
                  (reloc_total _ _ _ _) V) as (F' & D' & EF & ED & V').
      exists F', D'. split; [exact EF|]. split; [exact ED|exact V'].
Qed.

(** Taking out elements that do not hold the checkbox. *)
Lemma view_removeAll S t F D c n :
  StronglySorted precedes S ->
  (forall N, In N S -> In N (subpaths t) /\ N <> []) ->
  (forall N, In N S -> is_prefix N D = false) ->
  view t F D c n ->
  exists g F' D',
    edit t (fst (removeAll S t)) (snd (removeAll S t)) g /\
    (forall q', g q' <> None) /\
    (forall q, snd (removeAll S t) q = None <->
               exists N, In N S /\ is_prefix N q = true) /\
    snd (removeAll S t) F = Some F' /\
    snd (removeAll S t) D = Some D' /\
    view (fst (removeAll S t)) F' D' c n.
Proof.
  intros Hs Hel Hout V.
  destruct (removeAll_spec S t Hs Hel) as (g & E & Hg & Hgone).
  assert (HD : snd (removeAll S t) D <> None).
  { intros H. apply Hgone in H as (N & HN & Hp). rewrite (Hout N HN) in Hp.
    discriminate. }
  pose proof (view_below _ _ _ _ _ V) as Hb. apply above_prefix in Hb.
  pose proof (gone_above _ _ _ _ _ _ E Hb HD) as HF.
  destruct (snd (removeAll S t) F) as [F'|] eqn:EF; [|tauto].
  destruct (snd (removeAll S t) D) as [D'|] eqn:ED; [|tauto].
  exists g, F', D'. split; trivial. split; trivial. split; trivial.
  split; trivial. split; trivial.
  apply (view_edit t _ _ _ F D F' D' c n E); trivial.
  intros sel _ q' _ Hq. destruct (Hg q' Hq).
Qed.

Definition dangerButton : selector := both (tagIs "button") (cls "danger").

(** Lines 796-797: "Undo" and the button that deletes for good are
    taken out. *)
Lemma remove_branch label t F D c n :
  label = [] \/ (exists L, label = [L]) ->
  view t F D c n ->
  (forall N, In N (children t (tagIs "span") label) -> is_prefix N D = false) ->
  (forall N, In N (siblings t dangerButton (parent t any label)) ->
             is_prefix N D = false) ->
  let R1 := removeAll (children t (tagIs "span") label) t in
  let R2 := removeAll (siblings (fst R1) dangerButton
                         (parent (fst R1) any (moved (snd R1) label))) (fst R1) in
  exists F' D',
    then_ (snd R1) (snd R2) F = Some F' /\
    then_ (snd R1) (snd R2) D = Some D' /\
    view (fst R2) F' D' c n.
Proof.
  intros Hlab V H1 H2. cbv zeta.
  set (S1 := children t (tagIs "span") label) in *.
  destruct (view_removeAll S1 t F D c n) as (g1 & F1 & D1 & E1 & Hg1 & Hgone1 & EF1 & ED1 & V1);
    trivial.
  { apply select_sorted. }
  { intros N HN. split; [apply select_In in HN; tauto|].
    apply children_child in HN as (p & _ & Hc). apply child_of_spec in Hc. tauto. }
  set (tb := fst (removeAll S1 t)) in *. set (rb := snd (removeAll S1 t)) in *.
  assert (Hrej1 : forall sel q', In q' (subpaths tb) -> g1 q' = None ->
                                 matches tb sel q' = false).
  { intros sel q' _ Hq. destruct (Hg1 q' Hq). }
  assert (Hkl : forall L, In L label -> rb L <> None).
  { intros L HL Hn. apply Hgone1 in Hn as (N & HN & Hp).
    apply children_child in HN as (L0 & HL0 & Hc).
    assert (L0 = L).
    { destruct Hlab as [->|[x ->]]; [destruct HL|].
      destruct HL as [<-|[]]. destruct HL0 as [<-|[]]. trivial. }
    subst L0. apply child_above, above_not_back in Hc. congruence. }
  assert (Hkp : forall P, In P (parent t any label) -> rb P <> None).
  { intros P HP. apply parent_child in HP as (L & HL & Hc).
    apply (gone_above _ _ _ _ P L E1); [|apply Hkl; trivial].
    apply above_prefix, child_above; trivial. }
  rewrite (parent_edit_kept t tb rb g1 E1 any (Hrej1 any) label Hkl).
  set (S2' := siblings tb dangerButton (moved rb (parent t any label))).
  assert (Hs2 : StronglySorted precedes S2') by apply select_sorted.
  assert (Hel2 : forall N, In N S2' -> In N (subpaths tb) /\ N <> []).
  { intros N HN. apply select_In in HN as [Hin HN]. split; trivial.
    apply andb_true_iff in HN as [HN _]. apply existsb_exists in HN as (x & _ & Hx).
    apply andb_true_iff in Hx as [Hx _].
    apply same_parent_removelast in Hx. tauto. }
  assert (Hout2 : forall N, In N S2' -> is_prefix N D1 = false).
  { intros N HN. unfold S2' in HN.
    rewrite (siblings_edit_kept t tb rb g1 E1 dangerButton (Hrej1 dangerButton)
               (parent t any label) Hkp) in HN.
    apply In_moved in HN as (N0 & HN0 & EN0).
    rewrite (ed_prefix _ _ _ _ E1 _ _ _ _ EN0 ED1). apply H2; trivial. }
  destruct (view_removeAll S2' tb F1 D1 c n Hs2 Hel2 Hout2 V1)
    as (g2 & F2 & D2 & E2 & Hg2 & Hgone2 & EF2 & ED2 & V2).
  exists F2, D2. unfold then_. rewrite EF1, ED1. split; trivial. split; trivial.
Qed.

(** Lines 785-798: the label and the buttons, [hidden] telling whether
    the form part has just been hidden. *)
Definition rearrange (hidden : bool) (jButton label : list path) (t2 : node) : tracked :=
  if hidden then
    let ta := relabel jButton label undoMark "danger" "save" t2 in
    let tb := appendEach [undoSpan] label ta in
    afterEach [deleteButton] (parent tb any label) tb
  else
    let ta := relabel jButton label binMark "save" "danger" t2 in
    let R1 := removeAll (children ta (tagIs "span") label) ta in
    let R2 := removeAll (siblings (fst R1) dangerButton
                           (parent (fst R1) any (moved (snd R1) label))) (fst R1) in
    (fst R2, then_ (snd R1) (snd R2)).

Lemma toggleDeleteInline_parts button t0 :
  toggleDeleteInline button t0 =
  let jButton := wrap t0 button in
  let label := labelOf t0 button in
  let header := headersOf t0 button in
  let t1 := greyOut header (parent t0 (tagIs "fieldset") header) t0 in
  let form_part :=
    first (find t1 (cls "inline-deletable")
             (closest t1 (attrHas "data-form-type") jButton)) in
  let t2 := on (fun _ => form_part) (toggleClass "none") t1 in
  let R := rearrange (is_ t2 (cls "none") form_part) jButton label t2 in
  (toggleChecked (deleteFieldOf (fst R) (moved (snd R) form_part)) (fst R), snd R).
Proof.
  unfold toggleDeleteInline, rearrange, headersOf, labelOf, greyOut, relabel,
    deleteFieldOf, dangerButton.
  cbv zeta.
  match goal with |- context [is_ ?a ?b ?c] => destruct (is_ a b c) end.
  - match goal with |- context [afterEach ?a ?b ?c] => destruct (afterEach a b c) end.
    reflexivity.
  - match goal with
    | |- context [removeAll (children ?a ?b ?c) ?d] =>
        destruct (removeAll (children a b c) d) as [tb rb]
    end.
    simpl fst. simpl snd.
    match goal with
    | |- context [removeAll ?a ?b] => destruct (removeAll a b) as [tc rc]
    end.
    reflexivity.
Qed.

Lemma label_cases t b : labelOf t b = [] \/ exists L, labelOf t b = [L].
Proof.
  unfold labelOf. destruct (in_dec path_eq_dec b (subpaths t)) as [H|H].
  - rewrite (TextFacts.wrap_elem _ _ H).
    destruct (parent_of_one t (tagIs "label") b) as [E|[E _]]; rewrite E; eauto.
  - rewrite (TextFacts.wrap_none _ _ H), parent_of_none. auto.
Qed.

Lemma label_parent_cases t' label :
  label = [] \/ (exists L, label = [L]) ->
  parent t' any label = [] \/ exists p, parent t' any label = [p] /\ In p (subpaths t').
Proof.
  intros [->|[L ->]].
  - left. apply parent_of_none.
  - destruct (parent_of_one t' any L) as [E|(E & _ & Hin)]; rewrite E; eauto.
Qed.

Lemma rearrange_view hidden jButton label t2 F D c n :
  label = [] \/ (exists L, label = [L]) ->
  view t2 F D c n ->
  (hidden = false ->
   let ta := relabel jButton label binMark "save" "danger" t2 in
   (forall N, In N (children ta (tagIs "span") label) -> is_prefix N D = false) /\
   (forall N, In N (siblings ta dangerButton (parent ta any label)) ->
              is_prefix N D = false)) ->
  exists F' D',
    snd (rearrange hidden jButton label t2) F = Some F' /\
    snd (rearrange hidden jButton label t2) D = Some D' /\
    view (fst (rearrange hidden jButton label t2)) F' D' c n.
Proof.
  intros Hlab V Hrem. unfold rearrange. destruct hidden; cbv zeta.
  - apply after_branch.
    + apply label_parent_cases; trivial.
    + apply append_branch; trivial.
      apply relabel_view; trivial; discriminate.
  - destruct (Hrem eq_refl) as [H1 H2]. simpl fst. simpl snd.
    apply (remove_branch label _ F D c n Hlab); trivial.
    apply relabel_view; trivial; discriminate.
Qed.

(** The label is a [label]. *)
Lemma label_tag t b L : In L (labelOf t b) -> matches t (tagIs "label") L = true.
Proof.
  intros H. apply select_In in H as [_ H]. apply andb_true_iff in H. tauto.
Qed.

Lemma danger_agree label t :
  (forall L, In L label -> matches t (tagIs "label") L = true) ->
  agree dangerButton (on (fun _ => label) (addClass "danger") t) t.
Proof.
  intros H q. unfold matches. rewrite data_at_on by apply addClass_idem.
  destruct (data_at t q) as [d|] eqn:Ed; simpl; trivial.
  destruct (mem q label) eqn:Em; trivial.
  apply mem_true in Em. specialize (H q Em). unfold matches in H. rewrite Ed in H.
  unfold dangerButton, both, tagIs in *. apply String.eqb_eq in H.
  replace (tag (addClass "danger" d)) with (tag d)
    by (unfold addClass; destruct (hasClass _ _); trivial).
  rewrite H. trivial.
Qed.

(** The spans and danger buttons when they are taken out, from those
    of the document the handler started with. *)
Lemma removable_kept jButton header fieldset part b t :
  let label := labelOf t b in
  let ta := relabel jButton label binMark "save" "danger"
              (on (fun _ => part) (toggleClass "none") (greyOut header fieldset t)) in
  children ta (tagIs "span") label = children t (tagIs "span") label /\
  siblings ta dangerButton (parent ta any label)
  = siblings t dangerButton (parent t any label).
Proof.
  cbv zeta. unfold relabel, greyOut, andThen. split.
  - to_start. trivial.
  - rewrite parent_on by solve_stable.
    match goal with
    | |- siblings (on _ (addClass "danger") ?x) _ _ = _ =>
        rewrite (siblings_ext (on (fun _ => labelOf t b) (addClass "danger") x) x
                   dangerButton)
    end.
    + unfold dangerButton. to_start. trivial.
    + apply subpaths_on.
    + apply danger_agree. intros L HL.
      rewrite !matches_on by solve_stable. apply (label_tag t b); trivial.
Qed.

(** One call of [toggleDeleteInline] flips the DELETE checkbox of the
    form and hides or shows its deletable part, when the checkbox lies
    in no header above the label of the button and in none of the
    elements the handler may take out. *)
Lemma flips_once (button : path) (t : node) (F D : path) :
  formPartOf t button = [F] -> deleteFieldOf t [F] = [D] ->
  (forall H, In H (headersOf t button) -> is_prefix H D = false) ->
  (forall N, In N (removable t button) -> is_prefix N D = false) ->
  exists F' D',
    snd (toggleDeleteInline button t) F = Some F' /\
    snd (toggleDeleteInline button t) D = Some D' /\
    class_at "none" (fst (toggleDeleteInline button t)) F'
    = option_map negb (class_at "none" t F) /\
    checked_at (fst (toggleDeleteInline button t)) D'
    = option_map negb (checked_at t D).
Proof.
  intros HF HDf Hh Hr.
  assert (HFin : In F (subpaths t)).
  { assert (Hin : In F (formPartOf t button)) by (rewrite HF; simpl; auto).
    apply firstn_In, select_In in Hin. tauto. }
  assert (HDin : In D (subpaths t)).
  { assert (Hin : In D (deleteFieldOf t [F])) by (rewrite HDf; simpl; auto).
    apply firstn_In, select_In in Hin. tauto. }
  apply subpaths_spec in HFin as [dF HdF]. apply subpaths_spec in HDin as [dD HdD].
  assert (V0 : view t F D (checked dD) (hasClass "none" dF)).
  { constructor; trivial.
    - unfold checked_at. rewrite HdD. trivial.
    - unfold class_at. rewrite HdF. trivial. }
  rewrite toggleDeleteInline_parts. cbv zeta.
  set (header := headersOf t button).
  set (fieldset := parent t (tagIs "fieldset") header).
  pose proof (greyOut_view header fieldset t F D _ _ Hh V0) as V1.
  assert (Efp : first (find (greyOut header fieldset t) (cls "inline-deletable")
                         (closest (greyOut header fieldset t)
                            (attrHas "data-form-type") (wrap t button))) = [F]).
  { rewrite <- HF. unfold formPartOf, greyOut, andThen. to_start. trivial. }
  rewrite Efp.
  pose proof (hide_view _ F D _ _ V1) as V2.
  rewrite (is_none _ F _ (v_none _ _ _ _ _ V2)).
  destruct (rearrange_view (negb (hasClass "none" dF)) (wrap t button)
              (labelOf t button) _ F D _ _ (label_cases t button) V2)
    as (F' & D' & EF & ED & V3).
  { intros _. cbv zeta.
    destruct (removable_kept (wrap t button) header fieldset [F] button t)
      as [E1 E2].
    rewrite E1, E2. split; intros N HN; apply Hr; unfold removable;
      apply in_or_app; auto. }
  match goal with
  | H : snd ?R F = Some F' |- _ => set (R3 := R) in *
  end.
  cbn [fst snd]. exists F', D'. split; trivial. split; trivial.
  assert (Em : moved (snd R3) [F] = [F']) by (simpl; rewrite EF; trivial).
  rewrite Em, (v_field _ _ _ _ _ V3). unfold toggleChecked.
  split.
  - rewrite class_at_other_on by solve_stable.
    rewrite (v_none _ _ _ _ _ V3). unfold class_at. rewrite HdF. trivial.
  - rewrite checked_at_set_on. pose proof (v_checked _ _ _ _ _ V3) as Hc.
    rewrite Hc. unfold propChecked. unfold checked_at in Hc. rewrite Hc.
    unfold checked_at. rewrite HdD. simpl.
    unfold mem. destruct (in_dec path_eq_dec D' [D']) as [_|Hn];
      [|exfalso; apply Hn; simpl; auto].
    destruct (checked dD); trivial.
Qed.

End DeleteInlineFacts.

(** * Two calls of [toggleDeleteInline] *)

Module DeleteTwiceFacts.
Import DOM JQ Sel Handlers Page DOMFacts JQFacts ClassFacts OrderFacts SpliceFacts
  RelocFacts EditFacts RemoveFacts TrackFacts DeleteInlineFacts.

(** The markup that the handler counts on, around the button [b]: it
    finds the form part [F] and its DELETE checkbox [D]; the checkbox is
    in no header above the label, and neither the checkbox nor the
    button is in an element that the handler may take out. *)
Record scene (t : node) (b F D : path) : Prop := Scene {
  sc_part : formPartOf t b = [F];
  sc_field : deleteFieldOf t [F] = [D];
  sc_header : forall H, In H (headersOf t b) -> is_prefix H D = false;
  sc_spare : forall N, In N (removable t b) ->
                       is_prefix N D = false /\ is_prefix N b = false
}.

(** The selectors that the scene reads. *)
Definition sceneSelectors : list selector :=
  [ tagIs "label"; cls "fieldset-header"; attrHas "data-form-type";
    cls "inline-deletable"; cls "inline-delete-form-field";
    attrEnds "name" "DELETE"; tagIs "span"; dangerButton; any ].

Lemma scene_agree t t' b F D :
  subpaths t' = subpaths t ->
  (forall sel, In sel sceneSelectors -> agree sel t' t) ->
  scene t b F D -> scene t' b F D.
Proof.
  intros Hs A [H1 H2 H3 H4].
  assert (Ew : wrap t' b = wrap t b) by (apply wrap_ext; trivial).
  assert (El : labelOf t' b = labelOf t b).
  { unfold labelOf. rewrite Ew. apply parent_ext; trivial. apply A. simpl; auto. }
  constructor.
  - rewrite <- H1. unfold formPartOf. rewrite Ew.
    rewrite (closest_ext t' t (attrHas "data-form-type") Hs (A (attrHas "data-form-type") ltac:(simpl; auto 10))).
    rewrite (find_ext t' t (cls "inline-deletable") Hs (A (cls "inline-deletable") ltac:(simpl; auto 10))).
    trivial.
  - rewrite <- H2. unfold deleteFieldOf.
    rewrite (children_ext t' t (cls "inline-delete-form-field") Hs
               (A (cls "inline-delete-form-field") ltac:(simpl; auto 10))).
    rewrite (find_ext t' t (attrEnds "name" "DELETE") Hs (A (attrEnds "name" "DELETE") ltac:(simpl; auto 10))).
    trivial.
  - intros H HH. apply H3. unfold headersOf in *. rewrite El in HH.
    rewrite (parents_ext t' t (cls "fieldset-header") Hs
               (A (cls "fieldset-header") ltac:(simpl; auto 10))) in HH. trivial.
  - intros N HN. apply H4. unfold removable in *. rewrite El in HN.
    rewrite (children_ext t' t (tagIs "span") Hs (A (tagIs "span") ltac:(simpl; auto 10))) in HN.
    rewrite (parent_ext t' t any Hs (A any ltac:(simpl; auto 10))) in HN.
    rewrite (siblings_ext t' t dangerButton Hs (A dangerButton ltac:(simpl; auto 10))) in HN.
    trivial.
Qed.

(** The data updates of the handler: those that keep the selectors of
    the scene, and the change of the class [danger] on the label. *)
Lemma scene_on S f t b F D :
  (forall sel, In sel sceneSelectors -> stable sel f) ->
  scene t b F D -> scene (on S f t) b F D.
Proof.
  intros Hst. apply scene_agree; [apply subpaths_on|].
  intros sel Hsel. apply agree_update. apply Hst; trivial.
Qed.

Ltac scene_stable :=
  let sel := fresh "sel" in
  let H := fresh "H" in
  intros sel H; simpl in H;
  repeat (destruct H as [<-|H]; [unfold dangerButton; solve_stable|]);
  destruct H.

Lemma closest1_step t sel p :
  closest1 t sel p =
  if matches t sel p then Some p
  else match p with
       | [] => None
       | _ => closest1 t sel (removelast p)
       end.
Proof.
  unfold closest1. destruct p as [|a p] using rev_ind; [reflexivity|].
  rewrite rev_app_distr. simpl rev. simpl app. cbn [closest_from].
  replace (rev (a :: rev p)) with (p ++ [a])%list
    by (simpl; rewrite rev_involutive; trivial).
  rewrite removelast_last.
  destruct (p ++ [a])%list eqn:E; [destruct p; discriminate|]. trivial.
Qed.

Lemma prefix_elem_of t p q :
  is_prefix p q = true -> In q (subpaths t) -> In p (subpaths t).
Proof.
  intros H Hq. apply is_prefix_spec in H as [r ->]. eapply prefix_elem; eauto.
Qed.

Section Old.
Variables (t t' : node) (f g : path -> option path).
Hypothesis E : edit t t' f g.

(** What is above an element that stays was there before. *)
Lemma old_above p p' x' :
  f p = Some p' -> is_prefix x' p' = true ->
  exists x, f x = Some x' /\ is_prefix x p = true.
Proof.
  intros Hp Hx. destruct (g x') as [x|] eqn:Ex.
  - apply (ed_inv _ _ _ _ E) in Ex. exists x. split; trivial.
    rewrite <- (ed_prefix _ _ _ _ E _ _ _ _ Ex Hp). trivial.
  - pose proof (ed_fresh _ _ _ _ E _ _ Ex Hx) as Hn.
    apply (ed_inv _ _ _ _ E) in Hp. congruence.
Qed.

(** What is put in holds nothing that stays. *)
Lemma fresh_apart p p' x' :
  f p = Some p' -> g x' = None -> is_prefix x' p' = false.
Proof.
  intros Hp Hx. destruct (is_prefix x' p') eqn:Ep; trivial.
  destruct (old_above p p' x' Hp Ep) as (x & Hfx & _).
  apply (ed_inv _ _ _ _ E) in Hfx. congruence.
Qed.

Lemma closest1_edit sel : forall n p p',
  List.length p <= n -> f p = Some p' ->
  closest1 t' sel p' = match closest1 t sel p with
                       | Some c => f c
                       | None => None
                       end.
Proof.
  induction n as [|n IH]; intros p p' Hn Hp;
    rewrite (closest1_step t' sel p'), (closest1_step t sel p),
      (ed_matches t t' f g E sel _ _ Hp);
    (destruct (matches t sel p); [symmetry; exact Hp|]).
  - destruct p; [|simpl in Hn; lia].
    assert (p' = []) by (apply (ed_nonempty t t' f g E _ _ Hp); trivial).
    subst. trivial.
  - destruct p as [|a p].
    + assert (p' = []) by (apply (ed_nonempty t t' f g E _ _ Hp); trivial).
      subst. trivial.
    + assert (Hne : p' <> []).
      { intros ->. assert (a :: p = []) by (apply (ed_nonempty t t' f g E _ _ Hp); trivial).
        discriminate. }
      destruct p' as [|a' p']; [tauto|].
      apply IH.
      * assert (Hl : List.length (removelast (a :: p)) = List.length p).
        { rewrite (removelast_firstn_len (a :: p)). rewrite length_firstn. simpl. lia. }
        simpl in Hn. lia.
      * apply (ed_parent _ _ _ _ E _ _ Hp). discriminate.
Qed.

Lemma closest_wrap_edit sel b b' :
  f b = Some b' ->
  closest t' sel (wrap t' b') = moved f (closest t sel (wrap t b)).
Proof.
  intros Hb. apply sorted_unique.
  - apply select_sorted.
  - apply (moved_sorted t t' f g E), select_sorted.
  - intros q'. rewrite closest_single, In_moved.
    rewrite (closest1_edit sel (List.length b) b b' (le_n _) Hb).
    rewrite <- (ed_elem t t' f g E _ _ Hb). split.
    + intros [Hin H]. destruct (closest1 t sel b) as [c|] eqn:Ec; [|discriminate].
      exists c. split; trivial. apply closest_single. auto.
    + intros (c & Hc & Hfc). apply closest_single in Hc as [Hin Hc].
      rewrite Hc. auto.
Qed.

Lemma first_moved (l : list path) x x' :
  first l = [x] -> f x = Some x' -> first (moved f l) = [x'].
Proof.
  intros H Hx. destruct l as [|y l]; [discriminate|].
  simpl in H. injection H as ->. simpl. rewrite Hx. trivial.
Qed.

Lemma path_eqb_edit p q p' q' :
  f p = Some p' -> f q = Some q' -> path_eqb p' q' = path_eqb p q.
Proof.
  intros Hp Hq. apply eq_true_iff_eq. rewrite !path_eqb_true. split.
  - intros ->. eapply (ed_inj t t' f g E); eauto.
  - intros ->. congruence.
Qed.

Lemma matches_any_elem q : In q (subpaths t) -> matches t any q = true.
Proof.
  intros H. apply subpaths_spec in H as [d Hd]. unfold matches. rewrite Hd. trivial.
Qed.

(** The label after the edit is the label before it. *)
Lemma label_back b b' L' :
  f b = Some b' -> In L' (labelOf t' b') ->
  exists L, f L = Some L' /\ In L (labelOf t b).
Proof.
  intros Hb HL. pose proof HL as HL0. apply select_In in HL0 as [HLin HLm].
  apply andb_true_iff in HLm as [_ HLm].
  apply parent_child in HL as (x & Hx & Hc). apply wrap_In in Hx as [-> Hbin].
  destruct (old_above b b' L' Hb (above_prefix _ _ (child_above _ _ Hc)))
    as (L & HfL & _).
  exists L. split; trivial. unfold labelOf. apply select_In. split.
  - apply (ed_elem t t' f g E _ _ HfL); trivial.
  - rewrite <- (ed_matches t t' f g E _ _ _ HfL), HLm, andb_true_r.
    apply existsb_exists. exists b. split.
    + apply wrap_In. split; trivial. apply (ed_elem t t' f g E _ _ Hb); trivial.
    + rewrite <- (ed_child_of t t' f g E _ _ _ _ HfL Hb). trivial.
Qed.

Lemma scene_edit b F D b' F' D' :
  (forall sel, In sel [cls "inline-deletable"; cls "inline-delete-form-field";
                       attrEnds "name" "DELETE"] ->
     forall q', In q' (subpaths t') -> g q' = None -> matches t' sel q' = false) ->
  f b = Some b' -> f F = Some F' -> f D = Some D' ->
  scene t b F D -> scene t' b' F' D'.
Proof.
  intros Hrej Hb HF HD [H1 H2 H3 H4]. constructor.
  - unfold formPartOf in *. rewrite (closest_wrap_edit _ b b' Hb).
    rewrite (find_edit t t' f g E _ (Hrej _ (or_introl eq_refl))).
    apply (first_moved _ F F'); trivial.
  - unfold deleteFieldOf in *.
    assert (EF : [F'] = moved f [F]) by (simpl; rewrite HF; trivial).
    rewrite EF.
    rewrite (children_edit t t' f g E _ (Hrej _ (or_intror (or_introl eq_refl)))).
    rewrite (find_edit t t' f g E _
               (Hrej _ (or_intror (or_intror (or_introl eq_refl))))).
    apply (first_moved _ D D'); trivial.
  - intros H' HH. unfold headersOf, parents in HH. apply in_rev in HH.
    apply select_In in HH as [HHin HHm]. apply andb_true_iff in HHm as [Hab Hm].
    apply existsb_exists in Hab as (L' & HL' & Hab).
    destruct (label_back b b' L' Hb HL') as (L & HfL & HL).
    destruct (old_above L L' H' HfL (above_prefix _ _ Hab)) as (H & HfH & _).
    rewrite (ed_prefix _ _ _ _ E _ _ _ _ HfH HD). apply H3.
    unfold headersOf, parents. apply in_rev. rewrite rev_involutive.
    apply select_In. split.
    + apply (ed_elem t t' f g E _ _ HfH); trivial.
    + rewrite <- (ed_matches t t' f g E _ _ _ HfH), Hm, andb_true_r.
      apply existsb_exists. exists L. split; trivial.
      rewrite <- (ed_above t t' f g E _ _ _ _ HfH HfL). trivial.
  - intros N' HN. destruct (g N') as [N|] eqn:EN.
    2:{ split; eapply fresh_apart; eauto. }
    apply (ed_inv _ _ _ _ E) in EN.
    rewrite (ed_prefix _ _ _ _ E _ _ _ _ EN HD), (ed_prefix _ _ _ _ E _ _ _ _ EN Hb).
    apply H4. unfold removable in *. apply in_or_app.
    apply in_app_or in HN as [HN|HN].
    + left. pose proof HN as HN0. apply select_In in HN0 as [HNin HNm].
      apply andb_true_iff in HNm as [_ HNm].
      apply children_child in HN as (L' & HL' & Hc).
      destruct (label_back b b' L' Hb HL') as (L & HfL & HL).
      apply select_In. split.
      * apply (ed_elem t t' f g E _ _ EN); trivial.
      * rewrite <- (ed_matches t t' f g E _ _ _ EN), HNm, andb_true_r.
        apply existsb_exists. exists L. split; trivial.
        rewrite <- (ed_child_of t t' f g E _ _ _ _ HfL EN). trivial.
    + right. apply select_In in HN as [HNin HNm].
      apply andb_true_iff in HNm as [Hex HNm].
      apply existsb_exists in Hex as (P' & HP' & Hs).
      apply parent_child in HP' as (L' & HL' & Hc).
      destruct (label_back b b' L' Hb HL') as (L & HfL & HL).
      destruct (old_above L L' P' HfL (above_prefix _ _ (child_above _ _ Hc)))
        as (P & HfP & _).
      apply select_In. split.
      * apply (ed_elem t t' f g E _ _ EN); trivial.
      * rewrite <- (ed_matches t t' f g E _ _ _ EN), HNm, andb_true_r.
        apply existsb_exists. exists P. split.
        -- apply select_In.
           assert (HPin : In P (subpaths t)).
           { apply (ed_elem t t' f g E _ _ HfP).
             apply (prefix_elem_of t' P' L').
             - apply above_prefix, child_above; trivial.
             - apply select_In in HL'. tauto. }
           split; trivial. rewrite (matches_any_elem _ HPin), andb_true_r.
           apply existsb_exists. exists L. split; trivial.
           rewrite <- (ed_child_of t t' f g E _ _ _ _ HfP HfL). trivial.
        -- rewrite <- (ed_same_parent t t' f g E _ _ _ _ HfP EN).
           rewrite <- (path_eqb_edit _ _ _ _ HfP EN). trivial.
Qed.

End Old.

Lemma scene_greyOut header fieldset t b F D :
  scene t b F D -> scene (greyOut header fieldset t) b F D.
Proof.
  intros Sc. unfold greyOut, andThen.
  repeat (apply scene_on; [scene_stable|]). exact Sc.
Qed.

Lemma scene_hide part t b F D :
  scene t b F D -> scene (on (fun _ => part) (toggleClass "none") t) b F D.
Proof. apply scene_on. scene_stable. Qed.

(** A class change on the label does not make or unmake a danger
    button. *)
Lemma label_on_agree f label t :
  (forall d, tag (f d) = tag d) -> (forall d, f (f d) = f d) ->
  (forall L, In L label -> matches t (tagIs "label") L = true) ->
  agree dangerButton (on (fun _ => label) f t) t.
Proof.
  intros Ht Hi H q. unfold matches. rewrite data_at_on by exact Hi.
  destruct (data_at t q) as [d|] eqn:Ed; simpl; trivial.
  destruct (mem q label) eqn:Em; trivial.
  apply mem_true in Em. specialize (H q Em). unfold matches in H. rewrite Ed in H.
  unfold dangerButton, both, tagIs in *. apply String.eqb_eq in H.
  rewrite Ht, H. trivial.
Qed.

Lemma tag_addClass c d : tag (addClass c d) = tag d.
Proof. unfold addClass. destruct (hasClass c d); trivial. Qed.

(** The selectors of the scene other than the danger button. *)
Definition finderSelectors : list selector :=
  [ tagIs "label"; cls "fieldset-header"; attrHas "data-form-type";
    cls "inline-deletable"; cls "inline-delete-form-field";
    attrEnds "name" "DELETE"; tagIs "span"; any ].

Lemma scene_relabel jButton label mark off on_ t b F D :
  (forall L, In L label -> matches t (tagIs "label") L = true) ->
  (forall sel, In sel finderSelectors -> stable sel (removeClass off)) ->
  (forall sel, In sel finderSelectors -> stable sel (addClass on_)) ->
  scene t b F D -> scene (relabel jButton label mark off on_ t) b F D.
Proof.
  intros Hl Hr Ha. unfold relabel, andThen.
  set (t1 := on (fun _ => jButton) (setVal mark) t).
  set (t2 := on (fun _ => label) (removeClass off) t1).
  intros Sc.
  assert (S1 : scene t1 b F D) by (apply scene_on; [scene_stable|trivial]).
  assert (Hl1 : forall L, In L label -> matches t1 (tagIs "label") L = true).
  { intros L HL. unfold t1. rewrite matches_on by solve_stable. auto. }
  assert (Hl2 : forall L, In L label -> matches t2 (tagIs "label") L = true).
  { intros L HL. unfold t2. rewrite matches_on by solve_stable. auto. }
  assert (S2 : scene t2 b F D).
  { apply (scene_agree t1); [apply subpaths_on| |trivial].
    intros sel Hsel. simpl in Hsel.
    repeat (destruct Hsel as [<-|Hsel];
            [first [ apply label_on_agree; [reflexivity|apply removeClass_idem|trivial]
                   | apply agree_update; apply Hr; solve [simpl; auto 10] ]|]).
    destruct Hsel. }
  apply (scene_agree t2); [apply subpaths_on| |trivial].
  intros sel Hsel. simpl in Hsel.
  repeat (destruct Hsel as [<-|Hsel];
          [first [ apply label_on_agree; [apply tag_addClass|apply addClass_idem|trivial]
                 | apply agree_update; apply Ha; solve [simpl; auto 10] ]|]).
  destruct Hsel.
Qed.

Ltac finder_stable :=
  let sel := fresh "sel" in
  let H := fresh "H" in
  intros sel H; simpl in H;
  repeat (destruct H as [<-|H]; [solve_stable|]);
  destruct H.

Lemma scene_view t b F D :
  scene t b F D -> exists c n, view t F D c n.
Proof.
  intros [H1 H2 _ _].
  assert (HF : In F (subpaths t)).
  { assert (Hin : In F (formPartOf t b)) by (rewrite H1; simpl; auto).
    apply firstn_In, select_In in Hin. tauto. }
  assert (HD : In D (subpaths t)).
  { assert (Hin : In D (deleteFieldOf t [F])) by (rewrite H2; simpl; auto).
    apply firstn_In, select_In in Hin. tauto. }
  apply subpaths_spec in HF as [dF HdF]. apply subpaths_spec in HD as [dD HdD].
  exists (checked dD), (hasClass "none" dF). constructor; trivial.
  - unfold checked_at. rewrite HdD. trivial.
  - unfold class_at. rewrite HdF. trivial.
Qed.

Lemma scene_button t b F D : scene t b F D -> In b (subpaths t).
Proof.
  intros [H1 _ _ _].
  assert (Hin : In F (formPartOf t b)) by (rewrite H1; simpl; auto).
  apply firstn_In, find_above in Hin as (c & Hc & _).
  apply closest_single in Hc. tauto.
Qed.

Lemma scene_splice P k del new t b F D b' F' D' :
  k <= List.length (kids_at t P) ->
  nowhere (cls "inline-deletable") new = true ->
  nowhere (cls "inline-delete-form-field") new = true ->
  nowhere (attrEnds "name" "DELETE") new = true ->
  reloc k del (List.length new) P b = Some b' ->
  reloc k del (List.length new) P F = Some F' ->
  reloc k del (List.length new) P D = Some D' ->
  scene t b F D -> scene (splice P k del new t) b' F' D'.
Proof.
  intros Hk N1 N2 N3 Hb HF HD Sc.
  apply (scene_edit t _ _ _ (splice_edit t P k del new Hk) b F D); trivial.
  intros sel Hsel q' Hq Hg.
  apply (fresh_no_match sel t P k del new q' Hk); trivial.
  destruct Hsel as [<-|[<-|[<-|[]]]]; trivial.
Qed.

(** The parts of [removable] grow with the jQuery object they start
    from. *)
Lemma parent_mono t sel (S S' : list path) q :
  (forall p, In p S -> In p S') -> In q (parent t sel S) -> In q (parent t sel S').
Proof.
  intros H Hq. apply select_In in Hq as [Hin Hq]. apply select_In. split; trivial.
  apply andb_true_iff in Hq as [Hex Hm]. rewrite Hm, andb_true_r.
  apply existsb_exists in Hex as (p & Hp & Hc). apply existsb_exists. eauto.
Qed.

Lemma siblings_mono t sel (S S' : list path) q :
  (forall p, In p S -> In p S') -> In q (siblings t sel S) -> In q (siblings t sel S').
Proof.
  intros H Hq. apply select_In in Hq as [Hin Hq]. apply select_In. split; trivial.
  apply andb_true_iff in Hq as [Hex Hm]. rewrite Hm, andb_true_r.
  apply existsb_exists in Hex as (p & Hp & Hc). apply existsb_exists. eauto.
Qed.

(** The label stays the label. *)
Lemma label_forth t t' f g b b' L L' :
  edit t t' f g -> f b = Some b' -> f L = Some L' ->
  In L (labelOf t b) -> In L' (labelOf t' b').
Proof.
  intros E Hb HL Hin. pose proof Hin as Hin0.
  apply select_In in Hin0 as [HLin HLm]. apply andb_true_iff in HLm as [_ HLm].
  apply parent_child in Hin as (x & Hx & Hc). apply wrap_In in Hx as [-> Hbin].
  apply select_In. split.
  - apply (ed_elem t t' f g E _ _ HL); trivial.
  - rewrite (ed_matches t t' f g E _ _ _ HL), HLm, andb_true_r.
    apply existsb_exists. exists b'. split.
    + apply wrap_In. split; trivial. apply (ed_elem t t' f g E _ _ Hb); trivial.
    + rewrite (ed_child_of t t' f g E _ _ _ _ HL Hb). trivial.
Qed.

Lemma labelOf_relabel jButton label mark off on_ t b :
  labelOf (relabel jButton label mark off on_ t) b = labelOf t b.
Proof. unfold labelOf, relabel, andThen. to_start. trivial. Qed.

Lemma scene_insert t b F D :
  scene t b F D ->
  let label := labelOf t b in
  let tb := appendEach [undoSpan] label t in
  let R := afterEach [deleteButton] (parent tb any label) tb in
  exists b', snd R b = Some b' /\
    forall F' D', snd R F = Some F' -> snd R D = Some D' -> scene (fst R) b' F' D'.
Proof.
  intros Sc. cbv zeta.
  assert (Sb : scene (appendEach [undoSpan] (labelOf t b) t) b F D).
  { destruct (label_cases t b) as [->|[L ->]]; trivial.
    unfold appendEach. simpl fold_left. unfold append_at.
    destruct (scene_view _ _ _ _ Sc) as (c & n & V).
    destruct (elem_of_view _ _ _ _ _ V) as [HF HD].
    pose proof (scene_button _ _ _ _ Sc) as Hb.
    apply subpaths_spec in HF as [dF HdF]. apply subpaths_spec in HD as [dD HdD].
    apply subpaths_spec in Hb as [db Hdb].
    apply (scene_splice L _ 0 [undoSpan] t b F D); trivial.
    - apply (reloc_append 1 L t b db Hdb).
    - apply (reloc_append 1 L t F dF HdF).
    - apply (reloc_append 1 L t D dD HdD). }
  set (tb := appendEach [undoSpan] (labelOf t b) t) in *.
  destruct (label_parent_cases tb (labelOf t b) (label_cases t b))
    as [->|(p & -> & Hp)].
  - exists b. split; [reflexivity|]. intros F' D' EF ED.
    simpl in EF, ED. injection EF as <-. injection ED as <-. exact Sb.
  - unfold afterEach, forEachBack. simpl. destruct p as [|a p].
    + exists b. split; [reflexivity|]. intros F' D' EF ED.
      simpl in EF, ED. injection EF as <-. injection ED as <-. exact Sb.
    + rewrite (DuplicateFacts.insertAfter_splice _ (a :: p)) by discriminate.
      cbn [fst snd].
      assert (Hk : S (List.last (a :: p) 0)
                   <= List.length (kids_at tb (removelast (a :: p)))).
      { rewrite (split_last (a :: p)) in Hp by discriminate.
        apply child_index in Hp. lia. }
      destruct (reloc (S (List.last (a :: p) 0)) 0 1 (removelast (a :: p)) b)
        as [b'|] eqn:Eb; [|destruct (reloc_total _ _ _ _ Eb)].
      exists b'. split; [exact Eb|]. intros F' D' EF ED.
      apply (scene_splice _ _ 0 [deleteButton] tb b F D); trivial.
Qed.

Lemma scene_below t b F D : scene t b F D -> above F D = true.
Proof.
  intros Sc. destruct (scene_view _ _ _ _ Sc) as (c & n & V).
  eapply view_below; eauto.
Qed.

(** Taking out elements that the scene allows to take out. *)
Lemma scene_removeAll S t b F D :
  StronglySorted precedes S ->
  (forall N, In N S -> In N (subpaths t) /\ N <> []) ->
  (forall N, In N S -> In N (removable t b)) ->
  scene t b F D ->
  exists g b' F' D',
    edit t (fst (removeAll S t)) (snd (removeAll S t)) g /\
    snd (removeAll S t) b = Some b' /\
    snd (removeAll S t) F = Some F' /\
    snd (removeAll S t) D = Some D' /\
    scene (fst (removeAll S t)) b' F' D'.
Proof.
  intros Hs Hel Hsub Sc.
  destruct (removeAll_spec S t Hs Hel) as (g & E & Hg & Hgone).
  assert (Hb : snd (removeAll S t) b <> None).
  { intros H. apply Hgone in H as (N & HN & Hp).
    destruct (sc_spare _ _ _ _ Sc N (Hsub N HN)) as [_ H2]. congruence. }
  assert (HD : snd (removeAll S t) D <> None).
  { intros H. apply Hgone in H as (N & HN & Hp).
    destruct (sc_spare _ _ _ _ Sc N (Hsub N HN)) as [H1 _]. congruence. }
  pose proof (gone_above _ _ _ _ _ _ E (above_prefix _ _ (scene_below _ _ _ _ Sc)) HD)
    as HF.
  destruct (snd (removeAll S t) b) as [b'|] eqn:Eb; [|tauto].
  destruct (snd (removeAll S t) F) as [F'|] eqn:EF; [|tauto].
  destruct (snd (removeAll S t) D) as [D'|] eqn:ED; [|tauto].
  exists g, b', F', D'. split; trivial. split; trivial. split; trivial.
  split; trivial.
  apply (scene_edit t _ _ _ E b F D); trivial.
  intros sel _ q' _ Hq. destruct (Hg q' Hq).
Qed.

Lemma scene_remove t b F D :
  scene t b F D ->
  let label := labelOf t b in
  let R1 := removeAll (children t (tagIs "span") label) t in
  let R2 := removeAll (siblings (fst R1) dangerButton
                         (parent (fst R1) any (moved (snd R1) label))) (fst R1) in
  exists b', then_ (snd R1) (snd R2) b = Some b' /\
    forall F' D', then_ (snd R1) (snd R2) F = Some F' ->
                  then_ (snd R1) (snd R2) D = Some D' -> scene (fst R2) b' F' D'.
Proof.
  intros Sc. cbv zeta.
  set (S1 := children t (tagIs "span") (labelOf t b)).
  destruct (scene_removeAll S1 t b F D) as (g1 & b1 & F1 & D1 & E1 & Eb1 & EF1 & ED1 & Sc1);
    trivial.
  { apply select_sorted. }
  { intros N HN. split; [apply select_In in HN; tauto|].
    apply children_child in HN as (p & _ & Hc). apply child_of_spec in Hc. tauto. }
  { intros N HN. unfold removable. apply in_or_app. auto. }
  set (tb := fst (removeAll S1 t)) in *. set (rb := snd (removeAll S1 t)) in *.
  set (S2 := siblings tb dangerButton (parent tb any (moved rb (labelOf t b)))).
  destruct (scene_removeAll S2 tb b1 F1 D1) as (g2 & b2 & F2 & D2 & E2 & Eb2 & EF2 & ED2 & Sc2);
    trivial.
  { apply select_sorted. }
  { intros N HN. apply select_In in HN as [Hin HN]. split; trivial.
    apply andb_true_iff in HN as [HN _]. apply existsb_exists in HN as (x & _ & Hx).
    apply andb_true_iff in Hx as [Hx _].
    apply same_parent_removelast in Hx. tauto. }
  { intros N HN. unfold removable. apply in_or_app. right.
    revert HN. apply siblings_mono. intros P. apply parent_mono.
    intros L' HL'. apply In_moved in HL' as (L & HL & EL).
    apply (label_forth t tb rb g1 b b1 L L' E1 Eb1 EL HL). }
  exists b2. unfold then_. rewrite Eb1, EF1, ED1. split; trivial.
  intros F' D' EF ED. rewrite EF2 in EF. rewrite ED2 in ED.
  injection EF as <-. injection ED as <-. exact Sc2.
Qed.

Lemma scene_rearrange hidden t b F D :
  scene t b F D ->
  exists b',
    snd (rearrange hidden (wrap t b) (labelOf t b) t) b = Some b' /\
    forall F' D',
      snd (rearrange hidden (wrap t b) (labelOf t b) t) F = Some F' ->
      snd (rearrange hidden (wrap t b) (labelOf t b) t) D = Some D' ->
      scene (fst (rearrange hidden (wrap t b) (labelOf t b) t)) b' F' D'.
Proof.
  intros Sc. unfold rearrange. destruct hidden; cbv zeta.
  - set (ta := relabel (wrap t b) (labelOf t b) undoMark "danger" "save" t).
    assert (Sa : scene ta b F D).
    { apply scene_relabel; trivial; [apply label_tag|finder_stable|finder_stable]. }
    rewrite <- (labelOf_relabel (wrap t b) (labelOf t b) undoMark "danger" "save" t b).
    fold ta. apply (scene_insert ta b F D Sa).
  - set (ta := relabel (wrap t b) (labelOf t b) binMark "save" "danger" t).
    assert (Sa : scene ta b F D).
    { apply scene_relabel; trivial; [apply label_tag|finder_stable|finder_stable]. }
    cbn [fst snd].
    rewrite <- (labelOf_relabel (wrap t b) (labelOf t b) binMark "save" "danger" t b).
    fold ta. apply (scene_remove ta b F D Sa).
Qed.

Lemma toggleDeleteInline_scene b t F D :
  scene t b F D ->
  exists b',
    snd (toggleDeleteInline b t) b = Some b' /\
    forall F' D',
      snd (toggleDeleteInline b t) F = Some F' ->
      snd (toggleDeleteInline b t) D = Some D' ->
      scene (fst (toggleDeleteInline b t)) b' F' D'.
Proof.
  intros Sc. rewrite toggleDeleteInline_parts. cbv zeta.
  set (header := headersOf t b).
  set (fieldset := parent t (tagIs "fieldset") header).
  assert (Efp : first (find (greyOut header fieldset t) (cls "inline-deletable")
                         (closest (greyOut header fieldset t)
                            (attrHas "data-form-type") (wrap t b))) = [F]).
  { rewrite <- (sc_part _ _ _ _ Sc). unfold formPartOf, greyOut, andThen.
    to_start. trivial. }
  rewrite Efp.
  set (t2 := on (fun _ => [F]) (toggleClass "none") (greyOut header fieldset t)).
  assert (Sc2 : scene t2 b F D) by (apply scene_hide, scene_greyOut; trivial).
  assert (Ew : wrap t b = wrap t2 b).
  { unfold t2, greyOut, andThen. rewrite !wrap_on. trivial. }
  assert (El : labelOf t b = labelOf t2 b).
  { unfold labelOf, t2, greyOut, andThen. to_start. trivial. }
  rewrite Ew, El.
  generalize (is_ t2 (cls "none") [F]). intros hidden.
  destruct (scene_rearrange hidden t2 b F D Sc2) as (b' & Eb & H).
  exists b'. cbn [fst snd]. split; trivial.
  intros F' D' EF ED. unfold toggleChecked. apply scene_on; [scene_stable|].
  apply H; trivial.
Qed.

(** A call of [toggleDeleteInline] flips the checkbox and the class
    [none] of the part, and leaves the markup as the next call needs
    it. *)
Lemma step (b : path) (t : node) (F D : path) :
  scene t b F D ->
  exists b' F' D',
    snd (toggleDeleteInline b t) b = Some b' /\
    snd (toggleDeleteInline b t) F = Some F' /\
    snd (toggleDeleteInline b t) D = Some D' /\
    scene (fst (toggleDeleteInline b t)) b' F' D' /\
    class_at "none" (fst (toggleDeleteInline b t)) F'
    = option_map negb (class_at "none" t F) /\
    checked_at (fst (toggleDeleteInline b t)) D'
    = option_map negb (checked_at t D).
Proof.
  intros Sc.
  destruct (flips_once b t F D (sc_part _ _ _ _ Sc) (sc_field _ _ _ _ Sc)
              (sc_header _ _ _ _ Sc))
    as (F' & D' & EF & ED & Hn & Hc).
  { intros N HN. apply (sc_spare _ _ _ _ Sc N HN). }
  destruct (toggleDeleteInline_scene b t F D Sc) as (b' & Eb & H).
  exists b', F', D'. split; trivial. split; trivial. split; trivial.
  split; [apply H; trivial|]. split; trivial.
Qed.

Lemma negb_twice (x : option bool) : option_map negb (option_map negb x) = x.
Proof. destruct x as [[|]|]; trivial. Qed.

(** X16. Marking an inline form for deletion and undoing it.  Take a
    button for which [toggleDeleteInline] finds the deletable part of
    the form and, in it, the DELETE checkbox, the checkbox lying in no
    header above the label of the button, and neither the checkbox nor
    the button in an element that the handler may take out (a span in
    the label, a danger button beside the parent of the label).  Then a
    call flips the checkbox and the class [none] of the part, and a
    second call on the same button brings both back to what they were;
    button, part and checkbox stay in the document throughout, and the
    markup is again as a further call needs it. *)
Theorem toggleDeleteInline_twice (b : path) (t : node) (F D : path) :
  scene t b F D ->
  exists b1 F1 D1 b2 F2 D2,
    let R1 := toggleDeleteInline b t in
    let R2 := toggleDeleteInline b1 (fst R1) in
    (snd R1 b = Some b1 /\ snd R1 F = Some F1 /\ snd R1 D = Some D1) /\
    (class_at "none" (fst R1) F1 = option_map negb (class_at "none" t F) /\
     checked_at (fst R1) D1 = option_map negb (checked_at t D)) /\
    (snd R2 b1 = Some b2 /\ snd R2 F1 = Some F2 /\ snd R2 D1 = Some D2) /\
    (class_at "none" (fst R2) F2 = class_at "none" t F /\
     checked_at (fst R2) D2 = checked_at t D) /\
    scene (fst R2) b2 F2 D2.
Proof.
  intros Sc.
  destruct (step b t F D Sc) as (b1 & F1 & D1 & Eb1 & EF1 & ED1 & Sc1 & Hn1 & Hc1).
  destruct (step b1 _ F1 D1 Sc1) as (b2 & F2 & D2 & Eb2 & EF2 & ED2 & Sc2 & Hn2 & Hc2).
  exists b1, F1, D1, b2, F2, D2. cbv zeta.
  split; [auto|]. split; [auto|]. split; [auto|]. split; [|exact Sc2].
  rewrite Hn2, Hn1, Hc2, Hc1, !negb_twice. auto.
Qed.

Lemma toggleDeleteInline_twice_witness :
  let R1 := toggleDeleteInline PageDemo.inlineButton PageDemo.inlinePage in
  let R2 := toggleDeleteInline PageDemo.inlineButton (fst R1) in
  (class_at "none" (fst R1) [1] = Some true /\
   checked_at (fst R1) [1; 1; 0] = Some true) /\
  (class_at "none" (fst R2) [1] = Some false /\
   checked_at (fst R2) [1; 1; 0] = Some false).
Proof.
  assert (Sc : scene PageDemo.inlinePage PageDemo.inlineButton [1] [1; 1; 0]).
  { constructor; try reflexivity.
    - intros H HH. vm_compute in HH. destruct HH as [<-|[]]. reflexivity.
    - intros N HN. vm_compute in HN. destruct HN. }
  destruct (toggleDeleteInline_twice _ _ _ _ Sc)
    as (b1 & F1 & D1 & b2 & F2 & D2 & (Eb1 & EF1 & ED1) & (Hn1 & Hc1)
        & (Eb2 & EF2 & ED2) & (Hn2 & Hc2) & _).
  vm_compute in Eb1. injection Eb1 as <-.
  vm_compute in EF1. injection EF1 as <-.
  vm_compute in ED1. injection ED1 as <-.
  vm_compute in EF2. injection EF2 as <-.
  vm_compute in ED2. injection ED2 as <-.
  cbv zeta. split; split; assumption.
Defined.

(** C6, as the handler has it.  Under the conditions of the double
    toggle (the handler finds the deletable part of the form and, in it,
    the DELETE checkbox; the checkbox lies in no header above the label
    of the button; neither the checkbox nor the button lies in an
    element that the handler may take out), two calls from the same
    button bring the DELETE checkbox back to its checked state and the
    deletable part back to its visibility, that is to its class
    [none]. *)
Theorem toggleDeleteInline_restores (b : path) (t : node) (F D : path) :
  scene t b F D ->
  exists b1 F2 D2,
    let R1 := toggleDeleteInline b t in
    let R2 := toggleDeleteInline b1 (fst R1) in
    snd R1 b = Some b1 /\
    then_ (snd R1) (snd R2) F = Some F2 /\
    then_ (snd R1) (snd R2) D = Some D2 /\
    class_at "none" (fst R2) F2 = class_at "none" t F /\
    checked_at (fst R2) D2 = checked_at t D.
Proof.
  intros Sc.
  destruct (step b t F D Sc) as (b1 & F1 & D1 & Eb1 & EF1 & ED1 & Sc1 & Hn1 & Hc1).
  destruct (step b1 _ F1 D1 Sc1) as (b2 & F2 & D2 & Eb2 & EF2 & ED2 & Sc2 & Hn2 & Hc2).
  exists b1, F2, D2. cbv zeta. unfold then_. rewrite EF1, ED1.
  split; [trivial|]. split; [trivial|]. split; [trivial|].
  rewrite Hn2, Hn1, Hc2, Hc1, !negb_twice. auto.
Qed.

Lemma toggleDeleteInline_restores_witness :
  let R1 := toggleDeleteInline PageDemo.inlineButton PageDemo.inlinePage in
  let R2 := toggleDeleteInline PageDemo.inlineButton (fst R1) in
  class_at "none" PageDemo.inlinePage [1] = Some false /\
  checked_at PageDemo.inlinePage [1; 1; 0] = Some false /\
  class_at "none" (fst R2) [1] = Some false /\
  checked_at (fst R2) [1; 1; 0] = Some false.
Proof.
  assert (Sc : scene PageDemo.inlinePage PageDemo.inlineButton [1] [1; 1; 0]).
  { constructor; try reflexivity.
    - intros H HH. vm_compute in HH. destruct HH as [<-|[]]. reflexivity.
    - intros N HN. vm_compute in HN. destruct HN. }
  destruct (toggleDeleteInline_restores _ _ _ _ Sc)
    as (b1 & F2 & D2 & Eb1 & EF2 & ED2 & Hn & Hc).
  cbv zeta in *.
  vm_compute in Eb1. injection Eb1 as <-.
  vm_compute in EF2. injection EF2 as <-.
  vm_compute in ED2. injection ED2 as <-.
  split; [reflexivity|]. split; [reflexivity|].
  split; [exact (eq_trans Hn eq_refl)|exact (eq_trans Hc eq_refl)].
Defined.

(** The claim as stated fails.  On a row whose DELETE checkbox lies in
    the header, the second call unchecks the box with the other
    checkboxes of the header before it flips it, so the box ends checked
    where it started unchecked.  And on an ordinary row the two calls
    are not the identity either: the first call unchecks the preferred
    flag of the header and takes the class [border-left] from the
    fieldset, and the second call brings neither back. *)
Lemma two_toggles_not_identity :
  (let t := PageDemo.headerDeletePage in
   let R1 := toggleDeleteInline PageDemo.headerButton t in
   let R2 := toggleDeleteInline PageDemo.headerButton (fst R1) in
   snd R1 PageDemo.headerButton = Some PageDemo.headerButton /\
   then_ (snd R1) (snd R2) [0; 1; 0] = Some [0; 1; 0] /\
   attr_at "name" t [0; 1; 0] = Some "names-0-DELETE" /\
   checked_at t [0; 1; 0] = Some false /\
   attr_at "name" (fst R2) [0; 1; 0] = Some "names-0-DELETE" /\
   checked_at (fst R2) [0; 1; 0] = Some true) /\
  (let t := PageDemo.inlinePage in
   let R1 := toggleDeleteInline PageDemo.inlineButton t in
   let R2 := toggleDeleteInline PageDemo.inlineButton (fst R1) in
   snd R1 PageDemo.inlineButton = Some PageDemo.inlineButton /\
   attr_at "name" t [0; 0; 0] = Some "names-0-preferred" /\
   checked_at t [0; 0; 0] = Some true /\
   class_at "border-left" t [] = Some true /\
   attr_at "name" (fst R2) [0; 0; 0] = Some "names-0-preferred" /\
   checked_at (fst R2) [0; 0; 0] = Some false /\
   class_at "border-left" (fst R2) [] = Some false).
Proof. vm_compute. repeat split. Qed.

End DeleteTwiceFacts.


(** * The rows of the users table *)

Module RowFacts.
Import DOM JQ Sel Handlers Page DOMFacts JQFacts ClassFacts OrderFacts SpliceFacts
  RelocFacts EditFacts RemoveFacts TextFacts TrackFacts.
Import FormsetFacts(getAttr_setAttr_other, setAttr_idem).
Import FlagFacts(setChecked_idem).
Import FormsetEdges(select_none, parent_nil, find_nil).
Import DeleteInlineFacts(parent_of_one, at_most).
Import DeleteTwiceFacts(closest_wrap_edit, path_eqb_edit, first_moved).
Import DuplicateFacts(length_moved, is_prefix_refl, removelast_elem).

(** ** Trees that differ in the data of their elements only *)

Definition blank : edata := mkData EmptyString [] [] false None false.

(** A tree without the data of its elements. *)
Fixpoint frame (t : node) : node :=
  match t with
  | Text s => Text s
  | Elem _ ks => Elem blank (map frame ks)
  end.

Lemma frame_alter_data f p : forall t, frame (alter_at (on_data f) p t) = frame t.
Proof.
  induction p as [|i p IH]; intros [s|d ks]; simpl; trivial.
  f_equal. apply map_alter_nth. intros x _. apply IH.
Qed.

Lemma frame_update f S : forall t, frame (update_all f S t) = frame t.
Proof.
  unfold update_all. induction S as [|p S IH]; intros t; simpl; trivial.
  rewrite IH. apply frame_alter_data.
Qed.

Lemma data_at_nil d ks : data_at (Elem d ks) [] = Some d.
Proof. reflexivity. Qed.

(** Two trees with the same frame and the same data are the same. *)
Lemma node_ext : forall t t',
  frame t = frame t' -> (forall q, data_at t q = data_at t' q) -> t = t'.
Proof.
  induction t as [s|d ks IH] using node_induction; intros [s'|d' ks'] Hf Hd;
    simpl in Hf; try discriminate; [congruence|].
  injection Hf as Hm.
  assert (Ed : d = d') by (specialize (Hd []); rewrite !data_at_nil in Hd; congruence).
  subst d'. f_equal.
  assert (Hk : forall i q, data_at (Elem d ks) (i :: q) = data_at (Elem d ks') (i :: q))
    by (intros; apply Hd).
  clear Hd. revert ks' Hm Hk.
  induction IH as [|k ks Hk0 _ IHks]; intros [|k' ks'] Hm Hk; simpl in Hm;
    try discriminate; trivial.
  injection Hm as Hm1 Hm2. f_equal.
  - apply Hk0; trivial. intros q. exact (Hk 0 q).
  - apply IHks; trivial. intros i q. exact (Hk (S i) q).
Qed.

(** ** A data update and an insertion, in either order *)

Lemma alter_nth_twice {A} (f g : A -> A) i : forall l,
  (forall x, nth_error l i = Some x -> g (f x) = x) ->
  alter_nth g i (alter_nth f i l) = l.
Proof.
  revert i. intros i l; revert i. induction l as [|x l IH]; intros [|i] H; simpl; trivial.
  - rewrite (H x eq_refl). trivial.
  - rewrite IH; trivial.
Qed.

Lemma alter_nth_swap {A} (f g : A -> A) i j : forall l,
  (i <> j \/ forall x, nth_error l i = Some x -> g (f x) = f (g x)) ->
  alter_nth g j (alter_nth f i l) = alter_nth f i (alter_nth g j l).
Proof.
  intros l; revert i j. induction l as [|x l IH]; intros [|i] [|j] H; simpl; trivial.
  - destruct H as [H|H]; [congruence|]. rewrite (H x eq_refl). trivial.
  - rewrite IH; trivial. destruct H as [H|H]; [left; congruence|right; exact H].
Qed.

(** Taking out what was put in. *)
Lemma splice_undo P k new : forall t,
  k <= List.length (kids_at t P) ->
  splice P k (List.length new) [] (splice P k 0 new t) = t.
Proof.
  unfold splice. induction P as [|i P IH]; intros [s|d ks] Hk;
    cbn [alter_at on_kids]; trivial.
  - unfold kids_at in Hk. simpl in Hk. f_equal. apply nth_error_ext. intros m.
    rewrite Nat.add_0_r.
    set (L := (firstn k ks ++ new ++ skipn k ks)%list).
    assert (HL : k <= List.length L).
    { unfold L. rewrite length_app, length_firstn. lia. }
    destruct (Nat.lt_ge_cases m k) as [Hm|Hm].
    + rewrite (nth_error_splice_before L [] k (List.length new) m Hm HL).
      unfold L. replace (skipn k ks) with (skipn (k + 0) ks) by (f_equal; lia).
      apply nth_error_splice_before; trivial.
    + replace m with (k + (m - k)) by lia.
      rewrite (nth_error_splice_new L [] k (List.length new) (m - k) HL).
      simpl. unfold L. replace (skipn k ks) with (skipn (k + 0) ks) by (f_equal; lia).
      replace (k + List.length new + (m - k - 0))
        with (k + (List.length new + (m - k))) by lia.
      rewrite (nth_error_splice_new ks new k 0 _ Hk).
      destruct (Nat.ltb_spec (List.length new + (m - k)) (List.length new)); [lia|].
      f_equal. lia.
  - f_equal. apply alter_nth_twice. intros x Hx. apply IH.
    unfold kids_at in *. simpl in Hk. rewrite Hx in Hk. trivial.
Qed.

Lemma alter_nth_pair {A} (f g f' g' : A -> A) i : forall l,
  (forall x, nth_error l i = Some x -> g (f x) = f' (g' x)) ->
  alter_nth g i (alter_nth f i l) = alter_nth f' i (alter_nth g' i l).
Proof.
  intros l; revert i. induction l as [|x l IH]; intros [|i] H; simpl; trivial.
  - rewrite (H x eq_refl). trivial.
  - rewrite IH; trivial.
Qed.

(** A data update after an insertion is the insertion after the
    update. *)
Lemma alter_data_splice f k new P : forall t p p',
  k <= List.length (kids_at t P) ->
  reloc k 0 (List.length new) P p = Some p' ->
  alter_at (on_data f) p' (splice P k 0 new t)
  = splice P k 0 new (alter_at (on_data f) p t).
Proof.
  unfold splice. induction P as [|i P IH]; intros t p p' Hk Hr.
  - destruct p as [|j rest].
    + injection Hr as <-. destruct t; reflexivity.
    + destruct t as [s|d ks].
      { simpl in Hr. destruct (Nat.ltb j k); [|destruct (Nat.ltb j (k + 0))];
          try discriminate; injection Hr as <-; reflexivity. }
      unfold kids_at in Hk. simpl in Hk.
      assert (Hk' : forall g, k <= List.length (alter_nth g j ks))
        by (intros g; rewrite length_alter_nth; trivial).
      simpl in Hr. destruct (Nat.ltb_spec j k) as [Hj|Hj].
      * injection Hr as <-. cbn [alter_at on_kids]. f_equal.
        apply nth_error_ext. intros m. rewrite nth_error_alter_nth.
        destruct (Nat.lt_ge_cases m k) as [Hm|Hm].
        -- rewrite !nth_error_splice_before by trivial.
           rewrite nth_error_alter_nth. trivial.
        -- apply Nat.le_exists_sub in Hm as (i & -> & _). rewrite (Nat.add_comm i k).
           rewrite !nth_error_splice_new by trivial.
           rewrite nth_error_alter_nth.
           destruct (Nat.eq_dec j (k + i)); [lia|].
           destruct (Nat.eq_dec j _); [lia|]. trivial.
      * destruct (Nat.ltb_spec j (k + 0)) as [Hj'|_]; [lia|]. injection Hr as <-.
        cbn [alter_at on_kids]. f_equal.
        apply nth_error_ext. intros m. rewrite nth_error_alter_nth.
        destruct (Nat.lt_ge_cases m k) as [Hm|Hm].
        -- rewrite !nth_error_splice_before by trivial.
           rewrite nth_error_alter_nth.
           destruct (Nat.eq_dec _ m); [lia|]. destruct (Nat.eq_dec j m); [lia|]. trivial.
        -- apply Nat.le_exists_sub in Hm as (i & -> & _). rewrite (Nat.add_comm i k).
           rewrite !nth_error_splice_new by trivial.
           rewrite nth_error_alter_nth.
           destruct (Nat.ltb_spec i (List.length new)).
           ++ destruct (Nat.eq_dec _ (k + i)); [lia|]. trivial.
           ++ destruct (Nat.eq_dec _ (k + i)); destruct (Nat.eq_dec j _); trivial; lia.
  - destruct p as [|j q].
    + injection Hr as <-. destruct t; reflexivity.
    + rewrite reloc_cons in Hr. destruct t as [s|d ks].
      { destruct (Nat.eqb i j); [destruct (reloc k 0 (List.length new) P q)|];
          try discriminate; injection Hr as <-; reflexivity. }
      destruct (Nat.eqb_spec i j) as [->|ne].
      * destruct (reloc k 0 (List.length new) P q) as [q'|] eqn:Eq; [|discriminate].
        injection Hr as <-. cbn [alter_at]. f_equal.
        apply alter_nth_pair. intros x Hx. apply IH; trivial.
        unfold kids_at in *. simpl in Hk. rewrite Hx in Hk. trivial.
      * injection Hr as <-. cbn [alter_at]. f_equal.
        apply alter_nth_swap. auto.
Qed.

Lemma update_splice f k new P S : forall t,
  k <= List.length (kids_at t P) ->
  update_all f (moved (reloc k 0 (List.length new) P) S) (splice P k 0 new t)
  = splice P k 0 new (update_all f S t).
Proof.
  unfold update_all. induction S as [|a S IH]; intros t Hk; simpl; trivial.
  destruct (reloc k 0 (List.length new) P a) as [a'|] eqn:E;
    [|destruct (reloc_total _ _ _ _ E)].
  simpl. rewrite (alter_data_splice f k new P t a a' Hk E). apply IH.
  rewrite length_kids_alter_data; trivial.
Qed.

(** ** The row of a delete link *)

(** The cell of the link, the other cells of its row, the confirmations
    beside the link, and the DELETE checkbox of the row. *)
Definition cellOf (t : node) (el : path) : list path := parent t any (wrap t el).

Definition others (t : node) (el : path) : list path :=
  siblings t (tagIs "td") (cellOf t el).

Definition confirms (t : node) (el : path) : list path :=
  siblings t (cls "confirm-deletion") (wrap t el).

Definition rowFieldOf (t : node) (el : path) : list path :=
  first (find t (attrEnds "name" "DELETE")
           (find t (cls "delete-form-field")
              (closest t (attrHas "data-form-type") (wrap t el)))).

(** The selectors that [deleteRow] reads, and the updates that leave
    them alone. *)
Definition rowSelectors : list selector :=
  [tagIs "td"; cls "confirm-deletion"; attrEnds "name" "DELETE";
   cls "delete-form-field"; attrHas "data-form-type"].

Definition quiet (f : edata -> edata) : Prop :=
  forall sel, In sel rowSelectors -> stable sel f.

Lemma quiet_colspan v : quiet (setAttr "colspan" v).
Proof.
  intros sel [<-|[<-|[<-|[<-|[<-|[]]]]]] d; trivial;
    unfold attrEnds, attrHas; rewrite getAttr_setAttr_other; trivial; discriminate.
Qed.

Lemma quiet_hide : quiet (addClass "none").
Proof. intros sel [<-|[<-|[<-|[<-|[<-|[]]]]]]; solve_stable. Qed.

Lemma quiet_show : quiet (removeClass "none").
Proof. intros sel [<-|[<-|[<-|[<-|[<-|[]]]]]]; solve_stable. Qed.

Lemma quiet_checked b : quiet (setChecked b).
Proof. intros sel [<-|[<-|[<-|[<-|[<-|[]]]]]] d; reflexivity. Qed.

Lemma siblings_nil t sel : siblings t sel [] = [].
Proof. apply select_none. trivial. Qed.

Section Quiet.
Variables (f : edata -> edata) (U : list path) (t : node) (el : path).
Hypothesis Hq : quiet f.

Lemma cellOf_update : cellOf (update_all f U t) el = cellOf t el.
Proof.
  unfold cellOf. rewrite parent_update by (intros d; reflexivity).
  rewrite wrap_update; trivial.
Qed.

Lemma others_update : others (update_all f U t) el = others t el.
Proof.
  unfold others. rewrite cellOf_update. apply siblings_update, Hq. simpl; auto.
Qed.

Lemma confirms_update : confirms (update_all f U t) el = confirms t el.
Proof.
  unfold confirms. rewrite wrap_update. apply siblings_update, Hq. simpl; auto.
Qed.

Lemma rowFieldOf_update : rowFieldOf (update_all f U t) el = rowFieldOf t el.
Proof.
  unfold rowFieldOf. rewrite wrap_update.
  rewrite closest_update by (apply Hq; simpl; auto 10).
  rewrite find_update by (apply Hq; simpl; auto 10).
  rewrite find_update by (apply Hq; simpl; auto 10). trivial.
Qed.

End Quiet.

(** The parent of an element that is not the root. *)
Lemma parent_any t p :
  In p (subpaths t) -> p <> [] -> parent t any [p] = [removelast p].
Proof.
  intros Hp Hne. destruct (parent_of_one t any p) as [H|[H _]]; trivial.
  exfalso. assert (Hin : In (removelast p) (parent t any [p])).
  { apply select_In. split.
    - apply DuplicateFacts.removelast_elem; trivial.
    - simpl. rewrite orb_false_r. apply andb_true_iff. split.
      + apply child_of_spec. auto.
      + unfold matches. destruct (proj1 (subpaths_spec t (removelast p))) as [d ->];
          trivial. apply DuplicateFacts.removelast_elem; trivial. }
  rewrite H in Hin. destruct Hin.
Qed.

(** A row with other cells has its link in a cell. *)
Lemma row_cell t el :
  others t el <> [] ->
  In el (subpaths t) /\ el <> [] /\ cellOf t el = [removelast el].
Proof.
  intros H. unfold others, cellOf in *.
  destruct (in_dec path_eq_dec el (subpaths t)) as [Hin|Hout].
  - rewrite (wrap_elem t el Hin) in *.
    destruct el as [|a el].
    + exfalso. apply H.
      destruct (parent_of_one t any []) as [->|(_ & Hne & _)]; [|tauto].
      apply siblings_nil.
    + split; trivial. split; [discriminate|]. apply parent_any; trivial. discriminate.
  - exfalso. apply H. rewrite (wrap_none t el Hout), parent_nil. apply siblings_nil.
Qed.

Lemma reloc_at_child k del n : forall P rest,
  reloc (S k) del n P (P ++ k :: rest)%list = Some (P ++ k :: rest)%list.
Proof.
  induction P as [|i P IH]; intros rest; simpl.
  - destruct (Nat.ltb_spec k (S k)); trivial; lia.
  - rewrite Nat.eqb_refl, IH. trivial.
Qed.

Lemma sibling_apart p q : same_parent p q = true -> above p q = false.
Proof.
  intros H. apply same_parent_spec in H as (r & i & j & -> & ->).
  destruct (above _ _) eqn:E; trivial.
  apply above_spec in E as (a & s & E).
  apply (f_equal (@List.length nat)) in E. rewrite !length_app in E. simpl in E. lia.
Qed.

(** The cells beside the cell of the link stay where they are when
    something is put in or taken out inside that cell. *)
Lemma reloc_sibling k del n t sel P C :
  In C (siblings t sel [P]) -> reloc k del n P C = Some C.
Proof.
  intros H. apply select_In in H as [_ H]. apply andb_true_iff in H as [H _].
  simpl in H. rewrite orb_false_r in H. apply andb_true_iff in H as [H _].
  apply reloc_outside, sibling_apart; trivial.
Qed.

(** After one node that satisfies [sel] is put in beside an element,
    the siblings of the element that satisfy [sel] are that node and
    those there were. *)
Lemma siblings_put t P k j d ks sel e' x :
  In (P ++ [j])%list (subpaths t) -> k <= List.length (kids_at t P) ->
  sel d = true -> reloc k 0 1 P (P ++ [j])%list = Some e' ->
  In x (siblings (splice P k 0 [Elem d ks] t) sel [e']) <->
  x = (P ++ [k])%list \/
  In x (moved (reloc k 0 1 P) (siblings t sel [(P ++ [j])%list])).
Proof.
  intros Hel Hk Hd Hr.
  pose proof (splice_edit t P k 0 [Elem d ks] Hk) as E. simpl List.length in E.
  destruct (proj1 (subpaths_spec t P) (prefix_elem t P [j] Hel)) as [dP HdP].
  assert (Hnew : reloc k 1 0 P (P ++ [k])%list = None).
  { apply reloc_none. exists k, []. split; trivial. lia. }
  assert (He' : e' <> [] /\ removelast e' = P).
  { assert (Hne : (P ++ [j])%list <> []) by (destruct P; discriminate).
    pose proof (ed_parent _ _ _ _ E _ _ Hr Hne) as Hp.
    rewrite removelast_last in Hp.
    rewrite (reloc_outside k 0 1 P P (above_irrefl P)) in Hp. injection Hp as Hp.
    split; [|auto]. intros ->. apply Hne. apply (ed_nonempty _ _ _ _ E _ _ Hr). trivial. }
  destruct He' as [Hne' Hpar'].
  assert (Hm : matches (splice P k 0 [Elem d ks] t) sel (P ++ [k])%list = true).
  { unfold matches, data_at.
    pose proof (get_splice_new P k 0 [Elem d ks] t dP 0 [] HdP Hk
                  (Nat.lt_0_succ 0)) as Hg.
    rewrite Nat.add_0_r in Hg. rewrite Hg. simpl. trivial. }
  assert (Hsame : forall q q', reloc k 0 1 P q = Some q' ->
            (In q' (siblings (splice P k 0 [Elem d ks] t) sel [e'])
             <-> In q (siblings t sel [(P ++ [j])%list]))).
  { intros q q' Hq. unfold siblings. rewrite !select_In.
    rewrite (ed_matches _ _ _ _ E sel _ _ Hq). simpl. rewrite !orb_false_r.
    rewrite (ed_same_parent _ _ _ _ E _ _ _ _ Hr Hq).
    rewrite (path_eqb_edit _ _ _ _ E _ _ _ _ Hr Hq).
    rewrite (ed_elem _ _ _ _ E _ _ Hq). tauto. }
  split.
  - intros Hx. destruct (reloc k 1 0 P x) as [q|] eqn:Eg.
    + right. apply (ed_inv _ _ _ _ E) in Eg. apply In_moved. exists q.
      split; trivial. apply (Hsame q x Eg); trivial.
    + left. apply select_In in Hx as [Hx1 Hx2].
      apply andb_true_iff in Hx2 as [Hx2 _]. simpl in Hx2. rewrite orb_false_r in Hx2.
      apply andb_true_iff in Hx2 as [Hsp _].
      apply reloc_none in Eg as (j0 & rest & -> & Hj).
      assert (j0 = k) by lia. subst j0.
      apply same_parent_removelast in Hsp as (_ & _ & Hsp). rewrite Hpar' in Hsp.
      destruct rest as [|a rest]; trivial. exfalso.
      assert (Hl : List.length P = List.length (removelast (P ++ k :: a :: rest)))
        by (rewrite <- Hsp; trivial).
      change (k :: a :: rest) with ([k] ++ a :: rest)%list in Hl.
      rewrite app_assoc, (removelast_app (P ++ [k])) in Hl by discriminate.
      rewrite !length_app in Hl. simpl in Hl. lia.
  - intros [->|Hx].
    + apply select_In. split; [eapply matches_elem; eauto|].
      rewrite Hm, andb_true_r. simpl. rewrite orb_false_r. apply andb_true_iff. split.
      * apply same_parent_removelast. split; trivial.
        split; [destruct P; discriminate|]. rewrite removelast_last. trivial.
      * apply negb_true_iff. destruct (path_eqb _ _) eqn:Ep; trivial.
        apply path_eqb_true in Ep. subst e'. apply (ed_inv _ _ _ _ E) in Hr. congruence.
    + apply In_moved in Hx as (q & Hq & Hrq). apply (Hsame q x Hrq); trivial.
Qed.

(** The same when the node is put in right after the element. *)
Lemma siblings_after t P k d ks sel x :
  In (P ++ [k])%list (subpaths t) -> sel d = true ->
  In x (siblings (splice P (S k) 0 [Elem d ks] t) sel [(P ++ [k])%list]) <->
  x = (P ++ [S k])%list \/
  In x (moved (reloc (S k) 0 1 P) (siblings t sel [(P ++ [k])%list])).
Proof.
  intros Hel Hd. apply siblings_put; trivial.
  - apply child_index in Hel. lia.
  - apply reloc_at_child.
Qed.

Lemma siblings_fresh t P k d ks sel :
  In (P ++ [k])%list (subpaths t) ->
  siblings t sel [(P ++ [k])%list] = [] -> sel d = true ->
  siblings (splice P (S k) 0 [Elem d ks] t) sel [(P ++ [k])%list]
  = [(P ++ [S k])%list].
Proof.
  intros Hel Hold Hd. apply singleton; [apply NoDup_select|]. intros x.
  rewrite (siblings_after t P k d ks sel x Hel Hd), Hold. simpl. tauto.
Qed.

(** One more such sibling. *)
Lemma siblings_count t P k d ks sel :
  In (P ++ [k])%list (subpaths t) -> sel d = true ->
  List.length (siblings (splice P (S k) 0 [Elem d ks] t) sel [(P ++ [k])%list])
  = S (List.length (siblings t sel [(P ++ [k])%list])).
Proof.
  intros Hel Hd.
  assert (Hk : S k <= List.length (kids_at t P)) by (apply child_index in Hel; lia).
  pose proof (splice_edit t P (S k) 0 [Elem d ks] Hk) as E. simpl List.length in E.
  set (old := siblings t sel [(P ++ [k])%list]).
  rewrite <- (DuplicateFacts.length_moved (reloc (S k) 0 1 P) old)
    by (intros q _; apply reloc_total).
  change (S (List.length (moved (reloc (S k) 0 1 P) old)))
    with (List.length ((P ++ [S k])%list :: moved (reloc (S k) 0 1 P) old)).
  apply Permutation_length, NoDup_Permutation.
  - apply NoDup_select.
  - constructor.
    + intros Hx. apply In_moved in Hx as (q & _ & Hq).
      apply (ed_inv _ _ _ _ E) in Hq.
      assert (Hn : reloc (S k) 1 0 P (P ++ [S k])%list = None).
      { apply reloc_none. exists (S k), []. split; trivial. lia. }
      congruence.
    + apply sorted_NoDup, (moved_sorted _ _ _ _ E), select_sorted.
  - intros x. rewrite (siblings_after t P k d ks sel x Hel Hd). simpl. split.
    + intros [->|H]; auto.
    + intros [<-|H]; auto.
Qed.

Lemma removeAll_one p t : removeAll [p] t = removeAt p t.
Proof.
  unfold removeAll, forEachBack. simpl. destruct (removeAt p t); trivial.
Qed.

Lemma afterEach_one new p t : afterEach new [p] t = insertAfter new p t.
Proof.
  unfold afterEach, forEachBack. simpl. destruct (insertAfter new p t); trivial.
Qed.

Lemma first_moved_all (f : path -> option path) (l : list path) :
  (forall q, f q <> None) -> first (moved f l) = moved f (first l).
Proof.
  intros Hf. destruct l as [|a l]; trivial. unfold first. simpl.
  destruct (f a) eqn:E; [|destruct (Hf _ E)]. trivial.
Qed.

Lemma propChecked_update f U t S :
  (forall d, checked (f d) = checked d) ->
  propChecked (update_all f U t) S = propChecked t S.
Proof. intros Hf. destruct S as [|p S]; trivial. simpl. apply proj_update; trivial. Qed.

(** ** A row with the confirmation put after its link *)

Section Marked.
Variables (Y : node) (el : path).
Hypothesis Hin : In el (subpaths Y).
Hypothesis Hel : el <> [].

Let P := removelast el.
Let k := List.last el 0.
Let T := splice P (S k) 0 [confirmSpan] Y.
Let r := reloc (S k) 0 1 P.

Lemma marked_room : S k <= List.length (kids_at Y P).
Proof.
  pose proof Hin as H. rewrite (split_last el Hel) in H. apply child_index in H.
  unfold P, k. lia.
Qed.

Lemma marked_edit : edit Y T r (reloc (S k) 1 0 P).
Proof. apply (splice_edit Y P (S k) 0 [confirmSpan]), marked_room. Qed.

Lemma marked_link del n : reloc (S k) del n P el = Some el.
Proof.
  unfold P, k. rewrite (split_last el Hel) at 3 4. apply reloc_at_child.
Qed.

Lemma marked_total q : r q <> None.
Proof. apply reloc_total. Qed.

Lemma marked_elem : In el (subpaths T).
Proof. apply (ed_elem _ _ _ _ marked_edit el el (marked_link 0 1)); trivial. Qed.

Lemma marked_wrap : wrap T el = [el].
Proof. apply wrap_elem, marked_elem. Qed.

Lemma marked_cell : cellOf T el = [P].
Proof. unfold cellOf. rewrite marked_wrap. apply parent_any; [apply marked_elem|trivial]. Qed.

Lemma marked_rejects sel :
  nowhere sel [confirmSpan] = true ->
  forall q', In q' (subpaths T) -> reloc (S k) 1 0 P q' = None ->
             matches T sel q' = false.
Proof.
  intros Hno q' Hq Hg.
  apply (fresh_no_match sel Y P (S k) 0 [confirmSpan] q' marked_room Hno Hq Hg).
Qed.

Lemma marked_others : others T el = others Y el.
Proof.
  unfold others. rewrite marked_cell.
  unfold cellOf. rewrite (wrap_elem Y el Hin), (parent_any Y el Hin Hel). fold P.
  assert (HP : r P = Some P) by (apply reloc_outside, above_irrefl).
  assert (EP : [P] = moved r [P]) by (simpl; rewrite HP; trivial).
  rewrite EP at 1.
  rewrite (siblings_edit_kept Y T r _ marked_edit (tagIs "td")
             (marked_rejects (tagIs "td") eq_refl) [P]).
  - apply moved_same. intros C HC. eapply reloc_sibling; eauto.
  - intros p [<-|[]]. congruence.
Qed.

Lemma marked_is sel : is_ T sel (others Y el) = is_ Y sel (others Y el).
Proof.
  unfold is_. apply eq_true_iff_eq. rewrite !existsb_exists.
  assert (H : forall C, In C (others Y el) -> matches T sel C = matches Y sel C).
  { intros C HC. apply (ed_matches _ _ _ _ marked_edit).
    unfold others, cellOf in HC.
    rewrite (wrap_elem Y el Hin), (parent_any Y el Hin Hel) in HC.
    eapply reloc_sibling; eauto. }
  split; intros (C & HC & Hm); exists C; split; trivial;
    [rewrite <- H|rewrite H]; trivial.
Qed.

Lemma marked_field : rowFieldOf T el = moved r (rowFieldOf Y el).
Proof.
  unfold rowFieldOf.
  rewrite (closest_wrap_edit Y T r _ marked_edit _ el el (marked_link 0 1)).
  rewrite (find_edit Y T r _ marked_edit _
             (marked_rejects (cls "delete-form-field") eq_refl)).
  rewrite (find_edit Y T r _ marked_edit _
             (marked_rejects (attrEnds "name" "DELETE") eq_refl)).
  apply first_moved_all, marked_total.
Qed.

Lemma marked_checked U : propChecked T (moved r U) = propChecked Y U.
Proof.
  destruct U as [|p U]; trivial. simpl.
  destruct (r p) as [p'|] eqn:Ep; [|destruct (marked_total _ Ep)].
  simpl. rewrite (ed_data _ _ _ _ marked_edit _ _ Ep). trivial.
Qed.

Lemma marked_update f U :
  update_all f (moved r U) T = splice P (S k) 0 [confirmSpan] (update_all f U Y).
Proof. apply (update_splice f (S k) [confirmSpan] P U Y), marked_room. Qed.

Lemma marked_update_same f U :
  (forall C, In C U -> r C = Some C) ->
  update_all f U T = splice P (S k) 0 [confirmSpan] (update_all f U Y).
Proof. intros H. rewrite <- marked_update, (moved_same r U H). trivial. Qed.

Lemma marked_confirms : confirms Y el = [] -> confirms T el = [(P ++ [S k])%list].
Proof.
  unfold confirms. rewrite marked_wrap, (wrap_elem Y el Hin). intros H.
  rewrite (split_last el Hel) in H, Hin |- *. fold P k in H, Hin |- *.
  apply siblings_fresh; trivial.
Qed.

Lemma marked_count :
  List.length (confirms T el) = S (List.length (confirms Y el)).
Proof.
  unfold confirms. rewrite marked_wrap, (wrap_elem Y el Hin).
  pose proof Hin as H. rewrite (split_last el Hel) in H |- *. fold P k in H |- *.
  apply siblings_count; trivial.
Qed.

End Marked.

Ltac fold_row el :=
  repeat match goal with
         | |- context [parent ?x any (wrap ?x el)] =>
             change (parent x any (wrap x el)) with (cellOf x el)
         | |- context [siblings ?x (tagIs "td") (cellOf ?x el)] =>
             change (siblings x (tagIs "td") (cellOf x el)) with (others x el)
         end.

(** The first branch, on a row none of whose other cells is hidden. *)
Lemma first_branch el t :
  In el (subpaths t) -> el <> [] -> is_ t (cls "none") (others t el) = false ->
  deleteRow el t =
    (splice (removelast el) (S (List.last el 0)) 0 [confirmSpan]
       (update_all (setChecked (negb (truthy (propChecked t (rowFieldOf t el)))))
          (rowFieldOf t el)
          (update_all (setAttr "colspan" "6") [removelast el]
             (update_all (addClass "none") (others t el) t))),
     reloc (S (List.last el 0)) 0 1 (removelast el)).
Proof.
  intros Hin Hel Hno.
  assert (Hcell : cellOf t el = [removelast el]).
  { unfold cellOf. rewrite (wrap_elem t el Hin). apply parent_any; trivial. }
  unfold deleteRow. cbv zeta. fold_row el. rewrite Hno. cbn [negb].
  unfold andThen, on. cbv beta. fold_row el.
  rewrite cellOf_update, Hcell, !wrap_update, (wrap_elem t el Hin).
  rewrite afterEach_one, (DuplicateFacts.insertAfter_splice _ el) by trivial.
  cbv beta iota. change (List.length [confirmSpan]) with 1.
  set (ta := update_all (setAttr "colspan" "6") [removelast el]
               (update_all (addClass "none") (others t el) t)).
  assert (Ha : In el (subpaths ta))
    by (unfold ta; rewrite !subpaths_update_all; trivial).
  unfold moved. cbn [flat_map]. rewrite (marked_link el Hel 0 1). cbn [app].
  rewrite <- (marked_wrap ta el Ha Hel).
  match goal with
  | |- context [first (find ?T ?a (find ?T ?b (closest ?T ?c (wrap ?T el))))] =>
      change (first (find T a (find T b (closest T c (wrap T el)))))
        with (rowFieldOf T el)
  end.
  assert (Hf : rowFieldOf ta el = rowFieldOf t el).
  { unfold ta. rewrite !rowFieldOf_update; trivial;
      [apply quiet_hide|apply quiet_colspan]. }
  assert (Hc : forall U, propChecked ta U = propChecked t U).
  { intros U. unfold ta. rewrite !propChecked_update; trivial.
    intros d. unfold addClass. destruct (hasClass _ _); reflexivity. }
  rewrite (marked_field ta el Ha Hel), Hf.
  unfold toggleChecked, on.
  rewrite (marked_checked ta el Ha Hel), Hc. f_equal.
  apply (marked_update ta el Ha Hel).
Qed.

(** The second branch, on a row with hidden cells and the confirmation
    right after its link. *)
Lemma second_branch_marked el Y :
  others Y el <> [] -> is_ Y (cls "none") (others Y el) = true ->
  confirms Y el = [] ->
  fst (deleteRow el (splice (removelast el) (S (List.last el 0)) 0 [confirmSpan] Y)) =
    update_all (setChecked (negb (truthy (propChecked Y (rowFieldOf Y el)))))
      (rowFieldOf Y el)
      (update_all (removeClass "none") (others Y el)
         (update_all (setAttr "colspan" "1") [removelast el] Y)).
Proof.
  intros Hne Hyes Hc. destruct (row_cell Y el Hne) as (Hin & Hel & Hcell).
  assert (HP : reloc (S (List.last el 0)) 0 1 (removelast el) (removelast el)
               = Some (removelast el)) by (apply reloc_outside, above_irrefl).
  assert (HS : forall C, In C (others Y el) ->
                 reloc (S (List.last el 0)) 0 1 (removelast el) C = Some C).
  { intros C HC. unfold others in HC. rewrite Hcell in HC.
    eapply reloc_sibling; eauto. }
  set (Y1 := update_all (setAttr "colspan" "1") [removelast el] Y).
  set (Z := update_all (removeClass "none") (others Y el) Y1).
  assert (Hin1 : In el (subpaths Y1))
    by (unfold Y1; rewrite subpaths_update_all; trivial).
  assert (HinZ : In el (subpaths Z))
    by (unfold Z; rewrite subpaths_update_all; trivial).
  assert (HcZ : confirms Z el = []).
  { unfold Z, Y1. rewrite !confirms_update; trivial;
      [apply quiet_colspan|apply quiet_show]. }
  assert (Hf : rowFieldOf Z el = rowFieldOf Y el).
  { unfold Z, Y1. rewrite !rowFieldOf_update; trivial;
      [apply quiet_colspan|apply quiet_show]. }
  assert (Hch : forall U, propChecked Z U = propChecked Y U).
  { intros U. unfold Z, Y1. rewrite !propChecked_update; trivial. }
  unfold deleteRow. cbv zeta. fold_row el.
  rewrite (marked_others Y el Hin Hel), (marked_is Y el Hin Hel), Hyes. cbn [negb].
  unfold andThen, on. cbv beta. fold_row el.
  rewrite (marked_cell Y el Hin Hel).
  rewrite others_update by apply quiet_colspan.
  rewrite (marked_others Y el Hin Hel).
  rewrite (marked_update_same Y el Hin Hel (setAttr "colspan" "1") [removelast el])
    by (intros C [<-|[]]; trivial).
  fold Y1.
  rewrite (marked_update_same Y1 el Hin1 Hel (removeClass "none") (others Y el) HS).
  fold Z.
  change (siblings ?T (cls "confirm-deletion") (wrap ?T el)) with (confirms T el).
  rewrite (marked_confirms Z el HinZ Hel HcZ), (marked_wrap Y el Hin Hel).
  rewrite removeAll_one, DuplicateFacts.removeAt_splice by (destruct (removelast el); discriminate).
  rewrite removelast_last, last_last.
  pose proof (splice_undo (removelast el) (S (List.last el 0)) [confirmSpan] Z
                (marked_room Z el HinZ Hel)) as Hu.
  simpl List.length in Hu. rewrite Hu. cbv beta iota.
  unfold moved. cbn [flat_map]. rewrite (marked_link el Hel 1 0). cbn [app].
  rewrite <- (wrap_elem Z el HinZ).
  change (first (find Z (attrEnds "name" "DELETE")
                   (find Z (cls "delete-form-field")
                      (closest Z (attrHas "data-form-type") (wrap Z el)))))
    with (rowFieldOf Z el).
  cbn [fst]. unfold toggleChecked, on. rewrite Hf, Hch. trivial.
Qed.

Lemma filter_added (c : string) (cs : list string) :
  existsb (String.eqb c) cs = false ->
  filter (fun c' => negb (String.eqb c c')) (cs ++ [c]) = cs.
Proof.
  induction cs as [|a cs IH]; simpl.
  - rewrite String.eqb_refl. trivial.
  - intros H. apply orb_false_iff in H as [Ha H]. rewrite Ha. simpl.
    rewrite IH; trivial.
Qed.

Lemma assoc_set_over k v v' (l : list (string * string)) :
  assoc_set k v (assoc_set k v' l) = assoc_set k v l.
Proof.
  induction l as [|[k' w] l IH]; simpl.
  - rewrite String.eqb_refl. trivial.
  - destruct (String.eqb k k') eqn:E; simpl; rewrite ?String.eqb_refl, ?E; trivial.
    rewrite IH. trivial.
Qed.

(** What the two calls do to one element: [hide] for a cell beside the
    cell of the link, [cell] for that cell, [field] for the DELETE
    checkbox. *)
Lemma round_data (d : edata) (b : bool) (hide cell field : bool) :
  (hide = true -> hasClass "none" d = false) ->
  let u1 := if hide then addClass "none" d else d in
  let u2 := if cell then setAttr "colspan" "6" u1 else u1 in
  let u3 := if field then setChecked b u2 else u2 in
  let u4 := if cell then setAttr "colspan" "1" u3 else u3 in
  let u5 := if hide then removeClass "none" u4 else u4 in
  (if field then setChecked (checked d) u5 else u5)
  = if cell then setAttr "colspan" "1" d else d.
Proof.
  intros H. destruct d as [tg ats cs ch vp hd].
  assert (Hc : hide = true -> existsb (String.eqb "none") cs = false) by exact H.
  destruct hide; [specialize (Hc eq_refl)|clear Hc];
    destruct cell, field; cbv zeta;
    unfold addClass, removeClass, setAttr, setChecked, setClasses, hasClass;
    cbn [tag attrs classes checked valueProp hidden];
    rewrite ?Hc; cbn [tag attrs classes checked valueProp hidden];
    rewrite ?filter_added, ?assoc_set_over by trivial; trivial.
Qed.

Lemma hidden_all t (U : list path) :
  U <> [] -> (forall C, In C U -> In C (subpaths t)) ->
  is_ (update_all (addClass "none") U t) (cls "none") U = true.
Proof.
  intros Hne Hin. destruct U as [|C l]; [tauto|]. apply existsb_exists. exists C.
  split; [simpl; auto|]. unfold matches.
  rewrite data_at_update_idem by (apply addClass_idem || (simpl; auto)).
  destruct (proj1 (subpaths_spec t C)) as [d ->]; [apply Hin; simpl; auto|].
  apply hasClass_addClass.
Qed.

Lemma first_cases (l : list path) : first l = [] \/ exists D, first l = [D].
Proof. unfold first. destruct l as [|D l]; simpl; eauto. Qed.

Lemma truthy_Some (c : bool) : truthy (Some c) = c.
Proof. destruct c; trivial. Qed.

(** X17. Marking a row of the users table for deletion and taking
    the mark back.  If the cell of the link has other cells beside it,
    none of them is hidden and no confirmation stands beside the link,
    then the link stays where it is at the first call of [deleteRow],
    and two calls on it leave the document as it was but for the
    [colspan] of the cell, which is 1 whatever it was: the cells are
    shown again, the confirmation is gone, and the DELETE checkbox of
    the row has the state it had. *)
Theorem deleteRow_twice (el : path) (t : node) :
  others t el <> [] ->
  is_ t (cls "none") (others t el) = false ->
  confirms t el = [] ->
  snd (deleteRow el t) el = Some el /\
  fst (deleteRow el (fst (deleteRow el t)))
  = on (fun t => cellOf t el) (setAttr "colspan" "1") t.
Proof.
  intros Hne Hno Hc. destruct (row_cell t el Hne) as (Hin & Hel & Hcell).
  rewrite (first_branch el t Hin Hel Hno). cbn [fst snd].
  split; [apply marked_link; trivial|].
  set (DF := rowFieldOf t el). set (Sib := others t el).
  set (b := negb (truthy (propChecked t DF))).
  set (Y := update_all (setChecked b) DF
              (update_all (setAttr "colspan" "6") [removelast el]
                 (update_all (addClass "none") Sib t))).
  assert (Ho : others Y el = Sib).
  { unfold Y. rewrite !others_update; trivial;
      [apply quiet_hide|apply quiet_colspan|apply quiet_checked]. }
  assert (Hf : rowFieldOf Y el = DF).
  { unfold Y. rewrite !rowFieldOf_update; trivial;
      [apply quiet_hide|apply quiet_colspan|apply quiet_checked]. }
  assert (HcY : confirms Y el = []).
  { unfold Y. rewrite !confirms_update; trivial;
      [apply quiet_hide|apply quiet_colspan|apply quiet_checked]. }
  assert (Hyes : is_ Y (cls "none") (others Y el) = true).
  { rewrite Ho. unfold Y. rewrite !is_update by (intros d; reflexivity).
    apply hidden_all; trivial. intros C HC. apply select_In in HC. tauto. }
  assert (HneY : others Y el <> []) by (rewrite Ho; exact Hne).
  rewrite (second_branch_marked el Y HneY Hyes HcY), Ho, Hf.
  unfold on. rewrite Hcell.
  apply node_ext; [unfold Y; rewrite !frame_update; trivial|]. intros q.
  unfold Y at 2.
  rewrite !data_at_update by
    first [apply setChecked_idem | apply removeClass_idem | apply setAttr_idem
          | apply addClass_idem].
  destruct (data_at t q) as [d|] eqn:Hd; [|reflexivity]. cbn [option_map]. f_equal.
  assert (Hh : mem q Sib = true -> hasClass "none" d = false).
  { intros Hm. apply mem_true in Hm. unfold is_ in Hno.
    destruct (hasClass "none" d) eqn:E; trivial.
    assert (Ht : existsb (matches t (cls "none")) (others t el) = true).
    { apply existsb_exists. exists q. split; trivial. unfold matches. rewrite Hd.
      exact E. }
    congruence. }
  destruct (mem q DF) eqn:Ee.
  - assert (EDF : DF = [q]).
    { apply mem_true in Ee. destruct (first_cases
        (find t (attrEnds "name" "DELETE")
           (find t (cls "delete-form-field")
              (closest t (attrHas "data-form-type") (wrap t el))))) as [H|[D H]];
        fold (rowFieldOf t el) in H; fold DF in H; rewrite H in Ee |- *.
      - destruct Ee.
      - destruct Ee as [->|[]]. trivial. }
    assert (Eb : b = negb (checked d)).
    { unfold b. rewrite EDF. unfold propChecked. rewrite Hd. cbn [option_map].
      rewrite truthy_Some. trivial. }
    assert (EY : propChecked Y DF = Some b).
    { rewrite EDF at 1. unfold propChecked, Y.
      rewrite (data_at_update_idem (setChecked b) DF _ q (setChecked_idem b))
        by (rewrite EDF; simpl; auto).
      rewrite !data_at_update by first [apply setAttr_idem | apply addClass_idem].
      rewrite Hd. cbn [option_map]. trivial. }
    rewrite EY, truthy_Some, Eb, negb_involutive.
    apply (round_data d (negb (checked d)) (mem q Sib) (mem q [removelast el]) true Hh).
  - apply (round_data d b (mem q Sib) (mem q [removelast el]) false Hh).
Qed.

Lemma deleteRow_twice_witness :
  snd (deleteRow PageDemo.rowLink PageDemo.usersPage) PageDemo.rowLink
  = Some PageDemo.rowLink /\
  fst (deleteRow PageDemo.rowLink (fst (deleteRow PageDemo.rowLink PageDemo.usersPage)))
  = on (fun t => cellOf t PageDemo.rowLink) (setAttr "colspan" "1") PageDemo.usersPage.
Proof.
  apply deleteRow_twice; [vm_compute; discriminate|reflexivity|reflexivity].
Defined.

Lemma mem_here (q : path) : mem q [q] = true.
Proof. apply mem_true. simpl; auto. Qed.

(** X18. What a call of [deleteRow] does to a row in which no cell
    beside the cell of the link is hidden, [el] being an element other
    than the root.  The link stays where it is; the cells beside its
    cell are the same and each of them is hidden; the cell has
    [colspan] 6; the link has one more confirmation beside it than it
    had, none being taken out; and the DELETE checkbox of the row, if
    there is one, is still the one that a next call finds, with its
    state flipped.  In a row without other cells the test of line 630
    therefore gives the same answer at every call, and each call adds
    one more confirmation. *)
Theorem deleteRow_marks_row (el : path) (t : node) :
  In el (subpaths t) -> el <> [] ->
  is_ t (cls "none") (others t el) = false ->
  snd (deleteRow el t) el = Some el /\
  others (fst (deleteRow el t)) el = others t el /\
  (forall C, In C (others t el) ->
     class_at "none" (fst (deleteRow el t)) C = Some true) /\
  attr_at "colspan" (fst (deleteRow el t)) (removelast el) = Some "6" /\
  List.length (confirms (fst (deleteRow el t)) el)
  = S (List.length (confirms t el)) /\
  (forall D, rowFieldOf t el = [D] ->
     exists D', snd (deleteRow el t) D = Some D' /\
       rowFieldOf (fst (deleteRow el t)) el = [D'] /\
       checked_at (fst (deleteRow el t)) D' = option_map negb (checked_at t D)).
Proof.
  intros Hin Hel Hno. rewrite (first_branch el t Hin Hel Hno). cbn [fst snd].
  assert (Hcell : cellOf t el = [removelast el]).
  { unfold cellOf. rewrite (wrap_elem t el Hin). apply parent_any; trivial. }
  set (DF := rowFieldOf t el).
  set (b := negb (truthy (propChecked t DF))).
  set (Y := update_all (setChecked b) DF
              (update_all (setAttr "colspan" "6") [removelast el]
                 (update_all (addClass "none") (others t el) t))).
  assert (HinY : In el (subpaths Y))
    by (unfold Y; rewrite !subpaths_update_all; trivial).
  pose proof (marked_edit Y el HinY Hel) as E.
  assert (Ho : others Y el = others t el).
  { unfold Y. rewrite !others_update; trivial;
      [apply quiet_hide|apply quiet_colspan|apply quiet_checked]. }
  assert (Hf : rowFieldOf Y el = DF).
  { unfold Y. rewrite !rowFieldOf_update; trivial;
      [apply quiet_hide|apply quiet_colspan|apply quiet_checked]. }
  assert (HcY : confirms Y el = confirms t el).
  { unfold Y. rewrite !confirms_update; trivial;
      [apply quiet_hide|apply quiet_colspan|apply quiet_checked]. }
  split; [apply marked_link; trivial|].
  split; [rewrite (marked_others Y el HinY Hel); exact Ho|].
  split; [|split; [|split]].
  - intros C HC. unfold class_at.
    assert (HrC : reloc (S (List.last el 0)) 0 1 (removelast el) C = Some C).
    { unfold others in HC. rewrite Hcell in HC. eapply reloc_sibling; eauto. }
    rewrite (ed_data _ _ _ _ E C C HrC). fold (class_at "none" Y C). unfold Y.
    rewrite !class_at_other by (intros d; reflexivity).
    rewrite class_at_add.
    destruct (proj1 (subpaths_spec t C)) as [d Hd];
      [apply select_In in HC; tauto|].
    unfold class_at. rewrite Hd. cbn [option_map].
    apply mem_true in HC. rewrite HC. trivial.
  - unfold attr_at.
    assert (HrP : reloc (S (List.last el 0)) 0 1 (removelast el) (removelast el)
                  = Some (removelast el)) by (apply reloc_outside, above_irrefl).
    rewrite (ed_data _ _ _ _ E _ _ HrP). unfold Y.
    rewrite !data_at_update by
      first [apply setChecked_idem | apply setAttr_idem | apply addClass_idem].
    destruct (proj1 (subpaths_spec t (removelast el))) as [d ->];
      [apply DuplicateFacts.removelast_elem; trivial|].
    cbn [option_map]. rewrite mem_here.
    case (mem (removelast el) DF); apply FormsetFacts.getAttr_setAttr_same.
  - rewrite (marked_count Y el HinY Hel), HcY. trivial.
  - intros D HD.
    destruct (reloc (S (List.last el 0)) 0 1 (removelast el) D) as [D'|] eqn:ED;
      [|destruct (reloc_total _ _ _ _ ED)].
    exists D'. split; trivial. split.
    + rewrite (marked_field Y el HinY Hel), Hf. fold DF in HD. rewrite HD. simpl.
      rewrite ED. trivial.
    + unfold checked_at. rewrite (ed_data _ _ _ _ E _ _ ED).
      fold (checked_at Y D). unfold Y. rewrite checked_at_set.
      rewrite !checked_at_other by
        (intros d; unfold addClass; try destruct (hasClass _ _); reflexivity).
      unfold b. fold DF in HD. rewrite HD, mem_here. unfold propChecked, checked_at.
      destruct (data_at t D) as [d|]; trivial. cbn [option_map].
      rewrite truthy_Some. trivial.
Qed.

Lemma deleteRow_marks_row_witness :
  List.length (confirms (fst (deleteRow PageDemo.rowLink PageDemo.usersPage))
                 PageDemo.rowLink) = 1 /\
  class_at "none" (fst (deleteRow PageDemo.rowLink PageDemo.usersPage)) [0; 1]
  = Some true.
Proof.
  destruct (deleteRow_marks_row PageDemo.rowLink PageDemo.usersPage)
    as (_ & _ & Hc & _ & Hn & _).
  - vm_compute. auto.
  - discriminate.
  - reflexivity.
  - split; [exact Hn|]. apply Hc. vm_compute. auto.
Defined.

(** ** Taking the mark back *)

Lemma moved_none (f : path -> option path) (l : list path) :
  (forall q, In q l -> f q = None) -> moved f l = [].
Proof.
  induction l as [|a l IH]; simpl; intros H; trivial.
  rewrite (H a) by auto. simpl. auto.
Qed.

Lemma sibling_not_below p q : same_parent p q = true -> is_prefix q p = true -> p = q.
Proof.
  intros Hs Hp. apply same_parent_spec in Hs as (r & i & j & -> & ->).
  apply is_prefix_spec in Hp as [x Hx]. rewrite <- app_assoc in Hx.
  apply app_inv_head in Hx. destruct x; injection Hx as ->; trivial.
Qed.

Lemma sibling_not_above p q : same_parent p q = true -> is_prefix p q = true -> p = q.
Proof.
  intros Hs Hp. apply same_parent_spec in Hs as (r & i & j & -> & ->).
  apply is_prefix_spec in Hp as [x Hx]. rewrite <- app_assoc in Hx.
  apply app_inv_head in Hx. destruct x; injection Hx as ->; trivial.
Qed.

Lemma attr_at_update_other k f U t q :
  (forall d, getAttr k (f d) = getAttr k d) ->
  attr_at k (update_all f U t) q = attr_at k t q.
Proof.
  intros Hf. pose proof (proj_update (getAttr k) f U t q Hf) as H. unfold attr_at.
  destruct (data_at (update_all f U t) q), (data_at t q); simpl in H; congruence.
Qed.

(** The second branch, for any row with a hidden cell. *)
Lemma second_branch el t :
  is_ t (cls "none") (others t el) = true ->
  let ta := update_all (removeClass "none") (others t el)
              (update_all (setAttr "colspan" "1") (cellOf t el) t) in
  let tR := fst (removeAll (confirms t el) ta) in
  let r := snd (removeAll (confirms t el) ta) in
  deleteRow el t =
    (toggleChecked
       (first (find tR (attrEnds "name" "DELETE")
                 (find tR (cls "delete-form-field")
                    (closest tR (attrHas "data-form-type") (moved r (wrap t el))))))
       tR, r).
Proof.
  intros Hyes. cbv zeta. unfold deleteRow. cbv zeta. fold_row el.
  rewrite Hyes. cbn [negb]. unfold andThen, on. cbv beta. fold_row el.
  rewrite others_update by apply quiet_colspan.
  change (siblings ?T (cls "confirm-deletion") (wrap ?T el)) with (confirms T el).
  rewrite !confirms_update by (apply quiet_show || apply quiet_colspan).
  destruct (removeAll (confirms t el) _) as [tR r]. trivial.
Qed.

(** X19. What a call of [deleteRow] does to a row in which a cell
    beside the cell of the link is hidden.  The link stays in the
    document and has no confirmation beside it any more; the cells
    beside its cell are those there were, and none of them is hidden;
    the cell has [colspan] 1; and the DELETE checkbox of the row, if
    there is one outside the confirmations, is still the one that a next
    call finds, with its state flipped. *)
Theorem deleteRow_shows_row (el : path) (t : node) :
  is_ t (cls "none") (others t el) = true ->
  exists el',
    snd (deleteRow el t) el = Some el' /\
    confirms (fst (deleteRow el t)) el' = [] /\
    others (fst (deleteRow el t)) el' = moved (snd (deleteRow el t)) (others t el) /\
    List.length (others (fst (deleteRow el t)) el') = List.length (others t el) /\
    (forall C, In C (others (fst (deleteRow el t)) el') ->
       class_at "none" (fst (deleteRow el t)) C = Some false) /\
    attr_at "colspan" (fst (deleteRow el t)) (removelast el') = Some "1" /\
    (forall D, rowFieldOf t el = [D] ->
       (forall N, In N (confirms t el) -> is_prefix N D = false) ->
       exists D', snd (deleteRow el t) D = Some D' /\
         rowFieldOf (fst (deleteRow el t)) el' = [D'] /\
         checked_at (fst (deleteRow el t)) D' = option_map negb (checked_at t D)).
Proof.
  intros Hyes.
  assert (Hne : others t el <> []) by (intros H; rewrite H in Hyes; discriminate).
  destruct (row_cell t el Hne) as (Hin & Hel & Hcell).
  rewrite (second_branch el t Hyes). cbn [fst snd]. rewrite Hcell.
  set (Sib := others t el). set (P := removelast el).
  set (ta := update_all (removeClass "none") Sib
               (update_all (setAttr "colspan" "1") [P] t)).
  assert (Hina : In el (subpaths ta))
    by (unfold ta; rewrite !subpaths_update_all; trivial).
  assert (Hoa : others ta el = Sib).
  { unfold ta. rewrite !others_update; trivial; [apply quiet_colspan|apply quiet_show]. }
  assert (Hca : confirms ta el = confirms t el).
  { unfold ta. rewrite !confirms_update; trivial; [apply quiet_colspan|apply quiet_show]. }
  assert (Hfa : rowFieldOf ta el = rowFieldOf t el).
  { unfold ta. rewrite !rowFieldOf_update; trivial;
      [apply quiet_colspan|apply quiet_show]. }
  assert (Hcell_a : cellOf ta el = [P]).
  { unfold ta. rewrite !cellOf_update. exact Hcell. }
  set (N := confirms t el).
  assert (HN : forall x, In x N -> same_parent el x = true /\ el <> x /\ In x (subpaths ta)).
  { intros x Hx. unfold N in Hx. rewrite <- Hca in Hx. unfold confirms in Hx.
    rewrite (wrap_elem ta el Hina) in Hx. apply select_In in Hx as [Hx1 Hx2].
    apply andb_true_iff in Hx2 as [Hx2 _]. simpl in Hx2. rewrite orb_false_r in Hx2.
    apply andb_true_iff in Hx2 as [Hs Hd]. repeat split; trivial.
    intros ->. rewrite path_eqb_refl in Hd. discriminate. }
  destruct (removeAll_spec N ta) as (g & E & Hg & Hgone).
  { unfold N. rewrite <- Hca. apply select_sorted. }
  { intros x Hx. destruct (HN x Hx) as (Hs & _ & Hx1). split; trivial.
    apply same_parent_removelast in Hs. tauto. }
  set (tR := fst (removeAll N ta)) in *. set (r := snd (removeAll N ta)) in *.
  assert (Hkeep : forall q, (forall x, In x N -> is_prefix x q = false) -> r q <> None).
  { intros q Hq Hr. apply Hgone in Hr as (x & Hx & Hp). rewrite (Hq x Hx) in Hp.
    discriminate. }
  assert (Hrel : r el <> None).
  { apply Hkeep. intros x Hx. destruct (HN x Hx) as (Hs & Hd & _).
    destruct (is_prefix x el) eqn:Ep; trivial.
    destruct (Hd (sibling_not_below _ _ Hs Ep)). }
  destruct (r el) as [el'|] eqn:Eel; [clear Hrel|tauto].
  assert (HrP : r P = Some (removelast el')) by (apply (ed_parent _ _ _ _ E _ _ Eel Hel)).
  assert (Hel' : el' <> []).
  { intros ->. apply Hel. apply (ed_nonempty _ _ _ _ E _ _ Eel). trivial. }
  assert (Hin' : In el' (subpaths tR)) by (apply (ed_elem _ _ _ _ E _ _ Eel); trivial).
  assert (Hvac : forall sel q', In q' (subpaths tR) -> g q' = None ->
                                matches tR sel q' = false).
  { intros sel q' _ Hq. destruct (Hg q' Hq). }
  assert (Hw : wrap tR el' = moved r (wrap ta el))
    by (apply (wrap_edit _ _ _ _ E); trivial).
  assert (HoR : others tR el' = moved r Sib).
  { unfold others, cellOf at 1. rewrite (wrap_elem tR el' Hin'), (parent_any tR el' Hin' Hel').
    assert (EP : [removelast el'] = moved r [P]) by (simpl; rewrite HrP; trivial).
    rewrite EP, (siblings_edit_kept ta tR r g E _ (Hvac _) [P]).
    - fold (cellOf ta el) in Hcell_a. unfold others in Hoa. rewrite Hcell_a in Hoa.
      rewrite Hoa. trivial.
    - intros p [<-|[]]. congruence. }
  assert (HcR : confirms tR el' = []).
  { unfold confirms. rewrite Hw, (siblings_edit_kept ta tR r g E _ (Hvac _)).
    - fold (confirms ta el). rewrite Hca. apply moved_none. intros x Hx.
      apply Hgone. exists x. split; trivial. apply is_prefix_refl.
    - rewrite (wrap_elem ta el Hina). intros p [<-|[]]. congruence. }
  assert (Hsib : forall C, In C Sib -> r C <> None).
  { intros C HC. apply Hkeep. intros x Hx. destruct (HN x Hx) as (Hs & _ & _).
    destruct (is_prefix x C) eqn:Ep; trivial. exfalso.
    unfold Sib, others in HC. rewrite Hcell in HC. fold P in HC.
    apply select_In in HC as [_ HC]. apply andb_true_iff in HC as [HC _].
    simpl in HC. rewrite orb_false_r in HC. apply andb_true_iff in HC as [HsC HdC].
    apply same_parent_removelast in Hs as (_ & Hxne & Hrx). fold P in Hrx.
    assert (HPC : is_prefix P C = true).
    { apply is_prefix_spec in Ep as [y ->]. apply is_prefix_spec.
      rewrite (split_last x Hxne), <- Hrx, <- app_assoc. eauto. }
    assert (P = C) by (apply sibling_not_above; trivial). subst C.
    rewrite path_eqb_refl in HdC. discriminate. }
  set (DFR := first (find tR (attrEnds "name" "DELETE")
                       (find tR (cls "delete-form-field")
                          (closest tR (attrHas "data-form-type") (moved r (wrap t el)))))).
  assert (EDFR : DFR = rowFieldOf tR el').
  { unfold DFR, rowFieldOf. rewrite Hw, (wrap_elem ta el Hina), (wrap_elem t el Hin).
    trivial. }
  exists el'. split; trivial. unfold toggleChecked, on.
  split; [rewrite confirms_update by apply quiet_checked; exact HcR|].
  split; [rewrite others_update by apply quiet_checked; exact HoR|].
  split; [rewrite others_update by apply quiet_checked; rewrite HoR;
          apply length_moved; exact Hsib|].
  split; [|split].
  - rewrite others_update by apply quiet_checked. rewrite HoR. intros C' HC.
    apply In_moved in HC as (C & HC & HrC).
    rewrite class_at_other by (intros d; reflexivity).
    unfold class_at. rewrite (ed_data _ _ _ _ E _ _ HrC). fold (class_at "none" ta C).
    unfold ta. rewrite class_at_remove.
    destruct (proj1 (subpaths_spec t C)) as [d Hd];
      [apply select_In in HC; tauto|].
    unfold class_at. rewrite data_at_update by apply setAttr_idem. rewrite Hd.
    cbn [option_map]. apply mem_true in HC. rewrite HC. trivial.
  - rewrite attr_at_update_other by (intros d; reflexivity).
    unfold attr_at. rewrite (ed_data _ _ _ _ E _ _ HrP). fold (attr_at "colspan" ta P).
    unfold ta. rewrite attr_at_update_other by (intros d; reflexivity).
    unfold attr_at. rewrite data_at_update by apply setAttr_idem.
    destruct (proj1 (subpaths_spec t P)) as [d ->]; [apply removelast_elem; trivial|].
    cbn [option_map]. rewrite mem_here. apply FormsetFacts.getAttr_setAttr_same.
  - intros D HD Hout.
    destruct (r D) as [D'|] eqn:ED; [|destruct (Hkeep D Hout ED)].
    exists D'. split; trivial.
    assert (HfR : rowFieldOf tR el' = [D']).
    { unfold rowFieldOf. rewrite (closest_wrap_edit ta tR r g E _ el el' Eel).
      rewrite !(find_edit ta tR r g E _ (Hvac _)).
      apply first_moved with (x := D); trivial.
      fold (rowFieldOf ta el). rewrite Hfa. exact HD. }
    split.
    + rewrite rowFieldOf_update by apply quiet_checked. exact HfR.
    + rewrite EDFR, HfR, checked_at_set, mem_here.
      unfold propChecked. fold (checked_at tR D').
      assert (Hc : checked_at tR D' = checked_at t D).
      { unfold checked_at. rewrite (ed_data _ _ _ _ E _ _ ED).
        fold (checked_at ta D). unfold ta.
        rewrite !checked_at_other by (intros d; reflexivity). trivial. }
      rewrite Hc. destruct (checked_at t D) as [c|]; trivial. cbn [option_map].
      rewrite truthy_Some. trivial.
Qed.

Lemma deleteRow_shows_row_witness :
  confirms (fst (deleteRow PageDemo.rowLink
                   (fst (deleteRow PageDemo.rowLink PageDemo.usersPage))))
    PageDemo.rowLink = [] /\
  attr_at "colspan" (fst (deleteRow PageDemo.rowLink
                            (fst (deleteRow PageDemo.rowLink PageDemo.usersPage))))
    [0; 0] = Some "1".
Proof.
  destruct (deleteRow_shows_row PageDemo.rowLink
              (fst (deleteRow PageDemo.rowLink PageDemo.usersPage)))
    as (el' & Hr & Hc & _ & _ & _ & Ha & _).
  - reflexivity.
  - vm_compute in Hr. injection Hr as <-. split; [exact Hc|exact Ha].
Defined.

End RowFacts.


(** * The filters of the search page *)

Module SearchFacts.
Import DOM JQ Sel Handlers Page DOMFacts JQFacts ClassFacts OrderFacts SpliceFacts
  RelocFacts EditFacts RemoveFacts TextFacts TrackFacts.
Import DeleteInlineFacts(children_child, at_most).

(** Whether [.hide()] has hidden the element at [p]. *)
Definition hidden_at (t : node) (p : path) : option bool :=
  option_map hidden (data_at t p).

Lemma mem_firstn (l : list path) : forall k i o,
  NoDup l -> nth_error l i = Some o -> mem o (firstn k l) = (i <? k)%nat.
Proof.
  induction l as [|a l IH]; intros k i o ND Hi; [destruct i; discriminate|].
  inversion ND as [|? ? Hn ND']; subst.
  destruct k as [|k]; [destruct i; reflexivity|].
  destruct i as [|i]; simpl in Hi.
  - injection Hi as ->. apply mem_true. simpl; auto.
  - change (S i <? S k)%nat with (i <? k)%nat. rewrite <- (IH k i o ND' Hi).
    apply eq_true_iff_eq. rewrite !mem_true. simpl. split; [|auto].
    intros [->|H]; trivial. exfalso. apply Hn. eapply nth_error_In; eauto.
Qed.

Lemma mem_skipn (l : list path) : forall k i o,
  NoDup l -> nth_error l i = Some o -> mem o (skipn k l) = (k <=? i)%nat.
Proof.
  induction l as [|a l IH]; intros k i o ND Hi; [destruct i; discriminate|].
  inversion ND as [|? ? Hn ND']; subst.
  destruct k as [|k].
  - simpl. apply mem_true. eapply nth_error_In; eauto.
  - destruct i as [|i]; simpl in Hi.
    + injection Hi as ->. simpl. apply mem_false. intros H. apply Hn.
      rewrite <- (firstn_skipn k l). apply in_or_app. auto.
    + simpl skipn. change (S k <=? S i)%nat with (k <=? i)%nat. apply IH; trivial.
Qed.

Lemma slice_front (l : list path) k : slice l 0 k = firstn k l.
Proof. unfold slice. rewrite Nat.sub_0_r. trivial. Qed.

Lemma slice_back (l : list path) k : slice l k (List.length l) = skipn k l.
Proof. unfold slice. rewrite <- length_skipn. apply firstn_all. Qed.

Lemma data_at_appendEach new (U : list path) : forall t q d,
  data_at t q = Some d -> data_at (appendEach new U t) q = Some d.
Proof.
  unfold appendEach. induction U as [|p U IH]; intros t q d Hd; simpl; trivial.
  apply IH. apply data_at_append; trivial.
Qed.

Lemma hidden_at_kept (t : node) (f : path -> option path) g t' o o' :
  edit t t' f g -> f o = Some o' -> hidden_at t' o' = hidden_at t o.
Proof. intros E H. unfold hidden_at. rewrite (ed_data _ _ _ _ E _ _ H). trivial. Qed.

Lemma hidden_at_appendEach new U t q :
  In q (subpaths t) -> hidden_at (appendEach new U t) q = hidden_at t q.
Proof.
  intros H. apply subpaths_spec in H as [d Hd]. unfold hidden_at.
  rewrite (data_at_appendEach new U t q d Hd), Hd. trivial.
Qed.

(** The options after lines 241 and 242. *)
Lemma hidden_at_sliced (opts : list path) (t : node) i o :
  NoDup opts -> nth_error opts i = Some o -> In o (subpaths t) ->
  hidden_at
    (update_all (setHidden true) (slice opts 6 (List.length opts))
       (update_all (setHidden false) (slice opts 0 5) t)) o
  = if (i <? 5)%nat then Some false
    else if (i =? 5)%nat then hidden_at t o
    else Some true.
Proof.
  intros ND Hi Hin. apply subpaths_spec in Hin as [d Hd]. unfold hidden_at.
  rewrite !data_at_update by apply setHidden_idem. rewrite Hd. cbn [option_map].
  rewrite slice_front, slice_back, (mem_firstn opts 5 i o ND Hi),
    (mem_skipn opts 6 i o ND Hi).
  destruct (Nat.ltb_spec i 5); destruct (Nat.leb_spec 6 i);
    destruct (Nat.eqb_spec i 5); trivial; lia.
Qed.

(** X20. Clearing the search box of a filter.  When the text of the box
    is empty, the handler shows the first five of the options it holds
    and hides those from the seventh on; the sixth keeps the state it
    has, whether it is shown or hidden (line 242 starts at 6, where
    line 231 starts at 5).  The options are taken to be different
    elements of the document, none of them inside a button that the
    handler takes out. *)
Theorem search_cleared_options (toLowerCase : string -> string)
    (filterOptions : list path) (target : path) (t : node) :
  toLowerCase (valAt t target) = EmptyString ->
  NoDup filterOptions ->
  (forall o, In o filterOptions -> In o (subpaths t)) ->
  (forall N o,
     In N (children t (cls "show-more")
             (closest t (tagIs "fieldset") (wrap t target))) ->
     In o filterOptions -> is_prefix N o = false) ->
  forall i o, nth_error filterOptions i = Some o ->
    exists o',
      snd (onSearchKeyup toLowerCase filterOptions target t) o = Some o' /\
      hidden_at (fst (onSearchKeyup toLowerCase filterOptions target t)) o'
      = if (i <? 5)%nat then Some false
        else if (i =? 5)%nat then hidden_at t o
        else Some true.
Proof.
  intros Hq ND Hel Hout i o Hi.
  assert (Ho : In o filterOptions) by (eapply nth_error_In; eauto).
  unfold onSearchKeyup. cbv zeta. rewrite Hq. cbn [String.eqb].
  unfold andThen, on. cbv beta.
  set (t1 := update_all (setHidden true) (slice filterOptions 6 (List.length filterOptions))
               (update_all (setHidden false) (slice filterOptions 0 5) t)).
  assert (Hsub : subpaths t1 = subpaths t)
    by (unfold t1; rewrite !subpaths_update_all; trivial).
  assert (HN : children t1 (cls "show-more")
                 (closest t1 (tagIs "fieldset") (wrap t1 target))
               = children t (cls "show-more")
                   (closest t (tagIs "fieldset") (wrap t target))).
  { unfold t1. rewrite !wrap_update.
    rewrite !closest_update by (intros d; reflexivity).
    rewrite !children_update by (intros d; reflexivity). trivial. }
  rewrite HN.
  set (N := children t (cls "show-more")
              (closest t (tagIs "fieldset") (wrap t target))) in *.
  destruct (removeAll_spec N t1) as (g & E & Hg & Hgone).
  { apply select_sorted. }
  { intros x Hx. split.
    - rewrite Hsub. apply select_In in Hx. tauto.
    - apply children_child in Hx as (p & _ & Hc). apply child_of_spec in Hc. tauto. }
  destruct (removeAll N t1) as [t2 r] eqn:ER. cbn [fst snd] in *.
  destruct (r o) as [o'|] eqn:Eo.
  - exists o'. split; trivial.
    rewrite hidden_at_appendEach
      by (apply (ed_elem _ _ _ _ E _ _ Eo); rewrite Hsub; auto).
    rewrite (hidden_at_kept _ _ _ _ _ _ E Eo).
    apply hidden_at_sliced; auto.
  - exfalso. apply Hgone in Eo as (x & Hx & Hp). rewrite (Hout x o Hx Ho) in Hp.
    discriminate.
Qed.

Lemma search_cleared_options_witness :
  exists o',
    snd (onSearchKeyup PageDemo.asciiLower
           (filterOptionsOf PageDemo.filterPage PageDemo.searchBox)
           PageDemo.searchBox PageDemo.filterPage) [6] = Some o' /\
    hidden_at (fst (onSearchKeyup PageDemo.asciiLower
                      (filterOptionsOf PageDemo.filterPage PageDemo.searchBox)
                      PageDemo.searchBox PageDemo.filterPage)) o' = Some false.
Proof.
  apply (search_cleared_options PageDemo.asciiLower
           (filterOptionsOf PageDemo.filterPage PageDemo.searchBox)
           PageDemo.searchBox PageDemo.filterPage) with (i := 5).
  - reflexivity.
  - apply NoDup_select.
  - intros o Ho. apply select_In in Ho. tauto.
  - intros N o HN Ho. vm_compute in HN. destruct HN as [<-|[]].
    vm_compute in Ho. repeat (destruct Ho as [<-|Ho]; [reflexivity|]). destruct Ho.
  - reflexivity.
Defined.

(** ** The filter lists *)

Definition linksOf (t : node) (p : path) : list path := children t (tagIs "a") [p].

(** Whether the loop hides [o] when it comes to the list [p]. *)
Definition hides (t : node) (o p : path) : bool :=
  (5 <? List.length (linksOf t p))%nat && mem o (skipn 5 (linksOf t p)).

Lemma showAll_no_link n : nowhere (tagIs "a") [showAll n] = true.
Proof. reflexivity. Qed.

(** One list. *)
Lemma initFilterList_step p t :
  (forall q, In q (subpaths t) -> In q (subpaths (initFilterList p t))) /\
  (forall p0, In p0 (subpaths t) -> linksOf (initFilterList p t) p0 = linksOf t p0) /\
  (forall o, In o (subpaths t) ->
     hidden_at (initFilterList p t) o
     = if hides t o p then Some true else hidden_at t o).
Proof.
  unfold initFilterList, hides, on. cbv beta zeta. fold (linksOf t p).
  destruct (5 <? List.length (linksOf t p))%nat; [|auto].
  rewrite slice_back.
  set (t1 := update_all (setHidden true) (skipn 5 (linksOf t p)) t).
  assert (Hsub : subpaths t1 = subpaths t) by apply subpaths_update_all.
  set (new := [showAll (List.length (children t1 (tagIs "a") [p]))]).
  pose proof (append_edit new p t1) as E.
  assert (Hold : forall q, In q (subpaths t) ->
            reloc (List.length (kids_at t1 p)) 0 (List.length new) p q = Some q).
  { intros q Hq. rewrite <- Hsub in Hq. apply subpaths_spec in Hq as [d Hd].
    eapply reloc_append; eauto. }
  split; [|split].
  - intros q Hq. apply (ed_elem _ _ _ _ E q q (Hold q Hq)). rewrite Hsub. trivial.
  - intros p0 Hp0. unfold linksOf.
    assert (E0 : [p0] = moved (reloc (List.length (kids_at t1 p)) 0 (List.length new) p)
                          [p0])
      by (unfold moved; cbn [flat_map]; rewrite (Hold p0 Hp0); trivial).
    rewrite E0 at 1. rewrite (children_edit _ _ _ _ E (tagIs "a")).
    + rewrite moved_same.
      * unfold t1. apply children_update. intros d; reflexivity.
      * intros c Hc. apply Hold. rewrite <- Hsub. apply select_In in Hc. tauto.
    + intros q' Hq Hg.
      apply (fresh_no_match (tagIs "a") t1 p (List.length (kids_at t1 p)) 0 new q'
               (le_n _) (showAll_no_link _) Hq Hg).
  - intros o Ho. pose proof Ho as Ho1. rewrite <- Hsub in Ho1.
    apply subpaths_spec in Ho1 as [d Hd].
    assert (Hh : hidden_at (append_at new p t1) o = hidden_at t1 o).
    { unfold hidden_at. rewrite (data_at_append new p t1 o d Hd), Hd. trivial. }
    rewrite Hh. unfold hidden_at, t1. rewrite data_at_update by apply setHidden_idem.
    apply subpaths_spec in Ho as [d0 ->]. cbn [option_map].
    destruct (mem o _); trivial.
Qed.

(** The lists one after the other. *)
Lemma initFilterLists_loop t : forall L t',
  (forall p, In p L -> In p (subpaths t)) ->
  (forall q, In q (subpaths t) -> In q (subpaths t')) ->
  (forall p0, In p0 (subpaths t) -> linksOf t' p0 = linksOf t p0) ->
  forall o, In o (subpaths t) ->
    hidden_at (fold_left (fun t this => initFilterList this t) L t') o
    = if existsb (hides t o) L then Some true else hidden_at t' o.
Proof.
  induction L as [|p L IH]; intros t' HL H1 H3 o Ho; [reflexivity|].
  destruct (initFilterList_step p t') as (S1 & S3 & S5).
  simpl fold_left. rewrite IH; auto.
  - simpl existsb. rewrite (S5 o (H1 o Ho)). unfold hides at 2 3.
    rewrite (H3 p) by (apply HL; simpl; auto). fold (hides t o p).
    destruct (hides t o p), (existsb (hides t o) L); trivial.
  - intros p0 Hp0. apply HL. simpl; auto.
  - intros p0 Hp0. rewrite S3; auto.
Qed.

(** X21. The filter lists when the page is ready.  For a link [o], the
    [i]-th [a] child of an element [p] (counted from 0): the loop of
    lines 229-234 hides it when [p] is a [.filter-list] with more than
    five links and [i] is at least 5, and leaves it as it is otherwise;
    the buttons that the loop puts into earlier lists change nothing of
    this.  So the sixth link is hidden here, where the handler of the
    search box leaves it alone. *)
Theorem initFilterLists_hides (t : node) (p : path) (i : nat) (o : path) :
  nth_error (linksOf t p) i = Some o ->
  hidden_at (initFilterLists t) o
  = if mem p (query t (cls "filter-list"))
       && (5 <? List.length (linksOf t p))%nat && (5 <=? i)%nat
    then Some true else hidden_at t o.
Proof.
  intros Hi.
  assert (Ho : In o (linksOf t p)) by (eapply nth_error_In; eauto).
  assert (Hin : In o (subpaths t)) by (apply select_In in Ho; tauto).
  assert (Hpar : removelast o = p).
  { apply children_child in Ho as (x & [<-|[]] & Hc). apply child_of_spec in Hc. tauto. }
  assert (Hc : existsb (hides t o) (query t (cls "filter-list"))
               = mem p (query t (cls "filter-list"))
                 && (5 <? List.length (linksOf t p))%nat && (5 <=? i)%nat).
  { apply eq_true_iff_eq. rewrite existsb_exists, !andb_true_iff, mem_true. split.
    - intros (p' & Hp' & H). unfold hides in H. apply andb_true_iff in H as [Hn Hm].
      assert (p' = p).
      { apply mem_true in Hm.
        assert (Hc : In o (linksOf t p'))
          by (rewrite <- (firstn_skipn 5 (linksOf t p')); apply in_or_app; auto).
        apply children_child in Hc as (x & [<-|[]] & Hc).
        apply child_of_spec in Hc. rewrite <- Hpar. symmetry. tauto. }
      subst p'. rewrite (mem_skipn (linksOf t p) 5 i o (NoDup_select _ _) Hi) in Hm. tauto.
    - intros [[Hp Hn] Hm]. exists p. split; trivial. unfold hides.
      rewrite Hn, (mem_skipn (linksOf t p) 5 i o (NoDup_select _ _) Hi). trivial. }
  unfold initFilterLists.
  rewrite (initFilterLists_loop t (query t (cls "filter-list")) t); auto.
  - rewrite Hc. trivial.
  - intros q Hq. apply select_In in Hq. tauto.
Qed.

Lemma initFilterLists_hides_witness :
  hidden_at (initFilterLists PageDemo.freshFilter) [5] = Some true.
Proof.
  apply (initFilterLists_hides PageDemo.freshFilter [] 5 [5]). reflexivity.
Defined.

End SearchFacts.
